(** * Blockly connection graph protocol (core/connection.js)

    A shallow embedding of [Blockly.Connection]: connections and blocks live
    in an arena (finite maps keyed by identifiers), every method becomes a
    state-passing function returning a [result], and the re-entrant calls
    (connect -> connect_ -> disconnect -> respawnShadow_ -> connect ...) are
    one mutual fixpoint over a fuel argument. *)

From stdpp Require Import gmap list strings.

Set Default Proof Using "Type".

(** ** Data model *)

(** [Blockly.INPUT_VALUE], [Blockly.OUTPUT_VALUE], [Blockly.NEXT_STATEMENT],
    [Blockly.PREVIOUS_STATEMENT]: the four values of [Connection.type]. *)
Inductive ConnType :=
  | INPUT_VALUE
  | OUTPUT_VALUE
  | NEXT_STATEMENT
  | PREVIOUS_STATEMENT.

#[global] Instance ConnType_eq_dec : EqDecision ConnType.
Proof. solve_decision. Defined.

Abbreviation ConnId := nat (only parsing).
Abbreviation BlockId := nat (only parsing).
Abbreviation Workspace := nat (only parsing).
Abbreviation GroupId := nat (only parsing).

(** The inferior connection a serialised block has: a block is an expression
    (output), a statement (previous), or has neither. *)
Inductive DomPlug :=
  | PlugNone
  | PlugOutput
  | PlugPrevious.

#[global] Instance DomPlug_eq_dec : EqDecision DomPlug.
Proof. solve_decision. Defined.

(** The shadow DOM stored on a connection.  The core treats it as an opaque
    blob; the model keeps what materialisation needs: the inferior connection
    of the serialised block, whether it has a next connection, and its
    serialised field values. *)
Record Dom := mkDom {
  dom_plug : DomPlug;
  dom_next : bool;
  dom_data : nat
}.

#[global] Instance Dom_eq_dec : EqDecision Dom.
Proof. solve_decision. Defined.

(** [Blockly.Connection]: the fields of the constructor and of the prototype
    (the rendering coordinates x and y play no part in the protocol). *)
Record Connection := mkConnection {
  sourceBlock_ : BlockId;
  type : ConnType;
  targetConnection : option ConnId;
  disposed : bool;
  check_ : option (list string);
  shadowDom_ : option Dom
}.

(** The fields of [Blockly.Block] that connection.js reads or writes.
    [inputList] keeps, for every input, its [connection] field. *)
Record Block := mkBlock {
  outputConnection : option ConnId;
  previousConnection : option ConnId;
  nextConnection : option ConnId;
  inputList : list (option ConnId);
  workspace : option Workspace;
  parentBlock_ : option BlockId;
  isShadow : bool;
  blockData : nat
}.

(** A [Blockly.Events.BlockMove]: the block, the group it was created in,
    the parent before (constructor) and after ([recordNew]). *)
Record BlockMove := mkBlockMove {
  ev_block : BlockId;
  ev_group : option GroupId;
  ev_oldParent : option BlockId;
  ev_newParent : option BlockId
}.

(** One call of [Blockly.Events.setGroup]. *)
Inductive GroupOp :=
  | GroupOpen (g : GroupId)
  | GroupClose.

(** [Blockly.Events]: the current group ([None] is the empty string), the
    enabled and recordUndo flags, the fired events and the history of
    [setGroup] calls, both newest first. *)
Record Events := mkEvents {
  group : option GroupId;
  enabled : bool;
  recordUndo : bool;
  fired : list BlockMove;
  groupOps : list GroupOp;
  uid : nat
}.

(** A pending [setTimeout] callback of [connect_] (the deferred bump). *)
Record Bump := mkBump {
  bump_orphan : BlockId;
  bump_parentConnection : ConnId;
  bump_group : option GroupId
}.

Record State := mkState {
  conns : gmap nat Connection;
  blocks : gmap nat Block;
  events : Events;
  timers : list Bump
}.

(** Thrown errors, named after the message of the [Error] in the source;
    [TypeError] is a property access through null (or through a reference
    that is not in the arena). *)
Inductive Error :=
  | OrphanNoOutput
  | OrphanNoPrevious
  | NullConnections
  | SourceNotConnected
  | TargetNotConnected
  | ChildNoOutputOrPrevious
  | TypeError.

#[global] Instance Error_eq_dec : EqDecision Error.
Proof. solve_decision. Defined.

(** The two fatal classes of the error taxonomy. *)
Definition isProtocolViolation (e : Error) : bool :=
  match e with
  | OrphanNoOutput | OrphanNoPrevious | NullConnections
  | TargetNotConnected | ChildNoOutputOrPrevious => true
  | SourceNotConnected | TypeError => false
  end.

Definition isNotConnected (e : Error) : bool :=
  match e with SourceNotConnected => true | _ => false end.

Inductive result (A : Type) :=
  | Ok (a : A)
  | Throw (e : Error)
  | OutOfFuel.
Arguments Ok {A} a.
Arguments Throw {A} e.
Arguments OutOfFuel {A}.

#[global] Instance result_ret : MRet result := fun A a => Ok a.
#[global] Instance result_bind : MBind result := fun A B k m =>
  match m with
  | Ok a => k a
  | Throw e => Throw e
  | OutOfFuel => OutOfFuel
  end.

Definition orThrow {A} (e : Error) (o : option A) : result A :=
  match o with Some a => Ok a | None => Throw e end.

(** ** Field access and update *)

Definition getConn (s : State) (c : ConnId) : result Connection :=
  orThrow TypeError (conns s !! c).

Definition getBlock (s : State) (b : BlockId) : result Block :=
  orThrow TypeError (blocks s !! b).

Definition updConn (c : ConnId) (f : Connection -> Connection) (s : State) : State :=
  mkState (alter f c (conns s)) (blocks s) (events s) (timers s).

Definition updBlock (b : BlockId) (f : Block -> Block) (s : State) : State :=
  mkState (conns s) (alter f b (blocks s)) (events s) (timers s).

Definition updEvents (f : Events -> Events) (s : State) : State :=
  mkState (conns s) (blocks s) (f (events s)) (timers s).

(** Record updates, one per mutable field. *)
Definition withTarget (t : option ConnId) (cn : Connection) : Connection :=
  mkConnection (sourceBlock_ cn) (type cn) t (disposed cn) (check_ cn)
    (shadowDom_ cn).

Definition withDisposed (d : bool) (cn : Connection) : Connection :=
  mkConnection (sourceBlock_ cn) (type cn) (targetConnection cn) d (check_ cn)
    (shadowDom_ cn).

Definition withCheck (k : option (list string)) (cn : Connection) : Connection :=
  mkConnection (sourceBlock_ cn) (type cn) (targetConnection cn) (disposed cn) k
    (shadowDom_ cn).

Definition withShadowDom (d : option Dom) (cn : Connection) : Connection :=
  mkConnection (sourceBlock_ cn) (type cn) (targetConnection cn) (disposed cn)
    (check_ cn) d.

Definition withWorkspace (w : option Workspace) (blk : Block) : Block :=
  mkBlock (outputConnection blk) (previousConnection blk) (nextConnection blk)
    (inputList blk) w (parentBlock_ blk) (isShadow blk) (blockData blk).

Definition withParent (p : option BlockId) (blk : Block) : Block :=
  mkBlock (outputConnection blk) (previousConnection blk) (nextConnection blk)
    (inputList blk) (workspace blk) p (isShadow blk) (blockData blk).

Definition setTarget (c : ConnId) (t : option ConnId) : State -> State :=
  updConn c (withTarget t).

Definition setDisposed (c : ConnId) : State -> State :=
  updConn c (withDisposed true).

Definition setCheckField (c : ConnId) (k : option (list string)) : State -> State :=
  updConn c (withCheck k).

(** [Blockly.Connection.prototype.setShadowDom] *)
Definition setShadowDom (c : ConnId) (d : option Dom) : State -> State :=
  updConn c (withShadowDom d).

Definition setWorkspace (b : BlockId) (w : option Workspace) : State -> State :=
  updBlock b (withWorkspace w).

(** Modelled from the spec: [Block.setParent(block|none)], which is not in
    connection.js; it records the new parent link of the block. *)
Definition setParent (b : BlockId) (p : option BlockId) : State -> State :=
  updBlock b (withParent p).

(** The inferior connection of a block: its output connection or, for a
    block without one, its previous connection (the order in which
    [respawnShadow_] and the bump callback look for it). *)
Definition plugOf (blk : Block) : option ConnId :=
  match outputConnection blk, previousConnection blk with
  | Some o, _ => Some o
  | None, Some p => Some p
  | None, None => None
  end.

(** [Blockly.Connection.prototype.isSuperior] *)
Definition isSuperior (cn : Connection) : bool :=
  bool_decide (type cn = INPUT_VALUE) || bool_decide (type cn = NEXT_STATEMENT).

(** [Blockly.Connection.prototype.isConnected] *)
Definition isConnected (cn : Connection) : bool :=
  match targetConnection cn with Some _ => true | None => false end.

(** [Blockly.Connection.prototype.getShadowDom] *)
Definition getShadowDom (cn : Connection) : option Dom := shadowDom_ cn.

(** [Blockly.Connection.prototype.getCheck] *)
Definition getCheck (cn : Connection) : option (list string) := check_ cn.

(** [Blockly.Connection.prototype.targetBlock] *)
Definition targetBlock (s : State) (c : ConnId) : result (option BlockId) :=
  cn ← getConn s c;
  match targetConnection cn with
  | Some t => tn ← getConn s t; Ok (Some (sourceBlock_ tn))
  | None => Ok None
  end.

(** [Blockly.Connection.prototype.getConnectionChecker]: the checker of the
    source block's workspace; a block without workspace has none. *)
Definition getConnectionChecker (s : State) (c : ConnId) : result Workspace :=
  cn ← getConn s c;
  blk ← getBlock s (sourceBlock_ cn);
  orThrow TypeError (workspace blk).

(** [Blockly.Connection.prototype.neighbours]: headless connections have no
    neighbours. *)
Definition neighbours (_maxLimit : nat) : list ConnId := [].

(** The loop of [Blockly.Connection.prototype.getParentInput] over
    [block.inputList], from index [idx]. *)
Fixpoint parentInputLoop (this : ConnId) (inputs : list (option ConnId))
    (idx : nat) : option nat :=
  match inputs with
  | [] => None
  | connection :: rest =>
      if bool_decide (connection = Some this) then Some idx
      else parentInputLoop this rest (S idx)
  end.

(** [Blockly.Connection.prototype.getParentInput]: the input is given by
    its index in [inputList]. *)
Definition getParentInput (s : State) (this : ConnId) : result (option nat) :=
  cn ← getConn s this;
  block ← getBlock s (sourceBlock_ cn);
  Ok (parentInputLoop this (inputList block) 0).

(** ** The event recorder *)

(** Modelled from the spec: [Events.setGroup(true)], which is not in
    connection.js; it starts a group under a newly generated identifier. *)
Definition setGroupTrue : State -> State :=
  updEvents (fun e => mkEvents (Some (uid e)) (enabled e) (recordUndo e)
                        (fired e) (GroupOpen (uid e) :: groupOps e) (S (uid e))).

(** Modelled from the spec: [Events.setGroup(false)] closes the group. *)
Definition setGroupFalse : State -> State :=
  updEvents (fun e => mkEvents None (enabled e) (recordUndo e)
                        (fired e) (GroupClose :: groupOps e) (uid e)).

(** [new Blockly.Events.BlockMove(block)] when events are enabled. *)
Definition newBlockMove (s : State) (b : BlockId) : option BlockMove :=
  if enabled (events s) then
    Some (mkBlockMove b (group (events s))
            (blk ← blocks s !! b; parentBlock_ blk) None)
  else None.

(** [event.recordNew(); Blockly.Events.fire(event)] for an event that was
    constructed. *)
Definition fireMove (event : option BlockMove) (s : State) : State :=
  match event with
  | Some ev =>
      let ev' := mkBlockMove (ev_block ev) (ev_group ev) (ev_oldParent ev)
                   (blk ← blocks s !! ev_block ev; parentBlock_ blk) in
      updEvents (fun e => mkEvents (group e) (enabled e) (recordUndo e)
                            (ev' :: fired e) (groupOps e) (uid e)) s
  | None => s
  end.

(** [setTimeout(function() {...}, Blockly.BUMP_DELAY)] *)
Definition addTimer (t : Bump) (s : State) : State :=
  mkState (conns s) (blocks s) (events s) (t :: timers s).

(** ** Serialisation of shadow blocks *)

(** Modelled from the spec: [serializeBlock(block) -> template]
    ([Blockly.Xml.blockToDom]), which is not in connection.js. *)
Definition blockToDom (s : State) (b : BlockId) : Dom :=
  match blocks s !! b with
  | Some blk =>
      mkDom (match outputConnection blk, previousConnection blk with
             | Some _, _ => PlugOutput
             | None, Some _ => PlugPrevious
             | None, None => PlugNone
             end)
        (bool_decide (is_Some (nextConnection blk)))
        (blockData blk)
  | None => mkDom PlugNone false 0
  end.

Definition freshConn (s : State) : ConnId := fresh (dom (conns s)).
Definition freshBlock (s : State) : BlockId := fresh (dom (blocks s)).

(** Allocate a connection of block [b] when [want] holds. *)
Definition allocConn (want : bool) (b : BlockId) (ty : ConnType)
    (s : State) : option ConnId * State :=
  if want then
    let c := freshConn s in
    (Some c, mkState (<[c := mkConnection b ty None false None None]> (conns s))
               (blocks s) (events s) (timers s))
  else (None, s).

(** Modelled from the spec: [materialize(template, workspace) -> block]
    ([Blockly.Xml.domToBlock]), which is not in connection.js.  A new
    placeholder block with new, unlinked connections, in [ws]. *)
Definition domToBlock (d : Dom) (ws : Workspace) (s : State) : State * BlockId :=
  let b := freshBlock s in
  let '(o, s1) := allocConn (bool_decide (dom_plug d = PlugOutput)) b
                    OUTPUT_VALUE s in
  let '(p, s2) := allocConn (bool_decide (dom_plug d = PlugPrevious)) b
                    PREVIOUS_STATEMENT s1 in
  let '(n, s3) := allocConn (dom_next d) b NEXT_STATEMENT s2 in
  (mkState (conns s3)
     (<[b := mkBlock o p n [] (Some ws) None true (dom_data d)]> (blocks s3))
     (events s3) (timers s3), b).

(** ** The protocol *)

Section Protocol.

(** The compatibility checker of a workspace,
    [workspace.connectionChecker.canConnect(a, b, isDragging)].  It is an
    external capability: the protocol is parametric in it. *)
Variable canConnect : Workspace -> State -> ConnId -> ConnId -> bool -> bool.

(** [Blockly.Connection.connectReciprocally_] *)
Definition connectReciprocally_ (first second : option ConnId) (s : State)
    : result State :=
  match first, second with
  | Some f, Some g => Ok (setTarget g (Some f) (setTarget f (Some g) s))
  | _, _ => Throw NullConnections
  end.

(** The loop of [Blockly.Connection.singleConnection_] over [block.inputList];
    [connection] is the loop's variable of that name. *)
Fixpoint singleConnectionLoop (s : State) (output : option ConnId)
    (inputs : list (option ConnId)) (connection : option ConnId)
    : result (option ConnId) :=
  match inputs with
  | [] => Ok connection
  | thisConnection :: rest =>
      out ← orThrow TypeError output;
      typeChecker ← getConnectionChecker s out;
      accepts ← match thisConnection with
                | Some tc =>
                    tcn ← getConn s tc;
                    Ok (bool_decide (type tcn = INPUT_VALUE)
                        && canConnect typeChecker s out tc false)
                | None => Ok false
                end;
      if accepts : bool then
        match connection with
        | Some _ => Ok None
        | None => singleConnectionLoop s output rest thisConnection
        end
      else singleConnectionLoop s output rest connection
  end.

(** [Blockly.Connection.singleConnection_] *)
Definition singleConnection_ (s : State) (block orphanBlock : BlockId)
    : result (option ConnId) :=
  ob ← getBlock s orphanBlock;
  blk ← getBlock s block;
  singleConnectionLoop s (outputConnection ob) (inputList blk) None.

(** [Blockly.Connection.lastConnectionInRow]; the while loop runs on fuel. *)
Fixpoint lastConnectionInRow (fuel : nat) (s : State)
    (startBlock orphanBlock : BlockId) : result (option ConnId) :=
  match fuel with
  | 0 => OutOfFuel
  | S f =>
      connection ← singleConnection_ s startBlock orphanBlock;
      match connection with
      | None => Ok None
      | Some c =>
          newBlock ← targetBlock s c;
          match newBlock with
          | None => Ok (Some c)
          | Some nb =>
              blk ← getBlock s nb;
              if isShadow blk then Ok (Some c)
              else lastConnectionInRow f s nb orphanBlock
          end
      end
  end.

(** The walk of [connect_] down the next-statement chain of the inserted
    block (the while loop of the NEXT_STATEMENT branch): the next connection
    at which the walk breaks, or [None] when it reaches a block without one. *)
Fixpoint lastNextConnection (fuel : nat) (s : State) (newBlock : BlockId)
    : result (option ConnId) :=
  match fuel with
  | 0 => OutOfFuel
  | S f =>
      blk ← getBlock s newBlock;
      match nextConnection blk with
      | None => Ok None
      | Some n =>
          nextBlock ← targetBlock s n;
          match nextBlock with
          | Some nb =>
              nblk ← getBlock s nb;
              if isShadow nblk then Ok (Some n)
              else lastNextConnection f s nb
          | None => Ok (Some n)
          end
      end
  end.

(** [Blockly.Connection.prototype.disconnectInternal_] *)
Definition disconnectInternal_ (this : ConnId) (parentBlock childBlock : BlockId)
    (s : State) : result State :=
  let event := newBlockMove s childBlock in
  cn ← getConn s this;
  otherConnection ← orThrow TypeError (targetConnection cn);
  _ ← getConn s otherConnection;
  let s1 := setTarget otherConnection None s in
  let s2 := setTarget this None s1 in
  let s3 := setParent childBlock None s2 in
  Ok (fireMove event s3).

(** Run [body] once per element, threading the state. *)
Fixpoint forEach {A} (body : A -> State -> result State) (l : list A)
    (s : State) : result State :=
  match l with
  | [] => Ok s
  | a :: l' => s' ← body a s; forEach body l' s'
  end.

(** The connections of a block, inputs first. *)
Definition blockConnections (blk : Block) : list ConnId :=
  omap id (inputList blk) ++
  omap id [nextConnection blk; previousConnection blk; outputConnection blk].

(** The re-entrant methods.  [fuel] bounds the depth of the calls. *)
Fixpoint connect (fuel : nat) (this otherConnection : ConnId) (s : State)
    {struct fuel} : result State :=
  match fuel with
  | 0 => OutOfFuel
  | S f =>
      cn ← getConn s this;
      if bool_decide (targetConnection cn = Some otherConnection) then Ok s
      else
        checker ← getConnectionChecker s this;
        if canConnect checker s this otherConnection false then
          let eventGroup := group (events s) in
          let s1 := if eventGroup is Some _ then s else setGroupTrue s in
          s2 ← (if isSuperior cn then connect_ f this otherConnection s1
                else connect_ f otherConnection this s1);
          Ok (if eventGroup is Some _ then s2 else setGroupFalse s2)
        else Ok s
  end

(** [Blockly.Connection.prototype.connect_]: [parentConnection] is [this]. *)
with connect_ (fuel : nat) (parentConnection childConnection : ConnId)
    (s : State) {struct fuel} : result State :=
  match fuel with
  | 0 => OutOfFuel
  | S f =>
      pc ← getConn s parentConnection;
      cc ← getConn s childConnection;
      let parentBlock := sourceBlock_ pc in
      let childBlock := sourceBlock_ cc in
      s ← (if isConnected cc then disconnect f childConnection s else Ok s);
      pc ← getConn s parentConnection;
      s ← (if isConnected pc then
             orphanBlock ← targetBlock s parentConnection;
             orphanBlock ← orThrow TypeError orphanBlock;
             let shadowDom := getShadowDom pc in
             let s := setShadowDom parentConnection None s in
             ob ← getBlock s orphanBlock;
             '(orphan, shadowDom, s) ←
               (if isShadow ob then
                  let shadowDom := Some (blockToDom s orphanBlock) in
                  s ← blockDispose f orphanBlock s;
                  Ok (None, shadowDom, s)
                else if bool_decide (type pc = INPUT_VALUE) then
                  output ← orThrow OrphanNoOutput (outputConnection ob);
                  connection ← lastConnectionInRow f s childBlock orphanBlock;
                  match connection with
                  | Some connection =>
                      s ← connect f output connection s;
                      Ok (None, shadowDom, s)
                  | None => Ok (Some orphanBlock, shadowDom, s)
                  end
                else if bool_decide (type pc = NEXT_STATEMENT) then
                  previous ← orThrow OrphanNoPrevious (previousConnection ob);
                  next ← lastNextConnection f s childBlock;
                  match next with
                  | Some next =>
                      checker ← orThrow TypeError (workspace ob);
                      if canConnect checker s previous next false then
                        s ← connect f next previous s;
                        Ok (None, shadowDom, s)
                      else Ok (Some orphanBlock, shadowDom, s)
                  | None => Ok (Some orphanBlock, shadowDom, s)
                  end
                else Ok (Some orphanBlock, shadowDom, s));
             s ← match orphan with
                 | Some orphanBlock =>
                     s ← disconnect f parentConnection s;
                     Ok (if recordUndo (events s) then
                           addTimer (mkBump orphanBlock parentConnection
                                       (group (events s))) s
                         else s)
                 | None => Ok s
                 end;
             Ok (setShadowDom parentConnection shadowDom s)
           else Ok s);
      let event := newBlockMove s childBlock in
      s ← connectReciprocally_ (Some parentConnection) (Some childConnection) s;
      let s := setParent childBlock (Some parentBlock) s in
      Ok (fireMove event s)
  end

(** [Blockly.Connection.prototype.disconnect] *)
with disconnect (fuel : nat) (this : ConnId) (s : State) {struct fuel}
    : result State :=
  match fuel with
  | 0 => OutOfFuel
  | S f =>
      cn ← getConn s this;
      otherConnection ← orThrow SourceNotConnected (targetConnection cn);
      oc ← getConn s otherConnection;
      if bool_decide (targetConnection oc = Some this) then
        let '(parentBlock, childBlock, parentConnection) :=
          if isSuperior cn
          then (sourceBlock_ cn, sourceBlock_ oc, this)
          else (sourceBlock_ oc, sourceBlock_ cn, otherConnection) in
        let eventGroup := group (events s) in
        let s := if eventGroup is Some _ then s else setGroupTrue s in
        s ← disconnectInternal_ this parentBlock childBlock s;
        s ← respawnShadow_ f parentConnection s;
        Ok (if eventGroup is Some _ then s else setGroupFalse s)
      else Throw TargetNotConnected
  end

(** [Blockly.Connection.prototype.respawnShadow_] *)
with respawnShadow_ (fuel : nat) (this : ConnId) (s : State) {struct fuel}
    : result State :=
  match fuel with
  | 0 => OutOfFuel
  | S f =>
      cn ← getConn s this;
      pb ← getBlock s (sourceBlock_ cn);
      match workspace pb, getShadowDom cn, recordUndo (events s) with
      | Some ws, Some shadow, true =>
          let '(s, blockShadow) := domToBlock shadow ws s in
          bs ← getBlock s blockShadow;
          match outputConnection bs, previousConnection bs with
          | Some o, _ => connect f this o s
          | None, Some p => connect f this p s
          | None, None => Throw ChildNoOutputOrPrevious
          end
      | _, _, _ => Ok s
      end
  end

(** [Blockly.Connection.prototype.dispose] *)
with dispose (fuel : nat) (this : ConnId) (s : State) {struct fuel}
    : result State :=
  match fuel with
  | 0 => OutOfFuel
  | S f =>
      cn ← getConn s this;
      s ← (if isConnected cn then
             let s := setShadowDom this None s in
             tb ← targetBlock s this;
             tb ← orThrow TypeError tb;
             blk ← getBlock s tb;
             if isShadow blk then blockDispose f tb s else blockUnplug f tb s
           else Ok s);
      Ok (setDisposed this s)
  end

(** Modelled from the spec: [Block.unplug()], which is not in connection.js;
    it detaches the block from its parent by a full disconnect of its output
    connection or, for a block without one, of its previous connection. *)
with blockUnplug (fuel : nat) (b : BlockId) (s : State) {struct fuel}
    : result State :=
  match fuel with
  | 0 => OutOfFuel
  | S f =>
      blk ← getBlock s b;
      match outputConnection blk, previousConnection blk with
      | Some c, _ | None, Some c =>
          cn ← getConn s c;
          if isConnected cn then disconnect f c s else Ok s
      | None, None => Ok s
      end
  end

(** Modelled from the spec: [Block.dispose(false)], which is not in
    connection.js; it destroys the block outright: the block is unplugged,
    leaves its workspace, and each of its connections is disposed, so that
    nothing refers to it any more. *)
with blockDispose (fuel : nat) (b : BlockId) (s : State) {struct fuel}
    : result State :=
  match fuel with
  | 0 => OutOfFuel
  | S f =>
      s ← blockUnplug f b s;
      let s := setWorkspace b None s in
      blk ← getBlock s b;
      forEach (dispose f) (blockConnections blk) s
  end.

(** The [if (parentConnection.isConnected())] block of [connect_] on its
    own, for the connection [pc] read at [parentConnection]. *)
Definition orphanStep (fuel : nat) (parentConnection : ConnId)
    (childBlock : BlockId) (pc : Connection) (s : State) : result State :=
  if isConnected pc then
    orphanBlock ← targetBlock s parentConnection;
    orphanBlock ← orThrow TypeError orphanBlock;
    let shadowDom := getShadowDom pc in
    let s := setShadowDom parentConnection None s in
    ob ← getBlock s orphanBlock;
    '(orphan, shadowDom, s) ←
      (if isShadow ob then
         let shadowDom := Some (blockToDom s orphanBlock) in
         s ← blockDispose fuel orphanBlock s;
         Ok (None, shadowDom, s)
       else if bool_decide (type pc = INPUT_VALUE) then
         output ← orThrow OrphanNoOutput (outputConnection ob);
         connection ← lastConnectionInRow fuel s childBlock orphanBlock;
         match connection with
         | Some connection =>
             s ← connect fuel output connection s;
             Ok (None, shadowDom, s)
         | None => Ok (Some orphanBlock, shadowDom, s)
         end
       else if bool_decide (type pc = NEXT_STATEMENT) then
         previous ← orThrow OrphanNoPrevious (previousConnection ob);
         next ← lastNextConnection fuel s childBlock;
         match next with
         | Some next =>
             checker ← orThrow TypeError (workspace ob);
             if canConnect checker s previous next false then
               s ← connect fuel next previous s;
               Ok (None, shadowDom, s)
             else Ok (Some orphanBlock, shadowDom, s)
         | None => Ok (Some orphanBlock, shadowDom, s)
         end
       else Ok (Some orphanBlock, shadowDom, s));
    s ← match orphan with
        | Some orphanBlock =>
            s ← disconnect fuel parentConnection s;
            Ok (if recordUndo (events s) then
                  addTimer (mkBump orphanBlock parentConnection
                              (group (events s))) s
                else s)
        | None => Ok s
        end;
    Ok (setShadowDom parentConnection shadowDom s)
  else Ok s.

(** [Blockly.Connection.prototype.onCheckChanged_] *)
Definition onCheckChanged_ (fuel : nat) (this : ConnId) (s : State)
    : result State :=
  cn ← getConn s this;
  match targetConnection cn with
  | Some t =>
      checker ← getConnectionChecker s this;
      if canConnect checker s this t false then Ok s
      else
        child ← (if isSuperior cn then
                   tb ← targetBlock s this; orThrow TypeError tb
                 else Ok (sourceBlock_ cn));
        blockUnplug fuel child s
  | None => Ok s
  end.

(** The argument of [setCheck]: null, one type name, or a list of them. *)
Inductive CheckArg :=
  | CheckNull
  | CheckString (t : string)
  | CheckArray (l : list string).

(** JavaScript truthiness of the argument: null and the empty string are
    falsy, every array is truthy. *)
Definition truthy (check : CheckArg) : bool :=
  match check with
  | CheckNull => false
  | CheckString t => negb (bool_decide (t = EmptyString))
  | CheckArray _ => true
  end.

(** [if (!Array.isArray(check)) check = [check];] *)
Definition toArray (check : CheckArg) : list string :=
  match check with
  | CheckNull => []
  | CheckString t => [t]
  | CheckArray l => l
  end.

(** [Blockly.Connection.prototype.setCheck] *)
Definition setCheck (fuel : nat) (this : ConnId) (check : CheckArg) (s : State)
    : result State :=
  _ ← getConn s this;
  if truthy check then
    let s := setCheckField this (Some (toArray check)) s in
    onCheckChanged_ fuel this s
  else Ok (setCheckField this None s).

(** [Blockly.Connection.prototype.checkType] *)
Definition checkType (s : State) (this otherConnection : ConnId)
    : result bool :=
  checker ← getConnectionChecker s this;
  Ok (canConnect checker s this otherConnection false).

(** [Blockly.Connection.prototype.checkType_]: the deprecated name of
    [checkType] (it warns on the console and calls it). *)
Definition checkType_ (s : State) (this otherConnection : ConnId)
    : result bool :=
  checkType s this otherConnection.

(** [Blockly.Connection.prototype.isConnectionAllowed] *)
Definition isConnectionAllowed (s : State) (this candidate : ConnId)
    : result bool :=
  checker ← getConnectionChecker s this;
  Ok (canConnect checker s this candidate true).

(** The deferred callback of [connect_] when its timer fires;
    [onFailedConnect] is a no-op on headless connections. *)
Definition fireBump (t : Bump) (s : State) : State :=
  match blocks s !! bump_orphan t with
  | Some ob =>
      match workspace ob, parentBlock_ ob with
      | Some _, None =>
          let s := updEvents (fun e => mkEvents (bump_group t) (enabled e)
                     (recordUndo e) (fired e)
                     (match bump_group t with
                      | Some g => GroupOpen g | None => GroupClose
                      end :: groupOps e) (uid e)) s in
          setGroupFalse s
      | _, _ => s
      end
  | None => s
  end.

End Protocol.

(** ** Observations *)

(** [c.targetConnection], [c.getShadowDom()], [c.disposed], [c.getCheck()]
    and [b.getParent()], [b.workspace] read through the arena. *)
Definition target (s : State) (c : ConnId) : option ConnId :=
  cn ← conns s !! c; targetConnection cn.

Definition template (s : State) (c : ConnId) : option Dom :=
  cn ← conns s !! c; shadowDom_ cn.

Definition disposedAt (s : State) (c : ConnId) : bool :=
  match conns s !! c with Some cn => disposed cn | None => false end.

(** [c.getCheck()] *)
Definition tags (s : State) (c : ConnId) : option (list string) :=
  cn ← conns s !! c; getCheck cn.

Definition parentOf (s : State) (b : BlockId) : option BlockId :=
  blk ← blocks s !! b; parentBlock_ blk.

Definition workspaceOf (s : State) (b : BlockId) : option Workspace :=
  blk ← blocks s !! b; workspace blk.

(** Two connections target each other. *)
Definition linked (s : State) (a b : ConnId) : Prop :=
  target s a = Some b /\ target s b = Some a.

(** Strict reciprocity of the whole arena. *)
Definition reciprocal (s : State) : Prop :=
  forall a b, target s a = Some b -> target s b = Some a.

(** ** Well-formed arenas *)

(** A superior kind faces the inferior kind of the same family. *)
Definition opposite (a b : ConnType) : bool :=
  match a, b with
  | INPUT_VALUE, OUTPUT_VALUE | OUTPUT_VALUE, INPUT_VALUE
  | NEXT_STATEMENT, PREVIOUS_STATEMENT | PREVIOUS_STATEMENT, NEXT_STATEMENT => true
  | _, _ => false
  end.

(** A connection belongs to a block of the arena; an output connection is
    the output connection of its block, a previous connection is the previous
    connection of a block that has no output connection. *)
Definition connOk (s : State) (c : ConnId) (cn : Connection) : Prop :=
  match blocks s !! sourceBlock_ cn with
  | Some blk =>
      (type cn = OUTPUT_VALUE -> outputConnection blk = Some c) /\
      (type cn = PREVIOUS_STATEMENT ->
         outputConnection blk = None /\ previousConnection blk = Some c)
  | None => False
  end.

(** A link is mutual and joins connections of opposite kinds. *)
Definition linkOk (s : State) (c : ConnId) (cn : Connection) : Prop :=
  match targetConnection cn with
  | Some t =>
      match conns s !! t with
      | Some tn => targetConnection tn = Some c /\ opposite (type cn) (type tn) = true
      | None => False
      end
  | None => True
  end.

Definition WF (s : State) : Prop :=
  map_Forall (connOk s) (conns s) /\ map_Forall (linkOk s) (conns s).

#[global] Instance connOk_dec s c cn : Decision (connOk s c cn).
Proof. unfold connOk. destruct (blocks s !! sourceBlock_ cn); apply _. Defined.

#[global] Instance linkOk_dec s c cn : Decision (linkOk s c cn).
Proof.
  unfold linkOk. destruct (targetConnection cn); [|apply _].
  destruct (conns s !! _); apply _.
Defined.

#[global] Instance WF_dec s : Decision (WF s).
Proof. unfold WF. apply _. Defined.

(** ** Well-shaped blocks *)

(** A slot of block [b] is empty or holds a connection of the arena that
    belongs to [b] and has one of the [kinds] of the slot. *)
Definition slotOk (s : State) (b : BlockId) (kinds : list ConnType)
    (slot : option ConnId) : Prop :=
  match slot with
  | Some c =>
      match conns s !! c with
      | Some cn => sourceBlock_ cn = b /\ type cn ∈ kinds
      | None => False
      end
  | None => True
  end.

(** The output, previous and next connections of a block have these kinds,
    its inputs hold value or statement connections. *)
Definition blockOk (s : State) (b : BlockId) (blk : Block) : Prop :=
  slotOk s b [OUTPUT_VALUE] (outputConnection blk) /\
  slotOk s b [PREVIOUS_STATEMENT] (previousConnection blk) /\
  slotOk s b [NEXT_STATEMENT] (nextConnection blk) /\
  Forall (slotOk s b [INPUT_VALUE; NEXT_STATEMENT]) (inputList blk).

Definition Shaped (s : State) : Prop := map_Forall (blockOk s) (blocks s).

#[global] Instance slotOk_dec s b kinds slot : Decision (slotOk s b kinds slot).
Proof.
  unfold slotOk. destruct slot as [c|]; [|apply _].
  destruct (conns s !! c); apply _.
Defined.

#[global] Instance Shaped_dec s : Decision (Shaped s).
Proof. unfold Shaped, blockOk. apply _. Defined.

(** ** Assumptions on the external checker *)

(** The checker only accepts two connections of opposite kinds. *)
Definition checkerTyped
    (canConnect : Workspace -> State -> ConnId -> ConnId -> bool -> bool) : Prop :=
  forall ws s a b,
    canConnect ws s a b false = true ->
    exists ca cb, conns s !! a = Some ca /\ conns s !! b = Some cb /\
                  opposite (type ca) (type cb) = true.

(** The answer depends neither on the order of the two connections nor on
    the workspace whose checker is asked. *)
Definition checkerSymmetric
    (canConnect : Workspace -> State -> ConnId -> ConnId -> bool -> bool) : Prop :=
  forall ws ws' s a b,
    canConnect ws s a b false = canConnect ws' s b a false.

(** The answer does not depend on the disposed flags. *)
Definition checkerBlind
    (canConnect : Workspace -> State -> ConnId -> ConnId -> bool -> bool) : Prop :=
  forall ws s c a b d,
    canConnect ws (setDisposed c s) a b d = canConnect ws s a b d.

(** Every re-entrant method, run on [fuel], commutes with disposing [c]:
    started after [c] was disposed it returns what it returns otherwise,
    with [c] disposed. *)
Definition blindAt
    (canConnect : Workspace -> State -> ConnId -> ConnId -> bool -> bool)
    (c : ConnId) (fuel : nat) : Prop :=
  (forall a b s, is_Some (conns s !! c) ->
     connect canConnect fuel a b (setDisposed c s) =
     (s' ← connect canConnect fuel a b s; Ok (setDisposed c s'))) /\
  (forall a b s, is_Some (conns s !! c) ->
     connect_ canConnect fuel a b (setDisposed c s) =
     (s' ← connect_ canConnect fuel a b s; Ok (setDisposed c s'))) /\
  (forall a s, is_Some (conns s !! c) ->
     disconnect canConnect fuel a (setDisposed c s) =
     (s' ← disconnect canConnect fuel a s; Ok (setDisposed c s'))) /\
  (forall a s, is_Some (conns s !! c) ->
     respawnShadow_ canConnect fuel a (setDisposed c s) =
     (s' ← respawnShadow_ canConnect fuel a s; Ok (setDisposed c s'))) /\
  (forall a s, is_Some (conns s !! c) ->
     dispose canConnect fuel a (setDisposed c s) =
     (s' ← dispose canConnect fuel a s; Ok (setDisposed c s'))) /\
  (forall a s, is_Some (conns s !! c) ->
     blockUnplug canConnect fuel a (setDisposed c s) =
     (s' ← blockUnplug canConnect fuel a s; Ok (setDisposed c s'))) /\
  (forall a s, is_Some (conns s !! c) ->
     blockDispose canConnect fuel a (setDisposed c s) =
     (s' ← blockDispose canConnect fuel a s; Ok (setDisposed c s'))).

(** The connection read at [x] once [c] was disposed. *)
Definition markConn (c x : ConnId) (cn : Connection) : Connection :=
  if decide (c = x) then withDisposed true cn else cn.

(** A checker that accepts exactly the pairs of opposite kinds. *)
Definition kindChecker (ws : Workspace) (s : State) (a b : ConnId) (d : bool)
    : bool :=
  match conns s !! a, conns s !! b with
  | Some ca, Some cb => opposite (type ca) (type cb)
  | _, _ => false
  end.

(** A checker that accepts the pairs of opposite kinds on two different
    blocks of one workspace. *)
Definition strictChecker (ws : Workspace) (s : State) (a b : ConnId) (d : bool)
    : bool :=
  match conns s !! a, conns s !! b with
  | Some ca, Some cb =>
      opposite (type ca) (type cb) &&
      negb (bool_decide (sourceBlock_ ca = sourceBlock_ cb)) &&
      bool_decide (workspaceOf s (sourceBlock_ ca) = workspaceOf s (sourceBlock_ cb))
  | _, _ => false
  end.

(** A checker that accepts the pairs of opposite kinds whose superior
    connection is on a block without parent, other than the block of the
    inferior connection. *)
Definition rootChecker (ws : Workspace) (s : State) (a b : ConnId) (d : bool)
    : bool :=
  match conns s !! a, conns s !! b with
  | Some ca, Some cb =>
      opposite (type ca) (type cb) &&
      negb (bool_decide (sourceBlock_ ca = sourceBlock_ cb)) &&
      bool_decide (parentOf s (if isSuperior ca then sourceBlock_ ca
                               else sourceBlock_ cb) = None)
  | _, _ => false
  end.

(** A checker that refuses everything. *)
Definition refuseAll (ws : Workspace) (s : State) (a b : ConnId) (d : bool)
    : bool := false.

(** The state in which [connect_] links two free connections: the tail of
    the method from [connectReciprocally_] on. *)
Definition linkState (parentConnection childConnection : ConnId)
    (parentBlock childBlock : BlockId) (s : State) : State :=
  fireMove (newBlockMove s childBlock)
    (setParent childBlock (Some parentBlock)
       (setTarget childConnection (Some parentConnection)
          (setTarget parentConnection (Some childConnection) s))).

(** ** Relations between the state before and after a call *)

(** Every re-entrant method, run on [fuel], relates the state it starts
    from to the state it returns by [R]. *)
Definition closedAt
    (canConnect : Workspace -> State -> ConnId -> ConnId -> bool -> bool)
    (R : State -> State -> Prop) (fuel : nat) : Prop :=
  (forall a b s s', connect canConnect fuel a b s = Ok s' -> R s s') /\
  (forall a b s s', connect_ canConnect fuel a b s = Ok s' -> R s s') /\
  (forall a s s', disconnect canConnect fuel a s = Ok s' -> R s s') /\
  (forall a s s', respawnShadow_ canConnect fuel a s = Ok s' -> R s s') /\
  (forall a s s', dispose canConnect fuel a s = Ok s' -> R s s') /\
  (forall a s s', blockUnplug canConnect fuel a s = Ok s' -> R s s') /\
  (forall a s s', blockDispose canConnect fuel a s = Ok s' -> R s s').

(** What no method changes on a connection: its block, its kind and its
    compatibility tags; a set disposed flag stays set. *)
Definition connKept (cn cn' : Connection) : Prop :=
  sourceBlock_ cn' = sourceBlock_ cn /\ type cn' = type cn /\
  check_ cn' = check_ cn /\ (disposed cn = true -> disposed cn' = true).

(** What no method changes on a block: its connections, its placeholder
    flag and its field values; a block that left its workspace stays out. *)
Definition blockKept (blk blk' : Block) : Prop :=
  outputConnection blk' = outputConnection blk /\
  previousConnection blk' = previousConnection blk /\
  nextConnection blk' = nextConnection blk /\
  inputList blk' = inputList blk /\
  isShadow blk' = isShadow blk /\
  blockData blk' = blockData blk /\
  (workspace blk = None -> workspace blk' = None).

(** The arena only grows, and keeps the above. *)
Definition extends (s s' : State) : Prop :=
  (forall c cn, conns s !! c = Some cn ->
     exists cn', conns s' !! c = Some cn' /\ connKept cn cn') /\
  (forall b blk, blocks s !! b = Some blk ->
     exists blk', blocks s' !! b = Some blk' /\ blockKept blk blk').

(** The timers scheduled between [s] and [s'] are for ordinary blocks. *)
Definition bumpsOrdinary (s s' : State) : Prop :=
  extends s s' /\
  exists new, timers s' = new ++ timers s /\
    forall t, t ∈ new ->
      exists blk, blocks s' !! bump_orphan t = Some blk /\ isShadow blk = false.

(** A call that starts inside group [g] stays in it: no [setGroup] call,
    and every event it fires carries [g]. *)
Definition groupKept (s s' : State) : Prop :=
  forall g, group (events s) = Some g ->
    group (events s') = Some g /\
    groupOps (events s') = groupOps (events s) /\
    exists new, fired (events s') = new ++ fired (events s) /\
      forall e, e ∈ new -> ev_group e = Some g.

(** The connections keep their place on their blocks. *)
Definition connOkKept (s s' : State) : Prop :=
  map_Forall (connOk s) (conns s) -> map_Forall (connOk s') (conns s').

(** Two states with the same links: every connection has the same block,
    kind and target, every block the same inferior connections. *)
Definition sameLinks (s s' : State) : Prop :=
  (forall x,
     (fun cn => (sourceBlock_ cn, type cn, targetConnection cn)) <$> conns s' !! x =
     (fun cn => (sourceBlock_ cn, type cn, targetConnection cn)) <$> conns s !! x) /\
  (forall b,
     (fun blk => (outputConnection blk, previousConnection blk)) <$> blocks s' !! b =
     (fun blk => (outputConnection blk, previousConnection blk)) <$> blocks s !! b).

(** [if (!eventGroup) Blockly.Events.setGroup(true)] and its closing twin,
    for a call entered in state [s0]. *)
Definition openGroup (s0 : State) : State :=
  if group (events s0) is Some _ then s0 else setGroupTrue s0.

Definition closeGroup (s0 s : State) : State :=
  if group (events s0) is Some _ then s else setGroupFalse s.

(** The state in which [disconnectInternal_] leaves a linked pair. *)
Definition unlinkState (this otherConnection : ConnId) (childBlock : BlockId)
    (s : State) : State :=
  fireMove (newBlockMove s childBlock)
    (setParent childBlock None
       (setTarget this None (setTarget otherConnection None s))).

(** ** Tearing links down *)

(** What disconnecting and disposing may do to a connection of the arena:
    keep its target, clear it, or (after a respawn) replace a target it had
    by a connection that did not exist before; keep or clear its template. *)
Definition connTorn (s : State) (cn cn' : Connection) : Prop :=
  sourceBlock_ cn' = sourceBlock_ cn /\ type cn' = type cn /\
  (targetConnection cn' = targetConnection cn \/
   targetConnection cn' = None \/
   (is_Some (targetConnection cn) /\
    exists n, targetConnection cn' = Some n /\ conns s !! n = None)) /\
  (shadowDom_ cn' = shadowDom_ cn \/ shadowDom_ cn' = None).

(** ... and to a block: keep its parent or lose it. *)
Definition blockTorn (blk blk' : Block) : Prop :=
  parentBlock_ blk' = parentBlock_ blk \/ parentBlock_ blk' = None.

Definition teardown (s s' : State) : Prop :=
  (forall c cn, conns s !! c = Some cn ->
     exists cn', conns s' !! c = Some cn' /\ connTorn s cn cn') /\
  (forall b blk, blocks s !! b = Some blk ->
     exists blk', blocks s' !! b = Some blk' /\ blockTorn blk blk') /\
  timers s' = timers s.

(** Nothing was materialised between [s] and [s']: the arena holds the
    same connections and the same blocks. *)
Definition sameDom (s s' : State) : Prop :=
  (forall c, is_Some (conns s' !! c) <-> is_Some (conns s !! c)) /\
  (forall b, is_Some (blocks s' !! b) <-> is_Some (blocks s !! b)).

(** The connection that holds the plug of [blk], if any, has no template:
    unplugging the block respawns nothing. *)
Definition plugQuiet (s : State) (blk : Block) : Prop :=
  forall plug pn P pc,
    plugOf blk = Some plug -> conns s !! plug = Some pn ->
    targetConnection pn = Some P -> conns s !! P = Some pc ->
    shadowDom_ pc = None.

(** A connection that is superior, or free. *)
Definition disposable (s : State) (c : ConnId) : Prop :=
  exists cn, conns s !! c = Some cn /\
    (isSuperior cn = true \/ targetConnection cn = None).

(** ** Ancestry *)

(** The [n]-th ancestor of a block, following [getParent()]. *)
Fixpoint ancestor (s : State) (n : nat) (b : BlockId) : option BlockId :=
  match n with
  | 0 => Some b
  | S n' => p ← parentOf s b; ancestor s n' p
  end.

(** Following the parent links from any block terminates. *)
Definition Forest (s : State) : Prop :=
  forall b, exists n, ancestor s n b = None.

(** [a] is [b] or one of its ancestors. *)
Definition ancestorOrSelf (s : State) (a b : BlockId) : Prop :=
  exists n, ancestor s n b = Some a.

(** The parent links follow the connections: the block of a linked
    inferior connection has the block of the target as parent, and every
    parent is a block of the arena. *)
Definition parentOk (s : State) (c : ConnId) (cn : Connection) : Prop :=
  isSuperior cn = false ->
  match targetConnection cn with
  | Some t =>
      match conns s !! t with
      | Some tn => parentOf s (sourceBlock_ cn) = Some (sourceBlock_ tn)
      | None => True
      end
  | None => True
  end.

Definition parentIn (s : State) (b : BlockId) (blk : Block) : Prop :=
  match parentBlock_ blk with
  | Some p => is_Some (blocks s !! p)
  | None => True
  end.

Definition Parented (s : State) : Prop :=
  map_Forall (parentOk s) (conns s) /\ map_Forall (parentIn s) (blocks s).

#[global] Instance parentOk_dec s c cn : Decision (parentOk s c cn).
Proof.
  unfold parentOk. destruct (targetConnection cn); [|apply _].
  destruct (conns s !! _); apply _.
Defined.

#[global] Instance parentIn_dec s b blk : Decision (parentIn s b blk).
Proof. unfold parentIn. destruct (parentBlock_ blk); apply _. Defined.

#[global] Instance Parented_dec s : Decision (Parented s).
Proof. unfold Parented. apply _. Defined.

(** A checker that never accepts a connection that would put a block
    beneath itself: the block of the inferior connection is neither the
    block of the superior connection nor one of its ancestors. *)
Definition checkerAncestry
    (canConnect : Workspace -> State -> ConnId -> ConnId -> bool -> bool) : Prop :=
  forall ws s a b ca cb,
    canConnect ws s a b false = true ->
    conns s !! a = Some ca -> conns s !! b = Some cb ->
    if isSuperior ca
    then ~ ancestorOrSelf s (sourceBlock_ cb) (sourceBlock_ ca)
    else ~ ancestorOrSelf s (sourceBlock_ ca) (sourceBlock_ cb).

Definition Grove (s : State) : Prop := Parented s /\ Forest s.

(** The same blocks with the same parents. *)
Definition sameParents (s s' : State) : Prop :=
  (forall b, parentOf s' b = parentOf s b) /\
  (forall b, is_Some (blocks s' !! b) <-> is_Some (blocks s !! b)).

(** Outside of the blocks [M], every block of [s] is in [s'] and kept or
    lost its parent. *)
Definition tornOutside (M : BlockId -> Prop) (s s' : State) : Prop :=
  forall b blk, blocks s !! b = Some blk -> ~ M b ->
    exists blk', blocks s' !! b = Some blk' /\ blockTorn blk blk'.

(** ** Termination *)

(** A call that runs on fuel ends in [r] once it has enough of it: it
    returns or throws, and more fuel changes nothing. *)
Definition settles {A} (run : nat -> result A) (r : result A) : Prop :=
  r <> OutOfFuel /\ exists N, forall f, N <= f -> run f = r.

Definition halts {A} (run : nat -> result A) : Prop :=
  exists r, settles run r.

(** A call that returns once it has enough fuel. *)
Definition returns {A} (run : nat -> result A) : Prop :=
  exists a, settles run (Ok a).

(** Every block beneath [b] is within [h] generations of it. *)
Definition deep (s : State) (h : nat) (b : BlockId) : Prop :=
  forall x k, ancestor s k x = Some b -> k <= h.

(** The arena only grows and its blocks keep their shape. *)
Definition shapeKept (s s' : State) : Prop :=
  extends s s' /\ (Shaped s -> Shaped s').

(** A well-formed arena of well-shaped blocks that form a forest. *)
Definition Sound (s : State) : Prop := WF s /\ Shaped s /\ Grove s.

(** A sequence of [connect] calls, each on the fuel given. *)
Definition connectAll
    (canConnect : Workspace -> State -> ConnId -> ConnId -> bool -> bool)
    (fuel : nat) (ops : list (ConnId * ConnId)) (s : State) : result State :=
  forEach (fun op => connect canConnect fuel op.1 op.2) ops s.

(** ** Orphan resolution, as a relation *)

(** [if (Blockly.Events.recordUndo) setTimeout(...)] of [connect_]. *)
Definition bumpLater (orphanBlock : BlockId) (parentConnection : ConnId)
    (s : State) : State :=
  if recordUndo (events s)
  then addTimer (mkBump orphanBlock parentConnection (group (events s))) s
  else s.

(** The outcomes of the [if (parentConnection.isConnected())] block of
    [connect_], one constructor per path through it: [s] is the state in
    which the block is entered, the index the state in which it is left. *)
Inductive resolveOrphan
    (canConnect : Workspace -> State -> ConnId -> ConnId -> bool -> bool)
    (f : nat) (P : ConnId) (childBlock : BlockId) (s : State) : State -> Prop :=
  | ResolveFree pc :
      conns s !! P = Some pc -> targetConnection pc = None ->
      resolveOrphan canConnect f P childBlock s s
  | ResolveShadow pc xc xn ob sB :
      conns s !! P = Some pc -> targetConnection pc = Some xc ->
      conns s !! xc = Some xn -> blocks s !! sourceBlock_ xn = Some ob ->
      isShadow ob = true ->
      blockDispose canConnect f (sourceBlock_ xn) (setShadowDom P None s) = Ok sB ->
      resolveOrphan canConnect f P childBlock s
        (setShadowDom P
           (Some (blockToDom (setShadowDom P None s) (sourceBlock_ xn))) sB)
  | ResolveRehomedValue pc xc xn ob out slot sB :
      conns s !! P = Some pc -> targetConnection pc = Some xc ->
      conns s !! xc = Some xn -> blocks s !! sourceBlock_ xn = Some ob ->
      isShadow ob = false -> type pc = INPUT_VALUE ->
      outputConnection ob = Some out ->
      lastConnectionInRow canConnect f (setShadowDom P None s) childBlock
        (sourceBlock_ xn) = Ok (Some slot) ->
      connect canConnect f out slot (setShadowDom P None s) = Ok sB ->
      resolveOrphan canConnect f P childBlock s
        (setShadowDom P (shadowDom_ pc) sB)
  | ResolveRehomedNext pc xc xn ob prev slot ws sB :
      conns s !! P = Some pc -> targetConnection pc = Some xc ->
      conns s !! xc = Some xn -> blocks s !! sourceBlock_ xn = Some ob ->
      isShadow ob = false -> type pc = NEXT_STATEMENT ->
      previousConnection ob = Some prev ->
      lastNextConnection f (setShadowDom P None s) childBlock = Ok (Some slot) ->
      workspace ob = Some ws ->
      canConnect ws (setShadowDom P None s) prev slot false = true ->
      connect canConnect f slot prev (setShadowDom P None s) = Ok sB ->
      resolveOrphan canConnect f P childBlock s
        (setShadowDom P (shadowDom_ pc) sB)
  | ResolveOrphaned pc xc xn ob sB :
      conns s !! P = Some pc -> targetConnection pc = Some xc ->
      conns s !! xc = Some xn -> blocks s !! sourceBlock_ xn = Some ob ->
      isShadow ob = false ->
      ((type pc = INPUT_VALUE /\ is_Some (outputConnection ob) /\
        lastConnectionInRow canConnect f (setShadowDom P None s) childBlock
          (sourceBlock_ xn) = Ok None) \/
       (type pc = NEXT_STATEMENT /\
        exists prev, previousConnection ob = Some prev /\
          (lastNextConnection f (setShadowDom P None s) childBlock = Ok None \/
           exists slot ws,
             lastNextConnection f (setShadowDom P None s) childBlock
               = Ok (Some slot) /\
             workspace ob = Some ws /\
             canConnect ws (setShadowDom P None s) prev slot false = false)) \/
       (type pc <> INPUT_VALUE /\ type pc <> NEXT_STATEMENT)) ->
      disconnect canConnect f P (setShadowDom P None s) = Ok sB ->
      resolveOrphan canConnect f P childBlock s
        (setShadowDom P (shadowDom_ pc)
           (bumpLater (sourceBlock_ xn) P sB)).

(** A connection of kind [ty] that is in the arena and has no target. *)
Definition freeAt (s : State) (x : ConnId) (ty : ConnType) : Prop :=
  exists cx, conns s !! x = Some cx /\ targetConnection cx = None /\ type cx = ty.

Definition inferiorKind (ty : ConnType) : Prop :=
  ty = OUTPUT_VALUE \/ ty = PREVIOUS_STATEMENT.

(** A superior connection that is free or holds a placeholder: attaching to
    it displaces no ordinary block. *)
Definition occupantGone (s : State) (P : ConnId) : Prop :=
  forall pc xc, conns s !! P = Some pc -> targetConnection pc = Some xc ->
    exists xn ob, conns s !! xc = Some xn /\
      blocks s !! sourceBlock_ xn = Some ob /\ isShadow ob = true.

(** [connect] on a pair whose superior connection is free or holds a
    placeholder: attaching displaces no ordinary block. *)
Definition displacesNone (s : State) (A B : ConnId) : Prop :=
  forall ca, conns s !! A = Some ca ->
    occupantGone s (if isSuperior ca then A else B).

(** The connection that holds [C], if any, has no template: detaching [C]
    respawns nothing. *)
Definition quietChild (s : State) (C : ConnId) : Prop :=
  forall cc q cq, conns s !! C = Some cc -> targetConnection cc = Some q ->
    conns s !! q = Some cq -> shadowDom_ cq = None.

(** What [connect_] guarantees when it returns in [s'] from a well-formed
    [s]: the arena is well formed, the two connections are linked, free
    inferior connections are still free, and when no ordinary block was
    displaced every other free connection is still free, as is a
    template-less connection the child was detached from. *)
Definition attached (P C : ConnId) (s s' : State) : Prop :=
  WF s' /\ linked s' P C /\
  (forall x ty, freeAt s x ty -> inferiorKind ty -> x <> C -> freeAt s' x ty) /\
  (occupantGone s P ->
   (forall x ty, freeAt s x ty -> x <> P -> x <> C -> freeAt s' x ty) /\
   (forall q cq, target s C = Some q -> conns s !! q = Some cq ->
      shadowDom_ cq = None -> freeAt s' q (type cq))).

(** The ordinary block that a connection holds, and the blocks that
    [connect_] on [P] with the child block [cb] may give a new parent. *)
Definition occupantBlock (s : State) (P : ConnId) (b : BlockId) : Prop :=
  exists pc xc xn ob,
    conns s !! P = Some pc /\ targetConnection pc = Some xc /\
    conns s !! xc = Some xn /\ sourceBlock_ xn = b /\
    blocks s !! b = Some ob /\ isShadow ob = false.

Definition moved (s : State) (P : ConnId) (cb : BlockId) (b : BlockId) : Prop :=
  b = cb \/ occupantBlock s P b.

(** ** The search for a new home *)

(** An input that accepts the orphan's output [out]: it has a connection,
    of kind INPUT_VALUE, that the checker accepts. *)
Definition eligible
    (canConnect : Workspace -> State -> ConnId -> ConnId -> bool -> bool)
    (s : State) (ws : Workspace) (out : ConnId) (input : option ConnId) : bool :=
  match input with
  | Some tc =>
      match conns s !! tc with
      | Some tcn => bool_decide (type tcn = INPUT_VALUE)
                    && canConnect ws s out tc false
      | None => false
      end
  | None => false
  end.

(** The inputs of a block that accept the orphan's output. *)
Definition eligibleInputs
    (canConnect : Workspace -> State -> ConnId -> ConnId -> bool -> bool)
    (s : State) (block : BlockId) (ws : Workspace) (out : ConnId)
    : list (option ConnId) :=
  match blocks s !! block with
  | Some blk => List.filter (eligible canConnect s ws out) (inputList blk)
  | None => []
  end.

(** The walk of [lastConnectionInRow], as a relation: from [block], either
    the block has not exactly one eligible input and the walk fails, or its
    one eligible input is empty or holds a placeholder and is the result, or
    the walk goes on in the ordinary block that input holds. *)
Inductive rowWalk
    (canConnect : Workspace -> State -> ConnId -> ConnId -> bool -> bool)
    (s : State) (ws : Workspace) (out : ConnId)
    : BlockId -> option ConnId -> Prop :=
  | RowFail block :
      (forall c, eligibleInputs canConnect s block ws out <> [Some c]) ->
      rowWalk canConnect s ws out block None
  | RowFound block c :
      eligibleInputs canConnect s block ws out = [Some c] ->
      occupantGone s c ->
      rowWalk canConnect s ws out block (Some c)
  | RowDown block c cn t tn nb r :
      eligibleInputs canConnect s block ws out = [Some c] ->
      conns s !! c = Some cn -> targetConnection cn = Some t ->
      conns s !! t = Some tn -> blocks s !! sourceBlock_ tn = Some nb ->
      isShadow nb = false ->
      rowWalk canConnect s ws out (sourceBlock_ tn) r ->
      rowWalk canConnect s ws out block r.

(** The walk of [connect_] down the stack of the inserted block, as a
    relation: from [block], either the block has no next connection and
    the walk fails, or its next connection is empty or holds a placeholder
    and is the result, or the walk goes on in the ordinary block that
    follows. *)
Inductive stackWalk (s : State) : BlockId -> option ConnId -> Prop :=
  | StackEnd block blk :
      blocks s !! block = Some blk -> nextConnection blk = None ->
      stackWalk s block None
  | StackFound block blk n :
      blocks s !! block = Some blk -> nextConnection blk = Some n ->
      is_Some (conns s !! n) -> occupantGone s n ->
      stackWalk s block (Some n)
  | StackDown block blk n cn t tn nb r :
      blocks s !! block = Some blk -> nextConnection blk = Some n ->
      conns s !! n = Some cn -> targetConnection cn = Some t ->
      conns s !! t = Some tn -> blocks s !! sourceBlock_ tn = Some nb ->
      isShadow nb = false ->
      stackWalk s (sourceBlock_ tn) r ->
      stackWalk s block r.

(** ** What the recorder's switches turn off *)

(** With events disabled nothing is fired; the switch itself is left
    alone. *)
Definition silent (s s' : State) : Prop :=
  enabled (events s') = enabled (events s) /\
  (enabled (events s) = false -> fired (events s') = fired (events s)).

(** With undo recording off no bump is scheduled and nothing is
    materialised; the switch itself is left alone. *)
Definition unrecorded (s s' : State) : Prop :=
  recordUndo (events s') = recordUndo (events s) /\
  (recordUndo (events s) = false -> timers s' = timers s /\ sameDom s s').

(** ** Example arenas *)

Definition noEvents : Events := mkEvents None true true [] [] 0.

Definition freeConn (b : BlockId) (ty : ConnType) : Connection :=
  mkConnection b ty None false None None.

Definition linkedConn (b : BlockId) (ty : ConnType) (t : ConnId)
    (d : option Dom) : Connection :=
  mkConnection b ty (Some t) false None d.

(** A statement block 0 whose next connection 0 carries a template and holds
    the statement block 1 by its previous connection 1. *)
Definition stackState : State :=
  mkState
    (list_to_map
       [(0, linkedConn 0 NEXT_STATEMENT 1 (Some (mkDom PlugPrevious true 7)));
        (1, linkedConn 1 PREVIOUS_STATEMENT 0 None)])
    (list_to_map
       [(0, mkBlock None None (Some 0) [] (Some 0) None false 0);
        (1, mkBlock None (Some 1) None [] (Some 0) (Some 0) false 0)])
    noEvents [].

(** Two unlinked blocks: block 0 with value input 0, block 1 with output 1. *)
Definition pairState : State :=
  mkState
    (list_to_map [(0, freeConn 0 INPUT_VALUE); (1, freeConn 1 OUTPUT_VALUE)])
    (list_to_map
       [(0, mkBlock None None None [Some 0] (Some 0) None false 0);
        (1, mkBlock (Some 1) None None [] (Some 0) None false 0)])
    noEvents [].

(** Block 0 whose value input 0 holds the placeholder block 1 by its output
    connection 1, and a free block 2 with output connection 2. *)
Definition shadowState : State :=
  mkState
    (list_to_map
       [(0, linkedConn 0 INPUT_VALUE 1 None);
        (1, linkedConn 1 OUTPUT_VALUE 0 None);
        (2, freeConn 2 OUTPUT_VALUE)])
    (list_to_map
       [(0, mkBlock None None None [Some 0] (Some 0) None false 0);
        (1, mkBlock (Some 1) None None [] (Some 0) (Some 0) true 5);
        (2, mkBlock (Some 2) None None [] (Some 0) None false 0)])
    noEvents [].

(** Block 0 whose value input 0 holds the ordinary block 1 by its output
    connection 1, and a free block 2 with output connection 2 and one value
    input 3. *)
Definition rowState : State :=
  mkState
    (list_to_map
       [(0, linkedConn 0 INPUT_VALUE 1 None);
        (1, linkedConn 1 OUTPUT_VALUE 0 None);
        (2, freeConn 2 OUTPUT_VALUE);
        (3, freeConn 2 INPUT_VALUE)])
    (list_to_map
       [(0, mkBlock None None None [Some 0] (Some 0) None false 0);
        (1, mkBlock (Some 1) None None [] (Some 0) (Some 0) false 0);
        (2, mkBlock (Some 2) None None [Some 3] (Some 0) None false 0)])
    noEvents [].

(** [pairState] after both connections were disposed. *)
Definition disposedPair : State :=
  mkState
    (list_to_map
       [(0, withDisposed true (freeConn 0 INPUT_VALUE));
        (1, withDisposed true (freeConn 1 OUTPUT_VALUE))])
    (blocks pairState) noEvents [].

(** Block 0 whose value input 0 holds the ordinary block 1 by its output
    connection 1; both connections were disposed. *)
Definition disposedLink : State :=
  mkState
    (list_to_map
       [(0, withDisposed true (linkedConn 0 INPUT_VALUE 1 None));
        (1, withDisposed true (linkedConn 1 OUTPUT_VALUE 0 None))])
    (list_to_map
       [(0, mkBlock None None None [Some 0] (Some 0) None false 0);
        (1, mkBlock (Some 1) None None [] (Some 0) (Some 0) false 0)])
    noEvents [].

(** Block 0 whose value input 0 holds the ordinary block 1 by its output
    connection 1. *)
Definition valueLink : State :=
  mkState
    (list_to_map
       [(0, linkedConn 0 INPUT_VALUE 1 None);
        (1, linkedConn 1 OUTPUT_VALUE 0 None)])
    (list_to_map
       [(0, mkBlock None None None [Some 0] (Some 0) None false 0);
        (1, mkBlock (Some 1) None None [] (Some 0) (Some 0) false 0)])
    noEvents [].

(** Block 0 whose value input 0 carries a template and holds the ordinary
    block 1 by its output connection 1; the value input 2 of block 1 holds
    the ordinary block 2 by its output connection 3. *)
Definition nestState : State :=
  mkState
    (list_to_map
       [(0, linkedConn 0 INPUT_VALUE 1 (Some (mkDom PlugOutput false 9)));
        (1, linkedConn 1 OUTPUT_VALUE 0 None);
        (2, linkedConn 1 INPUT_VALUE 3 None);
        (3, linkedConn 2 OUTPUT_VALUE 2 None)])
    (list_to_map
       [(0, mkBlock None None None [Some 0] (Some 0) None false 0);
        (1, mkBlock (Some 1) None None [Some 2] (Some 0) (Some 0) false 0);
        (2, mkBlock (Some 3) None None [] (Some 0) (Some 1) false 0)])
    noEvents [].

(** Two free blocks, each with a value input and an output connection:
    block 0 with input 0 and output 1, block 1 with input 2 and output 3. *)
Definition loopState : State :=
  mkState
    (list_to_map
       [(0, freeConn 0 INPUT_VALUE); (1, freeConn 0 OUTPUT_VALUE);
        (2, freeConn 1 INPUT_VALUE); (3, freeConn 1 OUTPUT_VALUE)])
    (list_to_map
       [(0, mkBlock (Some 1) None None [Some 0] (Some 0) None false 0);
        (1, mkBlock (Some 3) None None [Some 2] (Some 0) None false 0)])
    noEvents [].

(** Block 0 whose value input 0 holds the ordinary block 1 by its output
    connection 1, and a free block 2 with output connection 2 and no
    input. *)
Definition orphanState : State :=
  mkState
    (list_to_map
       [(0, linkedConn 0 INPUT_VALUE 1 None);
        (1, linkedConn 1 OUTPUT_VALUE 0 None);
        (2, freeConn 2 OUTPUT_VALUE)])
    (list_to_map
       [(0, mkBlock None None None [Some 0] (Some 0) None false 0);
        (1, mkBlock (Some 1) None None [] (Some 0) (Some 0) false 0);
        (2, mkBlock (Some 2) None None [] (Some 0) None false 0)])
    noEvents [].

(** Block 0 whose value input 0 holds the ordinary block 1 by its output
    connection 1, and a free block 2 with the value input 2. *)
Definition moveState : State :=
  mkState
    (list_to_map
       [(0, linkedConn 0 INPUT_VALUE 1 None);
        (1, linkedConn 1 OUTPUT_VALUE 0 None);
        (2, freeConn 2 INPUT_VALUE)])
    (list_to_map
       [(0, mkBlock None None None [Some 0] (Some 0) None false 0);
        (1, mkBlock (Some 1) None None [] (Some 0) (Some 0) false 0);
        (2, mkBlock None None None [Some 2] (Some 0) None false 0)])
    noEvents [].

(** A stack of the statement blocks 0 and 1 (next connection 0 of block 0
    holds the previous connection 1 of block 1, whose next connection is
    2), and a free statement block 2 with previous connection 3 and next
    connection 4. *)
Definition insertState : State :=
  mkState
    (list_to_map
       [(0, linkedConn 0 NEXT_STATEMENT 1 None);
        (1, linkedConn 1 PREVIOUS_STATEMENT 0 None);
        (2, freeConn 1 NEXT_STATEMENT);
        (3, freeConn 2 PREVIOUS_STATEMENT);
        (4, freeConn 2 NEXT_STATEMENT)])
    (list_to_map
       [(0, mkBlock None None (Some 0) [] (Some 0) None false 0);
        (1, mkBlock None (Some 1) (Some 2) [] (Some 0) (Some 0) false 0);
        (2, mkBlock None (Some 3) (Some 4) [] (Some 0) None false 0)])
    noEvents [].

(** [stackState] with the recorder switched off: events disabled, undo
    recording off. *)
Definition mutedStack : State :=
  mkState (conns stackState) (blocks stackState)
    (mkEvents None false false [] [] 0) [].

(** * Reasoning about the protocol *)

(** ** Results *)

Lemma bind_Ok {A B} (m : result A) (k : A -> result B) b :
  (x ← m; k x) = Ok b -> exists a, m = Ok a /\ k a = Ok b.
Proof. destruct m; simpl; intros; eauto; discriminate. Qed.

Lemma bind_ret_l {A B} (a : A) (k : A -> result B) : (x ← Ok a; k x) = k a.
Proof. reflexivity. Qed.

Lemma orThrow_Ok {A} e (o : option A) a : orThrow e o = Ok a -> o = Some a.
Proof. destruct o; simpl; congruence. Qed.

Lemma getConn_Some s c cn : conns s !! c = Some cn -> getConn s c = Ok cn.
Proof. unfold getConn. intros ->. reflexivity. Qed.

Lemma getBlock_Some s b blk : blocks s !! b = Some blk -> getBlock s b = Ok blk.
Proof. unfold getBlock. intros ->. reflexivity. Qed.

Lemma newBlockMove_group s b e :
  newBlockMove s b = Some e -> ev_group e = group (events s).
Proof. unfold newBlockMove. destruct (enabled _); intros [= <-]; reflexivity. Qed.

(** Invert a run that returned [Ok]: one equation per call it made. *)
Ltac res_inv H :=
  try (
  simpl in H;
  lazymatch type of H with
  | Ok _ = Ok _ => injection H as H; simplify_eq
  | Throw _ = Ok _ => discriminate H
  | OutOfFuel = Ok _ => discriminate H
  | orThrow _ _ = Ok _ => apply orThrow_Ok in H
  | getConn _ _ = Ok _ => apply orThrow_Ok in H
  | getBlock _ _ = Ok _ => apply orThrow_Ok in H
  | mbind _ ?m = Ok _ =>
      let E := fresh "E" in
      apply bind_Ok in H; destruct H as (? & E & H);
      res_inv E; res_inv H
  | (if ?b then _ else _) = Ok _ =>
      let E := fresh "E" in destruct b eqn:E; res_inv H
  | (match ?x with _ => _ end) = Ok _ =>
      let E := fresh "E" in destruct x eqn:E; res_inv H
  | _ => idtac
  end).

(** ** The arena after a field update *)

Lemma conns_fireMove ev s : conns (fireMove ev s) = conns s.
Proof. destruct ev; reflexivity. Qed.

Lemma blocks_fireMove ev s : blocks (fireMove ev s) = blocks s.
Proof. destruct ev; reflexivity. Qed.

Lemma timers_fireMove ev s : timers (fireMove ev s) = timers s.
Proof. destruct ev; reflexivity. Qed.

Lemma events_fireMove_group ev s :
  group (events (fireMove ev s)) = group (events s).
Proof. destruct ev; reflexivity. Qed.

Lemma events_fireMove_undo ev s :
  recordUndo (events (fireMove ev s)) = recordUndo (events s).
Proof. destruct ev; reflexivity. Qed.

Lemma lookup_updConn c f s x :
  conns (updConn c f s) !! x =
  if decide (c = x) then f <$> conns s !! c else conns s !! x.
Proof. unfold updConn; simpl. apply lookup_alter. Qed.

Lemma lookup_updBlock b f s x :
  blocks (updBlock b f s) !! x =
  if decide (b = x) then f <$> blocks s !! b else blocks s !! x.
Proof. unfold updBlock; simpl. apply lookup_alter. Qed.

Lemma freshConn_None s : conns s !! freshConn s = None.
Proof. unfold freshConn. apply not_elem_of_dom. apply is_fresh. Qed.

Lemma freshBlock_None s : blocks s !! freshBlock s = None.
Proof. unfold freshBlock. apply not_elem_of_dom. apply is_fresh. Qed.

(** Materialisation only adds to the arena. *)
Lemma allocConn_conns want b ty s o s1 x cn :
  allocConn want b ty s = (o, s1) ->
  conns s !! x = Some cn -> conns s1 !! x = Some cn.
Proof.
  unfold allocConn. destruct want; intros [= <- <-] Hx; [|done].
  simpl. rewrite lookup_insert_ne; [done|].
  intros <-. rewrite freshConn_None in Hx. done.
Qed.

Lemma allocConn_rest want b ty s o s1 :
  allocConn want b ty s = (o, s1) ->
  blocks s1 = blocks s /\ events s1 = events s /\ timers s1 = timers s.
Proof. unfold allocConn. destruct want; intros [= <- <-]; done. Qed.

Lemma allocConn_new want b ty s o s1 x cn :
  allocConn want b ty s = (o, s1) ->
  conns s1 !! x = Some cn ->
  conns s !! x = Some cn \/
  (conns s !! x = None /\ o = Some x /\ cn = mkConnection b ty None false None None).
Proof.
  unfold allocConn. destruct want; intros [= <- <-]; [|by left].
  simpl. rewrite lookup_insert. case_decide as Hd.
  - intros [= <-]. subst x. right. split; [apply freshConn_None|done].
  - by left.
Qed.

Lemma allocConn_Some want b ty s c s1 :
  allocConn want b ty s = (Some c, s1) ->
  conns s !! c = None /\
  conns s1 !! c = Some (mkConnection b ty None false None None).
Proof.
  unfold allocConn. destruct want; intros [= <- <-].
  split; [apply freshConn_None|]. simpl. apply lookup_insert_eq.
Qed.

(** ** Closure: a relation kept by every field update is kept by every call *)

Section Closure.

Variable canConnect : Workspace -> State -> ConnId -> ConnId -> bool -> bool.
Variable R : State -> State -> Prop.

Hypothesis R_refl : forall s, R s s.
Hypothesis R_trans : forall s1 s2 s3, R s1 s2 -> R s2 s3 -> R s1 s3.
Hypothesis R_target : forall s c t, R s (setTarget c t s).
Hypothesis R_shadow : forall s c d, R s (setShadowDom c d s).
Hypothesis R_disposed : forall s c, R s (setDisposed c s).
Hypothesis R_parent : forall s b p, R s (setParent b p s).
Hypothesis R_workspace : forall s b, R s (setWorkspace b None s).
Hypothesis R_fire : forall s ev,
  (forall e, ev = Some e -> ev_group e = group (events s)) -> R s (fireMove ev s).
Hypothesis R_timer : forall s s' o p blk,
  blocks s !! o = Some blk -> isShadow blk = false -> R s s' ->
  R s (addTimer (mkBump o p (group (events s'))) s').
Hypothesis R_dom : forall s d ws, R s (domToBlock d ws s).1.
Hypothesis R_bracket : forall s s',
  group (events s) = None -> R (setGroupTrue s) s' -> R s (setGroupFalse s').

Ltac R_solve :=
  repeat match goal with
  | |- R ?s ?s => apply R_refl
  | H : R ?x ?y |- R _ ?y => apply (R_trans _ x _); [| exact H]
  | |- R _ (setTarget _ _ ?x) => apply (R_trans _ x _); [| apply R_target]
  | |- R _ (setShadowDom _ _ ?x) => apply (R_trans _ x _); [| apply R_shadow]
  | |- R _ (setDisposed _ ?x) => apply (R_trans _ x _); [| apply R_disposed]
  | |- R _ (setParent _ _ ?x) => apply (R_trans _ x _); [| apply R_parent]
  | |- R _ (setWorkspace _ None ?x) => apply (R_trans _ x _); [| apply R_workspace]
  | |- R _ (if ?b then _ else _) => destruct b
  | H : R ?m ?y |- R _ (addTimer _ ?y) =>
      apply (R_trans _ m _);
      [| eapply R_timer; [eassumption | eassumption | exact H]]
  | |- R _ (fireMove _ ?x) =>
      apply (R_trans _ x _);
      [| apply R_fire; intros ? ?%newBlockMove_group; assumption]
  end.

Lemma disconnectInternal__closed c pb cb s s' :
  disconnectInternal_ c pb cb s = Ok s' -> R s s'.
Proof using R_refl R_trans R_target R_parent R_fire.
  unfold disconnectInternal_. intros H. res_inv H. R_solve.
Qed.

Lemma forEach_closed {A} (body : A -> State -> result State) l :
  (forall a s s', body a s = Ok s' -> R s s') ->
  forall s s', forEach body l s = Ok s' -> R s s'.
Proof using R_refl R_trans.
  intros Hb. induction l as [|a l IH]; simpl; intros s s' H.
  - injection H as ->. apply R_refl.
  - res_inv H. eapply R_trans; eauto.
Qed.

Ltac use_IH IH :=
  destruct IH as (IHc & IHc_ & IHd & IHr & IHx & IHu & IHb);
  repeat match goal with
  | E : connect _ _ _ _ _ = Ok _ |- _ => apply IHc in E
  | E : connect_ _ _ _ _ _ = Ok _ |- _ => apply IHc_ in E
  | E : disconnect _ _ _ _ = Ok _ |- _ => apply IHd in E
  | E : respawnShadow_ _ _ _ _ = Ok _ |- _ => apply IHr in E
  | E : dispose _ _ _ _ = Ok _ |- _ => apply IHx in E
  | E : blockUnplug _ _ _ _ = Ok _ |- _ => apply IHu in E
  | E : blockDispose _ _ _ _ = Ok _ |- _ => apply IHb in E
  end.

Theorem closure f : closedAt canConnect R f.
Proof using All.
  induction f as [|f IH].
  { repeat split; intros; discriminate. }
  repeat split.
  - (* connect *)
    intros a b s s' H. simpl in H. destruct (group (events s)) eqn:Eg.
    all: res_inv H; subst; use_IH IH; R_solve.
    all: try (apply R_bracket; assumption).
  - (* connect_ *)
    intros a b s s' H. simpl in H.
    res_inv H; subst; use_IH IH; R_solve.
  - (* disconnect *)
    intros a s s' H. simpl in H. destruct (group (events s)) eqn:Eg.
    all: res_inv H; subst; use_IH IH.
    all: repeat match goal with
         | E : disconnectInternal_ _ _ _ _ = Ok _ |- _ =>
             apply disconnectInternal__closed in E
         end.
    all: try solve [R_solve].
    all: apply R_bracket; [assumption | R_solve].
  - (* respawnShadow_ *)
    intros a s s' H. simpl in H. res_inv H; subst; use_IH IH; R_solve.
    all: match goal with
         | E : domToBlock ?d ?w ?s = (?s1, _) |- R ?s ?s1 =>
             replace s1 with (domToBlock d w s).1 by (rewrite E; reflexivity);
             apply R_dom
         end.
  - (* dispose *)
    intros a s s' H. simpl in H. res_inv H; subst; use_IH IH; R_solve.
  - (* blockUnplug *)
    intros a s s' H. simpl in H. res_inv H; subst; use_IH IH; R_solve.
  - (* blockDispose *)
    intros a s s' H. simpl in H. res_inv H; subst.
    destruct IH as (IHc & IHc_ & IHd & IHr & IHx & IHu & IHb).
    apply IHu in E.
    eapply forEach_closed in H; [| exact IHx]. R_solve.
Qed.

End Closure.

(** ** What materialisation adds *)

Lemma domToBlock_spec d ws s s' b :
  domToBlock d ws s = (s', b) ->
  b = freshBlock s /\
  events s' = events s /\ timers s' = timers s /\
  (forall x cn, conns s !! x = Some cn -> conns s' !! x = Some cn) /\
  (forall x blk, blocks s !! x = Some blk -> blocks s' !! x = Some blk) /\
  (forall x, x <> b -> blocks s' !! x = blocks s !! x) /\
  exists o p n,
    blocks s' !! b = Some (mkBlock o p n [] (Some ws) None true (dom_data d)) /\
    (o = None \/ p = None) /\
    (dom_plug d = PlugNone -> o = None /\ p = None) /\
    (dom_plug d = PlugOutput -> is_Some o) /\
    (dom_plug d = PlugPrevious -> is_Some p) /\
    (forall x cn, conns s' !! x = Some cn ->
       conns s !! x = Some cn \/
       (conns s !! x = None /\
        exists ty, cn = mkConnection b ty None false None None /\
          ((o = Some x /\ ty = OUTPUT_VALUE) \/
           (p = Some x /\ ty = PREVIOUS_STATEMENT) \/
           (n = Some x /\ ty = NEXT_STATEMENT)))) /\
    (forall x, o = Some x ->
       conns s' !! x = Some (mkConnection b OUTPUT_VALUE None false None None)) /\
    (forall x, p = Some x ->
       conns s' !! x = Some (mkConnection b PREVIOUS_STATEMENT None false None None)).
Proof.
  unfold domToBlock.
  destruct (allocConn _ (freshBlock s) OUTPUT_VALUE s) as [o s1] eqn:E1.
  destruct (allocConn _ (freshBlock s) PREVIOUS_STATEMENT s1) as [p s2] eqn:E2.
  destruct (allocConn _ (freshBlock s) NEXT_STATEMENT s2) as [n s3] eqn:E3.
  intros [= <- <-]. simpl.
  destruct (allocConn_rest _ _ _ _ _ _ E1) as (B1 & V1 & T1).
  destruct (allocConn_rest _ _ _ _ _ _ E2) as (B2 & V2 & T2).
  destruct (allocConn_rest _ _ _ _ _ _ E3) as (B3 & V3 & T3).
  rewrite B3, B2, B1, V3, V2, V1, T3, T2, T1.
  split; [done|]. split; [done|]. split; [done|].
  split.
  { intros x cn Hx. eauto using allocConn_conns. }
  split.
  { intros x blk Hx. rewrite lookup_insert_ne; [done|].
    intros <-. rewrite freshBlock_None in Hx. done. }
  split.
  { intros x Hx. by rewrite lookup_insert_ne. }
  exists o, p, n. split; [apply lookup_insert_eq|].
  assert (Ho : o = None \/ p = None).
  { unfold allocConn in E1, E2.
    destruct (dom_plug d); simpl in *; simplify_eq; auto. }
  split; [exact Ho|].
  split.
  { intros Hp. unfold allocConn in E1, E2. rewrite Hp in *.
    simpl in *. by simplify_eq. }
  split.
  { intros Hp. unfold allocConn in E1. rewrite Hp in *.
    simpl in *. simplify_eq. eauto. }
  split.
  { intros Hp. unfold allocConn in E2. rewrite Hp in *.
    simpl in *. simplify_eq. eauto. }
  split.
  { intros x cn Hx.
    destruct (allocConn_new _ _ _ _ _ _ _ _ E3 Hx) as [Hx2|(Hn & -> & ->)].
    - destruct (allocConn_new _ _ _ _ _ _ _ _ E2 Hx2) as [Hx1|(Hn & -> & ->)].
      + destruct (allocConn_new _ _ _ _ _ _ _ _ E1 Hx1) as [Hx0|(Hn & -> & ->)].
        * by left.
        * right. split; [done|]. eexists; split; [done|]. by left.
      + right. split.
        * destruct (conns s !! x) eqn:Hs; [|done].
          eapply allocConn_conns in Hs; [|exact E1]. congruence.
        * eexists; split; [done|]. right; by left.
    - right. split.
      + destruct (conns s !! x) eqn:Hs; [|done].
        eapply allocConn_conns in Hs; [|exact E1].
        eapply allocConn_conns in Hs; [|exact E2]. congruence.
      + eexists; split; [done|]. right; by right. }
  split.
  { intros x ->. apply allocConn_Some in E1 as [_ E1].
    eauto using allocConn_conns. }
  { intros x ->. apply allocConn_Some in E2 as [_ E2].
    eauto using allocConn_conns. }
Qed.

Lemma domToBlock_fresh d ws s s' b blk x :
  domToBlock d ws s = (s', b) -> blocks s' !! b = Some blk ->
  outputConnection blk = Some x \/ previousConnection blk = Some x ->
  conns s !! x = None.
Proof.
  unfold domToBlock.
  destruct (allocConn _ (freshBlock s) OUTPUT_VALUE s) as [o s1] eqn:E1.
  destruct (allocConn _ (freshBlock s) PREVIOUS_STATEMENT s1) as [p s2] eqn:E2.
  destruct (allocConn _ (freshBlock s) NEXT_STATEMENT s2) as [n s3] eqn:E3.
  intros [= <- <-]. simpl. rewrite lookup_insert_eq. intros [= <-]. simpl.
  intros [-> | ->].
  - by apply allocConn_Some in E1 as [? _].
  - apply allocConn_Some in E2 as [Hn _].
    destruct (conns s !! x) as [cx|] eqn:Hx; [|done].
    eapply allocConn_conns in Hx; [|exact E1]. congruence.
Qed.

(** ** The arena only grows *)

Lemma connKept_refl cn : connKept cn cn.
Proof. by repeat split. Qed.

Lemma blockKept_refl blk : blockKept blk blk.
Proof. by repeat split. Qed.

Lemma connKept_trans a b c : connKept a b -> connKept b c -> connKept a c.
Proof. unfold connKept. intros (?&?&?&?) (?&?&?&?). repeat split; try congruence. auto. Qed.

Lemma blockKept_trans a b c : blockKept a b -> blockKept b c -> blockKept a c.
Proof.
  unfold blockKept. intros (?&?&?&?&?&?&?) (?&?&?&?&?&?&?).
  repeat split; try congruence. auto.
Qed.

Lemma extends_refl s : extends s s.
Proof.
  split; intros x y Hx; eexists; (split; [exact Hx|]).
  - apply connKept_refl.
  - apply blockKept_refl.
Qed.

Lemma extends_trans s1 s2 s3 : extends s1 s2 -> extends s2 s3 -> extends s1 s3.
Proof.
  intros [C1 B1] [C2 B2]. split.
  - intros c cn Hc. destruct (C1 _ _ Hc) as (cn' & Hc' & K1).
    destruct (C2 _ _ Hc') as (cn'' & Hc'' & K2).
    eauto using connKept_trans.
  - intros b blk Hb. destruct (B1 _ _ Hb) as (blk' & Hb' & K1).
    destruct (B2 _ _ Hb') as (blk'' & Hb'' & K2).
    eauto using blockKept_trans.
Qed.

Lemma extends_same s s' :
  conns s' = conns s -> blocks s' = blocks s -> extends s s'.
Proof.
  intros Hc Hb. unfold extends. rewrite Hc, Hb. apply extends_refl.
Qed.

Lemma extends_updConn c f s :
  (forall cn, connKept cn (f cn)) -> extends s (updConn c f s).
Proof.
  intros Hf. split.
  - intros x cn Hx. rewrite lookup_updConn. case_decide; subst.
    + rewrite Hx. simpl. eauto.
    + eauto using connKept_refl.
  - intros x blk Hx. simpl. eauto using blockKept_refl.
Qed.

Lemma extends_updBlock b f s :
  (forall blk, blockKept blk (f blk)) -> extends s (updBlock b f s).
Proof.
  intros Hf. split.
  - intros x cn Hx. simpl. eauto using connKept_refl.
  - intros x blk Hx. rewrite lookup_updBlock. case_decide; subst.
    + rewrite Hx. simpl. eauto.
    + eauto using blockKept_refl.
Qed.

Lemma extends_domToBlock s d ws : extends s (domToBlock d ws s).1.
Proof.
  destruct (domToBlock d ws s) as [s' b] eqn:E.
  apply domToBlock_spec in E as (_ & _ & _ & Hc & Hb & _). simpl.
  split; intros x y Hx.
  - exists y. split; [auto|apply connKept_refl].
  - exists y. split; [auto|apply blockKept_refl].
Qed.

Lemma extends_closed canConnect f : closedAt canConnect extends f.
Proof.
  apply closure.
  - apply extends_refl.
  - apply extends_trans.
  - intros. apply extends_updConn. intros cn. by repeat split.
  - intros. apply extends_updConn. intros cn. by repeat split.
  - intros. apply extends_updConn. intros cn. by repeat split.
  - intros. apply extends_updBlock. intros blk. by repeat split.
  - intros. apply extends_updBlock. intros blk. by repeat split.
  - intros. apply extends_same; [apply conns_fireMove|apply blocks_fireMove].
  - intros. eapply extends_trans; [eassumption|]. by apply extends_same.
  - apply extends_domToBlock.
  - intros s s' _ H. eapply extends_trans; [|eapply extends_trans; [exact H|]].
    + by apply extends_same.
    + by apply extends_same.
Qed.

(** ** Bumps are scheduled for ordinary blocks only *)

Lemma bumpsOrdinary_same s s' :
  extends s s' -> timers s' = timers s -> bumpsOrdinary s s'.
Proof. intros He Ht. split; [done|]. exists []. split; [done|]. by intros t ?%elem_of_nil. Qed.

Lemma bumpsOrdinary_trans s1 s2 s3 :
  bumpsOrdinary s1 s2 -> bumpsOrdinary s2 s3 -> bumpsOrdinary s1 s3.
Proof.
  intros [E1 (n1 & T1 & O1)] [E2 (n2 & T2 & O2)].
  split; [eauto using extends_trans|].
  exists (n2 ++ n1). split; [rewrite T2, T1; by rewrite app_assoc|].
  intros t [Ht|Ht]%elem_of_app; [auto|].
  destruct (O1 _ Ht) as (blk & Hb & Hs).
  destruct E2 as [_ E2]. destruct (E2 _ _ Hb) as (blk' & Hb' & K).
  exists blk'. split; [done|]. destruct K as (_&_&_&_&K&_). congruence.
Qed.

Lemma bumpsOrdinary_closed canConnect f : closedAt canConnect bumpsOrdinary f.
Proof.
  apply closure.
  - intros. by apply bumpsOrdinary_same; [apply extends_refl|].
  - apply bumpsOrdinary_trans.
  - intros. apply bumpsOrdinary_same; [|done].
    apply extends_updConn. intros cn. by repeat split.
  - intros. apply bumpsOrdinary_same; [|done].
    apply extends_updConn. intros cn. by repeat split.
  - intros. apply bumpsOrdinary_same; [|done].
    apply extends_updConn. intros cn. by repeat split.
  - intros. apply bumpsOrdinary_same; [|done].
    apply extends_updBlock. intros blk. by repeat split.
  - intros. apply bumpsOrdinary_same; [|done].
    apply extends_updBlock. intros blk. by repeat split.
  - intros. apply bumpsOrdinary_same; [|apply timers_fireMove].
    apply extends_same; [apply conns_fireMove|apply blocks_fireMove].
  - intros s s' o p blk Hb Hs [He (new & Ht & Ho)].
    split; [eapply extends_trans; [exact He|by apply extends_same]|].
    exists (mkBump o p (group (events s')) :: new). split; [simpl; by rewrite Ht|].
    intros t [->|Hin]%elem_of_cons; [|by apply Ho]. simpl.
    destruct He as [_ He]. destruct (He _ _ Hb) as (blk' & Hb' & K).
    exists blk'. split; [done|]. destruct K as (_&_&_&_&K&_). congruence.
  - intros. apply bumpsOrdinary_same; [apply extends_domToBlock|].
    destruct (domToBlock d ws s) as [s' b] eqn:E.
    by apply domToBlock_spec in E as (_ & _ & ? & _).
  - intros s s' _ H.
    eapply bumpsOrdinary_trans; [|eapply bumpsOrdinary_trans; [exact H|]].
    + by apply bumpsOrdinary_same; [apply extends_same|].
    + by apply bumpsOrdinary_same; [apply extends_same|].
Qed.

(** ** Calls made inside a group stay in it *)

Lemma groupKept_same s s' : events s' = events s -> groupKept s s'.
Proof.
  intros He g Hg. rewrite He. split; [done|]. split; [done|].
  exists []. split; [done|]. by intros e ?%elem_of_nil.
Qed.

Lemma groupKept_trans s1 s2 s3 :
  groupKept s1 s2 -> groupKept s2 s3 -> groupKept s1 s3.
Proof.
  intros H1 H2 g Hg.
  destruct (H1 g Hg) as (G1 & O1 & n1 & F1 & E1).
  destruct (H2 g G1) as (G2 & O2 & n2 & F2 & E2).
  split; [done|]. split; [congruence|].
  exists (n2 ++ n1). split; [rewrite F2, F1; by rewrite app_assoc|].
  intros e [?|?]%elem_of_app; auto.
Qed.

Lemma groupKept_closed canConnect f : closedAt canConnect groupKept f.
Proof.
  apply closure.
  - intros. by apply groupKept_same.
  - apply groupKept_trans.
  - intros. by apply groupKept_same.
  - intros. by apply groupKept_same.
  - intros. by apply groupKept_same.
  - intros. by apply groupKept_same.
  - intros. by apply groupKept_same.
  - intros s [ev|] Hev; [|by apply groupKept_same].
    intros g Hg. simpl. split; [done|]. split; [done|].
    eexists [_]. split; [done|].
    intros e ->%list_elem_of_singleton. simpl. rewrite (Hev ev); done.
  - intros s s' o p blk _ _ H. eapply groupKept_trans; [exact H|].
    by apply groupKept_same.
  - intros. apply groupKept_same.
    destruct (domToBlock d ws s) as [s' b] eqn:E.
    by apply domToBlock_spec in E as (_ & ? & _).
  - intros s s' Hn _ g Hg. congruence.
Qed.

(** ** Connections keep their place on their blocks *)

Lemma connOkKept_of s s' :
  (forall c cn', conns s' !! c = Some cn' ->
     exists cn, conns s !! c = Some cn /\ connKept cn cn') ->
  extends s s' -> connOkKept s s'.
Proof.
  intros Hback [_ Hb] Hok c cn' Hc'.
  destruct (Hback _ _ Hc') as (cn & Hc & (Hsb & Hty & _)).
  specialize (Hok _ _ Hc). unfold connOk in *.
  rewrite Hsb, Hty.
  destruct (blocks s !! sourceBlock_ cn) as [blk|] eqn:Hblk; [|done].
  destruct (Hb _ _ Hblk) as (blk' & -> & (Ko & Kp & _)).
  rewrite Ko, Kp. done.
Qed.

Lemma connOkKept_updConn c f s :
  (forall cn, connKept cn (f cn)) -> connOkKept s (updConn c f s).
Proof.
  intros Hf. apply connOkKept_of; [|by apply extends_updConn].
  intros x cn'. rewrite lookup_updConn. case_decide; subst.
  - destruct (conns s !! x) as [cn|] eqn:E; simpl; [|done].
    intros [= <-]. eauto.
  - eauto using connKept_refl.
Qed.

Lemma connOkKept_updBlock b f s :
  (forall blk, blockKept blk (f blk)) -> connOkKept s (updBlock b f s).
Proof.
  intros Hf. apply connOkKept_of; [|by apply extends_updBlock].
  simpl. eauto using connKept_refl.
Qed.

Lemma connOkKept_same s s' :
  conns s' = conns s -> blocks s' = blocks s -> connOkKept s s'.
Proof.
  intros Hc Hb. apply connOkKept_of; [|by apply extends_same].
  rewrite Hc. eauto using connKept_refl.
Qed.

Lemma connOkKept_domToBlock s d ws : connOkKept s (domToBlock d ws s).1.
Proof.
  destruct (domToBlock d ws s) as [s' b] eqn:E.
  apply domToBlock_spec in E
    as (-> & _ & _ & Hc & Hb & Hbo & o & p & n & Hnew & Hop & _ & _ & _ & Hcs & _).
  simpl. intros Hok x cn Hx.
  destruct (Hcs _ _ Hx) as [Hold|(Hnone & ty & -> & Hty)].
  - specialize (Hok _ _ Hold). unfold connOk in *.
    destruct (blocks s !! sourceBlock_ cn) as [blk|] eqn:Hblk; [|done].
    by rewrite (Hb _ _ Hblk).
  - unfold connOk. simpl. rewrite Hnew. simpl.
    destruct Hty as [[-> ->]|[[-> ->]|[-> ->]]].
    + split; [done|]. intros; discriminate.
    + split; [intros; discriminate|]. intros _.
      destruct Hop as [->|?]; [done|]. discriminate.
    + split; intros; discriminate.
Qed.

Lemma connOkKept_closed canConnect f : closedAt canConnect connOkKept f.
Proof.
  apply closure.
  - by intros s H.
  - intros s1 s2 s3 H1 H2 H. auto.
  - intros. apply connOkKept_updConn. intros cn. by repeat split.
  - intros. apply connOkKept_updConn. intros cn. by repeat split.
  - intros. apply connOkKept_updConn. intros cn. by repeat split.
  - intros. apply connOkKept_updBlock. intros blk. by repeat split.
  - intros. apply connOkKept_updBlock. intros blk. by repeat split.
  - intros. apply connOkKept_same; [apply conns_fireMove|apply blocks_fireMove].
  - intros s s' o p blk _ _ H Hok. apply H in Hok. exact Hok.
  - apply connOkKept_domToBlock.
  - intros s s' _ H Hok. exact (H Hok).
Qed.

(** ** Well-formedness under field updates *)

Lemma opposite_sym a b : opposite a b = opposite b a.
Proof. by destruct a, b. Qed.

Lemma opposite_irrefl a : opposite a a = false.
Proof. by destruct a. Qed.

Lemma opposite_superior a b :
  opposite (type a) (type b) = true -> isSuperior a = negb (isSuperior b).
Proof. unfold isSuperior. destruct (type a), (type b); done. Qed.

Lemma WF_sameLinks s s' : sameLinks s s' -> WF s -> WF s'.
Proof.
  intros [Hc Hb] [Hok Hlk]. split.
  - intros x cn' Hx. specialize (Hc x). rewrite Hx in Hc.
    destruct (conns s !! x) as [cn|] eqn:Hx0; [|done].
    simpl in Hc. injection Hc as Hsb Hty Htg.
    specialize (Hok _ _ Hx0). unfold connOk in *.
    rewrite Hsb, Hty. specialize (Hb (sourceBlock_ cn)).
    destruct (blocks s !! sourceBlock_ cn) as [blk|]; [|done].
    destruct (blocks s' !! sourceBlock_ cn) as [blk'|]; [|done].
    simpl in Hb. injection Hb as -> ->. done.
  - intros x cn' Hx. pose proof (Hc x) as Hcx. rewrite Hx in Hcx.
    destruct (conns s !! x) as [cn|] eqn:Hx0; [|done].
    simpl in Hcx. injection Hcx as Hsb Hty Htg.
    specialize (Hlk _ _ Hx0). unfold linkOk in *.
    rewrite Htg, Hty. destruct (targetConnection cn) as [t|]; [|done].
    specialize (Hc t).
    destruct (conns s !! t) as [tn|]; [|done].
    destruct (conns s' !! t) as [tn'|]; [|done].
    simpl in Hc. injection Hc as _ -> ->. done.
Qed.

Lemma sameLinks_updConn c f s :
  (forall cn, sourceBlock_ (f cn) = sourceBlock_ cn /\ type (f cn) = type cn /\
              targetConnection (f cn) = targetConnection cn) ->
  sameLinks s (updConn c f s).
Proof.
  intros Hf. split; [|done]. intros x. rewrite lookup_updConn.
  case_decide; [subst|done]. destruct (conns s !! x) as [cn|]; [|done].
  simpl. by destruct (Hf cn) as (-> & -> & ->).
Qed.

Lemma sameLinks_updBlock b f s :
  (forall blk, outputConnection (f blk) = outputConnection blk /\
               previousConnection (f blk) = previousConnection blk) ->
  sameLinks s (updBlock b f s).
Proof.
  intros Hf. split; [done|]. intros x. rewrite lookup_updBlock.
  case_decide; [subst|done]. destruct (blocks s !! x) as [blk|]; [|done].
  simpl. by destruct (Hf blk) as (-> & ->).
Qed.

Lemma sameLinks_same s s' :
  conns s' = conns s -> blocks s' = blocks s -> sameLinks s s'.
Proof. intros Hc Hb. unfold sameLinks. by rewrite Hc, Hb. Qed.

Lemma WF_setShadowDom c d s : WF s -> WF (setShadowDom c d s).
Proof. apply WF_sameLinks, sameLinks_updConn. done. Qed.

Lemma WF_setDisposed c s : WF s -> WF (setDisposed c s).
Proof. apply WF_sameLinks, sameLinks_updConn. done. Qed.

Lemma WF_setCheckField c k s : WF s -> WF (setCheckField c k s).
Proof. apply WF_sameLinks, sameLinks_updConn. done. Qed.

Lemma WF_setParent b p s : WF s -> WF (setParent b p s).
Proof. apply WF_sameLinks, sameLinks_updBlock. done. Qed.

Lemma WF_setWorkspace b w s : WF s -> WF (setWorkspace b w s).
Proof. apply WF_sameLinks, sameLinks_updBlock. done. Qed.

Lemma WF_fireMove ev s : WF s -> WF (fireMove ev s).
Proof.
  apply WF_sameLinks, sameLinks_same;
    [apply conns_fireMove|apply blocks_fireMove].
Qed.

Lemma WF_updEvents f s : WF s -> WF (updEvents f s).
Proof. by apply WF_sameLinks, sameLinks_same. Qed.

Lemma WF_addTimer t s : WF s -> WF (addTimer t s).
Proof. by apply WF_sameLinks, sameLinks_same. Qed.

Lemma WF_domToBlock d ws s s' b :
  domToBlock d ws s = (s', b) -> WF s -> WF s'.
Proof.
  intros E [Hok Hlk]. split.
  - pose proof (connOkKept_domToBlock s d ws) as H. rewrite E in H. by apply H.
  - apply domToBlock_spec in E
      as (_ & _ & _ & Hc & _ & _ & o & p & n & _ & _ & _ & _ & _ & Hcs & _).
    intros x cn Hx. destruct (Hcs _ _ Hx) as [Hold|(_ & ty & -> & _)]; [|done].
    specialize (Hlk _ _ Hold). unfold linkOk in *.
    destruct (targetConnection cn) as [t|]; [|done].
    destruct (conns s !! t) as [tn|] eqn:Ht; [|done].
    by rewrite (Hc _ _ Ht).
Qed.

Lemma linkOk_intro s c cn t tn :
  targetConnection cn = Some t -> conns s !! t = Some tn ->
  targetConnection tn = Some c -> opposite (type cn) (type tn) = true ->
  linkOk s c cn.
Proof. intros Ht Hl Hb Ho. unfold linkOk. by rewrite Ht, Hl. Qed.

Lemma linkOk_free s c cn : targetConnection cn = None -> linkOk s c cn.
Proof. intros Ht. unfold linkOk. by rewrite Ht. Qed.

Lemma linkOk_elim s c cn t :
  linkOk s c cn -> targetConnection cn = Some t ->
  exists tn, conns s !! t = Some tn /\ targetConnection tn = Some c /\
             opposite (type cn) (type tn) = true.
Proof.
  unfold linkOk. intros H Ht. rewrite Ht in H.
  destruct (conns s !! t) as [tn|]; [|done]. exists tn. tauto.
Qed.

(** Clearing both ends of a link. *)
Lemma WF_unlink s c cn o :
  WF s -> conns s !! c = Some cn -> targetConnection cn = Some o ->
  WF (setTarget c None (setTarget o None s)).
Proof.
  intros [Hok Hlk] Hc Ht. split.
  { apply connOkKept_updConn; [intros; by repeat split|]. apply connOkKept_updConn; [intros; by repeat split|].
    done. }
  pose proof (Hlk _ _ Hc) as Hco. unfold linkOk in Hco. rewrite Ht in Hco.
  destruct (conns s !! o) as [on|] eqn:Ho; [|done]. destruct Hco as [Hoc _].
  intros x cn' Hx. unfold setTarget in Hx.
  rewrite !lookup_updConn in Hx.
  destruct (decide (c = x)) as [->|Hcx].
  { assert (targetConnection cn' = None) as Hn.
    { destruct (decide (o = x)); [subst; rewrite Ho in Hx|rewrite Hc in Hx];
        by simplify_eq/=. }
    unfold linkOk. by rewrite Hn. }
  destruct (decide (o = x)) as [->|Hox].
  { rewrite Ho in Hx. simplify_eq/=. done. }
  specialize (Hlk _ _ Hx). unfold linkOk in *.
  destruct (targetConnection cn') as [t|]; [|done].
  destruct (conns s !! t) as [tn|] eqn:Htn; [|done].
  destruct Hlk as [Htx Hopp].
  assert (t <> c) by (intros ->; congruence).
  assert (t <> o) by (intros ->; congruence).
  unfold setTarget. rewrite !lookup_updConn.
  rewrite !decide_False by done. rewrite Htn. done.
Qed.

(** Linking two free connections of opposite kinds. *)
Lemma WF_linkTargets s P C pc cc :
  WF s -> conns s !! P = Some pc -> conns s !! C = Some cc ->
  targetConnection pc = None -> targetConnection cc = None ->
  opposite (type pc) (type cc) = true ->
  WF (setTarget C (Some P) (setTarget P (Some C) s)).
Proof.
  intros [Hok Hlk] HP HC HtP HtC Hopp.
  assert (P <> C) as Hne.
  { intros ->. simplify_eq. by rewrite opposite_irrefl in Hopp. }
  split.
  { apply connOkKept_updConn; [intros; by repeat split|]. apply connOkKept_updConn; [intros; by repeat split|].
    done. }
  intros x cn' Hx. unfold setTarget in *. rewrite !lookup_updConn in Hx.
  destruct (decide (C = x)) as [->|HCx].
  { rewrite decide_False in Hx by done. rewrite HC in Hx. simplify_eq/=.
    eapply (linkOk_intro _ _ _ P (withTarget (Some x) pc)); try done.
    - rewrite !lookup_updConn.
      rewrite decide_False by done. rewrite decide_True by done.
      by rewrite HP.
    - simpl. by rewrite opposite_sym. }
  destruct (decide (P = x)) as [->|HPx].
  { rewrite HP in Hx. simplify_eq/=.
    eapply (linkOk_intro _ _ _ C (withTarget (Some x) cc)); try done.
    rewrite !lookup_updConn.
    rewrite decide_True by done. rewrite decide_False by done.
    by rewrite HC. }
  specialize (Hlk _ _ Hx). unfold linkOk in *.
  destruct (targetConnection cn') as [t|]; [|done].
  destruct (conns s !! t) as [tn|] eqn:Htn; [|done].
  destruct Hlk as [Htx Hop'].
  assert (t <> C) by (intros ->; congruence).
  assert (t <> P) by (intros ->; congruence).
  rewrite !lookup_updConn. rewrite !decide_False by done. by rewrite Htn.
Qed.

Lemma WF_linkState s P C pc cc pb cb :
  WF s -> conns s !! P = Some pc -> conns s !! C = Some cc ->
  targetConnection pc = None -> targetConnection cc = None ->
  opposite (type pc) (type cc) = true ->
  WF (linkState P C pb cb s).
Proof.
  intros. unfold linkState. apply WF_fireMove, WF_setParent.
  eauto using WF_linkTargets.
Qed.

(** Reciprocity is part of well-formedness. *)
Lemma WF_reciprocal s : WF s -> reciprocal s.
Proof.
  intros [_ Hlk] a b. unfold target.
  destruct (conns s !! a) as [ca|] eqn:Ha; simpl; [|done]. intros Hab.
  specialize (Hlk _ _ Ha). unfold linkOk in Hlk. rewrite Hab in Hlk.
  destruct (conns s !! b) as [cb|]; [|done]. simpl. tauto.
Qed.

(** ** Linking two free connections *)

Section Free.

Variable canConnect : Workspace -> State -> ConnId -> ConnId -> bool -> bool.

Lemma connect__free f P C s pc cc :
  conns s !! P = Some pc -> conns s !! C = Some cc ->
  targetConnection pc = None -> targetConnection cc = None ->
  connect_ canConnect (S f) P C s =
  Ok (linkState P C (sourceBlock_ pc) (sourceBlock_ cc) s).
Proof.
  intros HP HC HtP HtC. simpl.
  rewrite (getConn_Some _ _ _ HP), (getConn_Some _ _ _ HC). simpl.
  unfold isConnected. rewrite HtC. simpl.
  rewrite (getConn_Some _ _ _ HP). simpl. rewrite HtP. simpl.
  reflexivity.
Qed.

Lemma getConnectionChecker_Some s c cn blk ws :
  conns s !! c = Some cn -> blocks s !! sourceBlock_ cn = Some blk ->
  workspace blk = Some ws -> getConnectionChecker s c = Ok ws.
Proof.
  intros Hc Hb Hw. unfold getConnectionChecker.
  rewrite (getConn_Some _ _ _ Hc). simpl.
  rewrite (getBlock_Some _ _ _ Hb). simpl. by rewrite Hw.
Qed.

Lemma connect_free f A B s ca cb blk ws :
  conns s !! A = Some ca -> conns s !! B = Some cb ->
  targetConnection ca = None -> targetConnection cb = None ->
  blocks s !! sourceBlock_ ca = Some blk -> workspace blk = Some ws ->
  connect canConnect (S (S f)) A B s =
  Ok (if canConnect ws s A B false then
        closeGroup s
          (if isSuperior ca
           then linkState A B (sourceBlock_ ca) (sourceBlock_ cb) (openGroup s)
           else linkState B A (sourceBlock_ cb) (sourceBlock_ ca) (openGroup s))
      else s).
Proof.
  intros HA HB HtA HtB Hblk Hws.
  change (connect canConnect (S (S f)) A B s) with
    (cn ← getConn s A;
     if bool_decide (targetConnection cn = Some B) then Ok s
     else
       checker ← getConnectionChecker s A;
       if canConnect checker s A B false then
         s2 ← (if isSuperior cn then connect_ canConnect (S f) A B (openGroup s)
               else connect_ canConnect (S f) B A (openGroup s));
         Ok (closeGroup s s2)
       else Ok s).
  rewrite (getConn_Some _ _ _ HA), bind_ret_l, HtA.
  rewrite bool_decide_eq_false_2 by done.
  rewrite (getConnectionChecker_Some _ _ _ _ _ HA Hblk Hws), bind_ret_l.
  destruct (canConnect ws s A B false); [|done].
  assert (conns (openGroup s) = conns s) as Hco.
  { unfold openGroup. by destruct (group (events s)). }
  destruct (isSuperior ca).
  - rewrite (connect__free f A B (openGroup s) ca cb); try done; by rewrite Hco.
  - rewrite (connect__free f B A (openGroup s) cb ca); try done; by rewrite Hco.
Qed.

End Free.

(** ** Respawn on a free connection *)

Section Respawn.

Variable canConnect : Workspace -> State -> ConnId -> ConnId -> bool -> bool.
Hypothesis chk_typed : checkerTyped canConnect.

Lemma conns_openGroup s : conns (openGroup s) = conns s.
Proof. unfold openGroup. by destruct (group (events s)). Qed.

Lemma blocks_openGroup s : blocks (openGroup s) = blocks s.
Proof. unfold openGroup. by destruct (group (events s)). Qed.

Lemma timers_openGroup s : timers (openGroup s) = timers s.
Proof. unfold openGroup. by destruct (group (events s)). Qed.

Lemma conns_closeGroup s0 s : conns (closeGroup s0 s) = conns s.
Proof. unfold closeGroup. by destruct (group (events s0)). Qed.

Lemma blocks_closeGroup s0 s : blocks (closeGroup s0 s) = blocks s.
Proof. unfold closeGroup. by destruct (group (events s0)). Qed.

Lemma timers_closeGroup s0 s : timers (closeGroup s0 s) = timers s.
Proof. unfold closeGroup. by destruct (group (events s0)). Qed.

Lemma WF_openGroup s : WF s -> WF (openGroup s).
Proof.
  apply WF_sameLinks, sameLinks_same;
    [apply conns_openGroup|apply blocks_openGroup].
Qed.

Lemma WF_closeGroup s0 s : WF s -> WF (closeGroup s0 s).
Proof.
  apply WF_sameLinks, sameLinks_same;
    [apply conns_closeGroup|apply blocks_closeGroup].
Qed.

Lemma conns_linkState P C pb cb s x :
  conns (linkState P C pb cb s) !! x =
  if decide (C = x) then
    withTarget (Some P) <$> (if decide (P = C)
                             then withTarget (Some C) <$> conns s !! P
                             else conns s !! C)
  else if decide (P = x) then withTarget (Some C) <$> conns s !! P
  else conns s !! x.
Proof.
  unfold linkState. rewrite conns_fireMove.
  change (conns (setParent cb (Some pb) ?t)) with (conns t).
  unfold setTarget. rewrite !lookup_updConn. done.
Qed.

Lemma linkState_linked P C pb cb s :
  is_Some (conns s !! P) -> is_Some (conns s !! C) ->
  linked (linkState P C pb cb s) P C.
Proof.
  intros [pc HP] [cc HC]. unfold linked, target. rewrite !conns_linkState.
  rewrite (decide_True (P := C = C)) by done.
  destruct (decide (P = C)) as [->|Hne].
  - rewrite decide_True by done. rewrite HC. done.
  - rewrite (decide_True (P := P = P)) by done.
    rewrite (decide_False (P := C = P)) by done. rewrite HP, HC. done.
Qed.

Lemma blocks_linkState P C pb cb s x :
  blocks (linkState P C pb cb s) !! x =
  if decide (cb = x) then withParent (Some pb) <$> blocks s !! cb
  else blocks s !! x.
Proof.
  unfold linkState. rewrite blocks_fireMove.
  unfold setParent. rewrite lookup_updBlock. done.
Qed.

Lemma timers_linkState P C pb cb s :
  timers (linkState P C pb cb s) = timers s.
Proof. unfold linkState. by rewrite timers_fireMove. Qed.

Lemma respawn_free f p s s' cn :
  WF s -> conns s !! p = Some cn -> targetConnection cn = None ->
  respawnShadow_ canConnect f p s = Ok s' ->
  WF s' /\
  (forall x cx, conns s !! x = Some cx -> x <> p -> conns s' !! x = Some cx) /\
  (exists t, conns s' !! p = Some (withTarget t cn) /\
     (t = None \/ exists n, t = Some n /\ conns s !! n = None)) /\
  (forall b blk, blocks s !! b = Some blk -> blocks s' !! b = Some blk) /\
  timers s' = timers s /\
  (shadowDom_ cn = None -> s' = s).
Proof using chk_typed.
  intros Hwf Hp Htp H.
  assert (Hid : WF s /\
    (forall x cx, conns s !! x = Some cx -> x <> p -> conns s !! x = Some cx) /\
    (exists t, conns s !! p = Some (withTarget t cn) /\
       (t = None \/ exists n, t = Some n /\ conns s !! n = None)) /\
    (forall b blk, blocks s !! b = Some blk -> blocks s !! b = Some blk) /\
    timers s = timers s /\ (shadowDom_ cn = None -> s = s)).
  { split; [done|]. split; [done|]. split; [|done].
    exists None. split; [|by left]. rewrite Hp. f_equal.
    destruct cn; simpl in *. by subst. }
  destruct f as [|f]; [discriminate|]. simpl in H.
  apply bind_Ok in H as (cn0 & E & H). res_inv E. rewrite Hp in E; simplify_eq.
  apply bind_Ok in H as (pb & E & H). res_inv E.
  destruct (workspace pb) as [ws|] eqn:Hws; [|by simplify_eq].
  unfold getShadowDom in H.
  destruct (shadowDom_ cn0) as [d|] eqn:Hd; [|by simplify_eq].
  destruct (recordUndo (events s)) eqn:Hru; [|by simplify_eq].
  clear Hid.
  destruct (domToBlock d ws s) as [s1 B] eqn:Edom.
  pose proof (WF_domToBlock _ _ _ _ _ Edom Hwf) as Hwf1.
  apply domToBlock_spec in Edom
    as (-> & Hev & Htm & Hc & Hb & Hbo & o & pv & n & Hnew & Hop & _ & _ & _ & Hcs & Ho & Hpv).
  apply bind_Ok in H as (bs & E1 & H). res_inv E1. rewrite Hnew in E1.
  simplify_eq. simpl in H.
  assert (exists plug ty,
    conns s !! plug = None /\
    conns s1 !! plug =
      Some (mkConnection (freshBlock s) ty None false None None) /\
    (ty = OUTPUT_VALUE \/ ty = PREVIOUS_STATEMENT) /\
    connect canConnect f p plug s1 = Ok s') as (plug & ty & Hfresh & Hplug & Hty & Hcon).
  { destruct o as [o|].
    - exists o, OUTPUT_VALUE. split; [|by auto].
      destruct (Hcs o _ (Ho _ eq_refl)) as [Hold|[? _]]; [|done].
      destruct Hwf as [Hok _]. specialize (Hok _ _ Hold). unfold connOk in Hok.
      simpl in Hok. by rewrite freshBlock_None in Hok.
    - destruct pv as [pv|]; [|discriminate].
      exists pv, PREVIOUS_STATEMENT. split; [|by auto].
      destruct (Hcs pv _ (Hpv _ eq_refl)) as [Hold|[? _]]; [|done].
      destruct Hwf as [Hok _]. specialize (Hok _ _ Hold). unfold connOk in Hok.
      simpl in Hok. by rewrite freshBlock_None in Hok. }
  clear H.
  assert (plug <> p) as Hne by (intros ->; congruence).
  assert (s' = s1 \/
    (canConnect ws s1 p plug false = true /\
     s' = closeGroup s1
            (if isSuperior cn0
             then linkState p plug (sourceBlock_ cn0) (freshBlock s) (openGroup s1)
             else linkState plug p (freshBlock s) (sourceBlock_ cn0) (openGroup s1))))
    as [->|[Hchk ->]].
  { destruct f as [|[|f]].
    - discriminate.
    - simpl in Hcon. res_inv Hcon; auto.
    - rewrite (connect_free canConnect f p plug s1 cn0
                 (mkConnection (freshBlock s) ty None false None None) pb ws)
        in Hcon; [|by auto|done|done|done|by auto|done].
      cbn [sourceBlock_] in Hcon. injection Hcon as <-.
      destruct (canConnect ws s1 p plug false); auto. }
  { split; [done|]. split; [by auto|]. split; [|split; [by auto|done]].
    exists None. split; [|by left]. rewrite (Hc _ _ Hp). f_equal.
    destruct cn0; simpl in *; by subst. }
  destruct (chk_typed _ _ _ _ Hchk) as (ca & cb & Hca & Hcb & Hopp).
  rewrite (Hc _ _ Hp) in Hca. rewrite Hplug in Hcb. simplify_eq. simpl in Hopp.
  assert (isSuperior ca = true) as Hsup.
  { unfold isSuperior. destruct Hty; subst ty; destruct (type ca); done. }
  rewrite Hsup.
  split.
  { apply WF_closeGroup.
    eapply WF_linkState; [by apply WF_openGroup| | | | |].
    - rewrite conns_openGroup. by apply Hc.
    - rewrite conns_openGroup. exact Hplug.
    - done.
    - done.
    - done. }
  split.
  { intros x cx Hx Hxp. rewrite conns_closeGroup, conns_linkState.
    assert (plug <> x) by (intros ->; congruence).
    rewrite !decide_False by done. rewrite conns_openGroup. by apply Hc. }
  split.
  { exists (Some plug). split; [|right; eauto].
    rewrite conns_closeGroup, conns_linkState.
    rewrite decide_False by done. rewrite decide_True by done.
    rewrite conns_openGroup, (Hc _ _ Hp). done. }
  split.
  { intros b blk Hblk. rewrite blocks_closeGroup, blocks_linkState.
    rewrite decide_False.
    - rewrite blocks_openGroup. by apply Hb.
    - simpl. intros <-. by rewrite freshBlock_None in Hblk. }
  split.
  { rewrite timers_closeGroup, timers_linkState, timers_openGroup. done. }
  intros ?; congruence.
Qed.

End Respawn.

(** ** Disconnecting a linked pair *)

Lemma disconnectInternal__eq c pb cb s cn o on :
  conns s !! c = Some cn -> targetConnection cn = Some o ->
  conns s !! o = Some on ->
  disconnectInternal_ c pb cb s = Ok (unlinkState c o cb s).
Proof.
  intros Hc Ht Ho. unfold disconnectInternal_.
  rewrite (getConn_Some _ _ _ Hc), bind_ret_l, Ht. simpl.
  rewrite (getConn_Some _ _ _ Ho), bind_ret_l. done.
Qed.

Lemma conns_unlinkState c o cb s x :
  conns (unlinkState c o cb s) !! x =
  if decide (c = x) then
    withTarget None <$> (if decide (o = c) then withTarget None <$> conns s !! o
                         else conns s !! c)
  else if decide (o = x) then withTarget None <$> conns s !! o
  else conns s !! x.
Proof.
  unfold unlinkState. rewrite conns_fireMove.
  change (conns (setParent cb None ?t)) with (conns t).
  unfold setTarget. rewrite !lookup_updConn. done.
Qed.

Lemma blocks_unlinkState c o cb s x :
  blocks (unlinkState c o cb s) !! x =
  if decide (cb = x) then withParent None <$> blocks s !! cb
  else blocks s !! x.
Proof.
  unfold unlinkState. rewrite blocks_fireMove.
  unfold setParent. rewrite lookup_updBlock. done.
Qed.

Lemma timers_unlinkState c o cb s : timers (unlinkState c o cb s) = timers s.
Proof. unfold unlinkState. by rewrite timers_fireMove. Qed.

Lemma WF_unlinkState s c cn o cb :
  WF s -> conns s !! c = Some cn -> targetConnection cn = Some o ->
  WF (unlinkState c o cb s).
Proof.
  intros. unfold unlinkState. apply WF_fireMove, WF_setParent.
  eauto using WF_unlink.
Qed.

Section Disconnect.

Variable canConnect : Workspace -> State -> ConnId -> ConnId -> bool -> bool.
Hypothesis chk_typed : checkerTyped canConnect.

Lemma disconnect_unfold f this s :
  disconnect canConnect (S f) this s =
  (cn ← getConn s this;
   otherConnection ← orThrow SourceNotConnected (targetConnection cn);
   oc ← getConn s otherConnection;
   if bool_decide (targetConnection oc = Some this) then
     let '(parentBlock, childBlock, parentConnection) :=
       if isSuperior cn
       then (sourceBlock_ cn, sourceBlock_ oc, this)
       else (sourceBlock_ oc, sourceBlock_ cn, otherConnection) in
     s1 ← disconnectInternal_ this parentBlock childBlock (openGroup s);
     s2 ← respawnShadow_ canConnect f parentConnection s1;
     Ok (closeGroup s s2)
   else Throw TargetNotConnected).
Proof. reflexivity. Qed.

(** [disconnect] on [c], linked to [o]: [p] is the parent end, [i] the
    child end and [cb] the child block, as the method picks them. *)
Lemma disconnect_props f c s s' cn o :
  WF s -> conns s !! c = Some cn -> targetConnection cn = Some o ->
  disconnect canConnect f c s = Ok s' ->
  exists on p i cp ci,
    conns s !! o = Some on /\
    (p, i) = (if isSuperior cn then (c, o) else (o, c)) /\
    conns s !! p = Some cp /\ conns s !! i = Some ci /\
    isSuperior cp = true /\ isSuperior ci = false /\
    targetConnection cp = Some i /\ targetConnection ci = Some p /\
    WF s' /\
    (forall x cx, conns s !! x = Some cx -> x <> p -> x <> i ->
                  conns s' !! x = Some cx) /\
    conns s' !! i = Some (withTarget None ci) /\
    (exists t, conns s' !! p = Some (withTarget t cp) /\
       (t = None \/ exists n, t = Some n /\ conns s !! n = None) /\
       (shadowDom_ cp = None -> t = None)) /\
    (forall b blk, blocks s !! b = Some blk ->
       blocks s' !! b =
       Some (if decide (b = sourceBlock_ ci) then withParent None blk else blk)) /\
    timers s' = timers s.
Proof using chk_typed.
  intros Hwf Hc Ht H.
  destruct f as [|f]; [discriminate|]. rewrite disconnect_unfold in H.
  rewrite (getConn_Some _ _ _ Hc), bind_ret_l, Ht in H.
  cbn [orThrow] in H. rewrite bind_ret_l in H.
  pose proof Hwf as [_ Hlk].
  destruct (linkOk_elim _ _ _ _ (Hlk _ _ Hc) Ht) as (on & Ho & Hoc & Hopp).
  rewrite (getConn_Some _ _ _ Ho), bind_ret_l, Hoc in H.
  rewrite bool_decide_eq_true_2 in H by done.
  assert (c <> o) as Hne.
  { intros ->. simplify_eq. by rewrite opposite_irrefl in Hopp. }
  pose proof (opposite_superior _ _ Hopp) as Hsup.
  set (p := if isSuperior cn then c else o).
  set (i := if isSuperior cn then o else c).
  set (cp := if isSuperior cn then cn else on).
  set (ci := if isSuperior cn then on else cn).
  assert (exists s3,
    respawnShadow_ canConnect f p (unlinkState c o (sourceBlock_ ci) (openGroup s))
      = Ok s3 /\ s' = closeGroup s s3) as (s3 & Hre & ->).
  { unfold p, ci. destruct (isSuperior cn).
    - erewrite disconnectInternal__eq in H;
        [|by rewrite conns_openGroup|done|by rewrite conns_openGroup].
      rewrite bind_ret_l in H. apply bind_Ok in H as (s3 & Hre & H).
      exists s3. split; [done|]. by injection H.
    - erewrite disconnectInternal__eq in H;
        [|by rewrite conns_openGroup|done|by rewrite conns_openGroup].
      rewrite bind_ret_l in H. apply bind_Ok in H as (s3 & Hre & H).
      exists s3. split; [done|]. by injection H. }
  clear H.
  assert (conns s !! p = Some cp /\ conns s !! i = Some ci /\
          isSuperior cp = true /\ isSuperior ci = false /\
          targetConnection cp = Some i /\ targetConnection ci = Some p /\
          p <> i /\ ((p = c /\ i = o) \/ (p = o /\ i = c)) /\
          (p, i) = (if isSuperior cn then (c, o) else (o, c)))
    as (Hp & Hi & Hsp & Hsi & Htp & Hti & Hpi & Hcases & Hpair).
  { unfold p, i, cp, ci. destruct (isSuperior cn) eqn:E; simpl in Hsup.
    - repeat split; try done. + by apply negb_true_iff. + by left.
    - repeat split; try done. + by apply negb_false_iff. + by right. }
  clearbody p i cp ci.
  set (s2 := unlinkState c o (sourceBlock_ ci) (openGroup s)) in *.
  assert (WF s2) as Hwf2.
  { eapply WF_unlinkState; [by apply WF_openGroup| |done].
    by rewrite conns_openGroup. }
  assert (forall x, conns s2 !! x =
            if decide (x = p \/ x = i) then withTarget None <$> conns s !! x
            else conns s !! x) as Hs2.
  { intros x. unfold s2. rewrite conns_unlinkState, !conns_openGroup.
    rewrite (decide_False (P := o = c)) by done.
    destruct (decide (c = x)) as [->|];
      [by rewrite decide_True by intuition congruence|].
    destruct (decide (o = x)) as [->|];
      [by rewrite decide_True by intuition congruence|].
    by rewrite decide_False by intuition congruence. }
  assert (conns s2 !! p = Some (withTarget None cp)) as Hp2.
  { rewrite Hs2, decide_True by auto. by rewrite Hp. }
  destruct (respawn_free canConnect chk_typed f p s2 s3 _ Hwf2 Hp2 eq_refl Hre)
    as (Hwf3 & Hfr & (t & Hpt & Htf) & Hbl & Htm & Hnone).
  exists on, p, i, cp, ci.
  split; [done|]. split; [done|].
  split; [done|]. split; [done|]. split; [done|]. split; [done|].
  split; [done|]. split; [done|].
  split; [by apply WF_closeGroup|].
  split.
  { intros x cx Hx Hxp Hxi. rewrite conns_closeGroup. apply Hfr; [|done].
    rewrite Hs2, decide_False by intuition congruence. done. }
  split.
  { rewrite conns_closeGroup. apply Hfr; [|done].
    rewrite Hs2, decide_True by auto. by rewrite Hi. }
  split.
  { exists t. split; [by rewrite conns_closeGroup|]. split.
    - destruct Htf as [->|(n & -> & Hn)]; [by left|]. right. exists n.
      split; [done|]. rewrite Hs2 in Hn. case_decide; [|done].
      by destruct (conns s !! n).
    - intros Hsd. specialize (Hnone Hsd). subst s3.
      rewrite Hp2 in Hpt. by simplify_eq/=. }
  split.
  { intros b blk Hb. rewrite blocks_closeGroup.
    assert (blocks s2 !! b =
            Some (if decide (b = sourceBlock_ ci) then withParent None blk else blk))
      as Hb2.
    { unfold s2. rewrite blocks_unlinkState, blocks_openGroup.
      destruct (decide (sourceBlock_ ci = b)) as [<-|].
      - by rewrite Hb, decide_True.
      - by rewrite decide_False. }
    by apply Hbl. }
  rewrite timers_closeGroup, Htm. unfold s2.
  by rewrite timers_unlinkState, timers_openGroup.
Qed.

End Disconnect.

(** ** Teardown: disconnecting and disposing only remove links *)

Lemma teardown_refl s : teardown s s.
Proof.
  split; [|split; [|done]].
  - intros c cn Hc. exists cn. split; [done|]. repeat split; by left.
  - intros b blk Hb. exists blk. split; [done|]. by left.
Qed.

Lemma teardown_trans s1 s2 s3 :
  teardown s1 s2 -> teardown s2 s3 -> teardown s1 s3.
Proof.
  intros (C1 & B1 & T1) (C2 & B2 & T2). split; [|split; [|congruence]].
  - intros c cn Hc.
    destruct (C1 _ _ Hc) as (cn' & Hc' & Hb1 & Hy1 & Ht1 & Hd1).
    destruct (C2 _ _ Hc') as (cn'' & Hc'' & Hb2 & Hy2 & Ht2 & Hd2).
    exists cn''. split; [done|]. split; [congruence|]. split; [congruence|].
    split.
    + destruct Ht2 as [Ht2|[Ht2|(Hs2 & n & Hn & Hf)]].
      * rewrite Ht2. destruct Ht1 as [?|[?|(? & n & ? & ?)]]; eauto 8.
      * auto.
      * right; right. split.
        -- destruct Ht1 as [Ht1|[Ht1|(? & _)]]; [by rewrite <- Ht1| |done].
           rewrite Ht1 in Hs2. by destruct Hs2.
        -- exists n. split; [done|].
           destruct (conns s1 !! n) as [x|] eqn:Hx; [|done].
           destruct (C1 _ _ Hx) as (? & ? & _). congruence.
    + destruct Hd2 as [-> | ->]; auto.
  - intros b blk Hb.
    destruct (B1 _ _ Hb) as (blk' & Hb' & K1).
    destruct (B2 _ _ Hb') as (blk'' & Hb'' & K2).
    exists blk''. split; [done|]. unfold blockTorn in *.
    destruct K2 as [-> | ->]; auto.
Qed.

Lemma teardown_updConn c f s :
  (forall cn, sourceBlock_ (f cn) = sourceBlock_ cn /\ type (f cn) = type cn /\
              targetConnection (f cn) = targetConnection cn /\
              (shadowDom_ (f cn) = shadowDom_ cn \/ shadowDom_ (f cn) = None)) ->
  teardown s (updConn c f s).
Proof.
  intros Hf. split; [|split; [|done]].
  - intros x cn Hx. rewrite lookup_updConn. case_decide; subst.
    + rewrite Hx. simpl. eexists; split; [done|].
      destruct (Hf cn) as (Hb & Hy & Ht & Hd). repeat split; auto.
    + exists cn. split; [done|]. repeat split; by left.
  - intros b blk Hb. exists blk. split; [done|]. by left.
Qed.

Lemma teardown_setWorkspace b w s : teardown s (setWorkspace b w s).
Proof.
  split; [|split; [|done]].
  - intros x cn Hx. exists cn. split; [done|]. repeat split; by left.
  - intros x blk Hx. unfold setWorkspace. rewrite lookup_updBlock.
    case_decide; subst.
    + rewrite Hx. simpl. eexists; split; [done|]. by left.
    + exists blk. split; [done|]. by left.
Qed.

(** Free connections stay free, parentless blocks stay parentless. *)
Lemma teardown_free s s' x ty :
  teardown s s' -> freeAt s x ty -> freeAt s' x ty.
Proof.
  intros (C & _) (cn & Hc & Ht & Hty).
  destruct (C _ _ Hc) as (cn' & Hc' & _ & Hy & Htg & _).
  exists cn'. split; [done|]. split; [|congruence]. rewrite Ht in Htg.
  destruct Htg as [?|[?|(Hs & _)]]; [done|done|]. by destruct Hs.
Qed.

Section Teardown.

Variable canConnect : Workspace -> State -> ConnId -> ConnId -> bool -> bool.
Hypothesis chk_typed : checkerTyped canConnect.

Lemma disconnect_teardown f c s s' :
  WF s -> disconnect canConnect f c s = Ok s' -> WF s' /\ teardown s s'.
Proof using chk_typed.
  intros Hwf H.
  assert (exists cn o, conns s !! c = Some cn /\ targetConnection cn = Some o)
    as (cn & o & Hc & Ht).
  { destruct f as [|f]; [discriminate|]. rewrite disconnect_unfold in H.
    apply bind_Ok in H as (cn & E & H). res_inv E.
    apply bind_Ok in H as (o & E' & H). res_inv E'. eauto. }
  destruct (disconnect_props canConnect chk_typed f c s s' cn o Hwf Hc Ht H)
    as (on & p & i & cp & ci & Ho & _ & Hp & Hi & _ & _ & Htp & Hti & Hwf' &
        Hfr & Hi' & (t & Hp' & Htf & _) & Hbl & Htm).
  split; [done|]. split; [|split; [|done]].
  - intros x cx Hx.
    destruct (decide (x = p)) as [->|Hxp].
    { simplify_eq. eexists; split; [done|].
      split; [done|]. split; [done|]. split; [|by left]. simpl.
      destruct Htf as [->|(n & -> & Hn)]; [by auto|].
      right; right. rewrite Htp. eauto. }
    destruct (decide (x = i)) as [->|Hxi].
    { simplify_eq. eexists; split; [done|].
      split; [done|]. split; [done|]. split; [|by left]. simpl. auto. }
    exists cx. split; [by apply Hfr|]. repeat split; by left.
  - intros b blk Hb. rewrite (Hbl _ _ Hb). eexists; split; [done|].
    unfold blockTorn. case_decide; simpl; auto.
Qed.

Lemma blockUnplug_teardown f b s s' :
  WF s -> blockUnplug canConnect f b s = Ok s' -> WF s' /\ teardown s s'.
Proof using chk_typed.
  intros Hwf H. destruct f as [|f]; [discriminate|]. simpl in H.
  res_inv H; eauto using disconnect_teardown, teardown_refl.
Qed.

Lemma forEach_teardown {A} (body : A -> State -> result State) l :
  (forall a s s', WF s -> body a s = Ok s' -> WF s' /\ teardown s s') ->
  forall s s', WF s -> forEach body l s = Ok s' -> WF s' /\ teardown s s'.
Proof.
  intros Hb. induction l as [|a l IH]; simpl; intros s s' Hwf H.
  - injection H as ->. eauto using teardown_refl.
  - apply bind_Ok in H as (s1 & E & H).
    destruct (Hb _ _ _ Hwf E) as [Hwf1 T1].
    destruct (IH _ _ Hwf1 H) as [Hwf2 T2].
    eauto using teardown_trans.
Qed.

Theorem dispose_teardown f :
  (forall c s s', WF s -> dispose canConnect f c s = Ok s' ->
     WF s' /\ teardown s s') /\
  (forall b s s', WF s -> blockDispose canConnect f b s = Ok s' ->
     WF s' /\ teardown s s').
Proof using chk_typed.
  induction f as [|f [IHx IHb]]; [split; intros; discriminate|].
  split.
  - intros c s s' Hwf H. simpl in H.
    apply bind_Ok in H as (cn & E & H). res_inv E.
    apply bind_Ok in H as (s1 & E1 & H). injection H as <-.
    assert (WF s1 /\ teardown s s1) as [Hwf1 T1].
    { destruct (isConnected cn); [|injection E1 as <-; eauto using teardown_refl].
      assert (WF (setShadowDom c None s)) as Hwf0 by by apply WF_setShadowDom.
      assert (teardown s (setShadowDom c None s)) as T0.
      { apply teardown_updConn. intros x. repeat split; by right. }
      res_inv E1.
      + destruct (IHb _ _ _ Hwf0 E1). eauto using teardown_trans.
      + destruct (blockUnplug_teardown _ _ _ _ Hwf0 E1).
        eauto using teardown_trans. }
    split; [by apply WF_setDisposed|].
    eapply teardown_trans; [exact T1|].
    apply teardown_updConn. intros x. repeat split; by left.
  - intros b s s' Hwf H. simpl in H.
    apply bind_Ok in H as (s1 & E1 & H).
    apply bind_Ok in H as (blk & E2 & H).
    destruct (blockUnplug_teardown _ _ _ _ Hwf E1) as [Hwf1 T1].
    assert (WF (setWorkspace b None s1)) as Hwf2 by by apply WF_setWorkspace.
    destruct (forEach_teardown _ _ IHx _ _ Hwf2 H) as [Hwf3 T3].
    split; [done|].
    eapply teardown_trans; [exact T1|].
    eapply teardown_trans; [apply teardown_setWorkspace|exact T3].
Qed.

End Teardown.

(** ** The structure of [connect_] *)

Section ConnectInv.

Variable canConnect : Workspace -> State -> ConnId -> ConnId -> bool -> bool.

Lemma targetBlock_Ok s c b :
  targetBlock s c = Ok b ->
  exists cn, conns s !! c = Some cn /\
    match b with
    | Some b => exists t tn, targetConnection cn = Some t /\
                  conns s !! t = Some tn /\ sourceBlock_ tn = b
    | None => targetConnection cn = None
    end.
Proof.
  unfold targetBlock. intros H. apply bind_Ok in H as (cn & E & H). res_inv E.
  exists cn. split; [done|]. destruct (targetConnection cn) as [t|] eqn:Ht.
  - apply bind_Ok in H as (tn & E' & H). res_inv E'. injection H as <-. eauto.
  - by injection H as <-.
Qed.

(** [connect_] is: disconnect the child, resolve the orphan, link. *)
Lemma connect__inv f P C s s' :
  connect_ canConnect (S f) P C s = Ok s' ->
  exists pc cc s1 s2,
    conns s !! P = Some pc /\ conns s !! C = Some cc /\
    (if isConnected cc then disconnect canConnect f C s else Ok s) = Ok s1 /\
    resolveOrphan canConnect f P (sourceBlock_ cc) s1 s2 /\
    s' = linkState P C (sourceBlock_ pc) (sourceBlock_ cc) s2.
Proof.
  intros H. simpl in H.
  apply bind_Ok in H as (pc & EP & H). res_inv EP.
  apply bind_Ok in H as (cc & EC & H). res_inv EC.
  apply bind_Ok in H as (s1 & E1 & H).
  exists pc, cc, s1.
  apply bind_Ok in H as (pc1 & EP1 & H). res_inv EP1.
  apply bind_Ok in H as (s2 & E2 & H). injection H as <-.
  exists s2. split; [done|]. split; [done|]. split; [done|]. split; [|done].
  clear E1 EP EC.
  unfold isConnected in E2.
  destruct (targetConnection pc1) as [xc|] eqn:Ht.
  2:{ injection E2 as <-. by eapply ResolveFree. }
  apply bind_Ok in E2 as (ob0 & ET & E2).
  apply targetBlock_Ok in ET as (? & ? & ET). simplify_eq.
  apply bind_Ok in E2 as (X & EX & E2). res_inv EX. subst ob0.
  destruct ET as (t & xn & ? & Hxn & <-). simplify_eq.
  apply bind_Ok in E2 as (ob & Eob & E2). res_inv Eob. simpl in Eob.
  apply bind_Ok in E2 as ([[orphan sd] sB'] & Ebr & E2).
  apply bind_Ok in E2 as (sB & Efin & E2). injection E2 as <-.
  destruct (isShadow ob) eqn:Hsh.
  { res_inv Ebr; try res_inv Efin. by eapply ResolveShadow. }
  destruct (bool_decide (type pc1 = INPUT_VALUE)) eqn:Hty.
  { apply bool_decide_eq_true in Hty.
    apply bind_Ok in Ebr as (out & Eout & Ebr). res_inv Eout.
    apply bind_Ok in Ebr as (conn & Erow & Ebr).
    destruct conn as [slot|].
    - res_inv Ebr; try res_inv Efin. by eapply ResolveRehomedValue.
    - injection Ebr as <- <- <-. res_inv Efin.
      eapply ResolveOrphaned; [done|done|done|done|done| |done]. left. eauto. }
  apply bool_decide_eq_false in Hty.
  destruct (bool_decide (type pc1 = NEXT_STATEMENT)) eqn:Hty2.
  { apply bool_decide_eq_true in Hty2.
    apply bind_Ok in Ebr as (prev & Eprev & Ebr). res_inv Eprev.
    apply bind_Ok in Ebr as (nx & Enx & Ebr).
    destruct nx as [slot|].
    - apply bind_Ok in Ebr as (ws & Ews & Ebr). res_inv Ews.
      destruct (canConnect ws _ prev slot false) eqn:Hchk.
      + res_inv Ebr; try res_inv Efin. by eapply ResolveRehomedNext.
      + injection Ebr as <- <- <-. res_inv Efin.
        eapply ResolveOrphaned; [done|done|done|done|done| |done]. right; left. split; [done|].
        exists prev. split; [done|]. right. eauto.
    - injection Ebr as <- <- <-. res_inv Efin.
      eapply ResolveOrphaned; [done|done|done|done|done| |done]. right; left. split; [done|].
      exists prev. split; [done|]. by left. }
  apply bool_decide_eq_false in Hty2.
  injection Ebr as <- <- <-. res_inv Efin.
  eapply ResolveOrphaned; [done|done|done|done|done| |done]. right; right. done.
Qed.

End ConnectInv.

(** ** The search for a new home *)

Section Search.

Variable canConnect : Workspace -> State -> ConnId -> ConnId -> bool -> bool.

Lemma singleConnectionLoop_spec s out ws inputs acc r :
  getConnectionChecker s out = Ok ws ->
  singleConnectionLoop canConnect s (Some out) inputs acc = Ok r ->
  r = match acc, List.filter (eligible canConnect s ws out) inputs with
      | None, [] => None
      | None, [i] => i
      | None, _ => None
      | Some a, [] => Some a
      | Some _, _ => None
      end.
Proof.
  intros Hws. revert acc. induction inputs as [|i inputs IH]; intros acc H.
  { simpl in H. injection H as <-. by destruct acc. }
  simpl in H. rewrite Hws in H. simpl in H.
  apply bind_Ok in H as (accepts & Ea & H).
  assert (accepts = eligible canConnect s ws out i) as ->.
  { destruct i as [tc|]; simpl in *; [|by injection Ea].
    apply bind_Ok in Ea as (tcn & E & Ea). res_inv E. rewrite E.
    by injection Ea. }
  simpl. destruct (eligible canConnect s ws out i) eqn:He.
  - destruct acc as [a|].
    + injection H as <-. done.
    + apply IH in H. rewrite H.
      destruct i as [tc|]; [|done].
      by destruct (List.filter _ inputs).
  - by apply IH in H.
Qed.

Lemma eligible_true s ws out i :
  eligible canConnect s ws out i = true ->
  exists c cn, i = Some c /\ conns s !! c = Some cn /\
    type cn = INPUT_VALUE /\ canConnect ws s out c false = true.
Proof.
  destruct i as [c|]; simpl; [|done].
  destruct (conns s !! c) as [cn|] eqn:Hc; [|done].
  intros [Hty Hchk]%andb_true_iff. apply bool_decide_eq_true in Hty. eauto 8.
Qed.

Lemma filter_singleton {A} (p : A -> bool) l x :
  List.filter p l = [x] -> p x = true /\ In x l.
Proof.
  intros H. assert (In x (List.filter p l)) as Hin by (rewrite H; by left).
  apply filter_In in Hin. tauto.
Qed.

(** [singleConnection_] returns the one eligible input of the block, if it
    has exactly one. *)
Lemma singleConnection__Some s block orphanBlock c :
  singleConnection_ canConnect s block orphanBlock = Ok (Some c) ->
  exists ob out ws,
    blocks s !! orphanBlock = Some ob /\ outputConnection ob = Some out /\
    getConnectionChecker s out = Ok ws /\
    eligibleInputs canConnect s block ws out = [Some c].
Proof.
  unfold singleConnection_. intros H.
  apply bind_Ok in H as (ob & Eo & H). res_inv Eo.
  apply bind_Ok in H as (blk & Eb & H). res_inv Eb.
  destruct (inputList blk) as [|i inputs] eqn:Hin; [discriminate|].
  destruct (outputConnection ob) as [out|] eqn:Hout; [|discriminate].
  destruct (getConnectionChecker s out) as [ws| |] eqn:Hws;
    [|simpl in H; by rewrite Hws in H..].
  apply (singleConnectionLoop_spec _ _ _ _ _ _ Hws) in H.
  exists ob, out, ws. split; [done|]. split; [done|]. split; [done|].
  unfold eligibleInputs. rewrite Eb, Hin.
  destruct (List.filter _ (i :: inputs)) as [|j [|k l]]; simplify_eq. done.
Qed.

Lemma singleConnection__None s block orphanBlock ob out ws :
  blocks s !! orphanBlock = Some ob -> outputConnection ob = Some out ->
  getConnectionChecker s out = Ok ws ->
  singleConnection_ canConnect s block orphanBlock = Ok None ->
  forall c, eligibleInputs canConnect s block ws out <> [Some c].
Proof.
  unfold singleConnection_. intros Hob Hout Hws H c.
  rewrite (getBlock_Some _ _ _ Hob), bind_ret_l in H.
  apply bind_Ok in H as (blk & Eb & H). res_inv Eb.
  rewrite Hout in H.
  apply (singleConnectionLoop_spec _ _ _ _ _ _ Hws) in H.
  unfold eligibleInputs. rewrite Eb. intros Hf. rewrite Hf in H. done.
Qed.

Lemma eligibleInputs_singleton s block ws out c :
  eligibleInputs canConnect s block ws out = [Some c] ->
  exists cn, conns s !! c = Some cn /\ type cn = INPUT_VALUE /\
    canConnect ws s out c false = true.
Proof.
  unfold eligibleInputs. destruct (blocks s !! block); [|done].
  intros [He _]%filter_singleton.
  apply eligible_true in He as (c' & cn & [= <-] & ?). eauto.
Qed.

Lemma targetBlock_gone s c b :
  targetBlock s c = Ok b ->
  match b with
  | None => True
  | Some b => exists blk, blocks s !! b = Some blk /\ isShadow blk = true
  end -> occupantGone s c.
Proof.
  intros (cn & Hc & Hb)%targetBlock_Ok Hs pc xc Hpc Ht. simplify_eq.
  destruct b as [b|].
  - destruct Hb as (t & tn & ? & ? & <-). simplify_eq.
    destruct Hs as (blk & ? & ?). eauto.
  - congruence.
Qed.

(** The result of [lastConnectionInRow] is the end of the walk. *)
Lemma lastConnectionInRow_walk f s start orphanBlock ob out ws r :
  blocks s !! orphanBlock = Some ob -> outputConnection ob = Some out ->
  getConnectionChecker s out = Ok ws ->
  lastConnectionInRow canConnect f s start orphanBlock = Ok r ->
  rowWalk canConnect s ws out start r.
Proof.
  intros Hob Hout Hws. revert start.
  induction f as [|f IH]; intros start H; [discriminate|].
  simpl in H. apply bind_Ok in H as (conn & Es & H).
  destruct conn as [c|].
  2:{ injection H as <-. apply RowFail.
      eapply singleConnection__None; eauto. }
  apply singleConnection__Some in Es as (ob' & out' & ws' & ? & ? & Hws' & Hel).
  simplify_eq. rewrite Hws in Hws'. injection Hws' as <-.
  apply bind_Ok in H as (nbo & Et & H).
  destruct nbo as [nb|].
  2:{ injection H as <-. apply RowFound; [done|].
      by eapply targetBlock_gone. }
  apply bind_Ok in H as (blk & Eb & H). res_inv Eb.
  destruct (isShadow blk) eqn:Hsh.
  { injection H as <-. apply RowFound; [done|].
    eapply targetBlock_gone; [exact Et|]. simpl. eauto. }
  apply targetBlock_Ok in Et as (cn & Hc & t & tn & Ht & Htn & <-).
  eapply RowDown; eauto.
Qed.

Lemma rowWalk_Some s ws out start c :
  rowWalk canConnect s ws out start (Some c) ->
  occupantGone s c /\
  exists cn, conns s !! c = Some cn /\ type cn = INPUT_VALUE /\
    canConnect ws s out c false = true.
Proof.
  intros H. remember (Some c) as r eqn:Hr.
  induction H as [| block c' Hel Hg | ]; simplify_eq; [|by auto].
  split; [done|]. by eapply eligibleInputs_singleton.
Qed.

(** The walk down the next-statement chain stops at a next connection that
    is free or holds a placeholder. *)
Lemma lastNextConnection_Some f s start slot :
  lastNextConnection f s start = Ok (Some slot) ->
  occupantGone s slot /\ exists cn, conns s !! slot = Some cn.
Proof.
  revert start. induction f as [|f IH]; intros start H; [discriminate|].
  simpl in H. apply bind_Ok in H as (blk & Eb & H). res_inv Eb.
  destruct (nextConnection blk) as [n|]; [|discriminate].
  apply bind_Ok in H as (nbo & Et & H).
  pose proof Et as (cn & Hcn & _)%targetBlock_Ok.
  destruct nbo as [nb|].
  2:{ injection H as <-. split; [|eauto]. by eapply targetBlock_gone. }
  apply bind_Ok in H as (nblk & Enb & H). res_inv Enb.
  destruct (isShadow nblk) eqn:Hsh; [|by eauto].
  injection H as <-. split; [|eauto].
  eapply targetBlock_gone; [exact Et|]. simpl. eauto.
Qed.

End Search.

(** ** The structure of [connect] *)

Section ConnectStructure.

Variable canConnect : Workspace -> State -> ConnId -> ConnId -> bool -> bool.

Lemma connect_inv f A B s s' :
  connect canConnect (S f) A B s = Ok s' ->
  exists ca, conns s !! A = Some ca /\
    ((targetConnection ca = Some B /\ s' = s) \/
     (targetConnection ca <> Some B /\
      exists ws, getConnectionChecker s A = Ok ws /\
        ((canConnect ws s A B false = false /\ s' = s) \/
         (canConnect ws s A B false = true /\
          exists s2,
            (if isSuperior ca
             then connect_ canConnect f A B (openGroup s)
             else connect_ canConnect f B A (openGroup s)) = Ok s2 /\
            s' = closeGroup s s2)))).
Proof.
  intros H.
  change (connect canConnect (S f) A B s) with
    (cn ← getConn s A;
     if bool_decide (targetConnection cn = Some B) then Ok s
     else
       checker ← getConnectionChecker s A;
       if canConnect checker s A B false then
         s2 ← (if isSuperior cn then connect_ canConnect f A B (openGroup s)
               else connect_ canConnect f B A (openGroup s));
         Ok (closeGroup s s2)
       else Ok s) in H.
  apply bind_Ok in H as (ca & E & H). res_inv E. exists ca. split; [done|].
  case_bool_decide as Ht.
  { injection H as <-. by left. }
  right. split; [done|].
  apply bind_Ok in H as (ws & Ews & H). exists ws. split; [done|].
  destruct (canConnect ws s A B false).
  - right. split; [done|]. apply bind_Ok in H as (s2 & E2 & H).
    injection H as <-. eauto.
  - injection H as <-. by left.
Qed.

End ConnectStructure.

(** ** Free connections under updates that keep the links *)

Lemma freeAt_conns s s' x ty :
  conns s' !! x = conns s !! x -> freeAt s x ty -> freeAt s' x ty.
Proof. intros E (cx & ? & ?). exists cx. by rewrite E. Qed.

Lemma freeAt_setShadowDom c d s x ty :
  freeAt s x ty -> freeAt (setShadowDom c d s) x ty.
Proof.
  intros (cx & Hx & Ht & Hy). unfold freeAt, setShadowDom.
  rewrite lookup_updConn. case_decide; subst; [|eauto].
  rewrite Hx. simpl. eauto.
Qed.

Lemma freeAt_unsetShadowDom c d s x ty :
  freeAt (setShadowDom c d s) x ty -> freeAt s x ty.
Proof.
  intros (cx & Hx & Ht & Hy). unfold freeAt, setShadowDom in *.
  rewrite lookup_updConn in Hx. case_decide; subst; [|eauto].
  destruct (conns s !! x) as [cx0|]; [|done]. simpl in Hx.
  injection Hx as <-. eauto.
Qed.

Lemma conns_bumpLater o p s : conns (bumpLater o p s) = conns s.
Proof. unfold bumpLater. by destruct (recordUndo _). Qed.

Lemma blocks_bumpLater o p s : blocks (bumpLater o p s) = blocks s.
Proof. unfold bumpLater. by destruct (recordUndo _). Qed.

Lemma WF_bumpLater o p s : WF s -> WF (bumpLater o p s).
Proof.
  apply WF_sameLinks, sameLinks_same;
    [apply conns_bumpLater|apply blocks_bumpLater].
Qed.

Lemma isSuperior_kind cn :
  isSuperior cn = false <-> inferiorKind (type cn).
Proof.
  unfold isSuperior, inferiorKind.
  destruct (type cn); simpl; intuition congruence.
Qed.

(** The occupant of a superior connection is plugged into it. *)
Lemma WF_occupant s P pc xc :
  WF s -> conns s !! P = Some pc -> isSuperior pc = true ->
  targetConnection pc = Some xc ->
  exists xn ob,
    conns s !! xc = Some xn /\ targetConnection xn = Some P /\
    isSuperior xn = false /\ opposite (type pc) (type xn) = true /\
    blocks s !! sourceBlock_ xn = Some ob /\ plugOf ob = Some xc /\ xc <> P /\
    (type pc = INPUT_VALUE -> outputConnection ob = Some xc) /\
    (type pc = NEXT_STATEMENT -> previousConnection ob = Some xc).
Proof.
  intros [Hok Hlk] HP Hsup Ht.
  destruct (linkOk_elim _ _ _ _ (Hlk _ _ HP) Ht) as (xn & Hxn & Hback & Hopp).
  pose proof (Hok _ _ Hxn) as Hc. unfold connOk in Hc.
  destruct (blocks s !! sourceBlock_ xn) as [ob|] eqn:Hob; [|done].
  destruct Hc as [Hout Hprev].
  exists xn, ob. split; [done|]. split; [done|].
  pose proof (opposite_superior _ _ Hopp) as Hs. rewrite Hsup in Hs.
  split; [by destruct (isSuperior xn)|]. split; [done|]. split; [done|].
  assert (xc <> P) by (intros ->; simplify_eq; by rewrite opposite_irrefl in Hopp).
  unfold plugOf, isSuperior in *.
  destruct (type pc) eqn:Hty, (type xn) eqn:Hty'; try done.
  - rewrite Hout by done. done.
  - destruct Hprev as [-> ->]; done.
Qed.

(** ** Detaching the occupant of a superior connection *)

Section Detach.

Variable canConnect : Workspace -> State -> ConnId -> ConnId -> bool -> bool.
Hypothesis chk_typed : checkerTyped canConnect.

(** Disconnecting either end of the link between a superior connection [P]
    and its occupant [xc]. *)
Lemma disconnect_occupant f c s s' P pc xc xn :
  WF s -> conns s !! P = Some pc -> isSuperior pc = true ->
  targetConnection pc = Some xc -> conns s !! xc = Some xn ->
  c = P \/ c = xc ->
  disconnect canConnect f c s = Ok s' ->
  WF s' /\ teardown s s' /\
  conns s' !! xc = Some (withTarget None xn) /\
  (exists t, conns s' !! P = Some (withTarget t pc) /\
     (t = None \/ exists n, t = Some n /\ conns s !! n = None) /\
     (shadowDom_ pc = None -> t = None)) /\
  (forall x cx, conns s !! x = Some cx -> x <> P -> x <> xc ->
     conns s' !! x = Some cx) /\
  (forall b blk, blocks s !! b = Some blk ->
     blocks s' !! b =
     Some (if decide (b = sourceBlock_ xn) then withParent None blk else blk)).
Proof using chk_typed.
  intros Hwf HP Hsup Ht Hxn Hc H.
  destruct (WF_occupant _ _ _ _ Hwf HP Hsup Ht)
    as (xn' & ob & Hxn' & Hback & Hinf & Hopp & Hob & Hplug & Hne & _).
  simplify_eq.
  destruct (disconnect_teardown canConnect chk_typed _ _ _ _ Hwf H) as [Hwf' Htd].
  assert (exists cn o, conns s !! c = Some cn /\ targetConnection cn = Some o /\
            (if isSuperior cn then (c, o) else (o, c)) = (P, xc))
    as (cn & o & Hcn & Hto & Hpi).
  { destruct Hc as [-> | ->].
    - exists pc, xc. by rewrite Hsup.
    - exists xn, P. by rewrite Hinf. }
  destruct (disconnect_props canConnect chk_typed f c s s' cn o Hwf Hcn Hto H)
    as (on & p & i & cp & ci & Ho & Hpair & Hp & Hi & _ & _ & Htp & Hti & _ &
        Hfr & Hi' & Hp' & Hbl & Htm).
  rewrite Hpi in Hpair. injection Hpair as -> ->. simplify_eq.
  split; [done|]. split; [done|]. split; [done|]. split; [done|].
  split; [done|]. done.
Qed.

(** [Block.unplug] on the occupant of a superior connection. *)
Lemma blockUnplug_occupant f s s' P pc xc xn :
  WF s -> conns s !! P = Some pc -> isSuperior pc = true ->
  targetConnection pc = Some xc -> conns s !! xc = Some xn ->
  blockUnplug canConnect f (sourceBlock_ xn) s = Ok s' ->
  WF s' /\ teardown s s' /\
  conns s' !! xc = Some (withTarget None xn) /\
  (exists t, conns s' !! P = Some (withTarget t pc) /\
     (t = None \/ exists n, t = Some n /\ conns s !! n = None) /\
     (shadowDom_ pc = None -> t = None)) /\
  (forall x cx, conns s !! x = Some cx -> x <> P -> x <> xc ->
     conns s' !! x = Some cx) /\
  (forall b blk, blocks s !! b = Some blk ->
     blocks s' !! b =
     Some (if decide (b = sourceBlock_ xn) then withParent None blk else blk)).
Proof using chk_typed.
  intros Hwf HP Hsup Ht Hxn H.
  destruct (WF_occupant _ _ _ _ Hwf HP Hsup Ht)
    as (xn' & ob & Hxn' & Hback & Hinf & Hopp & Hob & Hplug & Hne & _).
  simplify_eq.
  destruct f as [|f]; [discriminate|]. simpl in H.
  rewrite (getBlock_Some _ _ _ Hob), bind_ret_l in H.
  assert (disconnect canConnect f xc s = Ok s') as Hd.
  { unfold plugOf in Hplug.
    destruct (outputConnection ob) as [o|], (previousConnection ob) as [pv|];
      simplify_eq; rewrite (getConn_Some _ _ _ Hxn), bind_ret_l in H;
      unfold isConnected in H; by rewrite Hback in H. }
  eapply disconnect_occupant; eauto.
Qed.

(** [Block.dispose] on the occupant of a superior connection without
    template: the connection ends free. *)
Lemma blockDispose_occupant f s s' P pc xc xn :
  WF s -> conns s !! P = Some pc -> isSuperior pc = true ->
  targetConnection pc = Some xc -> conns s !! xc = Some xn ->
  shadowDom_ pc = None ->
  blockDispose canConnect f (sourceBlock_ xn) s = Ok s' ->
  WF s' /\ teardown s s' /\ freeAt s' P (type pc) /\ freeAt s' xc (type xn).
Proof using chk_typed.
  intros Hwf HP Hsup Ht Hxn Hsd H.
  destruct (dispose_teardown canConnect chk_typed f) as [IHx IHb].
  destruct (IHb _ _ _ Hwf H) as [Hwf' Htd].
  split; [done|]. split; [done|].
  destruct f as [|f]; [discriminate|]. simpl in H.
  apply bind_Ok in H as (sU & EU & H).
  apply bind_Ok in H as (blk & Eb & H).
  destruct (blockUnplug_occupant _ _ _ _ _ _ _ Hwf HP Hsup Ht Hxn EU)
    as (HwfU & _ & HxcU & (t & HPU & _ & Hnone) & _).
  rewrite (Hnone Hsd) in HPU.
  assert (WF (setWorkspace (sourceBlock_ xn) None sU)) as Hwf2
    by by apply WF_setWorkspace.
  destruct (dispose_teardown canConnect chk_typed f) as [IHx' _].
  destruct (forEach_teardown _ _ IHx' _ _ Hwf2 H) as [_ T3].
  split.
  - eapply teardown_free; [exact T3|]. eexists; split; [exact HPU|done].
  - eapply teardown_free; [exact T3|]. eexists; split; [exact HxcU|done].
Qed.

End Detach.

(** Whenever [connect_] returns, the child block is under the parent block. *)
Lemma connect__parent canConnect f P C s s' pc cc :
  conns s !! P = Some pc -> conns s !! C = Some cc ->
  is_Some (blocks s !! sourceBlock_ cc) ->
  connect_ canConnect f P C s = Ok s' ->
  parentOf s' (sourceBlock_ cc) = Some (sourceBlock_ pc).
Proof.
  intros HP HC [blk Hb] H. destruct f as [|f]; [discriminate|].
  destruct (extends_closed canConnect (S f)) as (_ & Hext & _).
  destruct (Hext _ _ _ _ H) as [_ Hbl].
  destruct (Hbl _ _ Hb) as (blk' & Hb' & _).
  apply connect__inv in H as (pc0 & cc0 & s1 & s2 & HP0 & HC0 & _ & _ & ->).
  rewrite HP in HP0. injection HP0 as <-.
  rewrite HC in HC0. injection HC0 as <-.
  unfold parentOf. rewrite blocks_linkState in Hb' |- *.
  rewrite decide_True in Hb' |- * by done.
  destruct (blocks s2 !! sourceBlock_ cc); by simplify_eq/=.
Qed.

(** ** [connect_] from a well-formed arena *)

Section Attach.

Variable canConnect : Workspace -> State -> ConnId -> ConnId -> bool -> bool.
Hypothesis chk_typed : checkerTyped canConnect.

(** The first step of [connect_]: the child connection is detached. *)
Lemma predisconnect f P C s s1 pc cc :
  WF s -> conns s !! P = Some pc -> conns s !! C = Some cc ->
  isSuperior pc = true -> opposite (type pc) (type cc) = true ->
  targetConnection pc <> Some C ->
  (if isConnected cc then disconnect canConnect f C s else Ok s) = Ok s1 ->
  WF s1 /\ teardown s s1 /\
  conns s1 !! P = Some pc /\ conns s1 !! C = Some (withTarget None cc) /\
  (forall q cq, targetConnection cc = Some q -> conns s !! q = Some cq ->
     exists t, conns s1 !! q = Some (withTarget t cq) /\
               (shadowDom_ cq = None -> t = None)) /\
  (forall x cx, conns s !! x = Some cx -> x <> C ->
     targetConnection cc <> Some x -> conns s1 !! x = Some cx) /\
  (forall b blk, blocks s !! b = Some blk ->
     exists blk', blocks s1 !! b = Some blk' /\ isShadow blk' = isShadow blk /\
       (b <> sourceBlock_ cc -> blk' = blk) /\
       (blk' = blk \/ blk' = withParent None blk)).
Proof using chk_typed.
  intros Hwf HP HC Hsup Hopp Hnl H.
  assert (P <> C) as HPC.
  { intros ->. simplify_eq. by rewrite opposite_irrefl in Hopp. }
  unfold isConnected in H.
  destruct (targetConnection cc) as [q|] eqn:Htc.
  2:{ injection H as <-. split; [done|]. split; [apply teardown_refl|].
      split; [done|]. split.
      { rewrite HC. f_equal. destruct cc; simpl in *. by subst. }
      split; [done|]. split; [done|]. eauto 8. }
  pose proof Hwf as [_ Hlk].
  destruct (linkOk_elim _ _ _ _ (Hlk _ _ HC) Htc) as (cq & Hq & HqC & Hopp').
  pose proof (opposite_superior _ _ Hopp) as Hs1. rewrite Hsup in Hs1.
  pose proof (opposite_superior _ _ Hopp') as Hs2.
  assert (isSuperior cq = true) as Hsq.
  { destruct (isSuperior cq), (isSuperior cc); done. }
  assert (P <> q) as HPq by (intros ->; simplify_eq).
  destruct (disconnect_occupant canConnect chk_typed f C s s1 q cq C cc
              Hwf Hq Hsq HqC HC (or_intror eq_refl) H)
    as (Hwf1 & Htd & HC1 & (t & Hq1 & _ & Hnone) & Hfr & Hbl).
  split; [done|]. split; [done|]. split; [by apply Hfr|]. split; [done|].
  split.
  { intros q' cq' [= <-] Hq'. simplify_eq. eauto. }
  split.
  { intros x cx Hx HxC Hxq. apply Hfr; [done| |done]. congruence. }
  intros b blk Hb. rewrite (Hbl _ _ Hb). eexists. split; [done|].
  case_decide; [|by auto]. split; [done|]. split; [|by auto]. intros; by subst.
Qed.

(** An ordinary occupant contradicts [occupantGone]. *)
Lemma occupantGone_ordinary s P pc xc xn ob :
  conns s !! P = Some pc -> targetConnection pc = Some xc ->
  conns s !! xc = Some xn -> blocks s !! sourceBlock_ xn = Some ob ->
  isShadow ob = false -> occupantGone s P -> False.
Proof.
  intros HP Ht Hxn Hob Hsh Hg.
  destruct (Hg _ _ HP Ht) as (xn' & ob' & ? & ? & ?). simplify_eq. congruence.
Qed.

Lemma occupantGone_conns s s' c :
  conns s' = conns s -> blocks s' = blocks s ->
  occupantGone s c -> occupantGone s' c.
Proof. unfold occupantGone. by intros -> ->. Qed.

(** Re-homing by a nested [connect] whose own target displaces no ordinary
    block: the connection [P] that held the orphan ends free. *)
Lemma rehome_attached f P pA xc xn slot sn A B s sB :
  (forall P' C' s s' pc' cc',
     WF s -> conns s !! P' = Some pc' -> conns s !! C' = Some cc' ->
     isSuperior pc' = true -> opposite (type pc') (type cc') = true ->
     targetConnection pc' <> Some C' -> occupantGone s P' ->
     connect_ canConnect (pred f) P' C' s = Ok s' -> attached P' C' s s') ->
  WF s -> conns s !! P = Some pA -> isSuperior pA = true ->
  targetConnection pA = Some xc -> shadowDom_ pA = None ->
  conns s !! xc = Some xn ->
  conns s !! slot = Some sn -> occupantGone s slot -> slot <> P ->
  targetConnection sn <> Some xc ->
  (A = xc /\ B = slot) \/ (A = slot /\ B = xc) ->
  (forall ws, getConnectionChecker s A = Ok ws ->
              canConnect ws s A B false = true) ->
  connect canConnect f A B s = Ok sB ->
  WF sB /\ freeAt sB P (type pA) /\ linked sB slot xc /\
  (forall x ty, freeAt s x ty -> inferiorKind ty -> freeAt sB x ty) /\
  parentOf sB (sourceBlock_ xn) = Some (sourceBlock_ sn).
Proof using chk_typed.
  intros IH Hwf HP Hsup Ht Hsd Hxn Hslot Hgone Hne Hnl HAB Hchk H.
  destruct (WF_occupant _ _ _ _ Hwf HP Hsup Ht)
    as (xn' & ob & Hxn' & Hback & Hinf & Hopp & Hob & Hplug & HxcP & _).
  simplify_eq.
  destruct f as [|f]; [discriminate|].
  apply connect_inv in H as (ca & HA & H).
  assert (targetConnection ca <> Some B) as HnAB.
  { destruct HAB as [[-> ->]|[-> ->]]; simplify_eq; congruence. }
  destruct H as [[? _]|(_ & ws & Hws & H)]; [done|].
  pose proof (Hchk _ Hws) as Hacc.
  destruct H as [[? _]|(_ & s2 & Hc_ & ->)]; [congruence|].
  destruct (chk_typed _ _ _ _ Hacc) as (ca' & cb' & HA' & HB' & Hty).
  assert (isSuperior sn = true /\ opposite (type sn) (type xn) = true /\
          connect_ canConnect f slot xc (openGroup s) = Ok s2)
    as (Hsups & Hopps & Hcall).
  { destruct HAB as [[-> ->]|[-> ->]]; simplify_eq.
    - rewrite Hinf in Hc_. rewrite opposite_sym in Hty.
      pose proof (opposite_superior _ _ Hty) as Hs. rewrite Hinf in Hs.
      done.
    - pose proof (opposite_superior _ _ Hty) as Hs. rewrite Hinf in Hs.
      simpl in Hs. rewrite Hs in Hc_. done. }
  assert (attached slot xc (openGroup s) s2) as (Hwf2 & Hlk2 & HG3 & HG4).
  { eapply (IH slot xc (openGroup s) s2 sn xn); try done.
    - by apply WF_openGroup.
    - by rewrite conns_openGroup.
    - by rewrite conns_openGroup.
    - eapply occupantGone_conns; [| |exact Hgone];
        [apply conns_openGroup|apply blocks_openGroup]. }
  destruct HG4 as [_ HG4].
  { eapply occupantGone_conns; [| |exact Hgone];
      [apply conns_openGroup|apply blocks_openGroup]. }
  split; [by apply WF_closeGroup|].
  split.
  { eapply freeAt_conns; [by rewrite conns_closeGroup|].
    eapply (HG4 P pA); [| |done].
    - unfold target. rewrite conns_openGroup, Hxn. done.
    - by rewrite conns_openGroup. }
  split.
  { unfold linked, target in *. by rewrite conns_closeGroup. }
  split.
  { intros x ty Hfree Hinfk.
    eapply freeAt_conns; [by rewrite conns_closeGroup|].
    apply HG3; [|done|].
    - eapply freeAt_conns; [|exact Hfree]. by rewrite conns_openGroup.
    - intros ->. destruct Hfree as (cx & ? & ? & _). congruence. }
  unfold parentOf. rewrite blocks_closeGroup.
  eapply (connect__parent canConnect f slot xc (openGroup s) s2 sn xn);
    [by rewrite conns_openGroup|by rewrite conns_openGroup| |done].
  rewrite blocks_openGroup. eauto.
Qed.

(** Orphan resolution leaves [P] free. *)
Lemma resolve_attached f P cb s1 s2 pc :
  (forall P' C' s s' pc' cc',
     WF s -> conns s !! P' = Some pc' -> conns s !! C' = Some cc' ->
     isSuperior pc' = true -> opposite (type pc') (type cc') = true ->
     targetConnection pc' <> Some C' -> occupantGone s P' ->
     connect_ canConnect (pred f) P' C' s = Ok s' -> attached P' C' s s') ->
  checkerSymmetric canConnect \/ occupantGone s1 P ->
  WF s1 -> conns s1 !! P = Some pc -> isSuperior pc = true ->
  resolveOrphan canConnect f P cb s1 s2 ->
  WF s2 /\ freeAt s2 P (type pc) /\
  (forall x ty, freeAt s1 x ty -> inferiorKind ty -> freeAt s2 x ty) /\
  (occupantGone s1 P -> forall x ty, freeAt s1 x ty -> x <> P -> freeAt s2 x ty).
Proof using chk_typed.
  intros IH Hsym Hwf HP Hsup Hres.
  set (sA := setShadowDom P None s1).
  assert (WF sA) as HwfA by by apply WF_setShadowDom.
  assert (conns sA !! P = Some (withShadowDom None pc)) as HPA.
  { unfold sA, setShadowDom. rewrite lookup_updConn, decide_True by done.
    by rewrite HP. }
  assert (forall x, x <> P -> conns sA !! x = conns s1 !! x) as HA.
  { intros x Hx. unfold sA, setShadowDom.
    by rewrite lookup_updConn, decide_False. }
  destruct Hres as [pc0 HP0 Hfree
    | pc0 xc xn ob sB HP0 Ht Hxn Hob Hsh Hdisp
    | pc0 xc xn ob out slot sB HP0 Ht Hxn Hob Hsh Hty Hout Hrow Hcon
    | pc0 xc xn ob prev slot ws sB HP0 Ht Hxn Hob Hsh Hty Hprev Hnx Hws Hchk Hcon
    | pc0 xc xn ob sB HP0 Ht Hxn Hob Hsh Hwhy Hdis]; simplify_eq.
  - (* free *)
    split; [done|]. split; [by exists pc|]. split; auto.
  - (* placeholder *)
    destruct (WF_occupant _ _ _ _ Hwf HP Hsup Ht)
      as (xn' & ob' & ? & Hback & Hinf & Hopp & ? & Hplug & HxcP & _).
    simplify_eq.
    destruct (blockDispose_occupant canConnect chk_typed f sA sB P _ xc xn
                HwfA HPA Hsup Ht) as (HwfB & Htd & HfP & _); try done.
    { by rewrite HA. }
    split; [by apply WF_setShadowDom|].
    split; [by apply freeAt_setShadowDom|].
    assert (forall x ty, freeAt s1 x ty ->
      freeAt (setShadowDom P (Some (blockToDom sA (sourceBlock_ xn))) sB) x ty)
      as Hall.
    { intros x ty Hx. apply freeAt_setShadowDom.
      eapply teardown_free; [exact Htd|]. by apply freeAt_setShadowDom. }
    split; auto.
  - (* re-homed in a value input *)
    destruct (WF_occupant _ _ _ _ HwfA HPA Hsup Ht)
      as (xn' & ob' & HxnA & Hback & Hinf & Hopp & HobA & Hplug & HxcP & Hov & _).
    rewrite HA in HxnA by done. simplify_eq.
    change (blocks sA) with (blocks s1) in HobA. simplify_eq.
    simpl in Hov. rewrite Hov in Hout by done. injection Hout as <-.
    assert (exists ob0 out0 ws,
      blocks sA !! sourceBlock_ xn = Some ob0 /\ outputConnection ob0 = Some out0 /\
      getConnectionChecker sA out0 = Ok ws /\
      rowWalk canConnect sA ws out0 cb (Some slot))
      as (ob0 & out0 & ws & Hob0 & Hout0 & Hws & Hwalk).
    { destruct f as [|f']; [discriminate|]. pose proof Hrow as Hrow'.
      simpl in Hrow'. apply bind_Ok in Hrow' as ([c|] & Es & _).
      - apply singleConnection__Some in Es as (ob0 & out0 & ws & ? & ? & ? & _).
        exists ob0, out0, ws. repeat split; try done.
        eapply lastConnectionInRow_walk; eauto.
      - exfalso. simpl in Hrow.
        rewrite Es in Hrow. simpl in Hrow. discriminate. }
    change (blocks sA) with (blocks s1) in Hob0. simplify_eq.
    rewrite Hov in Hout0 by done. injection Hout0 as <-.
    destruct (rowWalk_Some _ _ _ _ _ _ Hwalk) as (Hgone & sn & Hsn & Htys & Hacc).
    assert (slot <> P) as HsP.
    { intros ->.
      eapply (occupantGone_ordinary sA P _ xc xn ob);
        [exact HPA|done|by rewrite HA|exact Hob|done|done]. }
    destruct (rehome_attached f P _ xc xn slot sn xc slot sA sB IH HwfA HPA Hsup Ht)
      as (HwfB & HfP & _ & Hinfs & _); try done.
    { by rewrite HA. }
    { intros Hts.
      eapply (occupantGone_ordinary sA slot _ xc xn ob);
        [exact Hsn|done|by rewrite HA|exact Hob|done|done]. }
    { by left. }
    { intros ws' Hws'. rewrite Hws in Hws'. by injection Hws' as <-. }
    split; [by apply WF_setShadowDom|].
    split; [by apply freeAt_setShadowDom|].
    split.
    { intros x ty Hx Hk. apply freeAt_setShadowDom, Hinfs; [|done].
      by apply freeAt_setShadowDom. }
    intros Hg. exfalso.
    eapply (occupantGone_ordinary s1 P _ xc xn ob); [exact HP|done..].
  - (* re-homed at the end of a stack *)
    destruct (WF_occupant _ _ _ _ HwfA HPA Hsup Ht)
      as (xn' & ob' & HxnA & Hback & Hinf & Hopp & HobA & Hplug & HxcP & _ & Hpv).
    rewrite HA in HxnA by done. simplify_eq.
    change (blocks sA) with (blocks s1) in HobA. simplify_eq.
    simpl in Hpv. rewrite Hpv in Hprev by done. injection Hprev as <-.
    destruct (lastNextConnection_Some _ _ _ _ Hnx) as (Hgone & sn & Hsn).
    assert (slot <> P) as HsP.
    { intros ->.
      eapply (occupantGone_ordinary sA P _ xc xn ob);
        [exact HPA|done|by rewrite HA|exact Hob|done|done]. }
    destruct (rehome_attached f P _ xc xn slot sn slot xc sA sB IH HwfA HPA Hsup Ht)
      as (HwfB & HfP & _ & Hinfs & _); try done.
    { by rewrite HA. }
    { intros Hts.
      eapply (occupantGone_ordinary sA slot _ xc xn ob);
        [exact Hsn|done|by rewrite HA|exact Hob|done|done]. }
    { by right. }
    { intros ws' Hws'. destruct Hsym as [chk_sym|Hg].
      - by rewrite (chk_sym ws' ws).
      - exfalso.
        eapply (occupantGone_ordinary s1 P _ xc xn ob); [exact HP|done..]. }
    split; [by apply WF_setShadowDom|].
    split; [by apply freeAt_setShadowDom|].
    split.
    { intros x ty Hx Hk. apply freeAt_setShadowDom, Hinfs; [|done].
      by apply freeAt_setShadowDom. }
    intros Hg. exfalso.
    eapply (occupantGone_ordinary s1 P _ xc xn ob); [exact HP|done..].
  - (* orphaned *)
    destruct (disconnect_occupant canConnect chk_typed f P sA sB P _ xc xn
                HwfA HPA Hsup Ht) as (HwfB & Htd & _ & (t & HPB & _ & Hnone) & _);
      try done.
    { rewrite HA; [done|]. intros ->. simplify_eq.
      destruct (WF_occupant _ _ _ _ Hwf HP Hsup Ht) as (?&?&?&?&?&?&?&?&?&_).
      done. }
    { by left. }
    rewrite Hnone in HPB by done.
    assert (forall x ty, freeAt sB x ty ->
      freeAt (setShadowDom P (shadowDom_ pc)
                (bumpLater (sourceBlock_ xn) P sB)) x ty) as Hup.
    { intros x ty Hx. apply freeAt_setShadowDom.
      eapply freeAt_conns; [|exact Hx]. by rewrite conns_bumpLater. }
    split; [by apply WF_setShadowDom, WF_bumpLater|].
    split; [apply Hup; eexists; split; [exact HPB|done]|].
    assert (forall x ty, freeAt s1 x ty ->
      freeAt (setShadowDom P (shadowDom_ pc)
                (bumpLater (sourceBlock_ xn) P sB)) x ty) as Hall.
    { intros x ty Hx. apply Hup. eapply teardown_free; [exact Htd|].
      by apply freeAt_setShadowDom. }
    split; auto.
Qed.

(** After linking, [P] and [C] target each other and nothing else moved. *)
Lemma linkState_attach s2 P C pc2 cc2 pb cb :
  WF s2 -> conns s2 !! P = Some pc2 -> conns s2 !! C = Some cc2 ->
  targetConnection pc2 = None -> targetConnection cc2 = None ->
  opposite (type pc2) (type cc2) = true ->
  WF (linkState P C pb cb s2) /\ linked (linkState P C pb cb s2) P C /\
  (forall x ty, freeAt s2 x ty -> x <> P -> x <> C ->
     freeAt (linkState P C pb cb s2) x ty).
Proof.
  intros Hwf HP HC HtP HtC Hopp.
  assert (P <> C) as HPC.
  { intros ->. simplify_eq. by rewrite opposite_irrefl in Hopp. }
  split; [eauto using WF_linkState|]. split.
  - unfold linked, target. rewrite !conns_linkState.
    rewrite (decide_False (P := C = P)) by done.
    rewrite !decide_True by done. rewrite (decide_False (P := P = C)) by done.
    by rewrite HP, HC.
  - intros x ty Hx HxP HxC. eapply freeAt_conns; [|exact Hx].
    rewrite conns_linkState. by rewrite !decide_False.
Qed.

(** [connect_] attaches: with a symmetric checker from any well-formed arena,
    and with any typed checker when [P] holds no ordinary block. *)
Lemma connect__attached_gen f P C s s' pc cc :
  checkerSymmetric canConnect \/ occupantGone s P ->
  WF s -> conns s !! P = Some pc -> conns s !! C = Some cc ->
  isSuperior pc = true -> opposite (type pc) (type cc) = true ->
  targetConnection pc <> Some C ->
  connect_ canConnect f P C s = Ok s' -> attached P C s s'.
Proof using chk_typed.
  revert P C s s' pc cc.
  induction f as [f IH] using lt_wf_ind.
  intros P C s s' pc cc Hsym Hwf HP HC Hsup Hopp Hnl H.
  destruct f as [|f]; [discriminate|].
  apply connect__inv in H as (pc0 & cc0 & s1 & s2 & ? & ? & H1 & Hres & ->).
  simplify_eq.
  assert (P <> C) as HPC.
  { intros ->. simplify_eq. by rewrite opposite_irrefl in Hopp. }
  destruct (predisconnect f P C s s1 pc cc Hwf HP HC Hsup Hopp Hnl H1)
    as (Hwf1 & Htd1 & HP1 & HC1 & Hq1 & Hfr1 & Hbl1).
  assert (forall P' C' s s' pc' cc',
     WF s -> conns s !! P' = Some pc' -> conns s !! C' = Some cc' ->
     isSuperior pc' = true -> opposite (type pc') (type cc') = true ->
     targetConnection pc' <> Some C' -> occupantGone s P' ->
     connect_ canConnect (pred f) P' C' s = Ok s' -> attached P' C' s s') as IH'.
  { intros. eapply (IH (pred f)); eauto. lia. }
  pose proof (opposite_superior _ _ Hopp) as Hsc. rewrite Hsup in Hsc.
  assert (isSuperior cc = false) as Hinfc by by destruct (isSuperior cc).
  assert (occupantGone s P -> occupantGone s1 P) as Hgone1'.
  { intros Hgone pc' xc HP' Ht'. simplify_eq.
    destruct (Hgone _ _ HP Ht') as (xn & ob & Hxn & Hob & Hsh).
    destruct (WF_occupant _ _ _ _ Hwf HP Hsup Ht')
      as (xn' & ob' & ? & Hback & Hinfx & _). simplify_eq.
    exists xn. destruct (Hbl1 _ _ Hob) as (ob1 & Hob1 & Hsh1 & _ & _).
    exists ob1. split; [|split; [done|congruence]].
    apply Hfr1; [done| |].
    - intros ->. simplify_eq.
    - intros Htc.
      pose proof Hwf as [_ Hlk].
      destruct (linkOk_elim _ _ _ _ (Hlk _ _ HC) Htc) as (tn & ? & _ & Ho).
      simplify_eq. pose proof (opposite_superior _ _ Ho) as Hs.
      rewrite Hinfc, Hinfx in Hs. done. }
  assert (checkerSymmetric canConnect \/ occupantGone s1 P) as Hsym1.
  { destruct Hsym; [by left|right; auto]. }
  destruct (resolve_attached f P (sourceBlock_ cc) s1 s2 pc IH' Hsym1 Hwf1 HP1 Hsup Hres)
    as (Hwf2 & (pc2 & HP2 & HtP2 & Hty2) & Hinf2 & Hsimple2).
  destruct (Hinf2 C (type cc)) as (cc2 & HC2 & HtC2 & Htyc2).
  { eexists; split; [exact HC1|done]. }
  { by apply isSuperior_kind. }
  destruct (linkState_attach s2 P C pc2 cc2 (sourceBlock_ pc) (sourceBlock_ cc))
    as (Hwf' & Hlk' & Hfr'); try done.
  { by rewrite Hty2, Htyc2. }
  split; [done|]. split; [done|]. split.
  - intros x ty Hx Hk HxC.
    apply Hfr'; [|intros -> |done].
    + apply Hinf2; [|done]. by eapply teardown_free.
    + destruct Hx as (cx & ? & _ & <-). simplify_eq.
      apply isSuperior_kind in Hk. congruence.
  - intros Hgone.
    pose proof (Hgone1' Hgone) as Hgone1.
    split.
    + intros x ty Hx HxP HxC. apply Hfr'; [|done|done].
      apply Hsimple2; [done| |done]. by eapply teardown_free.
    + intros q cq Htq Hq Hsd. unfold target in Htq. rewrite HC in Htq.
      simpl in Htq.
      destruct (Hq1 _ _ Htq Hq) as (t & Hq1' & Hnone).
      rewrite (Hnone Hsd) in Hq1'.
      assert (q <> P) as HqP.
      { intros ->. simplify_eq.
        pose proof Hwf as [_ Hlk].
        destruct (linkOk_elim _ _ _ _ (Hlk _ _ HC) Htq) as (tn & ? & ? & _).
        simplify_eq. }
      assert (q <> C) as HqC.
      { intros ->. simplify_eq.
        pose proof Hwf as [_ Hlk].
        destruct (linkOk_elim _ _ _ _ (Hlk _ _ HC) Htq) as (tn & ? & _ & Ho).
        simplify_eq. by rewrite opposite_irrefl in Ho. }
      apply Hfr'; [|done|done]. apply Hsimple2; [done| |done].
      eexists; split; [exact Hq1'|done].
Qed.

Hypothesis chk_sym : checkerSymmetric canConnect.

Theorem connect__attached f P C s s' pc cc :
  WF s -> conns s !! P = Some pc -> conns s !! C = Some cc ->
  isSuperior pc = true -> opposite (type pc) (type cc) = true ->
  targetConnection pc <> Some C ->
  connect_ canConnect f P C s = Ok s' -> attached P C s s'.
Proof using chk_typed chk_sym.
  intros. eapply connect__attached_gen; eauto.
Qed.

(** [connect] keeps the arena well formed. *)
Theorem connect_WF f A B s s' :
  WF s -> connect canConnect f A B s = Ok s' -> WF s'.
Proof using chk_typed chk_sym.
  intros Hwf H. destruct f as [|f]; [discriminate|].
  apply connect_inv in H as (ca & HA & [[_ ->]|(Hnl & ws & Hws & H)]); [done|].
  destruct H as [[_ ->]|(Hacc & s2 & Hc_ & ->)]; [done|].
  apply WF_closeGroup.
  destruct (chk_typed _ _ _ _ Hacc) as (ca' & cb & ? & HB & Hopp). simplify_eq.
  pose proof (opposite_superior _ _ Hopp) as Hs.
  destruct (isSuperior ca) eqn:Hsa.
  - eapply (connect__attached f A B (openGroup s) s2 ca cb); try done.
    + by apply WF_openGroup.
    + by rewrite conns_openGroup.
    + by rewrite conns_openGroup.
  - eapply (connect__attached f B A (openGroup s) s2 cb ca); try done.
    + by apply WF_openGroup.
    + by rewrite conns_openGroup.
    + by rewrite conns_openGroup.
    + by destruct (isSuperior cb).
    + by rewrite opposite_sym.
    + intros Htb. pose proof Hwf as [_ Hlk].
      destruct (linkOk_elim _ _ _ _ (Hlk _ _ HB) Htb) as (tn & ? & ? & _).
      simplify_eq.
Qed.

End Attach.

(** * The claims *)

(** ** The kind checker *)

Lemma kindChecker_typed : checkerTyped kindChecker.
Proof.
  intros ws s a b. unfold kindChecker.
  destruct (conns s !! a) as [ca|]; [|done].
  destruct (conns s !! b) as [cb|]; [|done]. eauto.
Qed.

Lemma kindChecker_sym : checkerSymmetric kindChecker.
Proof.
  intros ws ws' s a b. unfold kindChecker.
  destruct (conns s !! a) as [ca|], (conns s !! b) as [cb|]; try done.
  apply opposite_sym.
Qed.

Lemma WF_decide s : bool_decide (WF s) = true -> WF s.
Proof. apply bool_decide_eq_true. Qed.

(** ** Reciprocity *)

Section Reciprocity.

Variable canConnect : Workspace -> State -> ConnId -> ConnId -> bool -> bool.

(** Whenever [connect_] returns, its two connections target each other. *)
Lemma connect__linked f P C s s' :
  connect_ canConnect f P C s = Ok s' -> linked s' P C.
Proof.
  intros H. destruct f as [|f]; [discriminate|].
  destruct (extends_closed canConnect (S f)) as (_ & Hext & _).
  pose proof (Hext _ _ _ _ H) as [Hc _].
  apply connect__inv in H as (pc & cc & s1 & s2 & HP & HC & _ & _ & ->).
  destruct (Hc _ _ HP) as (pc' & HP' & _).
  destruct (Hc _ _ HC) as (cc' & HC' & _).
  clear Hc Hext. unfold linked, target. rewrite !conns_linkState in *.
  destruct (decide (P = C)) as [->|Hne].
  - rewrite !decide_True in * by done.
    destruct (conns s2 !! C); simplify_eq/=; done.
  - rewrite (decide_True (P := P = P)) in * by done.
    rewrite (decide_True (P := C = C)) in * by done.
    rewrite (decide_False (P := C = P)) in * by done.
    destruct (conns s2 !! C), (conns s2 !! P); simplify_eq/=; done.
Qed.

(** A [connect] that performs the link returns with the pair linked. *)
Lemma connect_linked f A B s s' ws :
  target s A <> Some B ->
  getConnectionChecker s A = Ok ws -> canConnect ws s A B false = true ->
  connect canConnect f A B s = Ok s' -> linked s' A B.
Proof.
  intros Hnl Hws Hacc H. destruct f as [|f]; [discriminate|].
  apply connect_inv in H as (ca & HA & H).
  unfold target in Hnl. rewrite HA in Hnl. simpl in Hnl.
  destruct H as [[? _]|(_ & ws' & Hws' & H)]; [done|].
  rewrite Hws in Hws'. injection Hws' as <-.
  destruct H as [[? _]|(_ & s2 & Hc_ & ->)]; [congruence|].
  unfold linked, target. rewrite conns_closeGroup.
  destruct (isSuperior ca).
  - by apply connect__linked in Hc_.
  - apply connect__linked in Hc_ as [? ?]. done.
Qed.

End Reciprocity.

Section DisconnectEnds.

Variable canConnect : Workspace -> State -> ConnId -> ConnId -> bool -> bool.
Hypothesis chk_typed : checkerTyped canConnect.

(** After [disconnect], the child end is free; the parent end is free or
    linked to a connection that did not exist before (a respawned
    placeholder), and is free when it carries no template. *)
Lemma disconnect_ends f c o s s' :
  WF s -> target s c = Some o -> disconnect canConnect f c s = Ok s' ->
  exists p i cp,
    ((p = c /\ i = o) \/ (p = o /\ i = c)) /\
    conns s !! p = Some cp /\ isSuperior cp = true /\
    target s' i = None /\
    (target s' p = None \/ exists n, conns s !! n = None /\ linked s' p n) /\
    (template s p = None -> target s' p = None).
Proof using chk_typed.
  intros Hwf Ht H. unfold target in Ht.
  destruct (conns s !! c) as [cn|] eqn:Hc; [|done]. simpl in Ht.
  destruct (disconnect_props canConnect chk_typed f c s s' cn o Hwf Hc Ht H)
    as (on & p & i & cp & ci & Ho & Hpair & Hp & Hi & Hsp & _ & _ & _ & Hwf' &
        _ & Hi' & (t & Hp' & Htf & Hnone) & _).
  exists p, i, cp. split.
  { destruct (isSuperior cn); injection Hpair as -> ->; auto. }
  split; [done|]. split; [done|].
  split; [unfold target; by rewrite Hi'|].
  split.
  - destruct Htf as [->|(n & -> & Hn)].
    + left. unfold target. by rewrite Hp'.
    + right. exists n. split; [done|].
      assert (target s' p = Some n) as Hpn by (unfold target; by rewrite Hp').
      split; [done|]. by apply (WF_reciprocal _ Hwf').
  - unfold template, target. rewrite Hp, Hp'. simpl. intros Hsd.
    by rewrite Hnone.
Qed.

End DisconnectEnds.

(** What [connect] and [disconnect] leave when they return.  A [connect] that performs the link returns with the
    two connections targeting each other.  After [disconnect] returns, the
    child end of the severed pair has no target, and the parent end has none
    either unless a placeholder was respawned on it, in which case it is
    mutually linked to the placeholder's new connection; without a template
    it has none.  From a well-formed arena, [connect] and [disconnect]
    return in a well-formed arena, in which every target is mutual. *)
Lemma reciprocity_returns
    (canConnect : Workspace -> State -> ConnId -> ConnId -> bool -> bool) :
  checkerTyped canConnect -> checkerSymmetric canConnect ->
  (forall f A B s s' ws,
     target s A <> Some B ->
     getConnectionChecker s A = Ok ws -> canConnect ws s A B false = true ->
     connect canConnect f A B s = Ok s' -> linked s' A B) /\
  (forall f c o s s',
     WF s -> target s c = Some o -> disconnect canConnect f c s = Ok s' ->
     exists p i cp,
       ((p = c /\ i = o) \/ (p = o /\ i = c)) /\
       conns s !! p = Some cp /\ isSuperior cp = true /\
       target s' i = None /\
       (target s' p = None \/ exists n, conns s !! n = None /\ linked s' p n) /\
       (template s p = None -> target s' p = None)) /\
  (forall f A B s s',
     WF s -> connect canConnect f A B s = Ok s' -> WF s' /\ reciprocal s') /\
  (forall f c s s',
     WF s -> disconnect canConnect f c s = Ok s' -> WF s' /\ reciprocal s').
Proof.
  intros Hty Hsym. split; [|split; [|split]].
  - intros. eapply connect_linked; eauto.
  - intros. eapply disconnect_ends; eauto.
  - intros f A B s s' Hwf H.
    pose proof (connect_WF canConnect Hty Hsym _ _ _ _ _ Hwf H) as Hwf'.
    split; [done|by apply WF_reciprocal].
  - intros f c s s' Hwf H.
    destruct (disconnect_teardown canConnect Hty _ _ _ _ Hwf H) as [Hwf' _].
    split; [done|by apply WF_reciprocal].
Qed.



(** ** Superiority symmetry *)

(** Either side may call.  For a superior connection [A] and an inferior connection [B] that
    the checker accepts in either order, in an arena whose targets are
    mutual, [connect] gives the same result whichever side it is called on;
    superiority is the kind of the connection (INPUT_VALUE and
    NEXT_STATEMENT), and on either side the attach sequence [connect_] runs
    on [A] with [B] as child. *)
Lemma superiority_symmetry_returns
    (canConnect : Workspace -> State -> ConnId -> ConnId -> bool -> bool)
    f A B s ca cb wsA wsB :
  reciprocal s ->
  conns s !! A = Some ca -> conns s !! B = Some cb ->
  isSuperior ca = true -> isSuperior cb = false ->
  getConnectionChecker s A = Ok wsA -> getConnectionChecker s B = Ok wsB ->
  canConnect wsA s A B false = true -> canConnect wsB s B A false = true ->
  connect canConnect f A B s = connect canConnect f B A s /\
  (isSuperior ca = true <->
     type ca = INPUT_VALUE \/ type ca = NEXT_STATEMENT) /\
  (target s A <> Some B ->
   forall r, r = connect canConnect (S f) A B s \/
             r = connect canConnect (S f) B A s ->
     r = (s2 ← connect_ canConnect f A B (openGroup s); Ok (closeGroup s s2))).
Proof.
  intros Hrec HA HB HsA HsB HwA HwB HaccA HaccB.
  assert (forall g, connect canConnect (S g) A B s =
    if bool_decide (targetConnection ca = Some B) then Ok s
    else s2 ← connect_ canConnect g A B (openGroup s); Ok (closeGroup s s2))
    as HAB.
  { intros g.
    change (connect canConnect (S g) A B s) with
      (cn ← getConn s A;
       if bool_decide (targetConnection cn = Some B) then Ok s
       else
         checker ← getConnectionChecker s A;
         if canConnect checker s A B false then
           s2 ← (if isSuperior cn then connect_ canConnect g A B (openGroup s)
                 else connect_ canConnect g B A (openGroup s));
           Ok (closeGroup s s2)
         else Ok s).
    rewrite (getConn_Some _ _ _ HA), bind_ret_l, HwA, bind_ret_l, HaccA, HsA.
    done. }
  assert (forall g, connect canConnect (S g) B A s =
    if bool_decide (targetConnection cb = Some A) then Ok s
    else s2 ← connect_ canConnect g A B (openGroup s); Ok (closeGroup s s2))
    as HBA.
  { intros g.
    change (connect canConnect (S g) B A s) with
      (cn ← getConn s B;
       if bool_decide (targetConnection cn = Some A) then Ok s
       else
         checker ← getConnectionChecker s B;
         if canConnect checker s B A false then
           s2 ← (if isSuperior cn then connect_ canConnect g B A (openGroup s)
                 else connect_ canConnect g A B (openGroup s));
           Ok (closeGroup s s2)
         else Ok s).
    rewrite (getConn_Some _ _ _ HB), bind_ret_l, HwB, bind_ret_l, HaccB, HsB.
    done. }
  assert (targetConnection ca = Some B <-> targetConnection cb = Some A) as Hiff.
  { split; intros Ht.
    - specialize (Hrec A B). unfold target in Hrec. rewrite HA, HB in Hrec.
      by apply Hrec.
    - specialize (Hrec B A). unfold target in Hrec. rewrite HA, HB in Hrec.
      by apply Hrec. }
  split; [|split].
  - destruct f as [|f]; [done|]. rewrite HAB, HBA.
    by rewrite (bool_decide_ext _ _ Hiff).
  - unfold isSuperior. destruct (type ca); simpl; intuition congruence.
  - intros Hnl r Hr. unfold target in Hnl. rewrite HA in Hnl. simpl in Hnl.
    rewrite HAB, HBA in Hr. rewrite <- (bool_decide_ext _ _ Hiff) in Hr.
    rewrite bool_decide_eq_false_2 in Hr by done. by destruct Hr.
Qed.


(** ** Event groups *)

Section Groups.

Variable canConnect : Workspace -> State -> ConnId -> ConnId -> bool -> bool.

(** The events of a call made with no group open, which then opened group
    [g]: one [setGroup(true)], one [setGroup(false)], and every event fired
    in between carries [g]. *)
Lemma bracket_groups s s2 :
  group (events s) = None -> groupKept (setGroupTrue s) s2 ->
  group (events (setGroupFalse s2)) = None /\
  exists g,
    groupOps (events (setGroupFalse s2)) =
      GroupClose :: GroupOpen g :: groupOps (events s) /\
    exists new, fired (events (setGroupFalse s2)) = new ++ fired (events s) /\
      forall e, e ∈ new -> ev_group e = Some g.
Proof.
  intros Hg Hk. destruct (Hk (uid (events s)) eq_refl) as (G & O & new & F & E).
  split; [done|]. exists (uid (events s)). simpl. rewrite O, F. simpl.
  split; [done|]. eauto.
Qed.

End Groups.

(** The event groups around a call.  A [connect] or [disconnect] that starts inside an open group [g]
    returns inside [g], having made no [setGroup] call, and every event it
    fired (cascades included) carries [g].  Started with no group open, it
    returns with no group open, and either did nothing to the recorder or
    made exactly one [setGroup(true)] and one [setGroup(false)], every event
    fired in between carrying the group opened. *)
Lemma event_groups_returns
    (canConnect : Workspace -> State -> ConnId -> ConnId -> bool -> bool)
    f A B s s' :
  connect canConnect f A B s = Ok s' \/ disconnect canConnect f A s = Ok s' ->
  match group (events s) with
  | Some g =>
      group (events s') = Some g /\
      groupOps (events s') = groupOps (events s) /\
      exists new, fired (events s') = new ++ fired (events s) /\
        forall e, e ∈ new -> ev_group e = Some g
  | None =>
      group (events s') = None /\
      (events s' = events s \/
       exists g,
         groupOps (events s') = GroupClose :: GroupOpen g :: groupOps (events s) /\
         exists new, fired (events s') = new ++ fired (events s) /\
           forall e, e ∈ new -> ev_group e = Some g)
  end.
Proof.
  intros H.
  destruct (groupKept_closed canConnect f) as (Kc & _ & Kd & _).
  destruct (group (events s)) as [g|] eqn:Hg.
  { destruct H as [H|H]; [apply Kc in H|apply Kd in H]; by apply H. }
  destruct f as [|f]; [by destruct H|].
  destruct (groupKept_closed canConnect f) as (_ & Kc_ & _ & Kr & _).
  destruct H as [H|H].
  - apply connect_inv in H as (ca & HA & [[_ ->]|(_ & ws & _ & H)]); [by auto|].
    destruct H as [[_ ->]|(_ & s2 & H & ->)]; [by auto|].
    unfold openGroup, closeGroup in *. rewrite Hg in *.
    assert (groupKept (setGroupTrue s) s2) as Hk.
    { destruct (isSuperior ca); by apply Kc_ in H. }
    destruct (bracket_groups s s2 Hg Hk) as (? & ?). auto.
  - rewrite disconnect_unfold in H.
    apply bind_Ok in H as (cn & _ & H).
    apply bind_Ok in H as (o & _ & H).
    apply bind_Ok in H as (oc & _ & H).
    case_bool_decide; [|done].
    destruct (if isSuperior cn
              then (sourceBlock_ cn, sourceBlock_ oc, A)
              else (sourceBlock_ oc, sourceBlock_ cn, o)) as [[pb cb] p].
    apply bind_Ok in H as (s1 & H1 & H).
    apply bind_Ok in H as (s2 & H2 & H). injection H as <-.
    unfold openGroup, closeGroup in *. rewrite Hg in *.
    assert (groupKept (setGroupTrue s) s2) as Hk.
    { eapply groupKept_trans; [|by apply Kr in H2].
      eapply (disconnectInternal__closed groupKept); [| | | | |exact H1].
      - intros. by apply groupKept_same.
      - apply groupKept_trans.
      - intros. by apply groupKept_same.
      - intros. by apply groupKept_same.
      - intros s0 [ev|] Hev; [|by apply groupKept_same].
        intros g' Hg'. simpl. split; [done|]. split; [done|].
        eexists [_]. split; [done|].
        intros e ->%list_elem_of_singleton. simpl. rewrite (Hev ev); done. }
    destruct (bracket_groups s s2 Hg Hk) as (? & ?). auto.
Qed.


(** ** Shadow respawn *)

Section RespawnClaim.

Variable canConnect : Workspace -> State -> ConnId -> ConnId -> bool -> bool.

Lemma respawnShadow__unfold f this s :
  respawnShadow_ canConnect (S f) this s =
  (cn ← getConn s this;
   pb ← getBlock s (sourceBlock_ cn);
   match workspace pb, getShadowDom cn, recordUndo (events s) with
   | Some ws, Some shadow, true =>
       let '(s, blockShadow) := domToBlock shadow ws s in
       bs ← getBlock s blockShadow;
       match outputConnection bs, previousConnection bs with
       | Some o, _ => connect canConnect f this o s
       | None, Some p => connect canConnect f this p s
       | None, None => Throw ChildNoOutputOrPrevious
       end
   | _, _, _ => Ok s
   end).
Proof. reflexivity. Qed.

Lemma recordUndo_unlinkState c o cb s :
  recordUndo (events (unlinkState c o cb (openGroup s))) = recordUndo (events s).
Proof.
  unfold unlinkState. rewrite events_fireMove_undo. simpl.
  unfold openGroup. by destruct (group (events s)).
Qed.

End RespawnClaim.

(** C4.  [disconnect] on [c], linked mutually to [o]: [p] is the parent end
    of the pair.  If [p] carries the template [d], its block lives in
    workspace [ws] and undo recording is on, then after the pair is severed
    a placeholder block [B] is materialised from [d] in [ws], and the call
    goes on as [p.connect(plug)] on the inferior connection of [B]; when the
    checker accepts, the call returns with [p] and [plug] linked and [B]
    under the block of [p]; when [B] has neither an output nor a previous
    connection, the call throws the protocol violation. *)
Theorem C4_respawn
    (canConnect : Workspace -> State -> ConnId -> ConnId -> bool -> bool)
    f c o s cn on p cp cb d pb ws sm B :
  conns s !! c = Some cn -> targetConnection cn = Some o ->
  conns s !! o = Some on -> targetConnection on = Some c -> c <> o ->
  (p, cp, cb) = (if isSuperior cn then (c, cn, sourceBlock_ on)
                 else (o, on, sourceBlock_ cn)) ->
  shadowDom_ cp = Some d ->
  blocks s !! sourceBlock_ cp = Some pb -> workspace pb = Some ws ->
  recordUndo (events s) = true ->
  domToBlock d ws (unlinkState c o cb (openGroup s)) = (sm, B) ->
  exists bs,
    blocks sm !! B = Some bs /\ blocks s !! B = None /\
    isShadow bs = true /\ workspace bs = Some ws /\ blockData bs = dom_data d /\
    match plugOf bs with
    | Some plug =>
        conns s !! plug = None /\
        disconnect canConnect (S (S f)) c s =
          (s3 ← connect canConnect f p plug sm; Ok (closeGroup s s3)) /\
        (canConnect ws sm p plug false = true ->
         exists s', disconnect canConnect (S (S (S (S f)))) c s = Ok s' /\
                    linked s' p plug /\
                    (isSuperior cp = true ->
                     parentOf s' B = Some (sourceBlock_ cp)))
    | None =>
        disconnect canConnect (S (S f)) c s = Throw ChildNoOutputOrPrevious /\
        isProtocolViolation ChildNoOutputOrPrevious = true
    end.
Proof.
  intros Hc Htc Ho Hto Hne Hp Hsd Hpb Hws Hru Hdom.
  set (s1 := unlinkState c o cb (openGroup s)) in *.
  assert (conns s !! p = Some cp /\ (p = c \/ p = o)) as [Hpc Hpco].
  { destruct (isSuperior cn); injection Hp as -> -> ->; auto. }
  assert (conns s1 !! p = Some (withTarget None cp)) as Hp1.
  { unfold s1. rewrite conns_unlinkState, !conns_openGroup.
    rewrite (decide_False (P := o = c)) by done.
    destruct Hpco as [-> | ->].
    - rewrite decide_True by done. by rewrite Hpc.
    - rewrite decide_False by done. rewrite decide_True by done. by rewrite Hpc. }
  assert (exists pb1, blocks s1 !! sourceBlock_ cp = Some pb1 /\
                      workspace pb1 = Some ws) as (pb1 & Hpb1 & Hws1).
  { unfold s1. rewrite blocks_unlinkState, blocks_openGroup.
    case_decide as Hd.
    - rewrite Hd, Hpb. simpl. eauto.
    - eauto. }
  assert (forall g, disconnect canConnect (S (S g)) c s =
    (s3 ← (let '(s, blockShadow) := domToBlock d ws s1 in
           bs ← getBlock s blockShadow;
           match outputConnection bs, previousConnection bs with
           | Some o, _ => connect canConnect g p o s
           | None, Some p0 => connect canConnect g p p0 s
           | None, None => Throw ChildNoOutputOrPrevious
           end);
     Ok (closeGroup s s3))) as Hdis.
  { intros g. rewrite disconnect_unfold.
    rewrite (getConn_Some _ _ _ Hc), bind_ret_l, Htc. cbn [orThrow].
    rewrite bind_ret_l, (getConn_Some _ _ _ Ho), bind_ret_l, Hto.
    rewrite bool_decide_eq_true_2 by done.
    assert ((if isSuperior cn
             then (sourceBlock_ cn, sourceBlock_ on, c)
             else (sourceBlock_ on, sourceBlock_ cn, o)) =
            (if isSuperior cn then sourceBlock_ cn else sourceBlock_ on, cb, p))
      as ->.
    { destruct (isSuperior cn); by injection Hp as -> -> ->. }
    erewrite disconnectInternal__eq;
      [|by rewrite conns_openGroup|done|by rewrite conns_openGroup].
    rewrite bind_ret_l. fold s1.
    rewrite respawnShadow__unfold.
    rewrite (getConn_Some _ _ _ Hp1), bind_ret_l.
    change (sourceBlock_ (withTarget None cp)) with (sourceBlock_ cp).
    rewrite (getBlock_Some _ _ _ Hpb1), bind_ret_l, Hws1.
    change (getShadowDom (withTarget None cp)) with (shadowDom_ cp).
    rewrite Hsd. unfold s1 at 1. rewrite recordUndo_unlinkState, Hru.
    fold s1. done. }
  pose proof Hdom as Hspec.
  apply domToBlock_spec in Hspec
    as (HB & Hev & Htm & Hcs & Hbs & Hbo & ov & pv & nx & Hnew & Hop & _ & _ & _ &
        Hnewc & Hov & Hpv).
  eexists. split; [exact Hnew|].
  split.
  { rewrite HB. pose proof (freshBlock_None s1) as Hf.
    revert Hf. generalize (freshBlock s1). intros x. unfold s1.
    rewrite blocks_unlinkState, blocks_openGroup.
    case_decide as Hd; [rewrite Hd; by destruct (blocks s !! x)|done]. }
  split; [done|]. split; [done|]. split; [done|].
  assert (forall x, conns s1 !! x = None -> conns s !! x = None) as Hfresh.
  { intros x. unfold s1. rewrite conns_unlinkState, !conns_openGroup.
    rewrite (decide_False (P := o = c)) by done.
    destruct (decide (c = x)) as [->|]; [by rewrite Hc|].
    destruct (decide (o = x)) as [->|]; [by rewrite Ho|done]. }
  unfold plugOf. cbn [outputConnection previousConnection].
  assert (forall plug ty,
    conns sm !! plug = Some (mkConnection B ty None false None None) ->
    conns s1 !! plug = None ->
    canConnect ws sm p plug false = true ->
    exists s', (s3 ← connect canConnect (S (S f)) p plug sm;
                Ok (closeGroup s s3)) = Ok s' /\
      linked s' p plug /\
      (isSuperior cp = true -> parentOf s' B = Some (sourceBlock_ cp)))
    as Hlink.
  { intros plug ty Hplug Hfr Hacc.
    assert (plug <> p) as Hpp by (intros ->; congruence).
    rewrite (connect_free canConnect f p plug sm (withTarget None cp)
               (mkConnection B ty None false None None) pb1 ws);
      [|by auto|done|done|done|by auto|done].
    rewrite Hacc. rewrite bind_ret_l. eexists. split; [done|].
    cbn [sourceBlock_ withTarget].
    change (isSuperior (withTarget None cp)) with (isSuperior cp).
    assert (forall t, linked t p plug -> linked (closeGroup s (closeGroup sm t)) p plug)
      as Hcl.
    { unfold linked, target. intros t. by rewrite !conns_closeGroup. }
    destruct (isSuperior cp).
    - split.
      + apply Hcl, linkState_linked; rewrite conns_openGroup; eauto.
      + intros _. unfold parentOf.
        rewrite !blocks_closeGroup, blocks_linkState, blocks_openGroup.
        rewrite decide_True by done. by rewrite Hnew.
    - split; [|done].
      assert (forall t, linked t plug p -> linked t p plug) as Hsw.
      { unfold linked. tauto. }
      apply Hcl, Hsw, linkState_linked; rewrite conns_openGroup; eauto. }
  destruct ov as [ov|].
  - specialize (Hov _ eq_refl).
    assert (conns s1 !! ov = None) as Hn1.
    { eapply (domToBlock_fresh _ _ _ _ _ _ ov Hdom Hnew). by left. }
    split; [by apply Hfresh|]. split.
    + rewrite Hdis, Hdom. rewrite (getBlock_Some _ _ _ Hnew), bind_ret_l. done.
    + intros Hacc. rewrite Hdis, Hdom.
      rewrite (getBlock_Some _ _ _ Hnew), bind_ret_l.
      cbn [outputConnection previousConnection].
      eapply Hlink; eauto.
  - destruct pv as [pv|].
    + specialize (Hpv _ eq_refl).
      assert (conns s1 !! pv = None) as Hn1.
      { eapply (domToBlock_fresh _ _ _ _ _ _ pv Hdom Hnew). by right. }
      split; [by apply Hfresh|]. split.
      * rewrite Hdis, Hdom. rewrite (getBlock_Some _ _ _ Hnew), bind_ret_l. done.
      * intros Hacc. rewrite Hdis, Hdom.
        rewrite (getBlock_Some _ _ _ Hnew), bind_ret_l.
        cbn [outputConnection previousConnection].
        eapply Hlink; eauto.
    + split; [|done]. rewrite Hdis, Hdom.
      rewrite (getBlock_Some _ _ _ Hnew), bind_ret_l. done.
Qed.

Lemma C4_respawn_witness :
  exists s', disconnect kindChecker 6 0 stackState = Ok s' /\ linked s' 0 2 /\
             parentOf s' 2 = Some 0.
Proof.
  destruct (domToBlock (mkDom PlugPrevious true 7) 0
              (unlinkState 0 1 1 (openGroup stackState))) as [sm B] eqn:E.
  destruct (C4_respawn kindChecker 2 0 1 stackState
              (linkedConn 0 NEXT_STATEMENT 1 (Some (mkDom PlugPrevious true 7)))
              (linkedConn 1 PREVIOUS_STATEMENT 0 None)
              0 (linkedConn 0 NEXT_STATEMENT 1 (Some (mkDom PlugPrevious true 7)))
              1 (mkDom PlugPrevious true 7)
              (mkBlock None None (Some 0) [] (Some 0) None false 0) 0 sm B)
    as (bs & Hbs & _ & _ & _ & _ & Hm);
    [vm_compute; reflexivity | reflexivity | vm_compute; reflexivity
    | reflexivity | lia | reflexivity | reflexivity
    | vm_compute; reflexivity | reflexivity | reflexivity | exact E |].
  vm_compute in E. injection E as <- <-.
  vm_compute in Hbs. injection Hbs as <-.
  cbn [plugOf outputConnection previousConnection] in Hm.
  destruct Hm as (_ & _ & Hacc).
  destruct Hacc as (s' & Hs' & Hl & Hp); [vm_compute; reflexivity|].
  exists s'. split; [exact Hs'|]. split; [exact Hl|]. by apply Hp.
Defined.

(** ** Displaced blocks *)

Section Displace.

Variable canConnect : Workspace -> State -> ConnId -> ConnId -> bool -> bool.
Hypothesis chk_typed : checkerTyped canConnect.

(** An accepted [connect] between a superior [P] and [C], called on either
    side, runs [connect_] on [P]. *)
Lemma connect_dispatch f A B s s' P C pc cc ws :
  WF s -> (A = P /\ B = C) \/ (A = C /\ B = P) ->
  conns s !! P = Some pc -> conns s !! C = Some cc ->
  isSuperior pc = true -> targetConnection pc <> Some C ->
  getConnectionChecker s A = Ok ws -> canConnect ws s A B false = true ->
  connect canConnect f A B s = Ok s' ->
  opposite (type pc) (type cc) = true /\
  exists f' s2, f = S f' /\
    connect_ canConnect f' P C (openGroup s) = Ok s2 /\ s' = closeGroup s s2.
Proof using chk_typed.
  intros Hwf HAB HP HC Hsup Hnl Hws Hacc H.
  destruct (chk_typed _ _ _ _ Hacc) as (ca & cb & HA & HB & Hopp).
  assert (opposite (type pc) (type cc) = true) as Hopp'.
  { destruct HAB as [[-> ->]|[-> ->]]; simplify_eq; [done|].
    by rewrite opposite_sym. }
  split; [done|].
  pose proof (opposite_superior _ _ Hopp') as Hs. rewrite Hsup in Hs.
  assert (isSuperior cc = false) as Hinf by by destruct (isSuperior cc).
  destruct f as [|f]; [discriminate|]. exists f.
  apply connect_inv in H as (ca' & HA' & H).
  rewrite HA in HA'. injection HA' as <-.
  assert (targetConnection ca <> Some B) as HnAB.
  { destruct HAB as [[-> ->]|[-> ->]]; simplify_eq; [done|].
    intros Ht. pose proof Hwf as [_ Hlk].
    destruct (linkOk_elim _ _ _ _ (Hlk _ _ HC) Ht) as (tn & ? & ? & _).
    simplify_eq. }
  destruct H as [[? _]|(_ & ws' & Hws' & H)]; [done|].
  rewrite Hws in Hws'. injection Hws' as <-.
  destruct H as [[? _]|(_ & s2 & H & ->)]; [congruence|].
  exists s2. split; [done|]. split; [|done].
  destruct HAB as [[-> ->]|[-> ->]]; simplify_eq.
  - by rewrite Hsup in H.
  - by rewrite Hinf in H.
Qed.

(** A disposed block has left its workspace. *)
Lemma blockDispose_dead f b s s' :
  blockDispose canConnect f b s = Ok s' ->
  exists blk, blocks s' !! b = Some blk /\ workspace blk = None.
Proof.
  intros H. destruct f as [|f]; [discriminate|]. simpl in H.
  apply bind_Ok in H as (sU & _ & H).
  apply bind_Ok in H as (blk & Hb & H). res_inv Hb.
  destruct (extends_closed canConnect f) as (_ & _ & _ & _ & Ex & _).
  eapply (forEach_closed extends extends_refl extends_trans) in H; [|exact Ex].
  destruct H as [_ Hbl].
  unfold setWorkspace in Hb. rewrite lookup_updBlock, decide_True in Hb by done.
  destruct (blocks sU !! b) as [blk0|] eqn:Hb0; [|done].
  simpl in Hb. injection Hb as <-.
  destruct (Hbl b (withWorkspace None blk0)) as (blk' & Hb' & K).
  { unfold setWorkspace. rewrite lookup_updBlock, decide_True by done.
    by rewrite Hb0. }
  exists blk'. split; [done|]. destruct K as (_&_&_&_&_&_&K). by apply K.
Qed.

Lemma blockToDom_parent s s' b blk :
  blocks s !! b = Some blk ->
  blocks s' !! b = Some blk \/ blocks s' !! b = Some (withParent None blk) ->
  blockToDom s' b = blockToDom s b.
Proof. unfold blockToDom. intros -> [-> | ->]; done. Qed.

(** [connect_] on a superior connection that holds a placeholder. *)
Lemma connect__placeholder f P C s s' pc cc xc xn ob :
  WF s -> conns s !! P = Some pc -> conns s !! C = Some cc ->
  isSuperior pc = true -> opposite (type pc) (type cc) = true ->
  targetConnection pc = Some xc -> xc <> C ->
  conns s !! xc = Some xn -> blocks s !! sourceBlock_ xn = Some ob ->
  isShadow ob = true ->
  connect_ canConnect f P C s = Ok s' ->
  template s' P = Some (blockToDom s (sourceBlock_ xn)) /\
  workspaceOf s' (sourceBlock_ xn) = None /\
  (exists blk, blocks s' !! sourceBlock_ xn = Some blk) /\
  target s' xc = None.
Proof using chk_typed.
  intros Hwf HP HC Hsup Hopp Ht Hne Hxn Hob Hsh H.
  assert (targetConnection pc <> Some C) as Hnl by congruence.
  assert (P <> C) as HPC.
  { intros ->. simplify_eq. by rewrite opposite_irrefl in Hopp. }
  destruct (WF_occupant _ _ _ _ Hwf HP Hsup Ht)
    as (xn' & ob' & ? & Hback & Hinf & _ & ? & _ & HxcP & _). simplify_eq.
  destruct f as [|f]; [discriminate|].
  apply connect__inv in H as (pc0 & cc0 & s1 & s2 & ? & ? & H1 & Hres & ->).
  simplify_eq.
  destruct (predisconnect canConnect chk_typed f P C s s1 pc cc
              Hwf HP HC Hsup Hopp Hnl H1)
    as (Hwf1 & _ & HP1 & HC1 & _ & Hfr1 & Hbl1).
  assert (conns s1 !! xc = Some xn) as Hxn1.
  { apply Hfr1; [done|done|]. intros Htc. pose proof Hwf as [_ Hlk].
    destruct (linkOk_elim _ _ _ _ (Hlk _ _ HC) Htc) as (tn & ? & ? & _).
    simplify_eq. }
  destruct (Hbl1 _ _ Hob) as (ob1 & Hob1 & Hsh1 & _ & Hpar).
  set (sA := setShadowDom P None s1) in *.
  assert (conns sA !! P = Some (withShadowDom None pc)) as HPA.
  { unfold sA, setShadowDom. rewrite lookup_updConn, decide_True by done.
    by rewrite HP1. }
  assert (conns sA !! xc = Some xn) as HxnA.
  { unfold sA, setShadowDom. by rewrite lookup_updConn, decide_False. }
  assert (forall pc0 xc0 xn0 ob0,
    conns s1 !! P = Some pc0 -> targetConnection pc0 = Some xc0 ->
    conns s1 !! xc0 = Some xn0 -> blocks s1 !! sourceBlock_ xn0 = Some ob0 ->
    pc0 = pc /\ xc0 = xc /\ xn0 = xn /\ ob0 = ob1) as Huniq.
  { intros pc0 xc0 xn0 ob0 E1 E2 E3 E4.
    rewrite HP1 in E1. injection E1 as <-.
    rewrite Ht in E2. injection E2 as <-.
    rewrite Hxn1 in E3. injection E3 as <-.
    rewrite Hob1 in E4. by injection E4 as <-. }
  destruct Hres as [pc0 HP0 Hfree
    | pc0 xc0 xn0 ob0 sB HP0 Ht0 Hxn0 Hob0 Hsh0 Hdisp
    | pc0 xc0 xn0 ob0 out slot sB HP0 Ht0 Hxn0 Hob0 Hsh0 _ _ _ _
    | pc0 xc0 xn0 ob0 prev slot ws sB HP0 Ht0 Hxn0 Hob0 Hsh0 _ _ _ _ _ _
    | pc0 xc0 xn0 ob0 sB HP0 Ht0 Hxn0 Hob0 Hsh0 _ _].
  { rewrite HP1 in HP0. injection HP0 as <-. congruence. }
  2,3,4: destruct (Huniq _ _ _ _ HP0 Ht0 Hxn0 Hob0) as (-> & -> & -> & ->);
         congruence.
  destruct (Huniq _ _ _ _ HP0 Ht0 Hxn0 Hob0) as (-> & -> & -> & ->).
  fold sA in Hdisp |- *.
  destruct (blockDispose_occupant canConnect chk_typed f sA sB P _ xc xn
              (WF_setShadowDom _ _ _ Hwf1) HPA Hsup Ht HxnA eq_refl Hdisp)
    as (HwfB & _ & (pB & HPB & _ & _) & (xB & HxB & HtxB & _)).
  destruct (blockDispose_dead _ _ _ _ Hdisp) as (blkB & HblkB & HwsB).
  assert (blockToDom sA (sourceBlock_ xn) = blockToDom s (sourceBlock_ xn)) as ->.
  { eapply blockToDom_parent; [exact Hob|].
    change (blocks sA) with (blocks s1). rewrite Hob1.
    destruct Hpar as [-> | ->]; auto. }
  split.
  { unfold template. rewrite conns_linkState.
    rewrite decide_False by done. rewrite decide_True by done.
    unfold setShadowDom. rewrite lookup_updConn, decide_True by done.
    by rewrite HPB. }
  assert (blocks (linkState P C (sourceBlock_ pc) (sourceBlock_ cc)
            (setShadowDom P (Some (blockToDom s (sourceBlock_ xn))) sB))
            !! sourceBlock_ xn =
          Some (if decide (sourceBlock_ cc = sourceBlock_ xn)
                then withParent (Some (sourceBlock_ pc)) blkB else blkB)) as Hb'.
  { rewrite blocks_linkState.
    change (blocks (setShadowDom _ _ sB)) with (blocks sB).
    case_decide as Hd; [|done]. by rewrite Hd, HblkB. }
  split; [|split].
  - unfold workspaceOf. rewrite Hb'. by case_decide.
  - eauto.
  - unfold target. rewrite conns_linkState.
    rewrite !decide_False by done.
    unfold setShadowDom. rewrite lookup_updConn, decide_False by done.
    by rewrite HxB.
Qed.

End Displace.

(** A placeholder is displaced.  An accepted [connect] that attaches [C] to the superior connection
    [P], called on either side, while [P] holds the placeholder block of
    [xc]: the call returns with [P] and [C] linked, the serialised
    placeholder as the template of [P], the placeholder block out of its
    workspace and its connection [xc] without target, and no bump was
    scheduled for the placeholder. *)
Lemma placeholder_displaced_returns
    (canConnect : Workspace -> State -> ConnId -> ConnId -> bool -> bool)
    f A B s s' P C pc cc xc xn ob ws :
  checkerTyped canConnect -> WF s ->
  (A = P /\ B = C) \/ (A = C /\ B = P) ->
  conns s !! P = Some pc -> conns s !! C = Some cc ->
  isSuperior pc = true -> targetConnection pc = Some xc -> xc <> C ->
  conns s !! xc = Some xn -> blocks s !! sourceBlock_ xn = Some ob ->
  isShadow ob = true ->
  getConnectionChecker s A = Ok ws -> canConnect ws s A B false = true ->
  connect canConnect f A B s = Ok s' ->
  linked s' P C /\
  template s' P = Some (blockToDom s (sourceBlock_ xn)) /\
  workspaceOf s' (sourceBlock_ xn) = None /\
  target s' xc = None /\
  exists new, timers s' = new ++ timers s /\
    forall t, t ∈ new -> bump_orphan t <> sourceBlock_ xn.
Proof.
  intros Hty Hwf HAB HP HC Hsup Ht Hne Hxn Hob Hsh Hws Hacc H.
  assert (targetConnection pc <> Some C) as Hnl by congruence.
  destruct (bumpsOrdinary_closed canConnect f) as (Kc & _).
  destruct (Kc _ _ _ _ H) as [[_ Hext] (new & Htm & Hnew)].
  destruct (connect_dispatch canConnect Hty f A B s s' P C pc cc ws
              Hwf HAB HP HC Hsup Hnl Hws Hacc H)
    as (Hopp & f' & s2 & -> & Hc_ & ->).
  destruct (connect__placeholder canConnect Hty f' P C (openGroup s) s2
              pc cc xc xn ob) as (Htpl & Hdead & (blk & Hblk) & Hfree);
    try done.
  { by apply WF_openGroup. }
  { by rewrite conns_openGroup. }
  { by rewrite conns_openGroup. }
  { by rewrite conns_openGroup. }
  { by rewrite blocks_openGroup. }
  split.
  { apply connect__linked in Hc_. unfold linked, target in *.
    by rewrite conns_closeGroup. }
  split.
  { unfold template in *. rewrite conns_closeGroup, Htpl.
    unfold blockToDom. by rewrite blocks_openGroup. }
  split; [unfold workspaceOf in *; by rewrite blocks_closeGroup|].
  split; [unfold target in *; by rewrite conns_closeGroup|].
  exists new. split; [done|]. intros t Hin Heq.
  destruct (Hnew _ Hin) as (blk' & Hb' & Hs'). rewrite Heq in Hb'.
  destruct (Hext _ _ Hob) as (blk'' & Hb'' & K). simplify_eq.
  destruct K as (_&_&_&_&K&_). congruence.
Qed.


(** ** Displaced ordinary blocks *)

(** The end of [connect_] (restore the template, link) leaves the other
    connections and blocks alone. *)
Lemma conns_relink P C pb cb d s x :
  x <> P -> x <> C ->
  conns (linkState P C pb cb (setShadowDom P d s)) !! x = conns s !! x.
Proof.
  intros HP HC. rewrite conns_linkState, !decide_False by done.
  unfold setShadowDom. by rewrite lookup_updConn, decide_False.
Qed.

Lemma blocks_relink P C pb cb d s x :
  cb <> x ->
  blocks (linkState P C pb cb (setShadowDom P d s)) !! x = blocks s !! x.
Proof. intros Hx. by rewrite blocks_linkState, decide_False. Qed.

Section Rehome.

Variable canConnect : Workspace -> State -> ConnId -> ConnId -> bool -> bool.
Hypothesis chk_typed : checkerTyped canConnect.

(** An ordinary block without output connection in a value input: attaching
    to the input throws. *)
Lemma connect__noOutput f P C s pc cc xc xn ob :
  conns s !! P = Some pc -> conns s !! C = Some cc ->
  type pc = INPUT_VALUE -> targetConnection pc = Some xc ->
  targetConnection cc = None ->
  conns s !! xc = Some xn -> blocks s !! sourceBlock_ xn = Some ob ->
  isShadow ob = false -> outputConnection ob = None ->
  connect_ canConnect (S f) P C s = Throw OrphanNoOutput.
Proof.
  intros HP HC Hty Ht HtC Hxn Hob Hsh Hout. simpl.
  rewrite (getConn_Some _ _ _ HP), (getConn_Some _ _ _ HC). simpl.
  unfold isConnected. rewrite HtC. simpl.
  rewrite (getConn_Some _ _ _ HP). simpl. rewrite Ht. simpl.
  unfold targetBlock. rewrite (getConn_Some _ _ _ HP). simpl. rewrite Ht.
  rewrite (getConn_Some _ _ _ Hxn). simpl.
  rewrite (getBlock_Some (setShadowDom P None s) _ _ Hob). simpl. rewrite Hsh.
  rewrite Hty. simpl. rewrite Hout. reflexivity.
Qed.

(** [connect_] of a free child on a value input that holds an ordinary
    block: the search decides between a new home and the orphanage. *)
Lemma connect__value f P C s s' pc cc xc xn ob wsx :
  WF s -> conns s !! P = Some pc -> conns s !! C = Some cc ->
  type pc = INPUT_VALUE -> opposite (type pc) (type cc) = true ->
  targetConnection pc = Some xc -> targetConnection cc = None ->
  conns s !! xc = Some xn -> blocks s !! sourceBlock_ xn = Some ob ->
  isShadow ob = false -> workspace ob = Some wsx ->
  connect_ canConnect (S f) P C s = Ok s' ->
  exists r,
    lastConnectionInRow canConnect f (setShadowDom P None s)
      (sourceBlock_ cc) (sourceBlock_ xn) = Ok r /\
    rowWalk canConnect (setShadowDom P None s) wsx xc (sourceBlock_ cc) r /\
    match r with
    | Some slot =>
        linked s' slot xc /\
        exists sn, conns s !! slot = Some sn /\
          parentOf s' (sourceBlock_ xn) = Some (sourceBlock_ sn)
    | None => target s' xc = None /\ parentOf s' (sourceBlock_ xn) = None
    end.
Proof using chk_typed.
  intros Hwf HP HC Hty Hopp Ht HtC Hxn Hob Hsh Hws H.
  assert (isSuperior pc = true) as Hsup by (unfold isSuperior; by rewrite Hty).
  assert (type cc = OUTPUT_VALUE) as HtyC.
  { rewrite Hty in Hopp. by destruct (type cc). }
  destruct (WF_occupant _ _ _ _ Hwf HP Hsup Ht)
    as (xn' & ob' & Hxn' & Hback & Hinf & Hoppx & Hob' & Hplug & HxcP & Hov & _).
  rewrite Hxn in Hxn'. injection Hxn' as <-.
  rewrite Hob in Hob'. injection Hob' as <-.
  specialize (Hov Hty).
  assert (xc <> C) as HxcC.
  { intros ->. rewrite HC in Hxn. injection Hxn as <-. congruence. }
  assert (P <> C) as HPC.
  { intros ->. rewrite HP in HC. injection HC as <-.
    by rewrite opposite_irrefl in Hopp. }
  assert (sourceBlock_ cc <> sourceBlock_ xn) as Hblk.
  { intros Heq. pose proof Hwf as [Hok _]. pose proof (Hok _ _ HC) as Hc.
    unfold connOk in Hc. rewrite Heq, Hob in Hc. destruct Hc as [Hc _].
    rewrite (Hc HtyC) in Hov. by injection Hov. }
  apply connect__inv in H as (pc0 & cc0 & s1 & s2 & HP0 & HC0 & H1 & Hres & ->).
  rewrite HP in HP0. injection HP0 as <-. rewrite HC in HC0. injection HC0 as <-.
  unfold isConnected in H1. rewrite HtC in H1. injection H1 as <-.
  set (sA := setShadowDom P None s) in *.
  assert (WF sA) as HwfA by by apply WF_setShadowDom.
  assert (conns sA !! P = Some (withShadowDom None pc)) as HPA.
  { unfold sA, setShadowDom. rewrite lookup_updConn, decide_True by done.
    by rewrite HP. }
  assert (forall x, x <> P -> conns sA !! x = conns s !! x) as HA.
  { intros x Hx. unfold sA, setShadowDom.
    by rewrite lookup_updConn, decide_False. }
  assert (conns sA !! xc = Some xn) as HxnA by by rewrite HA.
  assert (getConnectionChecker sA xc = Ok wsx) as HwsA.
  { by eapply getConnectionChecker_Some. }
  assert (forall pc0 xc0 xn0 ob0,
    conns s !! P = Some pc0 -> targetConnection pc0 = Some xc0 ->
    conns s !! xc0 = Some xn0 -> blocks s !! sourceBlock_ xn0 = Some ob0 ->
    pc0 = pc /\ xc0 = xc /\ xn0 = xn /\ ob0 = ob) as Huniq.
  { intros pc0 xc0 xn0 ob0 E1 E2 E3 E4.
    rewrite HP in E1. injection E1 as <-.
    rewrite Ht in E2. injection E2 as <-.
    rewrite Hxn in E3. injection E3 as <-.
    rewrite Hob in E4. by injection E4 as <-. }
  destruct Hres as [pc0 HP0 Hfree
    | pc0 xc0 xn0 ob0 sB HP0 Ht0 Hxn0 Hob0 Hsh0 Hdisp
    | pc0 xc0 xn0 ob0 out slot sB HP0 Ht0 Hxn0 Hob0 Hsh0 Hty0 Hout Hrow Hcon
    | pc0 xc0 xn0 ob0 prev slot ws sB HP0 Ht0 Hxn0 Hob0 Hsh0 Hty0 _ _ _ _ _
    | pc0 xc0 xn0 ob0 sB HP0 Ht0 Hxn0 Hob0 Hsh0 Hwhy Hdis].
  - rewrite HP in HP0. injection HP0 as <-. congruence.
  - destruct (Huniq _ _ _ _ HP0 Ht0 Hxn0 Hob0) as (-> & -> & -> & ->).
    congruence.
  - destruct (Huniq _ _ _ _ HP0 Ht0 Hxn0 Hob0) as (-> & -> & -> & ->).
    fold sA in Hrow, Hcon |- *.
    rewrite Hov in Hout. injection Hout as <-.
    exists (Some slot). split; [exact Hrow|].
    pose proof (lastConnectionInRow_walk canConnect f sA _ _ ob xc wsx _
                  Hob Hov HwsA Hrow) as Hwalk.
    split; [exact Hwalk|].
    destruct (rowWalk_Some _ _ _ _ _ _ Hwalk) as (Hgone & sn & Hsn & Htys & Hacc).
    assert (slot <> P) as HsP.
    { intros ->.
      eapply (occupantGone_ordinary sA P _ xc xn ob);
        [exact HPA|done|done|exact Hob|done|done]. }
    assert (slot <> C) as HsC.
    { intros ->. rewrite HA in Hsn by done. rewrite HC in Hsn.
      injection Hsn as <-. congruence. }
    destruct (rehome_attached canConnect chk_typed f P (withShadowDom None pc)
                xc xn slot sn xc slot sA sB)
      as (HwfB & HfP & Hlk & Hinfs & Hpar); try done.
    { intros. eapply connect__attached_gen; eauto. }
    { intros Hts.
      eapply (occupantGone_ordinary sA slot _ xc xn ob);
        [exact Hsn|done|done|exact Hob|done|done]. }
    { by left. }
    { intros ws' Hws'. rewrite HwsA in Hws'. by injection Hws' as <-. }
    split.
    + unfold linked, target in *. by rewrite !conns_relink.
    + exists sn. split; [by rewrite <- HA|].
      unfold parentOf in *. by rewrite blocks_relink.
  - destruct (Huniq _ _ _ _ HP0 Ht0 Hxn0 Hob0) as (-> & -> & -> & ->).
    congruence.
  - destruct (Huniq _ _ _ _ HP0 Ht0 Hxn0 Hob0) as (-> & -> & -> & ->).
    fold sA in Hwhy, Hdis |- *.
    destruct Hwhy as [(_ & _ & Hrow)|[(Hty' & _)|(Hty' & _)]]; [|congruence..].
    exists None. split; [exact Hrow|].
    split.
    { eapply lastConnectionInRow_walk; eauto. }
    destruct (disconnect_occupant canConnect chk_typed f P sA sB P _ xc xn
                HwfA HPA Hsup Ht HxnA (or_introl eq_refl) Hdis)
      as (_ & _ & HxcB & _ & _ & HblB).
    split.
    + unfold target. rewrite conns_relink, conns_bumpLater, HxcB by done. done.
    + unfold parentOf. rewrite blocks_relink, blocks_bumpLater by done.
      rewrite (HblB _ _ Hob), decide_True by done. done.
Qed.

End Rehome.

(** An ordinary block is displaced.  An accepted [connect] that attaches the free connection [C] to the
    value input [P], called on either side, while [P] holds the ordinary
    block of [xc].  If that block has no output connection the call throws
    the protocol violation.  From a well-formed arena, a call that returns
    has linked [P] and [C] and put the block of [C] under the block of [P];
    the search [lastConnectionInRow] ran from the block of [C] in the arena
    where the group is open and the template of [P] is cleared, and its
    result is the end of the walk [rowWalk]: down through ordinary blocks
    that have exactly one eligible input, to the first such input that is
    empty or holds a placeholder, failing at a block that has not exactly
    one.  When it found the input [slot], [xc] is linked to [slot] and its
    block is under the block of [slot]; when it failed, [xc] has no target
    and its block has no parent. *)
Lemma orphan_rehoming_returns
    (canConnect : Workspace -> State -> ConnId -> ConnId -> bool -> bool)
    f A B s P C pc cc xc xn ob ws wsx :
  checkerTyped canConnect ->
  (A = P /\ B = C) \/ (A = C /\ B = P) ->
  conns s !! P = Some pc -> conns s !! C = Some cc ->
  type pc = INPUT_VALUE -> targetConnection pc = Some xc -> xc <> C ->
  targetConnection cc = None ->
  conns s !! xc = Some xn -> blocks s !! sourceBlock_ xn = Some ob ->
  isShadow ob = false -> workspace ob = Some wsx ->
  getConnectionChecker s A = Ok ws -> canConnect ws s A B false = true ->
  (outputConnection ob = None ->
   connect canConnect (S (S f)) A B s = Throw OrphanNoOutput /\
   isProtocolViolation OrphanNoOutput = true) /\
  (WF s -> forall s', connect canConnect (S (S f)) A B s = Ok s' ->
   linked s' P C /\
   parentOf s' (sourceBlock_ cc) = Some (sourceBlock_ pc) /\
   exists r,
     lastConnectionInRow canConnect f (setShadowDom P None (openGroup s))
       (sourceBlock_ cc) (sourceBlock_ xn) = Ok r /\
     rowWalk canConnect (setShadowDom P None (openGroup s)) wsx xc
       (sourceBlock_ cc) r /\
     match r with
     | Some slot =>
         linked s' slot xc /\
         exists sn, conns s !! slot = Some sn /\
           parentOf s' (sourceBlock_ xn) = Some (sourceBlock_ sn)
     | None => target s' xc = None /\ parentOf s' (sourceBlock_ xn) = None
     end).
Proof.
  intros Hchk HAB HP HC Hty Ht Hne HtC Hxn Hob Hsh Hwsx Hws Hacc.
  assert (isSuperior pc = true) as Hsup by (unfold isSuperior; by rewrite Hty).
  assert (targetConnection pc <> Some C) as Hnl by congruence.
  assert (opposite (type pc) (type cc) = true) as Hopp.
  { destruct (Hchk _ _ _ _ Hacc) as (ca & cb & HA & HB & Hopp).
    destruct HAB as [[-> ->]|[-> ->]]; simplify_eq; [done|].
    by rewrite opposite_sym. }
  pose proof (opposite_superior _ _ Hopp) as Hs. rewrite Hsup in Hs.
  assert (isSuperior cc = false) as Hinf by by destruct (isSuperior cc).
  split.
  - intros Hout. split; [|done].
    change (connect canConnect (S (S f)) A B s) with
      (cn ← getConn s A;
       if bool_decide (targetConnection cn = Some B) then Ok s
       else
         checker ← getConnectionChecker s A;
         if canConnect checker s A B false then
           s2 ← (if isSuperior cn then connect_ canConnect (S f) A B (openGroup s)
                 else connect_ canConnect (S f) B A (openGroup s));
           Ok (closeGroup s s2)
         else Ok s).
    assert (connect_ canConnect (S f) P C (openGroup s) = Throw OrphanNoOutput)
      as Hthrow.
    { eapply connect__noOutput; rewrite ?conns_openGroup, ?blocks_openGroup;
        eauto. }
    destruct HAB as [[-> ->]|[-> ->]].
    + rewrite (getConn_Some _ _ _ HP), bind_ret_l.
      rewrite bool_decide_eq_false_2 by done.
      rewrite Hws, bind_ret_l, Hacc, Hsup, Hthrow. done.
    + rewrite (getConn_Some _ _ _ HC), bind_ret_l, HtC.
      rewrite bool_decide_eq_false_2 by done.
      rewrite Hws, bind_ret_l, Hacc, Hinf, Hthrow. done.
  - intros Hwf s' H.
    destruct (connect_dispatch canConnect Hchk _ A B s s' P C pc cc ws
                Hwf HAB HP HC Hsup Hnl Hws Hacc H)
      as (_ & f' & s2 & Hf & Hc_ & ->).
    injection Hf as <-.
    split.
    { apply connect__linked in Hc_. unfold linked, target in *.
      by rewrite conns_closeGroup. }
    split.
    { unfold parentOf. rewrite blocks_closeGroup.
      eapply (connect__parent canConnect (S f) P C (openGroup s) s2 pc cc);
        rewrite ?conns_openGroup, ?blocks_openGroup; try done.
      pose proof Hwf as [Hok _]. pose proof (Hok _ _ HC) as Hc.
      unfold connOk in Hc. destruct (blocks s !! sourceBlock_ cc); [eauto|done]. }
    destruct (connect__value canConnect Hchk f P C (openGroup s) s2
                pc cc xc xn ob wsx) as (r & Hrow & Hwalk & Hm);
      rewrite ?conns_openGroup, ?blocks_openGroup; try done.
    { by apply WF_openGroup. }
    exists r. split; [done|]. split; [done|].
    destruct r as [slot|].
    + destruct Hm as (Hl & sn & Hsn & Hpar). split.
      * unfold linked, target in *. by rewrite conns_closeGroup.
      * exists sn. rewrite conns_openGroup in Hsn. split; [done|].
        unfold parentOf in *. by rewrite blocks_closeGroup.
    + destruct Hm as (Hl & Hpar). split.
      * unfold target in *. by rewrite conns_closeGroup.
      * unfold parentOf in *. by rewrite blocks_closeGroup.
Qed.


(** ** The disposed flag *)

Lemma disposed_kept s s' c :
  extends s s' -> disposedAt s c = true -> disposedAt s' c = true.
Proof.
  intros [Hc _]. unfold disposedAt.
  destruct (conns s !! c) as [cn|] eqn:E; [|done].
  destruct (Hc _ _ E) as (cn' & -> & K). apply K.
Qed.

Section Plain.

Variable canConnect : Workspace -> State -> ConnId -> ConnId -> bool -> bool.

(** [disconnect] of a linked pair whose parent end carries no template:
    the pair is severed and nothing is respawned. *)
Lemma disconnect_plain f c o s cn on p cp cb pb :
  conns s !! c = Some cn -> targetConnection cn = Some o ->
  conns s !! o = Some on -> targetConnection on = Some c -> c <> o ->
  (p, cp, cb) = (if isSuperior cn then (c, cn, sourceBlock_ on)
                 else (o, on, sourceBlock_ cn)) ->
  shadowDom_ cp = None -> blocks s !! sourceBlock_ cp = Some pb ->
  disconnect canConnect (S (S f)) c s =
  Ok (closeGroup s (unlinkState c o cb (openGroup s))).
Proof.
  intros Hc Htc Ho Hto Hne Hp Hsd Hpb.
  set (s1 := unlinkState c o cb (openGroup s)).
  assert (conns s !! p = Some cp /\ (p = c \/ p = o)) as [Hpc Hpco].
  { destruct (isSuperior cn); injection Hp as -> -> ->; auto. }
  assert (conns s1 !! p = Some (withTarget None cp)) as Hp1.
  { unfold s1. rewrite conns_unlinkState, !conns_openGroup.
    rewrite (decide_False (P := o = c)) by done.
    destruct Hpco as [-> | ->].
    - rewrite decide_True by done. by rewrite Hpc.
    - rewrite decide_False by done. rewrite decide_True by done. by rewrite Hpc. }
  assert (exists pb1, blocks s1 !! sourceBlock_ cp = Some pb1)
    as (pb1 & Hpb1).
  { unfold s1. rewrite blocks_unlinkState, blocks_openGroup.
    case_decide as Hd.
    - rewrite Hd, Hpb. simpl. eauto.
    - eauto. }
  rewrite disconnect_unfold.
  rewrite (getConn_Some _ _ _ Hc), bind_ret_l, Htc. cbn [orThrow].
  rewrite bind_ret_l, (getConn_Some _ _ _ Ho), bind_ret_l, Hto.
  rewrite bool_decide_eq_true_2 by done.
  assert ((if isSuperior cn
           then (sourceBlock_ cn, sourceBlock_ on, c)
           else (sourceBlock_ on, sourceBlock_ cn, o)) =
          (if isSuperior cn then sourceBlock_ cn else sourceBlock_ on, cb, p))
    as ->.
  { destruct (isSuperior cn); by injection Hp as -> -> ->. }
  erewrite disconnectInternal__eq;
    [|by rewrite conns_openGroup|done|by rewrite conns_openGroup].
  rewrite bind_ret_l. fold s1.
  rewrite respawnShadow__unfold.
  rewrite (getConn_Some _ _ _ Hp1), bind_ret_l.
  change (sourceBlock_ (withTarget None cp)) with (sourceBlock_ cp).
  rewrite (getBlock_Some _ _ _ Hpb1), bind_ret_l.
  change (getShadowDom (withTarget None cp)) with (shadowDom_ cp).
  rewrite Hsd. by destruct (workspace pb1).
Qed.

Lemma unlinkState_free c o cb s0 s cn on :
  conns s !! c = Some cn -> conns s !! o = Some on -> c <> o ->
  target (closeGroup s0 (unlinkState c o cb (openGroup s))) c = None /\
  target (closeGroup s0 (unlinkState c o cb (openGroup s))) o = None.
Proof.
  intros Hc Ho Hne. unfold target.
  rewrite !conns_closeGroup, !conns_unlinkState, !conns_openGroup.
  rewrite (decide_False (P := o = c)) by done.
  rewrite (decide_True (P := c = c)) by done.
  rewrite (decide_False (P := c = o)) by done.
  rewrite (decide_True (P := o = o)) by done.
  by rewrite Hc, Ho.
Qed.

End Plain.

(** ** Compatibility tags *)

Section Check.

Variable canConnect : Workspace -> State -> ConnId -> ConnId -> bool -> bool.

Lemma conns_setCheckField c k s x :
  conns (setCheckField c k s) !! x =
  if decide (c = x) then withCheck k <$> conns s !! c else conns s !! x.
Proof. apply lookup_updConn. Qed.

Lemma getConnectionChecker_setCheckField c k s x :
  getConnectionChecker (setCheckField c k s) x = getConnectionChecker s x.
Proof.
  unfold getConnectionChecker, getConn. rewrite conns_setCheckField.
  case_decide as Hd; [|done]. subst x. by destruct (conns s !! c).
Qed.

(** [setCheck] with an argument that is not null (nor the empty string):
    the tags are stored and the link, if any, is validated again. *)
Lemma setCheck_truthy f this check s cn :
  conns s !! this = Some cn -> truthy check = true ->
  setCheck canConnect f this check s =
  match targetConnection cn with
  | None => Ok (setCheckField this (Some (toArray check)) s)
  | Some t =>
      ws ← getConnectionChecker s this;
      if canConnect ws (setCheckField this (Some (toArray check)) s) this t false
      then Ok (setCheckField this (Some (toArray check)) s)
      else
        child ← (if isSuperior cn
                 then tn ← getConn s t; Ok (sourceBlock_ tn)
                 else Ok (sourceBlock_ cn));
        blockUnplug canConnect f child
          (setCheckField this (Some (toArray check)) s)
  end.
Proof.
  intros Hc Htr. unfold setCheck.
  rewrite (getConn_Some _ _ _ Hc), bind_ret_l, Htr.
  set (s1 := setCheckField this (Some (toArray check)) s).
  assert (conns s1 !! this = Some (withCheck (Some (toArray check)) cn)) as Hc1.
  { unfold s1. rewrite conns_setCheckField, decide_True by done. by rewrite Hc. }
  unfold onCheckChanged_. rewrite (getConn_Some _ _ _ Hc1), bind_ret_l.
  change (targetConnection (withCheck _ cn)) with (targetConnection cn).
  destruct (targetConnection cn) as [t|] eqn:Ht; [|done].
  rewrite (getConnectionChecker_setCheckField this (Some (toArray check)) s
             this : getConnectionChecker s1 this = _).
  destruct (getConnectionChecker s this) as [ws| |]; try done.
  rewrite !bind_ret_l.
  destruct (canConnect ws s1 this t false); [done|].
  change (isSuperior (withCheck _ cn)) with (isSuperior cn).
  change (sourceBlock_ (withCheck _ cn)) with (sourceBlock_ cn).
  destruct (isSuperior cn); [|done].
  unfold targetBlock. rewrite (getConn_Some _ _ _ Hc1), bind_ret_l.
  change (targetConnection (withCheck _ cn)) with (targetConnection cn).
  rewrite Ht.
  assert (getConn s1 t ≫= (λ tn, Ok (Some (sourceBlock_ tn))) =
          getConn s t ≫= (λ tn, Ok (Some (sourceBlock_ tn)))) as ->.
  { unfold getConn, s1. rewrite conns_setCheckField.
    case_decide as Hd; [|done]. subst t. by rewrite Hc. }
  by destruct (getConn s t).
Qed.

End Check.

(** What [setCheck] does.  [setCheck] on a connection of the arena.  A single
    tag becomes a one-element list.  With null (or the empty string) the
    tags are cleared and nothing else happens: the link is not validated.
    With any other argument the tags are stored; a free connection is left
    at that; for a linked one the checker of its workspace is asked about
    the pair, in the arena that holds the new tags; if it accepts nothing
    else happens; if it refuses, the call is [unplug] on the child block of
    the pair, and from a well-formed arena a call that returns has cleared
    the target of the child's connection and the parent of the child block,
    the parent's connection is free or holds a respawned placeholder, and
    the new tags are in place. *)
Lemma setCheck_returns
    (canConnect : Workspace -> State -> ConnId -> ConnId -> bool -> bool)
    f this check s cn :
  conns s !! this = Some cn ->
  (forall t, toArray (CheckString t) = [t]) /\
  (truthy check = false ->
   setCheck canConnect f this check s = Ok (setCheckField this None s)) /\
  (truthy check = true ->
   let s1 := setCheckField this (Some (toArray check)) s in
   tags s1 this = Some (toArray check) /\
   (targetConnection cn = None ->
    setCheck canConnect f this check s = Ok s1) /\
   (forall t tn ws,
      targetConnection cn = Some t -> conns s !! t = Some tn ->
      getConnectionChecker s this = Ok ws ->
      (canConnect ws s1 this t false = true ->
       setCheck canConnect f this check s = Ok s1) /\
      (canConnect ws s1 this t false = false ->
       let child := if isSuperior cn then sourceBlock_ tn else sourceBlock_ cn in
       let p := if isSuperior cn then this else t in
       let i := if isSuperior cn then t else this in
       setCheck canConnect f this check s = blockUnplug canConnect f child s1 /\
       (checkerTyped canConnect -> WF s ->
        forall s', setCheck canConnect f this check s = Ok s' ->
          target s' i = None /\ parentOf s' child = None /\
          (target s' p = None \/
           exists n, conns s !! n = None /\ target s' p = Some n) /\
          tags s' this = Some (toArray check))))).
Proof.
  intros Hc. split; [done|]. split.
  { intros Hf. unfold setCheck.
    by rewrite (getConn_Some _ _ _ Hc), bind_ret_l, Hf. }
  intros Htr s1.
  assert (conns s1 !! this = Some (withCheck (Some (toArray check)) cn)) as Hc1.
  { unfold s1. rewrite conns_setCheckField, decide_True by done. by rewrite Hc. }
  split; [unfold tags; by rewrite Hc1|].
  pose proof (setCheck_truthy canConnect f this check s cn Hc Htr) as Heq.
  fold s1 in Heq.
  split.
  { intros Ht. by rewrite Ht in Heq. }
  intros t tn ws Ht Htn Hws. rewrite Ht, Hws, bind_ret_l in Heq.
  split.
  { intros Hacc. by rewrite Hacc in Heq. }
  intros Hacc child p i. rewrite Hacc in Heq.
  rewrite (getConn_Some _ _ _ Htn), bind_ret_l in Heq.
  assert (setCheck canConnect f this check s =
          blockUnplug canConnect f child s1) as Heq'.
  { rewrite Heq. unfold child. by destruct (isSuperior cn). }
  split; [done|].
  intros Hchk Hwf s' H. rewrite Heq' in H.
  assert (WF s1) as Hwf1 by by apply WF_setCheckField.
  assert (forall x, conns s1 !! x = None <-> conns s !! x = None) as Hnone.
  { intros x. unfold s1. rewrite conns_setCheckField.
    case_decide as Hd; [|done]. subst x. by rewrite Hc. }
  pose proof Hwf as [_ Hlk].
  destruct (linkOk_elim _ _ _ _ (Hlk _ _ Hc) Ht) as (tn' & Htn' & Hback & Hopp).
  rewrite Htn in Htn'. injection Htn' as <-.
  assert (this <> t) as Hne.
  { intros <-. rewrite Hc in Htn. injection Htn as <-.
    by rewrite opposite_irrefl in Hopp. }
  assert (conns s1 !! t = Some tn) as Htn1.
  { unfold s1. by rewrite conns_setCheckField, decide_False. }
  pose proof (opposite_superior _ _ Hopp) as Hs.
  unfold child, p, i in *. clear child p i.
  destruct (isSuperior cn) eqn:Hsup.
  - destruct (blockUnplug_occupant canConnect Hchk f s1 s' this _ t tn
                Hwf1 Hc1 Hsup Ht Htn1 H)
      as (_ & _ & Hi & (t' & Hp & Hfresh & _) & _ & Hbl).
    destruct (WF_occupant _ _ _ _ Hwf1 Hc1 Hsup Ht)
      as (xn & ob & Hxn & _ & _ & _ & Hob & _).
    rewrite Htn1 in Hxn. injection Hxn as <-.
    split; [unfold target; by rewrite Hi|].
    split; [unfold parentOf; by rewrite (Hbl _ _ Hob), decide_True|].
    split; [|unfold tags; by rewrite Hp].
    unfold target. rewrite Hp. simpl.
    destruct Hfresh as [->|(n & -> & Hn)]; [by left|].
    right. exists n. by rewrite <- Hnone.
  - assert (isSuperior tn = true) as Hsupt by by destruct (isSuperior tn).
    destruct (blockUnplug_occupant canConnect Hchk f s1 s' t tn this _
                Hwf1 Htn1 Hsupt Hback Hc1 H)
      as (_ & _ & Hi & (t' & Hp & Hfresh & _) & _ & Hbl).
    destruct (WF_occupant _ _ _ _ Hwf1 Htn1 Hsupt Hback)
      as (xn & ob & Hxn & _ & _ & _ & Hob & _).
    rewrite Hc1 in Hxn. injection Hxn as <-.
    change (sourceBlock_ (withCheck (Some (toArray check)) cn))
      with (sourceBlock_ cn) in Hbl, Hob.
    split; [unfold target; by rewrite Hi|].
    split; [unfold parentOf; by rewrite (Hbl _ _ Hob), decide_True|].
    split; [|unfold tags; by rewrite Hi].
    unfold target. rewrite Hp. simpl.
    destruct Hfresh as [->|(n & -> & Hn)]; [by left|].
    right. exists n. by rewrite <- Hnone.
Qed.


(** C6, as stated, fails: storing null validates nothing.  Under a checker
    that refuses every pair, [setCheck] with null leaves the link in place,
    where [setCheck] with a tag unplugs the child; and the empty string is
    stored as null, not as a one-element list. *)
Lemma C6_counterexample :
  linked valueLink 0 1 /\
  (exists s', setCheck refuseAll 5 0 CheckNull valueLink = Ok s' /\
              tags s' 0 = None /\ linked s' 0 1 /\ parentOf s' 1 = Some 0) /\
  (exists s', setCheck refuseAll 5 0 (CheckString "Number") valueLink = Ok s' /\
              target s' 0 = None /\ target s' 1 = None) /\
  (exists s', setCheck kindChecker 5 0 (CheckString EmptyString) valueLink = Ok s' /\
              tags s' 0 = None).
Proof.
  split; [split; vm_compute; reflexivity|].
  split; [|split]; eexists; (split; [vm_compute; reflexivity|]).
  - split; [vm_compute; reflexivity|].
    split; [split; vm_compute; reflexivity|vm_compute; reflexivity].
  - split; vm_compute; reflexivity.
  - vm_compute; reflexivity.
Qed.

(** ** Disposal respawns nothing *)

Lemma sameDom_refl s : sameDom s s.
Proof. by split. Qed.

Lemma sameDom_trans s1 s2 s3 : sameDom s1 s2 -> sameDom s2 s3 -> sameDom s1 s3.
Proof.
  intros [C1 B1] [C2 B2]. split; intros x.
  - by rewrite C2, C1.
  - by rewrite B2, B1.
Qed.

Lemma sameDom_updConn c f s : sameDom s (updConn c f s).
Proof.
  split; [|done]. intros x. rewrite lookup_updConn.
  case_decide; subst; [|done]. by rewrite fmap_is_Some.
Qed.

Lemma sameDom_updBlock b f s : sameDom s (updBlock b f s).
Proof.
  split; [done|]. intros x. rewrite lookup_updBlock.
  case_decide; subst; [|done]. by rewrite fmap_is_Some.
Qed.

Lemma sameDom_unlink c o cb s0 s :
  sameDom s (closeGroup s0 (unlinkState c o cb (openGroup s))).
Proof.
  split; intros x.
  - rewrite conns_closeGroup, conns_unlinkState, conns_openGroup.
    repeat case_decide; subst; rewrite ?fmap_is_Some; done.
  - rewrite blocks_closeGroup, blocks_unlinkState, blocks_openGroup.
    repeat case_decide; subst; rewrite ?fmap_is_Some; done.
Qed.

Lemma slotOk_kept s s' b kinds slot :
  extends s s' -> slotOk s b kinds slot -> slotOk s' b kinds slot.
Proof.
  intros [Hc _]. destruct slot as [c|]; [|done]. simpl.
  destruct (conns s !! c) as [cn|] eqn:E; [|done].
  destruct (Hc _ _ E) as (cn' & -> & Hb & Hy & _). by rewrite Hb, Hy.
Qed.

Lemma Shaped_kept s s' : extends s s' -> sameDom s s' -> Shaped s -> Shaped s'.
Proof.
  intros Hext [_ Hd] Hsh b blk' Hb'.
  destruct (proj1 (Hd b)) as [blk Hb]; [eauto|].
  pose proof Hext as [_ Hbk].
  destruct (Hbk _ _ Hb) as (blk'' & Hb'' & Ho & Hp & Hn & Hi & _).
  rewrite Hb' in Hb''. injection Hb'' as <-.
  destruct (Hsh _ _ Hb) as (S1 & S2 & S3 & S4).
  unfold blockOk. rewrite Ho, Hp, Hn, Hi.
  split; [by eapply slotOk_kept|]. split; [by eapply slotOk_kept|].
  split; [by eapply slotOk_kept|].
  eapply Forall_impl; [exact S4|]. intros x. by apply slotOk_kept.
Qed.

(** The plug of a well-shaped block is an inferior connection of its own. *)
Lemma Shaped_plug s b blk c cn :
  Shaped s -> blocks s !! b = Some blk -> plugOf blk = Some c ->
  conns s !! c = Some cn -> isSuperior cn = false /\ sourceBlock_ cn = b.
Proof.
  intros Hsh Hb Hp Hc. destruct (Hsh _ _ Hb) as (S1 & S2 & _).
  unfold plugOf in Hp. destruct (outputConnection blk) as [o|].
  - injection Hp as ->. simpl in S1. rewrite Hc in S1.
    destruct S1 as [? Hk%list_elem_of_singleton].
    unfold isSuperior. by rewrite Hk.
  - destruct (previousConnection blk) as [p|]; [|done].
    injection Hp as ->. simpl in S2. rewrite Hc in S2.
    destruct S2 as [? Hk%list_elem_of_singleton].
    unfold isSuperior. by rewrite Hk.
Qed.

(** Every connection of a well-shaped block is superior, or its plug. *)
Lemma Shaped_conns s b blk c :
  WF s -> Shaped s -> blocks s !! b = Some blk -> c ∈ blockConnections blk ->
  exists cn, conns s !! c = Some cn /\
    (isSuperior cn = true \/ plugOf blk = Some c).
Proof.
  intros [Hok _] Hsh Hb Hin. destruct (Hsh _ _ Hb) as (S1 & S2 & S3 & S4).
  assert (forall slot kinds, slotOk s b kinds slot -> slot = Some c ->
            exists cn, conns s !! c = Some cn /\ sourceBlock_ cn = b /\
                       type cn ∈ kinds) as Hslot.
  { intros slot kinds Hs ->. simpl in Hs.
    destruct (conns s !! c) as [cn|]; [|done]. exists cn. tauto. }
  unfold blockConnections in Hin. apply elem_of_app in Hin as [Hin|Hin].
  - apply list_elem_of_omap in Hin as (slot & Hin & Heq). simpl in Heq.
    rewrite Forall_forall in S4.
    destruct (Hslot _ _ (S4 _ Hin) Heq) as (cn & Hc & _ & Hk).
    exists cn. split; [done|]. left. unfold isSuperior.
    apply elem_of_cons in Hk as [->|Hk%list_elem_of_singleton]; [done|].
    by rewrite Hk.
  - apply list_elem_of_omap in Hin as (slot & Hin & Heq). simpl in Heq.
    apply elem_of_cons in Hin as [->|Hin].
    { destruct (Hslot _ _ S3 Heq) as (cn & Hc & _ & Hk%list_elem_of_singleton).
      exists cn. split; [done|]. left. unfold isSuperior. by rewrite Hk. }
    apply elem_of_cons in Hin as [->|Hin%list_elem_of_singleton].
    { destruct (Hslot _ _ S2 Heq) as (cn & Hc & Hsb & Hk%list_elem_of_singleton).
      exists cn. split; [done|]. right.
      pose proof (Hok _ _ Hc) as K. unfold connOk in K.
      rewrite Hsb, Hb in K. destruct K as [_ K].
      destruct (K Hk) as [Ho Hp]. unfold plugOf. by rewrite Ho, Hp. }
    subst slot.
    destruct (Hslot _ _ S1 Heq) as (cn & Hc & _ & _).
    exists cn. split; [done|]. right. unfold plugOf. by rewrite Heq.
Qed.

Lemma disposable_teardown s s' c :
  teardown s s' -> disposable s c -> disposable s' c.
Proof.
  intros (C & _) (cn & Hc & Hk).
  destruct (C _ _ Hc) as (cn' & Hc' & _ & Hy & Htg & _).
  exists cn'. split; [done|]. destruct Hk as [Hs|Ht].
  - left. unfold isSuperior in *. by rewrite Hy.
  - right. rewrite Ht in Htg.
    destruct Htg as [?|[?|(Hs & _)]]; [done|done|]. by destruct Hs.
Qed.

Section Quiet.

Variable canConnect : Workspace -> State -> ConnId -> ConnId -> bool -> bool.
Hypothesis chk_typed : checkerTyped canConnect.

Lemma blockUnplug_unfold f b s :
  blockUnplug canConnect (S f) b s =
  (blk ← getBlock s b;
   match plugOf blk with
   | Some c => cn ← getConn s c;
               if isConnected cn then disconnect canConnect f c s else Ok s
   | None => Ok s
   end).
Proof.
  simpl. destruct (getBlock s b) as [blk| |]; [|done..]. simpl.
  unfold plugOf. by destruct (outputConnection blk), (previousConnection blk).
Qed.

(** A returning [disconnect] ran on fuel for its respawn step. *)
Lemma disconnect_fuel f c s s' :
  disconnect canConnect f c s = Ok s' -> exists f', f = S (S f').
Proof.
  intros H. destruct f as [|[|f']]; [discriminate| |eauto]. exfalso.
  rewrite disconnect_unfold in H.
  apply bind_Ok in H as (cn & _ & H).
  apply bind_Ok in H as (o & _ & H).
  apply bind_Ok in H as (oc & _ & H).
  case_bool_decide; [|done].
  destruct (if isSuperior cn
            then (sourceBlock_ cn, sourceBlock_ oc, c)
            else (sourceBlock_ oc, sourceBlock_ cn, o)) as [[pb cb] p].
  apply bind_Ok in H as (s1 & _ & H).
  apply bind_Ok in H as (s2 & H2 & _). discriminate.
Qed.

(** [Block.unplug] on a block whose holder has no template. *)
Lemma blockUnplug_quiet f b s s' blk :
  WF s -> Shaped s -> blocks s !! b = Some blk -> plugQuiet s blk ->
  blockUnplug canConnect f b s = Ok s' ->
  sameDom s s' /\
  (forall plug pn, plugOf blk = Some plug -> conns s !! plug = Some pn ->
     freeAt s' plug (type pn)).
Proof using chk_typed.
  intros Hwf Hsh Hb Hq H. destruct f as [|f]; [discriminate|].
  rewrite blockUnplug_unfold, (getBlock_Some _ _ _ Hb), bind_ret_l in H.
  destruct (plugOf blk) as [c|] eqn:Hplug.
  2:{ injection H as <-. split; [apply sameDom_refl|]. intros; done. }
  apply bind_Ok in H as (cn & Ec & H). res_inv Ec.
  unfold isConnected in H.
  destruct (targetConnection cn) as [o|] eqn:Ht.
  2:{ injection H as <-. split; [apply sameDom_refl|].
      intros plug pn [= <-] Hpn. exists cn. by simplify_eq. }
  destruct (Shaped_plug _ _ _ _ _ Hsh Hb Hplug Ec) as [Hinf Hsb].
  pose proof Hwf as [Hok Hlk].
  destruct (linkOk_elim _ _ _ _ (Hlk _ _ Ec) Ht) as (on & Ho & Hback & Hopp).
  assert (c <> o) as Hne.
  { intros <-. rewrite Ec in Ho. injection Ho as <-.
    by rewrite opposite_irrefl in Hopp. }
  pose proof (Hok _ _ Ho) as K. unfold connOk in K.
  destruct (blocks s !! sourceBlock_ on) as [pb|] eqn:Hpb; [|done]. clear K.
  destruct (disconnect_fuel _ _ _ _ H) as (f' & ->).
  rewrite (disconnect_plain canConnect f' c o s cn on o on (sourceBlock_ cn) pb)
    in H; try done.
  2:{ by rewrite Hinf. }
  2:{ eapply Hq; eauto. }
  injection H as <-. split; [apply sameDom_unlink|].
  intros plug pn [= <-] Hpn. rewrite Ec in Hpn. injection Hpn as <-.
  exists (withTarget None cn).
  rewrite conns_closeGroup, conns_unlinkState, conns_openGroup.
  rewrite decide_True, decide_False by done. by rewrite Ec.
Qed.

Lemma forEach_quiet f l :
  (forall c s s', WF s -> Shaped s -> disposable s c ->
     dispose canConnect f c s = Ok s' -> sameDom s s') ->
  forall s s', WF s -> Shaped s -> Forall (disposable s) l ->
    forEach (dispose canConnect f) l s = Ok s' -> sameDom s s'.
Proof using chk_typed.
  intros Hd. induction l as [|c l IH]; simpl; intros s s' Hwf Hsh Hall H.
  - injection H as ->. apply sameDom_refl.
  - apply bind_Ok in H as (s1 & E & H).
    inversion Hall as [|? ? Hc Hl]; subst.
    pose proof (Hd _ _ _ Hwf Hsh Hc E) as D1.
    destruct (dispose_teardown canConnect chk_typed f) as [IHx _].
    destruct (IHx _ _ _ Hwf E) as [Hwf1 T1].
    destruct (extends_closed canConnect f) as (_ & _ & _ & _ & Ex & _).
    pose proof (Ex _ _ _ E) as E1.
    eapply sameDom_trans; [exact D1|].
    apply IH; [done|by eapply Shaped_kept| |done].
    eapply Forall_impl; [exact Hl|]. intros x. by apply disposable_teardown.
Qed.

(** [dispose] on a superior or free connection, and [Block.dispose] on a
    block whose holder has no template, materialise nothing. *)
Theorem dispose_quiet f :
  (forall c s s', WF s -> Shaped s -> disposable s c ->
     dispose canConnect f c s = Ok s' -> sameDom s s') /\
  (forall b s s' blk, WF s -> Shaped s -> blocks s !! b = Some blk ->
     plugQuiet s blk -> blockDispose canConnect f b s = Ok s' -> sameDom s s').
Proof using chk_typed.
  induction f as [|f [IHx IHb]]; [split; intros; discriminate|].
  split.
  - intros c s s' Hwf Hsh (cn & Hc & Hk) H. simpl in H.
    apply bind_Ok in H as (cn0 & Ec & H). res_inv Ec.
    rewrite Hc in Ec. injection Ec as <-.
    apply bind_Ok in H as (s1 & E1 & H). injection H as <-.
    eapply sameDom_trans; [|apply sameDom_updConn].
    unfold isConnected in E1.
    destruct (targetConnection cn) as [yc|] eqn:Ht;
      [|injection E1 as <-; apply sameDom_refl].
    destruct Hk as [Hsup|?]; [|done].
    set (sA := setShadowDom c None s) in *.
    assert (WF sA) as HwfA by by apply WF_setShadowDom.
    assert (Shaped sA) as HshA.
    { eapply Shaped_kept; [| |exact Hsh]; [|apply sameDom_updConn].
      apply extends_updConn. intros x. by repeat split. }
    assert (conns sA !! c = Some (withShadowDom None cn)) as HcA.
    { unfold sA, setShadowDom. rewrite lookup_updConn, decide_True by done.
      by rewrite Hc. }
    destruct (WF_occupant _ _ _ _ HwfA HcA Hsup Ht)
      as (yn & ob & Hyn & Hback & Hinf & _ & Hob & Hplug & _).
    apply bind_Ok in E1 as (tb & Et & E1).
    apply targetBlock_Ok in Et as (cn0 & Hc0 & Hm).
    rewrite HcA in Hc0. injection Hc0 as <-.
    apply bind_Ok in E1 as (tb' & Eo & E1). res_inv Eo. subst tb.
    destruct Hm as (t & tn & Ht' & Htn & <-).
    change (targetConnection (withShadowDom None cn)) with (targetConnection cn)
      in Ht'.
    rewrite Ht in Ht'. injection Ht' as <-.
    rewrite Hyn in Htn. injection Htn as <-.
    apply bind_Ok in E1 as (blk & Eb & E1). res_inv Eb.
    rewrite Hob in Eb. injection Eb as <-.
    assert (plugQuiet sA ob) as Hq.
    { intros plug pn P pc Hpl Hpn HtP HPc.
      rewrite Hplug in Hpl. injection Hpl as <-.
      rewrite Hyn in Hpn. injection Hpn as <-.
      rewrite Hback in HtP. injection HtP as <-.
      rewrite HcA in HPc. by injection HPc as <-. }
    eapply sameDom_trans; [apply (sameDom_updConn c (withShadowDom None) s)|].
    destruct (isShadow ob).
    + eapply IHb; eauto.
    + eapply blockUnplug_quiet; eauto.
  - intros b s s' blk Hwf Hsh Hb Hq H. simpl in H.
    apply bind_Ok in H as (s1 & E1 & H).
    apply bind_Ok in H as (blk2 & E2 & H). res_inv E2.
    destruct (blockUnplug_quiet f b s s1 blk Hwf Hsh Hb Hq E1) as [D1 Hfree].
    destruct (blockUnplug_teardown canConnect chk_typed _ _ _ _ Hwf E1)
      as [Hwf1 T1].
    destruct (extends_closed canConnect f) as (_ & _ & _ & _ & _ & Ku & _).
    pose proof (Ku _ _ _ E1) as X1.
    assert (Shaped s1) as Hsh1 by by eapply Shaped_kept.
    set (s2 := setWorkspace b None s1) in *.
    assert (WF s2) as Hwf2 by by apply WF_setWorkspace.
    assert (extends s1 s2) as X2.
    { apply extends_updBlock. intros x. by repeat split. }
    assert (Shaped s2) as Hsh2.
    { eapply Shaped_kept; [exact X2|apply sameDom_updBlock|done]. }
    eapply sameDom_trans; [exact D1|].
    eapply sameDom_trans; [apply (sameDom_updBlock b (withWorkspace None) s1)|].
    eapply (forEach_quiet f _ IHx s2 s'); [done|done| |exact H].
    pose proof X1 as [Xc Xb].
    destruct (Xb _ _ Hb) as (blk1 & Hb1 & Ko & Kp & Kn & Ki & _).
    assert (blockConnections blk2 = blockConnections blk) as ->.
    { unfold s2, setWorkspace in E2.
      rewrite lookup_updBlock, decide_True, Hb1 in E2 by done.
      injection E2 as <-. unfold blockConnections. simpl.
      by rewrite Ko, Kp, Kn, Ki. }
    apply Forall_forall. intros c Hin.
    destruct (Shaped_conns _ _ _ _ Hwf Hsh Hb Hin) as (cn & Hc & Hk).
    destruct Hk as [Hsup|Hplug].
    + destruct (Xc _ _ Hc) as (cn1 & Hc1 & _ & Hy & _).
      exists cn1. split; [done|]. left. unfold isSuperior in *. by rewrite Hy.
    + destruct (Hfree _ _ Hplug Hc) as (cn1 & Hc1 & Ht1 & _).
      exists cn1. split; [done|]. by right.
Qed.

(** [dispose] on a linked connection: clear the template, destroy or
    unplug the target block, set the flag. *)
Lemma dispose_linked f c s cn yc yn ob :
  conns s !! c = Some cn -> targetConnection cn = Some yc ->
  conns s !! yc = Some yn -> blocks s !! sourceBlock_ yn = Some ob ->
  dispose canConnect (S f) c s =
  (s1 ← (if isShadow ob
         then blockDispose canConnect f (sourceBlock_ yn) (setShadowDom c None s)
         else blockUnplug canConnect f (sourceBlock_ yn) (setShadowDom c None s));
   Ok (setDisposed c s1)).
Proof.
  intros Hc Ht Hyn Hob.
  change (dispose canConnect (S f) c s) with
    (cn ← getConn s c;
     s1 ← (if isConnected cn then
             let s := setShadowDom c None s in
             tb ← targetBlock s c;
             tb ← orThrow TypeError tb;
             blk ← getBlock s tb;
             if isShadow blk then blockDispose canConnect f tb s
             else blockUnplug canConnect f tb s
           else Ok s);
     Ok (setDisposed c s1)).
  rewrite (getConn_Some _ _ _ Hc), bind_ret_l.
  unfold isConnected. rewrite Ht. cbv zeta.
  set (sA := setShadowDom c None s).
  assert (targetBlock sA c = Ok (Some (sourceBlock_ yn))) as ->.
  { assert (conns sA !! c = Some (withShadowDom None cn)) as HcA.
    { unfold sA, setShadowDom. rewrite lookup_updConn, decide_True by done.
      by rewrite Hc. }
    assert (exists yn', conns sA !! yc = Some yn' /\
                        sourceBlock_ yn' = sourceBlock_ yn) as (yn' & Hy' & Hs').
    { unfold sA, setShadowDom. rewrite lookup_updConn. case_decide as Hd.
      - subst yc. rewrite Hc in Hyn |- *. injection Hyn as <-. simpl. eauto.
      - eauto. }
    unfold targetBlock. rewrite (getConn_Some _ _ _ HcA), bind_ret_l.
    change (targetConnection (withShadowDom None cn)) with (targetConnection cn).
    rewrite Ht, (getConn_Some _ _ _ Hy'), bind_ret_l. by rewrite Hs'. }
  rewrite bind_ret_l. cbn [orThrow]. rewrite bind_ret_l.
  by rewrite (getBlock_Some sA _ _ Hob), bind_ret_l.
Qed.

End Quiet.

Lemma Shaped_decide s : bool_decide (Shaped s) = true -> Shaped s.
Proof. apply bool_decide_eq_true. Qed.

(** What [dispose] leaves on a superior connection.  [dispose] on a superior connection [P] that holds
    the block of [xc], in a well-formed arena of well-shaped blocks.  The
    call clears the template of [P], then destroys the block when it is a
    placeholder and unplugs it otherwise, then sets the flag.  When it
    returns, [P] has no template and no target, [xc] has no target, [P] is
    disposed, a placeholder has left its workspace, an ordinary block has no
    parent and is still in its workspace, and the arena holds the same
    connections and blocks as before: nothing was respawned. *)
Lemma dispose_returns
    (canConnect : Workspace -> State -> ConnId -> ConnId -> bool -> bool)
    f P s s' pc xc xn ob :
  checkerTyped canConnect -> WF s -> Shaped s ->
  conns s !! P = Some pc -> isSuperior pc = true ->
  targetConnection pc = Some xc ->
  conns s !! xc = Some xn -> blocks s !! sourceBlock_ xn = Some ob ->
  dispose canConnect (S f) P s = Ok s' ->
  dispose canConnect (S f) P s =
    (s1 ← (if isShadow ob
           then blockDispose canConnect f (sourceBlock_ xn) (setShadowDom P None s)
           else blockUnplug canConnect f (sourceBlock_ xn) (setShadowDom P None s));
     Ok (setDisposed P s1)) /\
  template s' P = None /\ target s' P = None /\ target s' xc = None /\
  disposedAt s' P = true /\
  (if isShadow ob then workspaceOf s' (sourceBlock_ xn) = None
   else parentOf s' (sourceBlock_ xn) = None /\
        workspaceOf s' (sourceBlock_ xn) = workspace ob) /\
  sameDom s s'.
Proof.
  intros Hchk Hwf Hsh HP Hsup Ht Hxn Hob H.
  pose proof (dispose_linked canConnect f P s pc xc xn ob HP Ht Hxn Hob) as Heq.
  split; [done|].
  assert (sameDom s s') as Hdom.
  { destruct (dispose_quiet canConnect Hchk (S f)) as [Hq _].
    eapply Hq; eauto. exists pc. auto. }
  rewrite Heq in H. apply bind_Ok in H as (s1 & E1 & H). injection H as <-.
  set (sA := setShadowDom P None s) in *.
  assert (WF sA) as HwfA by by apply WF_setShadowDom.
  assert (conns sA !! P = Some (withShadowDom None pc)) as HPA.
  { unfold sA, setShadowDom. rewrite lookup_updConn, decide_True by done.
    by rewrite HP. }
  destruct (WF_occupant _ _ _ _ Hwf HP Hsup Ht)
    as (xn' & ob' & Hxn' & Hback & Hinf & _ & _ & _ & Hne & _).
  rewrite Hxn in Hxn'. injection Hxn' as <-.
  assert (conns sA !! xc = Some xn) as HxnA.
  { unfold sA, setShadowDom. by rewrite lookup_updConn, decide_False. }
  assert (forall cP cx,
    conns s1 !! P = Some cP -> targetConnection cP = None ->
    shadowDom_ cP = None ->
    conns s1 !! xc = Some cx -> targetConnection cx = None ->
    template (setDisposed P s1) P = None /\ target (setDisposed P s1) P = None /\
    target (setDisposed P s1) xc = None /\
    disposedAt (setDisposed P s1) P = true) as Hends.
  { intros cP cx HcP HtP HsP Hcx Htx.
    unfold template, target, disposedAt, setDisposed.
    rewrite !lookup_updConn, decide_True, decide_False by done.
    rewrite HcP, Hcx. simpl. by rewrite HtP, HsP, Htx. }
  destruct (isShadow ob) eqn:Hshadow.
  - destruct (blockDispose_occupant canConnect Hchk f sA s1 P _ xc xn
                HwfA HPA Hsup Ht HxnA eq_refl E1)
      as (_ & (Tc & _) & (cP & HcP & HtP & _) & (cx & Hcx & Htx & _)).
    destruct (Tc _ _ HPA) as (cP' & HcP' & _ & _ & _ & Hsd).
    rewrite HcP in HcP'. injection HcP' as <-.
    assert (shadowDom_ cP = None) as HsP by by destruct Hsd.
    destruct (Hends _ _ HcP HtP HsP Hcx Htx) as (? & ? & ? & ?).
    repeat (split; [done|]). split; [|done].
    destruct (blockDispose_dead canConnect _ _ _ _ E1) as (blk & Hblk & Hws).
    unfold workspaceOf. change (blocks (setDisposed P s1)) with (blocks s1).
    by rewrite Hblk.
  - destruct (blockUnplug_occupant canConnect Hchk f sA s1 P _ xc xn
                HwfA HPA Hsup Ht HxnA E1)
      as (_ & _ & Hcx & (t & HcP & _ & Hnone) & _ & Hbl).
    rewrite (Hnone eq_refl) in HcP.
    destruct (Hends _ _ HcP eq_refl eq_refl Hcx eq_refl) as (? & ? & ? & ?).
    repeat (split; [done|]). split; [|done].
    unfold parentOf, workspaceOf.
    change (blocks (setDisposed P s1)) with (blocks s1).
    rewrite (Hbl _ _ Hob), decide_True by done. done.
Qed.


(** C10, as stated, fails on an inferior connection: [dispose] on the
    output connection 3 of the innermost block of [nestState] unplugs the
    block that holds it, which respawns a placeholder on connection 0, and
    leaves the link between 2 and 3 in place. *)
Lemma C10_counterexample :
  linked nestState 2 3 /\ blocks nestState !! 3 = None /\
  exists s', dispose kindChecker 8 3 nestState = Ok s' /\
    linked s' 2 3 /\ disposedAt s' 3 = true /\
    (isShadow <$> blocks s' !! 3) = Some true /\ linked s' 0 4.
Proof.
  split; [split; vm_compute; reflexivity|]. split; [vm_compute; reflexivity|].
  eexists. split; [vm_compute; reflexivity|].
  split; [split; vm_compute; reflexivity|]. split; [vm_compute; reflexivity|].
  split; [vm_compute; reflexivity|]. split; vm_compute; reflexivity.
Qed.

(** ** Ancestry and cycles *)

Lemma Forest_bounded n s :
  map_Forall (fun b _ => ancestor s n b = None) (blocks s) -> Forest s.
Proof.
  intros H b. destruct (blocks s !! b) as [blk|] eqn:Hb.
  - exists n. by apply (H b blk).
  - exists 1. simpl. unfold parentOf. by rewrite Hb.
Qed.

Lemma Forest_decide n s :
  bool_decide (map_Forall (fun b _ => ancestor s n b = None) (blocks s)) = true ->
  Forest s.
Proof. intros H%bool_decide_eq_true. by eapply Forest_bounded. Qed.

(** Two blocks that are each other's parent: the walk never ends. *)
Lemma cycle_not_Forest s a b :
  parentOf s a = Some b -> parentOf s b = Some a -> ~ Forest s.
Proof.
  intros Ha Hb HF.
  assert (forall n, is_Some (ancestor s n a) /\ is_Some (ancestor s n b)) as H.
  { induction n as [|n [IHa IHb]]; [split; simpl; eauto|].
    simpl. rewrite Ha, Hb. simpl. auto. }
  destruct (HF a) as [n Hn]. destruct (H n) as [[x Hx] _]. congruence.
Qed.

(** Re-pointing one block [cb] to a parent whose ancestry avoids [cb]
    keeps the forest. *)
Lemma Forest_link s s' pb cb :
  Forest s -> ~ ancestorOrSelf s cb pb ->
  (forall b, b <> cb -> parentOf s' b = parentOf s b) ->
  parentOf s' cb = Some pb \/ parentOf s' cb = None ->
  Forest s'.
Proof.
  intros HF Hno Hframe Hcb.
  assert (forall n y, (forall k, ancestor s k y <> Some cb) ->
            ancestor s' n y = ancestor s n y) as Hsame.
  { induction n as [|n IH]; intros y Hy; [done|]. simpl.
    assert (y <> cb) as Hne by (intros ->; by apply (Hy 0)).
    rewrite (Hframe _ Hne). destruct (parentOf s y) as [p|] eqn:Hp; [|done].
    simpl. apply IH. intros k Hk. apply (Hy (S k)). simpl. by rewrite Hp. }
  assert (exists m, ancestor s' m cb = None) as Hend.
  { destruct Hcb as [Hcb|Hcb].
    - destruct (HF pb) as [k Hk]. exists (S k). simpl. rewrite Hcb. simpl.
      rewrite Hsame; [done|]. intros j Hj. apply Hno. by exists j.
    - exists 1. simpl. by rewrite Hcb. }
  intros b. destruct (HF b) as [n Hn]. revert b Hn.
  induction n as [|n IH]; intros b Hn; [done|].
  destruct (decide (b = cb)) as [->|Hne]; [done|].
  simpl in Hn. destruct (parentOf s b) as [p|] eqn:Hp.
  - simpl in Hn. destruct (IH _ Hn) as [m Hm]. exists (S m). simpl.
    rewrite (Hframe _ Hne), Hp. done.
  - exists 1. simpl. by rewrite (Hframe _ Hne), Hp.
Qed.

Lemma strictChecker_typed : checkerTyped strictChecker.
Proof.
  intros ws s a b. unfold strictChecker.
  destruct (conns s !! a) as [ca|]; [|done].
  destruct (conns s !! b) as [cb|]; [|done].
  intros [[H _]%andb_true_iff _]%andb_true_iff. eauto.
Qed.

Lemma strictChecker_sym : checkerSymmetric strictChecker.
Proof.
  intros ws ws' s a b. unfold strictChecker.
  destruct (conns s !! a) as [ca|], (conns s !! b) as [cb|]; try done.
  rewrite (opposite_sym (type ca)). f_equal; [f_equal|].
  - f_equal. apply bool_decide_ext. split; congruence.
  - apply bool_decide_ext. split; congruence.
Qed.

(** ** Forests under the protocol *)

Lemma ancestor_add s n m b :
  ancestor s (n + m) b = (a ← ancestor s n b; ancestor s m a).
Proof.
  revert b. induction n as [|n IH]; intros b; simpl; [done|].
  destruct (parentOf s b); simpl; [apply IH|done].
Qed.

Lemma ancestor_prefix s n m b :
  is_Some (ancestor s (n + m) b) -> is_Some (ancestor s n b).
Proof.
  rewrite ancestor_add. destruct (ancestor s n b); [eauto|].
  simpl. by intros [? ?].
Qed.

(** In a forest no block is its own proper ancestor. *)
Lemma Forest_no_cycle s k b :
  Forest s -> ancestor s (S k) b = Some b -> False.
Proof.
  intros HF Hc.
  assert (forall q, ancestor s (q * S k) b = Some b) as Hq.
  { induction q as [|q IH]; [done|].
    change (S q * S k) with (S k + q * S k). by rewrite ancestor_add, Hc. }
  destruct (HF b) as [n Hn].
  assert (is_Some (ancestor s n b)) as [a Ha].
  { apply (ancestor_prefix s n (n * S k - n)).
    replace (n + (n * S k - n)) with (n * S k) by nia. rewrite Hq. eauto. }
  congruence.
Qed.

Lemma parent_not_ancestor s x p :
  Forest s -> parentOf s x = Some p -> ~ ancestorOrSelf s x p.
Proof.
  intros HF Hp [k Hk]. apply (Forest_no_cycle s k x HF). simpl.
  by rewrite Hp.
Qed.

(** The two halves of [Parented], as they are used. *)
Lemma Parented_iff s :
  Parented s <->
  (forall c cn t tn,
     conns s !! c = Some cn -> isSuperior cn = false ->
     targetConnection cn = Some t -> conns s !! t = Some tn ->
     parentOf s (sourceBlock_ cn) = Some (sourceBlock_ tn)) /\
  (forall b p, parentOf s b = Some p -> is_Some (blocks s !! p)).
Proof.
  split.
  - intros [H1 H2]. split.
    + intros c cn t tn Hc Hi Ht Htn. specialize (H1 c cn Hc Hi).
      by rewrite Ht, Htn in H1.
    + intros b p Hp. unfold parentOf in Hp.
      destruct (blocks s !! b) as [blk|] eqn:E; [|done]. simpl in Hp.
      specialize (H2 b _ E). unfold parentIn in H2. by rewrite Hp in H2.
  - intros [H1 H2]. split.
    + intros c cn Hc Hi. destruct (targetConnection cn) as [t|] eqn:Ht; [|done].
      destruct (conns s !! t) as [tn|] eqn:Htn; [|done]. eauto.
    + intros b blk Hb. unfold parentIn.
      destruct (parentBlock_ blk) as [p|] eqn:Hp; [|done].
      apply (H2 b). unfold parentOf. by rewrite Hb.
Qed.

(** The ancestry of [r] only shrinks when no block of it is re-pointed. *)
Lemma ancestor_shrink M s s' r :
  tornOutside M s s' -> Parented s -> is_Some (blocks s !! r) ->
  (forall m, M m -> ~ ancestorOrSelf s m r) ->
  forall n a, ancestor s' n r = Some a -> ancestor s n r = Some a.
Proof.
  intros HT [_ HP]%Parented_iff Hr HM n. revert r Hr HM.
  induction n as [|n IH]; intros r [blk Hr] HM a Ha; [done|].
  simpl in Ha |- *.
  assert (~ M r) as HnM. { intros Hm. apply (HM r Hm). by exists 0. }
  destruct (HT _ _ Hr HnM) as (blk' & Hb' & Htorn).
  destruct (parentOf s' r) as [p|] eqn:Hp'; [|done]. simpl in Ha.
  assert (parentOf s r = Some p) as Hp.
  { unfold parentOf in *. rewrite Hb' in Hp'. rewrite Hr. simpl in *.
    destruct Htorn as [Heq|Heq]; congruence. }
  rewrite Hp. simpl. apply IH; [by eapply HP| |done].
  intros m Hm [k Hk]. apply (HM m Hm). exists (S k). simpl. by rewrite Hp.
Qed.

Lemma Forest_torn s s' :
  Forest s -> Parented s -> tornOutside (fun _ => False) s s' ->
  (forall b, blocks s !! b = None -> parentOf s' b = None) ->
  Forest s'.
Proof.
  intros HF HP HT Hnew b.
  destruct (blocks s !! b) as [blk|] eqn:Hb.
  - destruct (HF b) as [n Hn]. exists n.
    destruct (ancestor s' n b) as [a|] eqn:Ha; [|done].
    eapply ancestor_shrink in Ha; eauto. congruence.
  - exists 1. simpl. by rewrite (Hnew _ Hb).
Qed.

Lemma ancestor_same s s' :
  (forall b, parentOf s' b = parentOf s b) ->
  forall n b, ancestor s' n b = ancestor s n b.
Proof.
  intros H. induction n as [|n IH]; intros b; [done|]. simpl.
  rewrite H. destruct (parentOf s b); simpl; auto.
Qed.

Lemma Grove_same s s' : sameLinks s s' -> sameParents s s' -> Grove s -> Grove s'.
Proof.
  intros [Hc _] [Hp Hd] [[H1 H2]%Parented_iff HF]. split.
  - apply Parented_iff. split.
    + intros c cn' t tn' Hx Hi Ht Htn.
      pose proof (Hc c) as Ec. rewrite Hx in Ec.
      destruct (conns s !! c) as [cn|] eqn:Hc0; [|done].
      simpl in Ec. injection Ec as Esb Ety Etg.
      pose proof (Hc t) as Et. rewrite Htn in Et.
      destruct (conns s !! t) as [tn|] eqn:Ht0; [|done].
      simpl in Et. injection Et as Esb' _ _.
      rewrite Hp, Esb, Esb'. eapply H1; eauto.
      * unfold isSuperior in *. by rewrite <- Ety.
      * congruence.
    + intros b p Hb. rewrite Hp in Hb. apply Hd. eauto.
  - intros b. destruct (HF b) as [n Hn]. exists n.
    by rewrite (ancestor_same s s' Hp).
Qed.

(** Two inferior connections of one block are the same connection. *)
Lemma plug_unique s x y xn yn :
  WF s -> conns s !! x = Some xn -> conns s !! y = Some yn ->
  isSuperior xn = false -> isSuperior yn = false ->
  sourceBlock_ xn = sourceBlock_ yn -> x = y.
Proof.
  intros [Hok _] Hx Hy Hix Hiy Hsb.
  pose proof (Hok _ _ Hx) as Kx. pose proof (Hok _ _ Hy) as Ky.
  unfold connOk in *. rewrite <- Hsb in Ky.
  destruct (blocks s !! sourceBlock_ xn) as [blk|]; [|done].
  destruct Kx as [Kxo Kxp], Ky as [Kyo Kyp].
  unfold isSuperior in *.
  destruct (type xn) eqn:Tx, (type yn) eqn:Ty; try done.
  - specialize (Kxo eq_refl). specialize (Kyo eq_refl). congruence.
  - specialize (Kxo eq_refl). destruct (Kyp eq_refl). congruence.
  - specialize (Kyo eq_refl). destruct (Kxp eq_refl). congruence.
  - destruct (Kxp eq_refl). destruct (Kyp eq_refl). congruence.
Qed.

(** Severing a link keeps the grove. *)
Lemma Grove_unlinkState s c o p i cp ci :
  WF s -> Grove s ->
  conns s !! p = Some cp -> conns s !! i = Some ci ->
  isSuperior ci = false ->
  (c = p /\ o = i) \/ (c = i /\ o = p) ->
  Grove (unlinkState c o (sourceBlock_ ci) s).
Proof.
  intros Hwf [HP HF] Hp Hi Hinf Hco.
  pose proof HP as [H1 H2]%Parented_iff.
  set (s' := unlinkState c o (sourceBlock_ ci) s).
  assert (forall x, x <> c -> x <> o -> conns s' !! x = conns s !! x) as Hfr.
  { intros x Hxc Hxo. unfold s'. rewrite conns_unlinkState.
    by rewrite !decide_False. }
  assert (forall x xn', conns s' !! x = Some xn' ->
            exists xn, conns s !! x = Some xn /\
              sourceBlock_ xn' = sourceBlock_ xn /\ type xn' = type xn /\
              (targetConnection xn' = targetConnection xn \/
               (targetConnection xn' = None /\ (x = c \/ x = o)))) as Hall.
  { intros x xn' Hx. unfold s' in Hx. rewrite conns_unlinkState in Hx.
    repeat case_decide; subst;
      repeat match goal with
      | H : _ <$> ?m = Some _ |- _ =>
          let E := fresh in destruct m eqn:E; simplify_eq/=
      end; eauto 10. }
  assert (forall b, b <> sourceBlock_ ci -> parentOf s' b = parentOf s b) as Hpar.
  { intros b Hb. unfold parentOf, s'. rewrite blocks_unlinkState.
    by rewrite decide_False. }
  assert (parentOf s' (sourceBlock_ ci) = None) as Hcb.
  { unfold parentOf, s'. rewrite blocks_unlinkState, decide_True by done.
    by destruct (blocks s !! sourceBlock_ ci). }
  assert (forall b, is_Some (blocks s' !! b) <-> is_Some (blocks s !! b)) as Hdom.
  { intros b. unfold s'. rewrite blocks_unlinkState.
    case_decide; subst; [|done]. by rewrite fmap_is_Some. }
  split.
  - apply Parented_iff. split.
    + intros x xn' t tn' Hx Hix Ht Htn.
      destruct (Hall _ _ Hx) as (xn & Hx0 & Esb & Ety & Etg).
      destruct (Hall _ _ Htn) as (tn & Ht0 & Esb' & _).
      destruct Etg as [Etg|[Etg _]]; [|congruence].
      assert (x <> i) as Hxi.
      { intros ->. unfold s' in Hx. rewrite conns_unlinkState in Hx.
        destruct Hco as [[-> ->]|[-> ->]];
          repeat case_decide; subst;
          repeat match goal with
          | H : _ <$> ?m = Some _ |- _ =>
              let E := fresh in destruct m eqn:E; simplify_eq/=
          end; congruence. }
      rewrite Esb, Esb', Hpar.
      * eapply H1; eauto; [|congruence].
        unfold isSuperior in *. by rewrite <- Ety.
      * intros Heq. apply Hxi.
        eapply (plug_unique s x i xn ci); eauto.
        unfold isSuperior in *. by rewrite <- Ety.
    + intros b q Hb. apply Hdom.
      destruct (decide (b = sourceBlock_ ci)) as [->|Hne]; [congruence|].
      rewrite Hpar in Hb by done. eauto.
  - eapply Forest_torn; [exact HF|exact HP| |].
    + intros b blk Hb _. unfold s'. rewrite blocks_unlinkState.
      case_decide; subst.
      * rewrite Hb. simpl. eexists; split; [done|]. by right.
      * exists blk. split; [done|]. by left.
    + intros b Hb. unfold parentOf, s'. rewrite blocks_unlinkState.
      case_decide; subst; by rewrite Hb.
Qed.

(** Materialising a placeholder keeps the grove: the new block has no
    parent and nothing refers to it. *)
Lemma Grove_domToBlock d ws s sm B :
  WF s -> Grove s -> domToBlock d ws s = (sm, B) ->
  Grove sm /\ blocks s !! B = None /\ parentOf sm B = None /\
  (forall b, b <> B -> blocks sm !! b = blocks s !! b).
Proof.
  intros Hwf [HP HF] E.
  pose proof HP as [H1 H2]%Parented_iff.
  pose proof E as Hspec.
  apply domToBlock_spec in Hspec
    as (HB & _ & _ & Hc & Hb & Hbo & ov & pv & nx & Hnew & _ & _ & _ & _ &
        Hcs & _).
  assert (blocks s !! B = None) as HBn by (rewrite HB; apply freshBlock_None).
  assert (parentOf sm B = None) as HBp by (unfold parentOf; by rewrite Hnew).
  assert (forall b, b <> B -> parentOf sm b = parentOf s b) as Hpar.
  { intros b Hne. unfold parentOf. by rewrite Hbo. }
  split; [|by auto].
  split.
  - apply Parented_iff. split.
    + intros x xn t tn Hx Hi Ht Htn.
      destruct (Hcs _ _ Hx) as [Hx0|(_ & ty & -> & _)]; [|done].
      pose proof Hwf as [Hok Hlk].
      destruct (linkOk_elim _ _ _ _ (Hlk _ _ Hx0) Ht) as (tn0 & Ht0 & _).
      rewrite (Hc _ _ Ht0) in Htn. injection Htn as <-.
      rewrite Hpar; [by eapply H1|].
      intros Heq. pose proof (Hok _ _ Hx0) as K. unfold connOk in K.
      by rewrite Heq, HBn in K.
    + intros b q Hq. destruct (decide (b = B)) as [->|Hne]; [congruence|].
      rewrite Hpar in Hq by done. destruct (H2 _ _ Hq) as [qb Hqb].
      rewrite (Hb _ _ Hqb). eauto.
  - eapply Forest_torn; [exact HF|exact HP| |].
    + intros b blk Hb0 _. exists blk. split; [by apply Hb|by left].
    + intros b Hb0. destruct (decide (b = B)) as [->|Hne]; [done|].
      unfold parentOf. by rewrite Hbo, Hb0.
Qed.

(** Linking two free connections keeps the grove when the child block is
    not in the ancestry of the parent block. *)
Lemma Grove_linkState s P C pc cc :
  WF s -> Grove s ->
  conns s !! P = Some pc -> conns s !! C = Some cc ->
  targetConnection pc = None -> targetConnection cc = None ->
  isSuperior pc = true -> isSuperior cc = false ->
  ~ ancestorOrSelf s (sourceBlock_ cc) (sourceBlock_ pc) ->
  Grove (linkState P C (sourceBlock_ pc) (sourceBlock_ cc) s).
Proof.
  intros Hwf [HP HF] Hp Hc HtP HtC Hsup Hinf Hno.
  pose proof HP as [H1 H2]%Parented_iff.
  pose proof Hwf as [Hok Hlk].
  set (s' := linkState P C (sourceBlock_ pc) (sourceBlock_ cc) s).
  assert (P <> C) as Hne by (intros ->; congruence).
  assert (is_Some (blocks s !! sourceBlock_ cc)) as [cblk Hcblk].
  { pose proof (Hok _ _ Hc) as K. unfold connOk in K.
    destruct (blocks s !! sourceBlock_ cc); [eauto|done]. }
  assert (is_Some (blocks s !! sourceBlock_ pc)) as [pblk Hpblk].
  { pose proof (Hok _ _ Hp) as K. unfold connOk in K.
    destruct (blocks s !! sourceBlock_ pc); [eauto|done]. }
  assert (forall b, b <> sourceBlock_ cc -> parentOf s' b = parentOf s b) as Hpar.
  { intros b Hb. unfold parentOf, s'. rewrite blocks_linkState.
    by rewrite decide_False. }
  assert (parentOf s' (sourceBlock_ cc) = Some (sourceBlock_ pc)) as Hcb.
  { unfold parentOf, s'. rewrite blocks_linkState, decide_True by done.
    by rewrite Hcblk. }
  assert (forall b, is_Some (blocks s' !! b) <-> is_Some (blocks s !! b)) as Hdom.
  { intros b. unfold s'. rewrite blocks_linkState.
    case_decide; subst; [|done]. by rewrite fmap_is_Some. }
  assert (forall x xn', conns s' !! x = Some xn' ->
            exists xn, conns s !! x = Some xn /\
              sourceBlock_ xn' = sourceBlock_ xn /\ type xn' = type xn /\
              (x <> P -> x <> C -> xn' = xn)) as Hall.
  { intros x xn' Hx. unfold s' in Hx. rewrite conns_linkState in Hx.
    rewrite (decide_False (P := P = C)) in Hx by done.
    repeat case_decide; subst;
      repeat match goal with
      | H : _ <$> ?m = Some _ |- _ =>
          let E := fresh in destruct m eqn:E; simplify_eq/=
      end; eexists; (split; [done|]); repeat split; congruence. }
  split.
  - apply Parented_iff. split.
    + intros x xn' t tn' Hx Hix Ht Htn.
      destruct (Hall _ _ Hx) as (xn & Hx0 & Esb & Ety & Eeq).
      destruct (Hall _ _ Htn) as (tn & Ht0 & Esb' & _).
      assert (isSuperior xn = false) as Hix0.
      { unfold isSuperior in *. by rewrite <- Ety. }
      assert (x <> P) as HxP by (intros ->; congruence).
      destruct (decide (x = C)) as [->|HxC].
      * rewrite Hc in Hx0. injection Hx0 as <-.
        assert (t = P) as ->.
        { unfold s' in Hx. rewrite conns_linkState in Hx.
          rewrite decide_True, decide_False, Hc in Hx by done.
          simpl in Hx. injection Hx as <-. simpl in Ht. congruence. }
        rewrite Hp in Ht0. injection Ht0 as <-. by rewrite Esb, Esb'.
      * rewrite (Eeq HxP HxC) in Ht.
        rewrite Esb, Esb', Hpar; [by eapply H1|].
        intros Heq. apply HxC. by eapply (plug_unique s x C xn cc).
    + intros b q Hb. apply Hdom.
      destruct (decide (b = sourceBlock_ cc)) as [->|Hne'].
      * rewrite Hcb in Hb. injection Hb as <-. eauto.
      * rewrite Hpar in Hb by done. eauto.
  - eapply (Forest_link s s' (sourceBlock_ pc) (sourceBlock_ cc)); eauto.
Qed.

Lemma Grove_conns s s' :
  conns s' = conns s -> blocks s' = blocks s -> Grove s -> Grove s'.
Proof.
  intros Hc Hb. apply Grove_same; [by apply sameLinks_same|].
  unfold sameParents, parentOf. by rewrite Hb.
Qed.

Lemma Grove_updConn c f s :
  (forall cn, sourceBlock_ (f cn) = sourceBlock_ cn /\ type (f cn) = type cn /\
              targetConnection (f cn) = targetConnection cn) ->
  Grove s -> Grove (updConn c f s).
Proof. intros Hf. apply Grove_same; [by apply sameLinks_updConn|done]. Qed.

Lemma Grove_setWorkspace b w s : Grove s -> Grove (setWorkspace b w s).
Proof.
  apply Grove_same; [by apply sameLinks_updBlock|]. split; intros x.
  - unfold parentOf, setWorkspace. rewrite lookup_updBlock.
    case_decide; subst; [|done]. by destruct (blocks s !! x).
  - unfold setWorkspace. rewrite lookup_updBlock.
    case_decide; subst; [|done]. by rewrite fmap_is_Some.
Qed.

Lemma ancestorOrSelf_blocks s s' a b :
  blocks s' = blocks s -> ancestorOrSelf s' a b <-> ancestorOrSelf s a b.
Proof.
  intros Hb. unfold ancestorOrSelf.
  assert (forall n x, ancestor s' n x = ancestor s n x) as H.
  { apply ancestor_same. intros x. unfold parentOf. by rewrite Hb. }
  split; intros [n Hn]; exists n; by rewrite ?H in *.
Qed.

(** The ancestors of a block of the arena are blocks of the arena. *)
Lemma ancestor_in s n r a :
  Parented s -> is_Some (blocks s !! r) -> ancestor s n r = Some a ->
  is_Some (blocks s !! a).
Proof.
  intros [_ HP]%Parented_iff. revert r.
  induction n as [|n IH]; intros r Hr Ha; [by simplify_eq/=|].
  simpl in Ha. destruct (parentOf s r) as [p|] eqn:Hp; [|done].
  simpl in Ha. eapply IH; [|exact Ha]. by eapply HP.
Qed.

Section Groves.

Variable canConnect : Workspace -> State -> ConnId -> ConnId -> bool -> bool.
Hypothesis chk_typed : checkerTyped canConnect.

(** The outcomes of [respawnShadow_] on a free connection: nothing, a new
    placeholder left unattached, or a new placeholder attached. *)
Lemma respawn_cases f p s s' cn :
  WF s -> conns s !! p = Some cn -> targetConnection cn = None ->
  respawnShadow_ canConnect f p s = Ok s' ->
  s' = s \/
  exists d ws s1 B plug ty,
    domToBlock d ws s = (s1, B) /\ conns s !! plug = None /\
    conns s1 !! plug = Some (mkConnection B ty None false None None) /\
    (ty = OUTPUT_VALUE \/ ty = PREVIOUS_STATEMENT) /\
    (s' = s1 \/
     (isSuperior cn = true /\
      s' = closeGroup s1
             (linkState p plug (sourceBlock_ cn) B (openGroup s1)))).
Proof using chk_typed.
  intros Hwf Hp Htp H.
  destruct f as [|f]; [discriminate|]. simpl in H.
  apply bind_Ok in H as (cn0 & E & H). res_inv E. rewrite Hp in E; simplify_eq.
  apply bind_Ok in H as (pb & E & H). res_inv E.
  destruct (workspace pb) as [ws|] eqn:Hws; [|left; by simplify_eq].
  unfold getShadowDom in H.
  destruct (shadowDom_ cn0) as [d|] eqn:Hd; [|left; by simplify_eq].
  destruct (recordUndo (events s)) eqn:Hru; [|left; by simplify_eq].
  right.
  destruct (domToBlock d ws s) as [s1 B] eqn:Edom.
  pose proof Edom as Hspec.
  apply domToBlock_spec in Hspec
    as (HB & Hev & Htm & Hc & Hb & Hbo & o & pv & n & Hnew & Hop & _ & _ & _ &
        Hcs & Ho & Hpv).
  apply bind_Ok in H as (bs & E1 & H). res_inv E1. rewrite Hnew in E1.
  simplify_eq. simpl in H.
  assert (exists plug ty,
    conns s !! plug = None /\
    conns s1 !! plug =
      Some (mkConnection (freshBlock s) ty None false None None) /\
    (ty = OUTPUT_VALUE \/ ty = PREVIOUS_STATEMENT) /\
    connect canConnect f p plug s1 = Ok s')
    as (plug & ty & Hfresh & Hplug & Hty & Hcon).
  { destruct o as [o|].
    - exists o, OUTPUT_VALUE. split; [|by auto].
      destruct (Hcs o _ (Ho _ eq_refl)) as [Hold|[? _]]; [|done].
      destruct Hwf as [Hok _]. specialize (Hok _ _ Hold). unfold connOk in Hok.
      simpl in Hok. by rewrite freshBlock_None in Hok.
    - destruct pv as [pv|]; [|discriminate].
      exists pv, PREVIOUS_STATEMENT. split; [|by auto].
      destruct (Hcs pv _ (Hpv _ eq_refl)) as [Hold|[? _]]; [|done].
      destruct Hwf as [Hok _]. specialize (Hok _ _ Hold). unfold connOk in Hok.
      simpl in Hok. by rewrite freshBlock_None in Hok. }
  clear H.
  exists d, ws, s1, (freshBlock s), plug, ty.
  split; [done|]. split; [done|]. split; [done|]. split; [done|].
  assert (plug <> p) as Hne by (intros ->; congruence).
  assert (s' = s1 \/
    (canConnect ws s1 p plug false = true /\
     s' = closeGroup s1
            (if isSuperior cn0
             then linkState p plug (sourceBlock_ cn0) (freshBlock s) (openGroup s1)
             else linkState plug p (freshBlock s) (sourceBlock_ cn0) (openGroup s1))))
    as [->|[Hchk ->]]; [|by left|].
  { destruct f as [|[|f]].
    - discriminate.
    - simpl in Hcon. res_inv Hcon; auto.
    - rewrite (connect_free canConnect f p plug s1 cn0
                 (mkConnection (freshBlock s) ty None false None None) pb ws)
        in Hcon; [|by auto|done|done|done|by auto|done].
      cbn [sourceBlock_] in Hcon. injection Hcon as <-.
      destruct (canConnect ws s1 p plug false); auto. }
  destruct (chk_typed _ _ _ _ Hchk) as (ca & cb & Hca & Hcb & Hopp).
  rewrite (Hc _ _ Hp) in Hca. rewrite Hplug in Hcb. simplify_eq. simpl in Hopp.
  assert (isSuperior ca = true) as Hsup.
  { unfold isSuperior. destruct Hty; subst ty; destruct (type ca); done. }
  rewrite Hsup. right. done.
Qed.

Lemma respawn_Grove f p s s' cn :
  WF s -> Grove s -> conns s !! p = Some cn -> targetConnection cn = None ->
  respawnShadow_ canConnect f p s = Ok s' -> Grove s'.
Proof using chk_typed.
  intros Hwf HG Hp Ht H.
  destruct (respawn_cases f p s s' cn Hwf Hp Ht H)
    as [->|(d & ws & s1 & B & plug & ty & Edom & Hfresh & Hplug & Hty & Hs')];
    [done|].
  destruct (Grove_domToBlock _ _ _ _ _ Hwf HG Edom) as (HG1 & HBn & HBp & Hbo).
  pose proof (WF_domToBlock _ _ _ _ _ Edom Hwf) as Hwf1.
  destruct Hs' as [->|[Hsup ->]]; [done|].
  apply domToBlock_spec in Edom as (_ & _ & _ & Hc & Hb & _).
  eapply Grove_conns; [apply conns_closeGroup|apply blocks_closeGroup|].
  apply (Grove_linkState (openGroup s1) p plug cn
           (mkConnection B ty None false None None)).
  - by apply WF_openGroup.
  - eapply Grove_conns; [| |exact HG1];
      [apply conns_openGroup|apply blocks_openGroup].
  - rewrite conns_openGroup. by apply Hc.
  - by rewrite conns_openGroup.
  - done.
  - done.
  - done.
  - by destruct Hty as [-> | ->].
  - simpl. rewrite ancestorOrSelf_blocks by apply blocks_openGroup.
    intros [n Hn]. destruct HG as [HP HF].
    assert (is_Some (blocks s !! sourceBlock_ cn)) as Hsrc.
    { destruct Hwf as [Hok _]. pose proof (Hok _ _ Hp) as K. unfold connOk in K.
      destruct (blocks s !! sourceBlock_ cn); [eauto|done]. }
    eapply (ancestor_shrink (fun _ => False) s s1) in Hn; try done.
    + destruct (ancestor_in _ _ _ _ HP Hsrc Hn) as [x Hx]. congruence.
    + intros b blk Hblk _. exists blk. split; [by apply Hb|by left].
Qed.

(** [disconnect] is: sever the pair, respawn on the parent end. *)
Lemma disconnect_inv f c s s' cn o :
  WF s -> conns s !! c = Some cn -> targetConnection cn = Some o ->
  disconnect canConnect (S f) c s = Ok s' ->
  exists p i cp ci s3,
    conns s !! p = Some cp /\ conns s !! i = Some ci /\
    isSuperior cp = true /\ isSuperior ci = false /\
    ((c = p /\ o = i) \/ (c = i /\ o = p)) /\ p <> i /\
    respawnShadow_ canConnect f p
      (unlinkState c o (sourceBlock_ ci) (openGroup s)) = Ok s3 /\
    s' = closeGroup s s3.
Proof.
  intros Hwf Hc Ht H. rewrite disconnect_unfold in H.
  rewrite (getConn_Some _ _ _ Hc), bind_ret_l, Ht in H.
  cbn [orThrow] in H. rewrite bind_ret_l in H.
  pose proof Hwf as [_ Hlk].
  destruct (linkOk_elim _ _ _ _ (Hlk _ _ Hc) Ht) as (on & Ho & Hoc & Hopp).
  rewrite (getConn_Some _ _ _ Ho), bind_ret_l, Hoc in H.
  rewrite bool_decide_eq_true_2 in H by done.
  assert (c <> o) as Hne.
  { intros ->. simplify_eq. by rewrite opposite_irrefl in Hopp. }
  pose proof (opposite_superior _ _ Hopp) as Hsup.
  destruct (isSuperior cn) eqn:E; simpl in Hsup.
  - erewrite disconnectInternal__eq in H;
      [|by rewrite conns_openGroup|done|by rewrite conns_openGroup].
    rewrite bind_ret_l in H. apply bind_Ok in H as (s3 & Hre & H).
    injection H as <-. exists c, o, cn, on, s3.
    repeat (split; [first [done|by apply negb_true_iff|by left]|]). done.
  - erewrite disconnectInternal__eq in H;
      [|by rewrite conns_openGroup|done|by rewrite conns_openGroup].
    rewrite bind_ret_l in H. apply bind_Ok in H as (s3 & Hre & H).
    injection H as <-. exists o, c, on, cn, s3.
    repeat (split; [first [done|by apply negb_false_iff|by right|congruence]|]).
    done.
Qed.

Lemma disconnect_Grove f c s s' :
  WF s -> Grove s -> disconnect canConnect f c s = Ok s' -> Grove s'.
Proof using chk_typed.
  intros Hwf HG H.
  assert (exists cn o, conns s !! c = Some cn /\ targetConnection cn = Some o)
    as (cn & o & Hc & Ht).
  { destruct f as [|f]; [discriminate|]. rewrite disconnect_unfold in H.
    apply bind_Ok in H as (cn & E & H). res_inv E.
    apply bind_Ok in H as (o & E' & H). res_inv E'. eauto. }
  destruct f as [|f]; [discriminate|].
  destruct (disconnect_inv f c s s' cn o Hwf Hc Ht H)
    as (p & i & cp & ci & s3 & Hp & Hi & Hsp & Hsi & Hco & Hpi & Hre & ->).
  set (s2 := unlinkState c o (sourceBlock_ ci) (openGroup s)) in *.
  assert (WF s2) as Hwf2.
  { eapply WF_unlinkState; [by apply WF_openGroup| |done].
    by rewrite conns_openGroup. }
  assert (Grove s2) as HG2.
  { eapply (Grove_unlinkState (openGroup s) c o p i cp ci).
    - by apply WF_openGroup.
    - eapply Grove_conns; [| |exact HG];
        [apply conns_openGroup|apply blocks_openGroup].
    - by rewrite conns_openGroup.
    - by rewrite conns_openGroup.
    - done.
    - done. }
  assert (conns s2 !! p = Some (withTarget None cp)) as Hp2.
  { unfold s2. rewrite conns_unlinkState, !conns_openGroup.
    destruct Hco as [[-> ->]|[-> ->]].
    - rewrite decide_True, decide_False by done. by rewrite Hp.
    - rewrite (decide_False (P := i = p)) by done.
      rewrite decide_True by done. by rewrite Hp. }
  eapply Grove_conns; [apply conns_closeGroup|apply blocks_closeGroup|].
  eapply respawn_Grove; eauto.
Qed.

Lemma blockUnplug_Grove f b s s' :
  WF s -> Grove s -> blockUnplug canConnect f b s = Ok s' -> Grove s'.
Proof using chk_typed.
  intros Hwf HG H. destruct f as [|f]; [discriminate|]. simpl in H.
  res_inv H; eauto using disconnect_Grove.
Qed.

Lemma forEach_Grove {A} (body : A -> State -> result State) l :
  (forall a s s', WF s -> Grove s -> body a s = Ok s' -> WF s' /\ Grove s') ->
  forall s s', WF s -> Grove s -> forEach body l s = Ok s' -> WF s' /\ Grove s'.
Proof.
  intros Hb. induction l as [|a l IH]; simpl; intros s s' Hwf HG H.
  - by injection H as ->.
  - apply bind_Ok in H as (s1 & E & H).
    destruct (Hb _ _ _ Hwf HG E) as [Hwf1 HG1]. eauto.
Qed.

(** Disposal keeps the grove. *)
Theorem dispose_Grove f :
  (forall c s s', WF s -> Grove s -> dispose canConnect f c s = Ok s' ->
     Grove s') /\
  (forall b s s', WF s -> Grove s -> blockDispose canConnect f b s = Ok s' ->
     Grove s').
Proof using chk_typed.
  induction f as [|f [IHx IHb]]; [split; intros; discriminate|].
  destruct (dispose_teardown canConnect chk_typed f) as [Tx Tb].
  split.
  - intros c s s' Hwf HG H. simpl in H.
    apply bind_Ok in H as (cn & E & H). res_inv E.
    apply bind_Ok in H as (s1 & E1 & H). injection H as <-.
    apply Grove_updConn; [intros x; by repeat split|].
    destruct (isConnected cn); [|by injection E1 as <-].
    assert (WF (setShadowDom c None s)) as Hwf0 by by apply WF_setShadowDom.
    assert (Grove (setShadowDom c None s)) as HG0.
    { apply Grove_updConn; [intros x; by repeat split|done]. }
    res_inv E1; eauto using blockUnplug_Grove.
  - intros b s s' Hwf HG H. simpl in H.
    apply bind_Ok in H as (s1 & E1 & H).
    apply bind_Ok in H as (blk & E2 & H).
    destruct (blockUnplug_teardown canConnect chk_typed _ _ _ _ Hwf E1)
      as [Hwf1 _].
    pose proof (blockUnplug_Grove _ _ _ _ Hwf HG E1) as HG1.
    assert (WF (setWorkspace b None s1)) as Hwf2 by by apply WF_setWorkspace.
    assert (Grove (setWorkspace b None s1)) as HG2 by by apply Grove_setWorkspace.
    eapply (forEach_Grove _ _ (fun a s s' Hw Hg E =>
              conj (proj1 (Tx a s s' Hw E)) (IHx a s s' Hw Hg E))); eauto.
Qed.

End Groves.

(** ** Blocks that keep or lose their parent *)

Lemma tornOutside_refl M s : tornOutside M s s.
Proof. intros b blk Hb _. exists blk. split; [done|by left]. Qed.

Lemma tornOutside_trans M s1 s2 s3 :
  tornOutside M s1 s2 -> tornOutside M s2 s3 -> tornOutside M s1 s3.
Proof.
  intros H1 H2 b blk Hb HM.
  destruct (H1 _ _ Hb HM) as (blk' & Hb' & K1).
  destruct (H2 _ _ Hb' HM) as (blk'' & Hb'' & K2).
  exists blk''. split; [done|]. unfold blockTorn in *.
  destruct K2 as [-> | ->]; auto.
Qed.

Lemma tornOutside_weaken (M M' : BlockId -> Prop) s s' :
  (forall b, M b -> M' b) -> tornOutside M s s' -> tornOutside M' s s'.
Proof. intros HM H b blk Hb Hn. apply (H b blk Hb). auto. Qed.

Lemma teardown_torn M s s' : teardown s s' -> tornOutside M s s'.
Proof. intros (_ & B & _) b blk Hb _. by apply B. Qed.

Lemma tornOutside_blocks M s s' : blocks s' = blocks s -> tornOutside M s s'.
Proof. intros E b blk Hb _. exists blk. rewrite E. split; [done|by left]. Qed.

Lemma tornOutside_linkState P C pb cb s :
  tornOutside (eq cb) s (linkState P C pb cb s).
Proof.
  intros b blk Hb Hne. exists blk. rewrite blocks_linkState.
  rewrite decide_False by done. split; [done|by left].
Qed.

Lemma extends_blocks_conns s s' :
  conns s' = conns s -> blocks s' = blocks s -> extends s s'.
Proof. intros. by apply extends_same. Qed.

Section Rehoming.

Variable canConnect : Workspace -> State -> ConnId -> ConnId -> bool -> bool.
Hypothesis chk_typed : checkerTyped canConnect.
Hypothesis chk_anc : checkerAncestry canConnect.

(** Re-homing by a nested [connect] keeps the grove and re-points the
    orphan only. *)
Lemma rehome_Grove f P pA xc xn slot sn A B s sB :
  (forall P' C' s s' pc' cc',
     WF s -> Grove s -> conns s !! P' = Some pc' -> conns s !! C' = Some cc' ->
     isSuperior pc' = true -> opposite (type pc') (type cc') = true ->
     targetConnection pc' <> Some C' -> occupantGone s P' ->
     ~ ancestorOrSelf s (sourceBlock_ cc') (sourceBlock_ pc') ->
     connect_ canConnect (pred f) P' C' s = Ok s' ->
     Grove s' /\ tornOutside (moved s P' (sourceBlock_ cc')) s s') ->
  WF s -> Grove s -> conns s !! P = Some pA -> isSuperior pA = true ->
  targetConnection pA = Some xc -> conns s !! xc = Some xn ->
  conns s !! slot = Some sn -> occupantGone s slot -> slot <> P ->
  targetConnection sn <> Some xc ->
  (A = xc /\ B = slot) \/ (A = slot /\ B = xc) ->
  (forall ws, getConnectionChecker s A = Ok ws ->
              canConnect ws s A B false = true) ->
  connect canConnect f A B s = Ok sB ->
  Grove sB /\ tornOutside (eq (sourceBlock_ xn)) s sB.
Proof using chk_typed chk_anc.
  intros IH Hwf HG HP Hsup Ht Hxn Hslot Hgone Hne Hnl HAB Hchk H.
  destruct (WF_occupant _ _ _ _ Hwf HP Hsup Ht)
    as (xn' & ob & Hxn' & Hback & Hinf & Hopp & Hob & Hplug & HxcP & _).
  rewrite Hxn in Hxn'. injection Hxn' as <-.
  destruct f as [|f]; [discriminate|].
  apply connect_inv in H as (ca & HA & H).
  assert (targetConnection ca <> Some B) as HnAB.
  { destruct HAB as [[-> ->]|[-> ->]]; simplify_eq; congruence. }
  destruct H as [[? _]|(_ & ws & Hws & H)]; [done|].
  pose proof (Hchk _ Hws) as Hacc.
  destruct H as [[? _]|(_ & s2 & Hc_ & ->)]; [congruence|].
  destruct (chk_typed _ _ _ _ Hacc) as (ca' & cb' & HA' & HB' & Hty).
  assert (isSuperior sn = true /\ opposite (type sn) (type xn) = true /\
          connect_ canConnect f slot xc (openGroup s) = Ok s2 /\
          ~ ancestorOrSelf s (sourceBlock_ xn) (sourceBlock_ sn))
    as (Hsups & Hopps & Hcall & Hanc).
  { destruct HAB as [[-> ->]|[-> ->]]; simplify_eq.
    - pose proof (chk_anc _ _ _ _ _ _ Hacc Hxn Hslot) as Kanc.
      rewrite Hinf in Hc_, Kanc. rewrite opposite_sym in Hty.
      pose proof (opposite_superior _ _ Hty) as Hs. rewrite Hinf in Hs.
      done.
    - pose proof (chk_anc _ _ _ _ _ _ Hacc Hslot Hxn) as Kanc.
      pose proof (opposite_superior _ _ Hty) as Hs. rewrite Hinf in Hs.
      simpl in Hs. rewrite Hs in Hc_, Kanc. done. }
  destruct (IH slot xc (openGroup s) s2 sn xn) as [HG2 HT2]; try done.
  - by apply WF_openGroup.
  - eapply Grove_conns; [| |exact HG];
      [apply conns_openGroup|apply blocks_openGroup].
  - by rewrite conns_openGroup.
  - by rewrite conns_openGroup.
  - eapply occupantGone_conns; [| |exact Hgone];
      [apply conns_openGroup|apply blocks_openGroup].
  - by rewrite ancestorOrSelf_blocks by apply blocks_openGroup.
  - split.
    + eapply Grove_conns; [| |exact HG2];
        [apply conns_closeGroup|apply blocks_closeGroup].
    + eapply tornOutside_trans; [|apply tornOutside_blocks, blocks_closeGroup].
      eapply tornOutside_trans;
        [apply (tornOutside_blocks _ s (openGroup s)), blocks_openGroup|].
      eapply tornOutside_weaken; [|exact HT2].
      intros b [->|(pc0 & xc0 & xn0 & ob0 & E1 & E2 & E3 & E4 & E5 & E6)];
        [done|].
      exfalso. rewrite conns_openGroup in E1, E3.
      rewrite blocks_openGroup in E5.
      destruct (Hgone _ _ E1 E2) as (xn1 & ob1 & F1 & F2 & F3).
      rewrite E3 in F1. injection F1 as <-. rewrite E4, E5 in F2.
      injection F2 as <-. congruence.
Qed.

(** Orphan resolution keeps the grove and re-points the orphan only. *)
Lemma resolve_Grove f P cb s1 s2 pc :
  (forall P' C' s s' pc' cc',
     WF s -> Grove s -> conns s !! P' = Some pc' -> conns s !! C' = Some cc' ->
     isSuperior pc' = true -> opposite (type pc') (type cc') = true ->
     targetConnection pc' <> Some C' -> occupantGone s P' ->
     ~ ancestorOrSelf s (sourceBlock_ cc') (sourceBlock_ pc') ->
     connect_ canConnect (pred f) P' C' s = Ok s' ->
     Grove s' /\ tornOutside (moved s P' (sourceBlock_ cc')) s s') ->
  checkerSymmetric canConnect \/ occupantGone s1 P ->
  WF s1 -> Grove s1 -> conns s1 !! P = Some pc -> isSuperior pc = true ->
  resolveOrphan canConnect f P cb s1 s2 ->
  Grove s2 /\ tornOutside (occupantBlock s1 P) s1 s2 /\ extends s1 s2.
Proof using chk_typed chk_anc.
  intros IH Hsym Hwf HG HP Hsup Hres.
  set (sA := setShadowDom P None s1).
  assert (WF sA) as HwfA by by apply WF_setShadowDom.
  assert (Grove sA) as HGA.
  { apply Grove_updConn; [intros x; by repeat split|done]. }
  assert (conns sA !! P = Some (withShadowDom None pc)) as HPA.
  { unfold sA, setShadowDom. rewrite lookup_updConn, decide_True by done.
    by rewrite HP. }
  assert (forall x, x <> P -> conns sA !! x = conns s1 !! x) as HA.
  { intros x Hx. unfold sA, setShadowDom.
    by rewrite lookup_updConn, decide_False. }
  assert (forall M, tornOutside M s1 sA) as T0.
  { intros M. by apply tornOutside_blocks. }
  assert (extends s1 sA) as E0.
  { apply extends_updConn. intros x. by repeat split. }
  assert (forall d sB, Grove sB -> Grove (setShadowDom P d sB)) as Gsd.
  { intros d sB. apply Grove_updConn. intros x. by repeat split. }
  assert (forall d sB M, tornOutside M sA sB ->
            tornOutside M s1 (setShadowDom P d sB)) as Tsd.
  { intros d sB M HT. eapply tornOutside_trans; [apply T0|].
    eapply tornOutside_trans; [exact HT|]. by apply tornOutside_blocks. }
  assert (forall d sB, extends sA sB -> extends s1 (setShadowDom P d sB)) as Esd.
  { intros d sB HE. eapply extends_trans; [exact E0|].
    eapply extends_trans; [exact HE|].
    apply extends_updConn. intros x. by repeat split. }
  destruct Hres as [pc0 HP0 Hfree
    | pc0 xc xn ob sB HP0 Ht Hxn Hob Hsh Hdisp
    | pc0 xc xn ob out slot sB HP0 Ht Hxn Hob Hsh Hty Hout Hrow Hcon
    | pc0 xc xn ob prev slot ws sB HP0 Ht Hxn Hob Hsh Hty Hprev Hnx Hws Hchk Hcon
    | pc0 xc xn ob sB HP0 Ht Hxn Hob Hsh Hwhy Hdis];
    rewrite HP in HP0; injection HP0 as <-.
  - (* free *)
    split; [done|]. split; [apply tornOutside_refl|apply extends_refl].
  - (* placeholder *)
    fold sA in Hdisp |- *.
    destruct (dispose_teardown canConnect chk_typed f) as [_ Tb].
    destruct (Tb _ _ _ HwfA Hdisp) as [_ Td].
    destruct (dispose_Grove canConnect chk_typed f) as [_ Gb].
    destruct (extends_closed canConnect f) as (_ & _ & _ & _ & _ & _ & Eb).
    split; [apply Gsd; eauto|]. split; [by apply Tsd, teardown_torn|].
    apply Esd; eauto.
  - (* re-homed in a value input *)
    fold sA in Hrow, Hcon |- *.
    destruct (WF_occupant _ _ _ _ HwfA HPA Hsup Ht)
      as (xn' & ob' & HxnA & Hback & Hinf & Hopp & HobA & Hplug & HxcP & Hov & _).
    rewrite HA, Hxn in HxnA by done. injection HxnA as <-.
    change (blocks sA) with (blocks s1) in HobA.
    rewrite Hob in HobA. injection HobA as <-.
    simpl in Hov. rewrite Hov in Hout by done. injection Hout as <-.
    assert (exists ws,
      getConnectionChecker sA xc = Ok ws /\
      rowWalk canConnect sA ws xc cb (Some slot)) as (ws & Hws & Hwalk).
    { destruct f as [|f']; [discriminate|]. pose proof Hrow as Hrow'.
      simpl in Hrow'. apply bind_Ok in Hrow' as ([c|] & Es & _).
      - apply singleConnection__Some in Es as (ob0 & out0 & ws & Eo & Eout & ? & _).
        change (blocks sA) with (blocks s1) in Eo.
        rewrite Hob in Eo. injection Eo as <-.
        rewrite Hov in Eout by done. injection Eout as <-.
        exists ws. split; [done|].
        eapply lastConnectionInRow_walk; eauto.
      - exfalso. simpl in Hrow.
        rewrite Es in Hrow. simpl in Hrow. discriminate. }
    destruct (rowWalk_Some _ _ _ _ _ _ Hwalk) as (Hgone & sn & Hsn & Htys & Hacc).
    assert (slot <> P) as HsP.
    { intros ->.
      eapply (occupantGone_ordinary sA P _ xc xn ob);
        [exact HPA|done|by rewrite HA|exact Hob|done|done]. }
    destruct (rehome_Grove f P (withShadowDom None pc) xc xn slot sn xc slot
                sA sB IH HwfA HGA HPA Hsup Ht) as [HGB HTB]; try done.
    { by rewrite HA. }
    { intros Hts.
      eapply (occupantGone_ordinary sA slot _ xc xn ob);
        [exact Hsn|done|by rewrite HA|exact Hob|done|done]. }
    { by left. }
    { intros ws' Hws'. rewrite Hws in Hws'. by injection Hws' as <-. }
    destruct (extends_closed canConnect f) as (Ec & _).
    split; [by apply Gsd|]. split; [|apply Esd; eauto].
    apply Tsd. eapply tornOutside_weaken; [|exact HTB].
    intros b <-. exists pc, xc, xn, ob. by repeat split.
  - (* re-homed at the end of a stack *)
    fold sA in Hnx, Hchk, Hcon |- *.
    destruct (WF_occupant _ _ _ _ HwfA HPA Hsup Ht)
      as (xn' & ob' & HxnA & Hback & Hinf & Hopp & HobA & Hplug & HxcP & _ & Hpv).
    rewrite HA, Hxn in HxnA by done. injection HxnA as <-.
    change (blocks sA) with (blocks s1) in HobA.
    rewrite Hob in HobA. injection HobA as <-.
    simpl in Hpv. rewrite Hpv in Hprev by done. injection Hprev as <-.
    destruct (lastNextConnection_Some _ _ _ _ Hnx) as (Hgone & sn & Hsn).
    assert (slot <> P) as HsP.
    { intros ->.
      eapply (occupantGone_ordinary sA P _ xc xn ob);
        [exact HPA|done|by rewrite HA|exact Hob|done|done]. }
    destruct (rehome_Grove f P (withShadowDom None pc) xc xn slot sn slot xc
                sA sB IH HwfA HGA HPA Hsup Ht) as [HGB HTB]; try done.
    { by rewrite HA. }
    { intros Hts.
      eapply (occupantGone_ordinary sA slot _ xc xn ob);
        [exact Hsn|done|by rewrite HA|exact Hob|done|done]. }
    { by right. }
    { intros ws' Hws'. destruct Hsym as [chk_sym|Hg].
      - by rewrite (chk_sym ws' ws).
      - exfalso.
        eapply (occupantGone_ordinary s1 P _ xc xn ob); [exact HP|done..]. }
    destruct (extends_closed canConnect f) as (Ec & _).
    split; [by apply Gsd|]. split; [|apply Esd; eauto].
    apply Tsd. eapply tornOutside_weaken; [|exact HTB].
    intros b <-. exists pc, xc, xn, ob. by repeat split.
  - (* orphaned *)
    fold sA in Hdis |- *.
    destruct (disconnect_teardown canConnect chk_typed _ _ _ _ HwfA Hdis)
      as [_ Td].
    pose proof (disconnect_Grove canConnect chk_typed _ _ _ _ HwfA HGA Hdis)
      as HGB.
    destruct (extends_closed canConnect f) as (_ & _ & Ed & _).
    assert (forall t, conns (bumpLater (sourceBlock_ xn) P t) = conns t)
      as Hbc by (intros; apply conns_bumpLater).
    assert (forall t, blocks (bumpLater (sourceBlock_ xn) P t) = blocks t)
      as Hbb by (intros; apply blocks_bumpLater).
    split.
    { apply Gsd. eapply Grove_conns; [apply Hbc|apply Hbb|exact HGB]. }
    split.
    + apply Tsd. eapply tornOutside_trans; [by apply teardown_torn|].
      by apply tornOutside_blocks.
    + apply Esd. eapply extends_trans; [eauto|]. by apply extends_same.
Qed.

End Rehoming.

Section Attaching.

Variable canConnect : Workspace -> State -> ConnId -> ConnId -> bool -> bool.
Hypothesis chk_typed : checkerTyped canConnect.
Hypothesis chk_anc : checkerAncestry canConnect.

(** [connect_] keeps the grove when the child block is not in the ancestry
    of the parent block, and gives a new parent to the child block and to the
    ordinary block it displaces only. *)
Lemma connect__Grove f P C s s' pc cc :
  checkerSymmetric canConnect \/ occupantGone s P ->
  WF s -> Grove s -> conns s !! P = Some pc -> conns s !! C = Some cc ->
  isSuperior pc = true -> opposite (type pc) (type cc) = true ->
  targetConnection pc <> Some C ->
  ~ ancestorOrSelf s (sourceBlock_ cc) (sourceBlock_ pc) ->
  connect_ canConnect f P C s = Ok s' ->
  Grove s' /\ tornOutside (moved s P (sourceBlock_ cc)) s s'.
Proof using chk_typed chk_anc.
  revert P C s s' pc cc.
  induction f as [f IH] using lt_wf_ind.
  intros P C s s' pc cc Hsym Hwf HG HP HC Hsup Hopp Hnl Hanc H.
  destruct f as [|f]; [discriminate|].
  apply connect__inv in H as (pc0 & cc0 & s1 & s2 & HP0 & HC0 & H1 & Hres & ->).
  rewrite HP in HP0. injection HP0 as <-. rewrite HC in HC0. injection HC0 as <-.
  assert (P <> C) as HPC.
  { intros ->. rewrite HP in HC. injection HC as <-.
    by rewrite opposite_irrefl in Hopp. }
  destruct (predisconnect canConnect chk_typed f P C s s1 pc cc
              Hwf HP HC Hsup Hopp Hnl H1)
    as (Hwf1 & Htd1 & HP1 & HC1 & Hq1 & Hfr1 & Hbl1).
  assert (Grove s1) as HG1.
  { destruct (isConnected cc); [|by injection H1 as <-].
    by eapply (disconnect_Grove canConnect chk_typed f C s s1). }
  pose proof (opposite_superior _ _ Hopp) as Hsc. rewrite Hsup in Hsc.
  assert (isSuperior cc = false) as Hinfc by by destruct (isSuperior cc).
  pose proof Hwf as [Hok Hlk].
  assert (is_Some (blocks s !! sourceBlock_ pc)) as Hpb.
  { pose proof (Hok _ _ HP) as K. unfold connOk in K.
    destruct (blocks s !! sourceBlock_ pc); [eauto|done]. }
  assert (occupantGone s P -> occupantGone s1 P) as Hgone1'.
  { intros Hgone pc' xc HP' Ht'. rewrite HP1 in HP'. injection HP' as <-.
    destruct (Hgone _ _ HP Ht') as (xn & ob & Hxn & Hob & Hsh).
    destruct (WF_occupant _ _ _ _ Hwf HP Hsup Ht')
      as (xn' & ob' & Hxn' & Hback & Hinfx & _).
    rewrite Hxn in Hxn'. injection Hxn' as <-.
    exists xn. destruct (Hbl1 _ _ Hob) as (ob1 & Hob1 & Hsh1 & _ & _).
    exists ob1. split; [|split; [done|congruence]].
    apply Hfr1; [done| |].
    - intros ->. congruence.
    - intros Htc.
      destruct (linkOk_elim _ _ _ _ (Hlk _ _ HC) Htc) as (tn & Htn & _ & Ho).
      rewrite Hxn in Htn. injection Htn as <-.
      pose proof (opposite_superior _ _ Ho) as Hs.
      rewrite Hinfc, Hinfx in Hs. done. }
  assert (checkerSymmetric canConnect \/ occupantGone s1 P) as Hsym1.
  { destruct Hsym; [by left|right; auto]. }
  destruct (resolve_Grove canConnect chk_typed chk_anc f P (sourceBlock_ cc)
              s1 s2 pc) as (HG2 & HT2 & HE2); try done.
  { intros. eapply (IH (pred f)); eauto. lia. }
  destruct (resolve_attached canConnect chk_typed f P (sourceBlock_ cc)
              s1 s2 pc) as (Hwf2 & (pc2 & HP2 & HtP2 & Hty2) & Hinf2 & _);
    try done.
  { intros. eapply connect__attached_gen; eauto. }
  destruct (Hinf2 C (type cc)) as (cc2 & HC2 & HtC2 & Htyc2).
  { eexists; split; [exact HC1|done]. }
  { by apply isSuperior_kind. }
  assert (sourceBlock_ pc2 = sourceBlock_ pc /\
          sourceBlock_ cc2 = sourceBlock_ cc) as [Esp Esc].
  { destruct HE2 as [Hc2 _].
    destruct (Hc2 _ _ HP1) as (x & Hx & Kx & _).
    destruct (Hc2 _ _ HC1) as (y & Hy & Ky & _).
    rewrite HP2 in Hx. injection Hx as <-.
    rewrite HC2 in Hy. injection Hy as <-. done. }
  assert (~ ancestorOrSelf s1 (sourceBlock_ cc) (sourceBlock_ pc)) as Hanc1.
  { intros [n Hn]. apply Hanc. exists n.
    eapply (ancestor_shrink (fun _ => False) s s1); eauto.
    - by apply teardown_torn.
    - by destruct HG. }
  assert (~ ancestorOrSelf s2 (sourceBlock_ cc) (sourceBlock_ pc)) as Hanc2.
  { intros [n Hn]. apply Hanc1. exists n.
    eapply (ancestor_shrink (occupantBlock s1 P) s1 s2); eauto.
    - by destruct HG1.
    - destruct Hpb as [pb Hpb]. destruct (Hbl1 _ _ Hpb) as (pb' & ? & _). eauto.
    - intros m (pc1 & xc & xn & ob & E1 & E2 & E3 & E4 & E5 & E6).
      rewrite HP1 in E1. injection E1 as <-.
      destruct (WF_occupant _ _ _ _ Hwf1 HP1 Hsup E2)
        as (xn' & ob' & Hxn' & Hback & Hinfx & _).
      rewrite E3 in Hxn'. injection Hxn' as <-.
      destruct HG1 as [[HPt _]%Parented_iff HF1].
      subst m. apply (parent_not_ancestor s1 _ _ HF1).
      eapply HPt; eauto. }
  split.
  - rewrite <- Esp, <- Esc.
    apply Grove_linkState; try done.
    + unfold isSuperior in *. by rewrite Hty2.
    + unfold isSuperior in *. by rewrite Htyc2.
    + by rewrite Esp, Esc.
  - eapply tornOutside_trans; [apply teardown_torn, Htd1|].
    eapply tornOutside_trans.
    2:{ eapply tornOutside_weaken; [|apply tornOutside_linkState].
        intros b <-. by left. }
    eapply tornOutside_weaken; [|exact HT2].
    intros b (pc1 & xc & xn1 & ob1 & E1 & E2 & E3 & E4 & E5 & E6). right.
    rewrite HP1 in E1. injection E1 as <-.
    destruct (WF_occupant _ _ _ _ Hwf HP Hsup E2)
      as (xn & ob & Hxn & _ & _ & _ & Hob & _).
    destruct Htd1 as (Tc & _).
    destruct (Tc _ _ Hxn) as (xn' & Hxn' & Esb & _).
    rewrite E3 in Hxn'. injection Hxn' as <-.
    destruct (Hbl1 _ _ Hob) as (ob' & Hob' & Hsh' & _).
    rewrite <- Esb, E4 in Hob'. rewrite E5 in Hob'. injection Hob' as <-.
    exists pc, xc, xn, ob. repeat split; try done; congruence.
Qed.

Hypothesis chk_sym : checkerSymmetric canConnect.

Theorem connect_Grove f A B s s' :
  WF s -> Grove s -> connect canConnect f A B s = Ok s' -> Grove s'.
Proof using chk_typed chk_anc chk_sym.
  intros Hwf HG H. destruct f as [|f]; [discriminate|].
  apply connect_inv in H as (ca & HA & [[_ ->]|(Hnl & ws & Hws & H)]); [done|].
  destruct H as [[_ ->]|(Hacc & s2 & Hc_ & ->)]; [done|].
  eapply Grove_conns; [apply conns_closeGroup|apply blocks_closeGroup|].
  destruct (chk_typed _ _ _ _ Hacc) as (ca' & cb & HA' & HB & Hopp).
  rewrite HA in HA'. injection HA' as <-.
  pose proof (chk_anc _ _ _ _ _ _ Hacc HA HB) as Kanc.
  pose proof (opposite_superior _ _ Hopp) as Hs.
  assert (Grove (openGroup s)) as HGo.
  { eapply Grove_conns; [| |exact HG];
      [apply conns_openGroup|apply blocks_openGroup]. }
  destruct (isSuperior ca) eqn:Hsa.
  - eapply (connect__Grove f A B (openGroup s) s2 ca cb); try done.
    + by left.
    + by apply WF_openGroup.
    + by rewrite conns_openGroup.
    + by rewrite conns_openGroup.
    + by rewrite ancestorOrSelf_blocks by apply blocks_openGroup.
  - eapply (connect__Grove f B A (openGroup s) s2 cb ca); try done.
    + by left.
    + by apply WF_openGroup.
    + by rewrite conns_openGroup.
    + by rewrite conns_openGroup.
    + by destruct (isSuperior cb).
    + by rewrite opposite_sym.
    + intros Htb. pose proof Hwf as [_ Hlk].
      destruct (linkOk_elim _ _ _ _ (Hlk _ _ HB) Htb) as (tn & Htn & Hb & _).
      rewrite HA in Htn. injection Htn as <-. done.
    + by rewrite ancestorOrSelf_blocks by apply blocks_openGroup.
Qed.

Lemma connectAll_Grove fuel ops s s' :
  WF s -> Grove s -> connectAll canConnect fuel ops s = Ok s' ->
  WF s' /\ Grove s'.
Proof using chk_typed chk_anc chk_sym.
  unfold connectAll. revert s.
  induction ops as [|[a b] ops IH]; simpl; intros s Hwf HG H.
  - by injection H as <-.
  - apply bind_Ok in H as (s1 & E & H).
    eapply IH; [| |exact H].
    + by eapply connect_WF.
    + by eapply connect_Grove.
Qed.

End Attaching.

(** ** Cycle freedom *)

Lemma rootChecker_typed : checkerTyped rootChecker.
Proof.
  intros ws s a b. unfold rootChecker.
  destruct (conns s !! a) as [ca|]; [|done].
  destruct (conns s !! b) as [cb|]; [|done].
  intros [[H _]%andb_true_iff _]%andb_true_iff. eauto.
Qed.

Lemma rootChecker_sym : checkerSymmetric rootChecker.
Proof.
  intros ws ws' s a b. unfold rootChecker.
  destruct (conns s !! a) as [ca|], (conns s !! b) as [cb|]; try done.
  rewrite (opposite_sym (type cb)).
  destruct (opposite (type ca) (type cb)) eqn:Hopp; [|done]. simpl.
  pose proof (opposite_superior _ _ Hopp) as Hs.
  f_equal.
  - f_equal. apply bool_decide_ext. split; congruence.
  - rewrite Hs. by destruct (isSuperior cb).
Qed.

Lemma rootChecker_ancestry : checkerAncestry rootChecker.
Proof.
  intros ws s a b ca cb H Ha Hb. unfold rootChecker in H. rewrite Ha, Hb in H.
  apply andb_true_iff in H as [[Hopp Hne]%andb_true_iff Hroot].
  apply negb_true_iff, bool_decide_eq_false in Hne.
  apply bool_decide_eq_true in Hroot.
  assert (forall x y, x <> y -> parentOf s y = None -> ~ ancestorOrSelf s x y)
    as Hno.
  { intros x y Hxy Hy [[|n] Hn]; simpl in Hn; [congruence|].
    by rewrite Hy in Hn. }
  destruct (isSuperior ca); apply Hno; congruence.
Qed.

Lemma Parented_decide s : bool_decide (Parented s) = true -> Parented s.
Proof. apply bool_decide_eq_true. Qed.

(** Sequences of [connect] calls keep the forest.  Under a checker that only accepts opposite kinds,
    answers symmetrically, and never accepts a connection whose inferior
    block is the superior block or one of its ancestors: from a well-formed
    forest whose parent links follow the connections, every sequence of
    [connect] calls that returns leaves such an arena again.  Targets are
    mutual, the walk up the parent links ends from every block, and no
    block is its own ancestor. *)
Lemma cycle_freedom_returns
    (canConnect : Workspace -> State -> ConnId -> ConnId -> bool -> bool)
    fuel ops s s' :
  checkerTyped canConnect -> checkerSymmetric canConnect ->
  checkerAncestry canConnect ->
  WF s -> Parented s -> Forest s ->
  connectAll canConnect fuel ops s = Ok s' ->
  WF s' /\ reciprocal s' /\ Parented s' /\ Forest s' /\
  (forall b n, ancestor s' (S n) b <> Some b).
Proof.
  intros Hty Hsym Hanc Hwf HP HF H.
  destruct (connectAll_Grove canConnect Hty Hanc Hsym fuel ops s s' Hwf
              (conj HP HF) H) as (Hwf' & HP' & HF').
  split; [done|]. split; [by apply WF_reciprocal|].
  split; [done|]. split; [done|].
  intros b n Hn. by eapply Forest_no_cycle.
Qed.



(** ** The protocol never reads the disposed flag *)

Lemma updConn_comm x c f g s :
  (forall cn, f (g cn) = g (f cn)) ->
  updConn x f (updConn c g s) = updConn c g (updConn x f s).
Proof.
  intros Hfg. unfold updConn. simpl. f_equal. apply map_eq. intros i.
  rewrite !lookup_alter.
  repeat case_decide; subst; rewrite ?lookup_alter, ?decide_True,
    ?decide_False by done; try done.
  destruct (conns s !! i); simpl; [|done]. by rewrite Hfg.
Qed.

Lemma setTarget_mark c x t s :
  setTarget x t (setDisposed c s) = setDisposed c (setTarget x t s).
Proof. by apply updConn_comm. Qed.

Lemma setShadowDom_mark c x d s :
  setShadowDom x d (setDisposed c s) = setDisposed c (setShadowDom x d s).
Proof. by apply updConn_comm. Qed.

Lemma setDisposed_mark c x s :
  setDisposed x (setDisposed c s) = setDisposed c (setDisposed x s).
Proof. by apply updConn_comm. Qed.

Lemma getConn_mark c s x :
  getConn (setDisposed c s) x = (cn ← getConn s x; Ok (markConn c x cn)).
Proof.
  unfold getConn, setDisposed, markConn. rewrite lookup_updConn.
  case_decide; subst; by destruct (conns s !! x).
Qed.

Lemma targetConnection_mark c x cn :
  targetConnection (markConn c x cn) = targetConnection cn.
Proof. unfold markConn. by case_decide. Qed.

Lemma sourceBlock_mark c x cn : sourceBlock_ (markConn c x cn) = sourceBlock_ cn.
Proof. unfold markConn. by case_decide. Qed.

Lemma type_mark c x cn : type (markConn c x cn) = type cn.
Proof. unfold markConn. by case_decide. Qed.

Lemma isSuperior_mark c x cn : isSuperior (markConn c x cn) = isSuperior cn.
Proof. unfold markConn. by case_decide. Qed.

Lemma isConnected_mark c x cn : isConnected (markConn c x cn) = isConnected cn.
Proof. unfold markConn. by case_decide. Qed.

Lemma getShadowDom_mark c x cn :
  getShadowDom (markConn c x cn) = getShadowDom cn.
Proof. unfold markConn. by case_decide. Qed.

Lemma targetBlock_mark c s x :
  targetBlock (setDisposed c s) x = targetBlock s x.
Proof.
  unfold targetBlock. rewrite getConn_mark.
  destruct (getConn s x) as [cn| |]; [|done..]. simpl.
  rewrite targetConnection_mark.
  destruct (targetConnection cn) as [t|]; [|done].
  rewrite getConn_mark. destruct (getConn s t) as [tn| |]; [|done..]. simpl.
  by rewrite sourceBlock_mark.
Qed.

Lemma getConnectionChecker_mark c s x :
  getConnectionChecker (setDisposed c s) x = getConnectionChecker s x.
Proof.
  unfold getConnectionChecker. rewrite getConn_mark.
  destruct (getConn s x) as [cn| |]; [|done..]. simpl.
  by rewrite sourceBlock_mark.
Qed.

Lemma openGroup_mark c s :
  openGroup (setDisposed c s) = setDisposed c (openGroup s).
Proof. unfold openGroup. simpl. by destruct (group (events s)). Qed.

Lemma closeGroup_mark c s0 s :
  closeGroup (setDisposed c s0) (setDisposed c s) = setDisposed c (closeGroup s0 s).
Proof. unfold closeGroup. simpl. by destruct (group (events s0)). Qed.

Lemma freshConn_mark c s : freshConn (setDisposed c s) = freshConn s.
Proof. unfold freshConn, setDisposed, updConn. simpl. by rewrite dom_alter_L. Qed.

Lemma allocConn_mark c want b ty s :
  is_Some (conns s !! c) ->
  allocConn want b ty (setDisposed c s) =
  ((allocConn want b ty s).1, setDisposed c (allocConn want b ty s).2) /\
  is_Some (conns (allocConn want b ty s).2 !! c).
Proof.
  intros Hc. unfold allocConn. destruct want; [|done]. simpl.
  rewrite freshConn_mark.
  assert (freshConn s <> c) as Hne.
  { intros <-. rewrite freshConn_None in Hc. by destruct Hc. }
  split.
  - f_equal. unfold setDisposed, updConn. simpl. f_equal.
    by rewrite alter_insert_ne.
  - by rewrite lookup_insert_ne.
Qed.

Lemma domToBlock_mark c d ws s :
  is_Some (conns s !! c) ->
  domToBlock d ws (setDisposed c s) =
  (setDisposed c (domToBlock d ws s).1, (domToBlock d ws s).2).
Proof.
  intros Hc. unfold domToBlock.
  change (freshBlock (setDisposed c s)) with (freshBlock s).
  destruct (allocConn_mark c (bool_decide (dom_plug d = PlugOutput))
              (freshBlock s) OUTPUT_VALUE s Hc) as [E1 H1].
  rewrite E1.
  destruct (allocConn (bool_decide (dom_plug d = PlugOutput)) (freshBlock s)
              OUTPUT_VALUE s) as [o s1]. simpl in *.
  destruct (allocConn_mark c (bool_decide (dom_plug d = PlugPrevious))
              (freshBlock s) PREVIOUS_STATEMENT s1 H1) as [E2 H2].
  rewrite E2.
  destruct (allocConn (bool_decide (dom_plug d = PlugPrevious)) (freshBlock s)
              PREVIOUS_STATEMENT s1) as [p s2]. simpl in *.
  destruct (allocConn_mark c (dom_next d) (freshBlock s) NEXT_STATEMENT s2 H2)
    as [E3 H3].
  rewrite E3.
  destruct (allocConn (dom_next d) (freshBlock s) NEXT_STATEMENT s2) as [n s3].
  done.
Qed.

Lemma setParent_mark c b p s :
  setParent b p (setDisposed c s) = setDisposed c (setParent b p s).
Proof. reflexivity. Qed.

Lemma setWorkspace_mark c b w s :
  setWorkspace b w (setDisposed c s) = setDisposed c (setWorkspace b w s).
Proof. reflexivity. Qed.

Lemma fireMove_mark c ev s :
  fireMove ev (setDisposed c s) = setDisposed c (fireMove ev s).
Proof. by destruct ev. Qed.

Lemma addTimer_mark c t s :
  addTimer t (setDisposed c s) = setDisposed c (addTimer t s).
Proof. reflexivity. Qed.

Lemma bumpLater_mark c o p s :
  bumpLater o p (setDisposed c s) = setDisposed c (bumpLater o p s).
Proof. unfold bumpLater. simpl. by destruct (recordUndo (events s)). Qed.

Lemma linkState_mark c P C pb cb s :
  linkState P C pb cb (setDisposed c s) = setDisposed c (linkState P C pb cb s).
Proof.
  unfold linkState. rewrite !setTarget_mark, setParent_mark.
  change (newBlockMove (setDisposed c s) cb) with (newBlockMove s cb).
  apply fireMove_mark.
Qed.

Lemma unlinkState_mark c x o cb s :
  unlinkState x o cb (setDisposed c s) = setDisposed c (unlinkState x o cb s).
Proof.
  unfold unlinkState. rewrite !setTarget_mark, setParent_mark.
  change (newBlockMove (setDisposed c s) cb) with (newBlockMove s cb).
  apply fireMove_mark.
Qed.

Lemma alive_extends c s s' :
  extends s s' -> is_Some (conns s !! c) -> is_Some (conns s' !! c).
Proof. intros [Hc _] [cn Hcn]. destruct (Hc _ _ Hcn) as (cn' & ? & _). eauto. Qed.

Section Blind.

Variable canConnect : Workspace -> State -> ConnId -> ConnId -> bool -> bool.
Hypothesis chk_blind : checkerBlind canConnect.
Variable c : ConnId.

Lemma singleConnectionLoop_mark s output inputs acc :
  singleConnectionLoop canConnect (setDisposed c s) output inputs acc =
  singleConnectionLoop canConnect s output inputs acc.
Proof using chk_blind.
  revert acc. induction inputs as [|i inputs IH]; intros acc; [done|].
  simpl. destruct output as [out|]; [|done]. simpl.
  rewrite getConnectionChecker_mark.
  destruct (getConnectionChecker s out) as [ws| |]; [|done..]. simpl.
  destruct i as [tc|]; simpl.
  - rewrite getConn_mark. destruct (getConn s tc) as [tcn| |]; [|done..].
    simpl. rewrite type_mark, chk_blind.
    destruct (_ && _); [|apply IH]. destruct acc; [done|apply IH].
  - apply IH.
Qed.

Lemma lastConnectionInRow_mark f s start orphan :
  lastConnectionInRow canConnect f (setDisposed c s) start orphan =
  lastConnectionInRow canConnect f s start orphan.
Proof using chk_blind.
  revert start. induction f as [|f IH]; intros start; [done|]. simpl.
  unfold singleConnection_.
  change (getBlock (setDisposed c s)) with (getBlock s).
  destruct (getBlock s orphan) as [ob| |]; [|done..]. simpl.
  destruct (getBlock s start) as [blk| |]; [|done..]. simpl.
  rewrite singleConnectionLoop_mark.
  destruct (singleConnectionLoop _ _ _ _ _) as [[conn|]| |]; try done. simpl.
  rewrite targetBlock_mark.
  destruct (targetBlock s conn) as [[nb|]| |]; try done. simpl.
  destruct (getBlock s nb) as [nblk| |]; [|done..]. simpl.
  destruct (isShadow nblk); [done|apply IH].
Qed.

Lemma lastNextConnection_mark f s start :
  lastNextConnection f (setDisposed c s) start = lastNextConnection f s start.
Proof.
  revert start. induction f as [|f IH]; intros start; [done|]. simpl.
  change (getBlock (setDisposed c s)) with (getBlock s).
  destruct (getBlock s start) as [blk| |]; [|done..]. simpl.
  destruct (nextConnection blk) as [n|]; [|done].
  rewrite targetBlock_mark.
  destruct (targetBlock s n) as [[nb|]| |]; try done. simpl.
  destruct (getBlock s nb) as [nblk| |]; [|done..]. simpl.
  destruct (isShadow nblk); [done|apply IH].
Qed.

Lemma disconnectInternal__mark x pb cb s :
  disconnectInternal_ x pb cb (setDisposed c s) =
  (s' ← disconnectInternal_ x pb cb s; Ok (setDisposed c s')).
Proof.
  unfold disconnectInternal_. rewrite getConn_mark.
  destruct (getConn s x) as [cn| |]; [|done..]. simpl.
  rewrite targetConnection_mark.
  destruct (targetConnection cn) as [o|]; [|done]. simpl.
  rewrite getConn_mark. destruct (getConn s o) as [on| |]; [|done..]. simpl.
  rewrite !setTarget_mark, setParent_mark.
  change (newBlockMove (setDisposed c s) cb) with (newBlockMove s cb).
  by rewrite fireMove_mark.
Qed.

End Blind.

Section BlindStep.

Variable canConnect : Workspace -> State -> ConnId -> ConnId -> bool -> bool.
Hypothesis chk_blind : checkerBlind canConnect.
Variable c : ConnId.
Variable f : nat.
Hypothesis IH : blindAt canConnect c f.

Lemma connect_unfold a b s :
  connect canConnect (S f) a b s =
  (cn ← getConn s a;
   if bool_decide (targetConnection cn = Some b) then Ok s
   else
     checker ← getConnectionChecker s a;
     if canConnect checker s a b false then
       s2 ← (if isSuperior cn then connect_ canConnect f a b (openGroup s)
             else connect_ canConnect f b a (openGroup s));
       Ok (closeGroup s s2)
     else Ok s).
Proof. reflexivity. Qed.

Lemma connect_blind a b s :
  is_Some (conns s !! c) ->
  connect canConnect (S f) a b (setDisposed c s) =
  (s' ← connect canConnect (S f) a b s; Ok (setDisposed c s')).
Proof using chk_blind IH.
  intros Hc. destruct IH as (_ & IHc_ & _).
  rewrite !connect_unfold, getConn_mark.
  destruct (getConn s a) as [cn| |]; [|done..]. simpl.
  rewrite targetConnection_mark, isSuperior_mark.
  case_bool_decide; [done|].
  rewrite getConnectionChecker_mark.
  destruct (getConnectionChecker s a) as [ws| |]; [|done..]. simpl.
  rewrite chk_blind. destruct (canConnect ws s a b false); [|done].
  rewrite openGroup_mark.
  destruct (isSuperior cn); rewrite IHc_ by (by rewrite conns_openGroup).
  - destruct (connect_ canConnect f a b (openGroup s)); [|done..]. simpl.
    by rewrite closeGroup_mark.
  - destruct (connect_ canConnect f b a (openGroup s)); [|done..]. simpl.
    by rewrite closeGroup_mark.
Qed.

Lemma alive_disconnectInternal x pb cb s s' :
  is_Some (conns s !! c) -> disconnectInternal_ x pb cb s = Ok s' ->
  is_Some (conns s' !! c).
Proof.
  intros Hc H. eapply alive_extends; [|exact Hc].
  eapply (disconnectInternal__closed extends); [| | | | |exact H].
  - apply extends_refl.
  - apply extends_trans.
  - intros. apply extends_updConn. intros cn. by repeat split.
  - intros. apply extends_updBlock. intros blk. by repeat split.
  - intros. apply extends_same; [apply conns_fireMove|apply blocks_fireMove].
Qed.

Lemma disconnect_blind a s :
  is_Some (conns s !! c) ->
  disconnect canConnect (S f) a (setDisposed c s) =
  (s' ← disconnect canConnect (S f) a s; Ok (setDisposed c s')).
Proof using chk_blind IH.
  intros Hc. destruct IH as (_ & _ & _ & IHr & _).
  rewrite !disconnect_unfold, getConn_mark.
  destruct (getConn s a) as [cn| |]; [|done..]. simpl.
  rewrite targetConnection_mark.
  destruct (targetConnection cn) as [o|]; [|done]. simpl.
  rewrite getConn_mark. destruct (getConn s o) as [on| |]; [|done..]. simpl.
  rewrite targetConnection_mark, !sourceBlock_mark, isSuperior_mark.
  case_bool_decide; [|done].
  destruct (if isSuperior cn
            then (sourceBlock_ cn, sourceBlock_ on, a)
            else (sourceBlock_ on, sourceBlock_ cn, o)) as [[pb cb] p].
  rewrite openGroup_mark, disconnectInternal__mark.
  destruct (disconnectInternal_ a pb cb (openGroup s)) as [s1| |] eqn:E1;
    [|done..]. simpl.
  rewrite IHr.
  2:{ eapply alive_disconnectInternal; [|exact E1]. by rewrite conns_openGroup. }
  destruct (respawnShadow_ canConnect f p s1); [|done..]. simpl.
  by rewrite closeGroup_mark.
Qed.

Lemma respawn_blind a s :
  is_Some (conns s !! c) ->
  respawnShadow_ canConnect (S f) a (setDisposed c s) =
  (s' ← respawnShadow_ canConnect (S f) a s; Ok (setDisposed c s')).
Proof using chk_blind IH.
  intros Hc. destruct IH as (IHc & _).
  rewrite !respawnShadow__unfold, getConn_mark.
  destruct (getConn s a) as [cn| |]; [|done..]. simpl.
  rewrite sourceBlock_mark, getShadowDom_mark.
  change (getBlock (setDisposed c s)) with (getBlock s).
  destruct (getBlock s (sourceBlock_ cn)) as [pb| |]; [|done..]. simpl.
  destruct (workspace pb) as [ws|]; [|done].
  destruct (getShadowDom cn) as [d|]; [|done].
  destruct (recordUndo (events s)); [|done].
  rewrite domToBlock_mark by done.
  pose proof (extends_domToBlock s d ws) as Hext.
  destruct (domToBlock d ws s) as [sm B]. simpl in *.
  change (getBlock (setDisposed c sm)) with (getBlock sm).
  destruct (getBlock sm B) as [bs| |]; [|done..]. simpl.
  assert (is_Some (conns sm !! c)) as Hc' by by eapply alive_extends.
  destruct (outputConnection bs) as [o|]; [by apply IHc|].
  destruct (previousConnection bs) as [pv|]; [by apply IHc|done].
Qed.

Lemma dispose_unfold a s :
  dispose canConnect (S f) a s =
  (cn ← getConn s a;
   s1 ← (if isConnected cn then
           tb ← targetBlock (setShadowDom a None s) a;
           tb ← orThrow TypeError tb;
           blk ← getBlock (setShadowDom a None s) tb;
           if isShadow blk
           then blockDispose canConnect f tb (setShadowDom a None s)
           else blockUnplug canConnect f tb (setShadowDom a None s)
         else Ok s);
   Ok (setDisposed a s1)).
Proof. reflexivity. Qed.

Lemma alive_setShadowDom x d s :
  is_Some (conns s !! c) -> is_Some (conns (setShadowDom x d s) !! c).
Proof.
  apply alive_extends, extends_updConn. intros cn. by repeat split.
Qed.

Lemma dispose_blind a s :
  is_Some (conns s !! c) ->
  dispose canConnect (S f) a (setDisposed c s) =
  (s' ← dispose canConnect (S f) a s; Ok (setDisposed c s')).
Proof using chk_blind IH.
  intros Hc. destruct IH as (_ & _ & _ & _ & _ & IHu & IHb).
  rewrite !dispose_unfold, getConn_mark.
  destruct (getConn s a) as [cn| |]; [|done..]. simpl.
  rewrite isConnected_mark.
  destruct (isConnected cn); simpl; [|by rewrite setDisposed_mark].
  rewrite setShadowDom_mark, targetBlock_mark.
  destruct (targetBlock (setShadowDom a None s) a) as [[tb|]| |]; try done.
  simpl. change (getBlock (setDisposed c ?t)) with (getBlock t).
  destruct (getBlock (setShadowDom a None s) tb) as [blk| |]; [|done..].
  simpl. pose proof (alive_setShadowDom a None s Hc) as Hc'.
  destruct (isShadow blk).
  - rewrite IHb by done.
    destruct (blockDispose canConnect f tb _); [|done..]. simpl.
    by rewrite setDisposed_mark.
  - rewrite IHu by done.
    destruct (blockUnplug canConnect f tb _); [|done..]. simpl.
    by rewrite setDisposed_mark.
Qed.

Lemma blockUnplug_blind b s :
  is_Some (conns s !! c) ->
  blockUnplug canConnect (S f) b (setDisposed c s) =
  (s' ← blockUnplug canConnect (S f) b s; Ok (setDisposed c s')).
Proof using chk_blind IH.
  intros Hc. destruct IH as (_ & _ & IHd & _).
  rewrite !blockUnplug_unfold.
  change (getBlock (setDisposed c s)) with (getBlock s).
  destruct (getBlock s b) as [blk| |]; [|done..]. simpl.
  destruct (plugOf blk) as [x|]; [|done].
  rewrite getConn_mark. destruct (getConn s x) as [cn| |]; [|done..]. simpl.
  rewrite isConnected_mark. destruct (isConnected cn); [|done]. by apply IHd.
Qed.

Lemma forEach_dispose_blind l s :
  is_Some (conns s !! c) ->
  forEach (dispose canConnect f) l (setDisposed c s) =
  (s' ← forEach (dispose canConnect f) l s; Ok (setDisposed c s')).
Proof using IH.
  destruct IH as (_ & _ & _ & _ & IHx & _).
  revert s. induction l as [|x l IHl]; intros s Hc; [done|]. simpl.
  rewrite IHx by done.
  destruct (dispose canConnect f x s) as [s1| |] eqn:E; [|done..]. simpl.
  apply IHl. eapply alive_extends; [|exact Hc].
  destruct (extends_closed canConnect f) as (_ & _ & _ & _ & Ex & _). eauto.
Qed.

Lemma blockDispose_blind b s :
  is_Some (conns s !! c) ->
  blockDispose canConnect (S f) b (setDisposed c s) =
  (s' ← blockDispose canConnect (S f) b s; Ok (setDisposed c s')).
Proof using chk_blind IH.
  intros Hc. pose proof IH as (_ & _ & _ & _ & _ & IHu & _).
  change (blockDispose canConnect (S f) b ?t) with
    (s1 ← blockUnplug canConnect f b t;
     blk ← getBlock (setWorkspace b None s1) b;
     forEach (dispose canConnect f) (blockConnections blk)
       (setWorkspace b None s1)).
  rewrite IHu by done.
  destruct (blockUnplug canConnect f b s) as [s1| |] eqn:E; [|done..]. simpl.
  rewrite setWorkspace_mark.
  change (getBlock (setDisposed c ?t)) with (getBlock t).
  destruct (getBlock (setWorkspace b None s1) b) as [blk| |]; [|done..]. simpl.
  apply forEach_dispose_blind.
  eapply alive_extends; [|exact Hc].
  destruct (extends_closed canConnect f) as (_ & _ & _ & _ & _ & Eu & _).
  eapply extends_trans; [eauto|].
  apply extends_updBlock. intros x. by repeat split.
Qed.

(** [connect_], phase by phase. *)
Lemma connect__phases P C s :
  connect_ canConnect (S f) P C s =
  (pc ← getConn s P;
   cc ← getConn s C;
   s1 ← (if isConnected cc then disconnect canConnect f C s else Ok s);
   pc1 ← getConn s1 P;
   s2 ← orphanStep canConnect f P (sourceBlock_ cc) pc1 s1;
   Ok (linkState P C (sourceBlock_ pc) (sourceBlock_ cc) s2)).
Proof. reflexivity. Qed.

Lemma alive_call (call : State -> result State) s s' :
  (forall t t', call t = Ok t' -> extends t t') ->
  is_Some (conns s !! c) -> call s = Ok s' -> is_Some (conns s' !! c).
Proof. intros Hext Hc H. eapply alive_extends; eauto. Qed.

(** The end of the orphan step: the orphan that found no home is
    disconnected and its bump scheduled, the template is restored. *)
Lemma orphanEnd_blind P orphan sd s :
  is_Some (conns s !! c) ->
  (t ← match orphan with
       | Some o =>
           t ← disconnect canConnect f P (setDisposed c s);
           Ok (if recordUndo (events t)
               then addTimer (mkBump o P (group (events t))) t else t)
       | None => Ok (setDisposed c s)
       end;
   Ok (setShadowDom P sd t)) =
  (s' ← (t ← match orphan with
             | Some o =>
                 t ← disconnect canConnect f P s;
                 Ok (if recordUndo (events t)
                     then addTimer (mkBump o P (group (events t))) t else t)
             | None => Ok s
             end;
         Ok (setShadowDom P sd t));
   Ok (setDisposed c s')).
Proof using IH.
  intros Hc. destruct IH as (_ & _ & IHd & _).
  destruct orphan as [o|]; simpl; [|by rewrite setShadowDom_mark].
  rewrite IHd by done.
  destruct (disconnect canConnect f P s) as [t| |]; [|done..]. simpl.
  destruct (recordUndo (events t)).
  - by rewrite addTimer_mark, setShadowDom_mark.
  - by rewrite setShadowDom_mark.
Qed.

Lemma orphanStep_blind P cb x pc s :
  is_Some (conns s !! c) ->
  orphanStep canConnect f P cb (markConn c x pc) (setDisposed c s) =
  (s' ← orphanStep canConnect f P cb pc s; Ok (setDisposed c s')).
Proof using chk_blind IH.
  intros Hc. pose proof IH as (IHc & _ & _ & _ & _ & _ & IHb).
  destruct (extends_closed canConnect f) as (Ec & _ & _ & _ & _ & _ & Eb).
  unfold orphanStep.
  rewrite isConnected_mark, getShadowDom_mark, type_mark.
  destruct (isConnected pc); [|done].
  rewrite targetBlock_mark.
  destruct (targetBlock s P) as [[X|]| |]; try done. simpl.
  rewrite setShadowDom_mark.
  set (sA := setShadowDom P None s).
  assert (is_Some (conns sA !! c)) as HcA by by apply alive_setShadowDom.
  change (getBlock (setDisposed c sA)) with (getBlock sA).
  destruct (getBlock sA X) as [ob| |]; [|done..]. simpl.
  destruct (isShadow ob).
  { change (blockToDom (setDisposed c sA) X) with (blockToDom sA X).
    rewrite IHb by done.
    destruct (blockDispose canConnect f X sA) as [sB| |] eqn:E; [|done..].
    simpl. by rewrite setShadowDom_mark. }
  case_bool_decide.
  { destruct (outputConnection ob) as [out|]; [|done]. simpl.
    rewrite lastConnectionInRow_mark by done.
    destruct (lastConnectionInRow canConnect f sA cb X) as [[slot|]| |];
      try done; simpl.
    - rewrite IHc by done.
      destruct (connect canConnect f out slot sA) as [sB| |] eqn:E; [|done..].
      simpl. by rewrite setShadowDom_mark.
    - by apply (orphanEnd_blind P (Some X)). }
  case_bool_decide.
  { destruct (previousConnection ob) as [prev|]; [|done]. simpl.
    rewrite lastNextConnection_mark.
    destruct (lastNextConnection f sA cb) as [[slot|]| |]; try done; simpl.
    - destruct (workspace ob) as [ws|]; [|done]. simpl.
      rewrite chk_blind.
      destruct (canConnect ws sA prev slot false).
      + rewrite IHc by done.
        destruct (connect canConnect f slot prev sA) as [sB| |] eqn:E;
          [|done..].
        simpl. by rewrite setShadowDom_mark.
      + by apply (orphanEnd_blind P (Some X)).
    - by apply (orphanEnd_blind P (Some X)). }
  by apply (orphanEnd_blind P (Some X)).
Qed.

Lemma connect__blind P C s :
  is_Some (conns s !! c) ->
  connect_ canConnect (S f) P C (setDisposed c s) =
  (s' ← connect_ canConnect (S f) P C s; Ok (setDisposed c s')).
Proof using chk_blind IH.
  intros Hc. pose proof IH as (_ & _ & IHd & _).
  destruct (extends_closed canConnect f) as (_ & _ & Ed & _).
  rewrite !connect__phases, !getConn_mark.
  destruct (getConn s P) as [pc| |]; [|done..]. simpl.
  destruct (getConn s C) as [cc| |]; [|done..]. simpl.
  rewrite isConnected_mark, !sourceBlock_mark.
  assert (forall s1, is_Some (conns s1 !! c) ->
    (pc1 ← getConn (setDisposed c s1) P;
     s2 ← orphanStep canConnect f P (sourceBlock_ cc) pc1 (setDisposed c s1);
     Ok (linkState P C (sourceBlock_ pc) (sourceBlock_ cc) s2)) =
    (s' ← (pc1 ← getConn s1 P;
           s2 ← orphanStep canConnect f P (sourceBlock_ cc) pc1 s1;
           Ok (linkState P C (sourceBlock_ pc) (sourceBlock_ cc) s2));
     Ok (setDisposed c s'))) as Htail.
  { intros s1 Hc1. rewrite getConn_mark.
    destruct (getConn s1 P) as [pc1| |]; [|done..]. simpl.
    rewrite orphanStep_blind by done.
    destruct (orphanStep canConnect f P (sourceBlock_ cc) pc1 s1);
      [|done..].
    simpl. by rewrite linkState_mark. }
  destruct (isConnected cc); simpl; [|by apply Htail].
  rewrite IHd by done.
  destruct (disconnect canConnect f C s) as [s1| |] eqn:E; [|done..]. simpl.
  apply Htail. eapply alive_extends; eauto.
Qed.

End BlindStep.

(** No method reads the disposed flag: each one commutes with disposing a
    connection of the arena. *)
Theorem blind canConnect c f :
  checkerBlind canConnect -> blindAt canConnect c f.
Proof.
  intros Hb. induction f as [|f IH].
  { repeat split; intros; reflexivity. }
  repeat split; intros.
  - by apply connect_blind.
  - by apply connect__blind.
  - by apply disconnect_blind.
  - by apply respawn_blind.
  - by apply dispose_blind.
  - by apply blockUnplug_blind.
  - by apply blockDispose_blind.
Qed.

Lemma kindChecker_blind : checkerBlind kindChecker.
Proof.
  intros ws s c a b d. unfold kindChecker, setDisposed.
  rewrite !lookup_updConn.
  destruct (decide (c = a)) as [Ha|Ha]; [subst a|];
    (destruct (decide (c = b)) as [Hb|Hb]; [subst b|]);
    repeat match goal with
           | |- context [conns s !! ?x] => destruct (conns s !! x)
           end; simpl; try done.
Qed.




(** * Termination of the cascade *)

(** ** Calls that settle *)

Lemma halts_const {A} (r : result A) : r <> OutOfFuel -> halts (fun _ => r).
Proof. intros H. exists r. split; [done|]. by exists 0. Qed.

Lemma halts_Ok {A} (a : A) : halts (fun _ => Ok a).
Proof. by apply halts_const. Qed.

Lemma halts_Throw {A} e : halts (fun _ => @Throw A e).
Proof. by apply halts_const. Qed.

Lemma halts_step {A} (run body : nat -> result A) :
  (forall f, run (S f) = body f) -> halts body -> halts run.
Proof.
  intros Hs (r & Hr & N & HN). exists r. split; [done|]. exists (S N).
  intros [|f] Hf; [lia|]. rewrite Hs. apply HN. lia.
Qed.

Lemma halts_bind {A B} (m : nat -> result A) (k : nat -> A -> result B) :
  halts m ->
  (forall a, settles m (Ok a) -> halts (fun f => k f a)) ->
  halts (fun f => a ← m f; k f a).
Proof.
  intros (r & Hr & N & HN) Hk. destruct r as [a|e|]; [| |done].
  - destruct (Hk a) as (r' & Hr' & N' & HN'); [split; [done|]; eauto|].
    exists r'. split; [done|]. exists (N `max` N'). intros f Hf.
    rewrite HN by lia. simpl. apply HN'. lia.
  - exists (Throw e). split; [done|]. exists N. intros f Hf. by rewrite HN.
Qed.

Lemma settles_at {A} (m : nat -> result A) r : settles m r -> exists f, m f = r.
Proof. intros (_ & N & HN). exists N. by apply HN. Qed.

Lemma forEach_halts {A} (body : nat -> A -> State -> result State)
    (J : State -> Prop) l :
  (forall a s, a ∈ l -> J s -> halts (fun f => body f a s)) ->
  (forall a s s' f, a ∈ l -> J s -> body f a s = Ok s' -> J s') ->
  forall s, J s -> halts (fun f => forEach (body f) l s).
Proof.
  induction l as [|a l IH]; intros Hh Hk s Hs; [apply halts_Ok|].
  simpl. apply halts_bind.
  - apply Hh; [by left|done].
  - intros s' (f & Hf)%settles_at. apply IH.
    + intros a' t Ha'. apply Hh. by right.
    + intros a' t t' f' Ha'. apply Hk. by right.
    + eapply Hk; [by left|done|exact Hf].
Qed.

Lemma returns_halts {A} (run : nat -> result A) : returns run -> halts run.
Proof. intros (a & H). by exists (Ok a). Qed.

Lemma returns_Ok {A} (a : A) : returns (fun _ => Ok a).
Proof. exists a. split; [done|]. by exists 0. Qed.

Lemma returns_step {A} (run body : nat -> result A) :
  (forall f, run (S f) = body f) -> returns body -> returns run.
Proof.
  intros Hs (a & Hr & N & HN). exists a. split; [done|]. exists (S N).
  intros [|f] Hf; [lia|]. rewrite Hs. apply HN. lia.
Qed.

Lemma returns_bind {A B} (m : nat -> result A) (k : nat -> A -> result B) :
  returns m ->
  (forall a, settles m (Ok a) -> returns (fun f => k f a)) ->
  returns (fun f => a ← m f; k f a).
Proof.
  intros (a & Ha) Hk. pose proof Ha as (_ & N & HN).
  destruct (Hk a Ha) as (b & Hr' & N' & HN').
  exists b. split; [done|]. exists (N `max` N'). intros f Hf.
  rewrite HN by lia. simpl. apply HN'. lia.
Qed.

Lemma forEach_returns {A} (body : nat -> A -> State -> result State)
    (J : State -> Prop) l :
  (forall a s, a ∈ l -> J s -> returns (fun f => body f a s)) ->
  (forall a s s' f, a ∈ l -> J s -> body f a s = Ok s' -> J s') ->
  forall s, J s -> returns (fun f => forEach (body f) l s).
Proof.
  induction l as [|a l IH]; intros Hh Hk s Hs; [apply returns_Ok|].
  simpl. apply returns_bind.
  - apply Hh; [by left|done].
  - intros s' (f & Hf)%settles_at. apply IH.
    + intros a' t Ha'. apply Hh. by right.
    + intros a' t t' f' Ha'. apply Hk. by right.
    + eapply Hk; [by left|done|exact Hf].
Qed.

(** ** The blocks keep their shape *)

Lemma sameDom_same s s' :
  conns s' = conns s -> blocks s' = blocks s -> sameDom s s'.
Proof. intros Hc Hb. split; intros x; by rewrite ?Hc, ?Hb. Qed.

Lemma shapeKept_same s s' : extends s s' -> sameDom s s' -> shapeKept s s'.
Proof. intros He Hd. split; [done|]. by apply Shaped_kept. Qed.

Lemma shapeKept_trans s1 s2 s3 :
  shapeKept s1 s2 -> shapeKept s2 s3 -> shapeKept s1 s3.
Proof. intros [E1 K1] [E2 K2]. split; [eauto using extends_trans|auto]. Qed.

Lemma domToBlock_next d ws s s' b blk x :
  domToBlock d ws s = (s', b) -> blocks s' !! b = Some blk ->
  nextConnection blk = Some x ->
  conns s' !! x = Some (mkConnection b NEXT_STATEMENT None false None None).
Proof.
  unfold domToBlock.
  destruct (allocConn _ _ OUTPUT_VALUE s) as [o s1] eqn:E1.
  destruct (allocConn _ _ PREVIOUS_STATEMENT s1) as [p s2] eqn:E2.
  destruct (allocConn _ _ NEXT_STATEMENT s2) as [n s3] eqn:E3.
  intros [= <- <-]. simpl. rewrite lookup_insert_eq. intros [= <-]. simpl.
  intros ->. by apply allocConn_Some in E3 as [_ ?].
Qed.

Lemma Shaped_domToBlock s d ws : Shaped s -> Shaped (domToBlock d ws s).1.
Proof.
  intros Hsh. pose proof (extends_domToBlock s d ws) as Hext.
  destruct (domToBlock d ws s) as [s' b] eqn:E.
  pose proof (fun blk x => domToBlock_next _ _ _ _ _ blk x E) as Hn.
  apply domToBlock_spec in E
    as (-> & _ & _ & Hc & Hb & Hbo & o & p & n & Hnew & _ & _ & _ & _ & _ & Ho & Hp).
  simpl in *. intros x blk Hx.
  destruct (decide (x = freshBlock s)) as [->|Hne].
  - rewrite Hnew in Hx. injection Hx as <-. unfold blockOk, slotOk. simpl.
    split; [|split; [|split]].
    + destruct o as [c|]; [|done]. rewrite (Ho _ eq_refl). simpl.
      split; [done|]. by apply list_elem_of_singleton.
    + destruct p as [c|]; [|done]. rewrite (Hp _ eq_refl). simpl.
      split; [done|]. by apply list_elem_of_singleton.
    + destruct n as [c|]; [|done]. rewrite (Hn _ _ Hnew eq_refl). simpl.
      split; [done|]. by apply list_elem_of_singleton.
    + constructor.
  - rewrite Hbo in Hx by done. specialize (Hsh _ _ Hx).
    destruct Hsh as (H1 & H2 & H3 & H4).
    split; [|split; [|split]]; try by eapply slotOk_kept.
    eapply Forall_impl; [exact H4|]. intros slot. by apply slotOk_kept.
Qed.

Lemma shapeKept_closed canConnect f : closedAt canConnect shapeKept f.
Proof.
  apply closure.
  - intros s. by split; [apply extends_refl|].
  - apply shapeKept_trans.
  - intros. apply shapeKept_same; [|apply sameDom_updConn].
    apply extends_updConn. intros cn. by repeat split.
  - intros. apply shapeKept_same; [|apply sameDom_updConn].
    apply extends_updConn. intros cn. by repeat split.
  - intros. apply shapeKept_same; [|apply sameDom_updConn].
    apply extends_updConn. intros cn. by repeat split.
  - intros. apply shapeKept_same; [|apply sameDom_updBlock].
    apply extends_updBlock. intros blk. by repeat split.
  - intros. apply shapeKept_same; [|apply sameDom_updBlock].
    apply extends_updBlock. intros blk. by repeat split.
  - intros. apply shapeKept_same.
    + apply extends_same; [apply conns_fireMove|apply blocks_fireMove].
    + apply sameDom_same; [apply conns_fireMove|apply blocks_fireMove].
  - intros s s' o p blk _ _ H. eapply shapeKept_trans; [exact H|].
    by apply shapeKept_same; [apply extends_same|apply sameDom_same].
  - intros. split; [apply extends_domToBlock|apply Shaped_domToBlock].
  - intros s s' _ H.
    eapply shapeKept_trans; [|eapply shapeKept_trans; [exact H|]].
    + by apply shapeKept_same; [apply extends_same|apply sameDom_same].
    + by apply shapeKept_same; [apply extends_same|apply sameDom_same].
Qed.

(** ** Heights in a forest *)

Lemma ancestor_None_add s n m b :
  ancestor s n b = None -> ancestor s (n + m) b = None.
Proof. intros H. by rewrite ancestor_add, H. Qed.

(** A forest in a finite arena has a height. *)
Lemma Forest_height s : Forest s -> exists n, forall b, ancestor s n b = None.
Proof.
  intros HF.
  assert (forall l : list BlockId,
    exists n, forall b, b ∈ l -> ancestor s n b = None) as Hl.
  { induction l as [|a l (n & Hn)]; [exists 0; by intros b ?%elem_of_nil|].
    destruct (HF a) as (na & Ha). exists (na + n).
    intros b [->|Hb]%elem_of_cons.
    - by apply ancestor_None_add.
    - rewrite Nat.add_comm. by apply ancestor_None_add, Hn. }
  destruct (Hl (elements (dom (blocks s)))) as (n & Hn).
  exists (n + 1). intros b. destruct (blocks s !! b) as [blk|] eqn:E.
  - apply ancestor_None_add, Hn. apply elem_of_elements, elem_of_dom. eauto.
  - rewrite Nat.add_comm. simpl. unfold parentOf. by rewrite E.
Qed.

Lemma deep_height s n b : (forall x, ancestor s n x = None) -> deep s n b.
Proof.
  intros Hn x k Hk. destruct (decide (k <= n)); [done|].
  replace k with (n + (k - n)) in Hk by lia.
  by rewrite ancestor_add, Hn in Hk.
Qed.

Lemma Forest_deep s b : Forest s -> exists h, deep s h b.
Proof. intros (n & Hn)%Forest_height. exists n. by apply deep_height. Qed.

Lemma deep_child s h b x :
  deep s h b -> parentOf s x = Some b -> exists h', h = S h' /\ deep s h' x.
Proof.
  intros Hd Hp. destruct h as [|h'].
  - specialize (Hd x 1). simpl in Hd. rewrite Hp in Hd. specialize (Hd eq_refl).
    lia.
  - exists h'. split; [done|]. intros y k Hk.
    assert (ancestor s (k + 1) y = Some b) as H.
    { rewrite ancestor_add, Hk. simpl. by rewrite Hp. }
    apply Hd in H. lia.
Qed.

Lemma deep_torn s s' h b :
  Parented s -> teardown s s' -> sameDom s s' -> deep s h b -> deep s' h b.
Proof.
  intros Hpar Htd [_ Hdom] Hd x k Hk.
  destruct (blocks s !! x) as [blk|] eqn:E.
  - apply (Hd x k).
    eapply (ancestor_shrink (fun _ => False) s s'); eauto.
    by apply teardown_torn.
  - destruct k as [|k]; [lia|]. simpl in Hk. unfold parentOf in Hk.
    destruct (blocks s' !! x) as [blk'|] eqn:E'; [|done].
    assert (is_Some (blocks s !! x)) as [? ?] by (apply Hdom; eauto).
    congruence.
Qed.

Lemma deep_same s s' h b :
  (forall x, parentOf s' x = parentOf s x) -> deep s h b -> deep s' h b.
Proof. intros Hp Hd x k Hk. apply (Hd x k). by rewrite <- (ancestor_same s s'). Qed.

(** ** The reads never run out of fuel *)

Lemma orThrow_pure {A} e (o : option A) : orThrow e o <> OutOfFuel.
Proof. by destruct o. Qed.

Lemma getConn_pure s c : getConn s c <> OutOfFuel.
Proof. apply orThrow_pure. Qed.

Lemma getBlock_pure s b : getBlock s b <> OutOfFuel.
Proof. apply orThrow_pure. Qed.

Lemma bind_pure {A B} (m : result A) (k : A -> result B) :
  m <> OutOfFuel -> (forall a, k a <> OutOfFuel) -> (a ← m; k a) <> OutOfFuel.
Proof. destruct m; simpl; auto. Qed.

Lemma getConnectionChecker_pure s c : getConnectionChecker s c <> OutOfFuel.
Proof.
  unfold getConnectionChecker.
  apply bind_pure; [apply getConn_pure|]. intros cn.
  apply bind_pure; [apply getBlock_pure|]. intros blk. apply orThrow_pure.
Qed.

Lemma targetBlock_pure s c : targetBlock s c <> OutOfFuel.
Proof.
  unfold targetBlock. apply bind_pure; [apply getConn_pure|]. intros cn.
  destruct (targetConnection cn); [|done].
  by apply bind_pure; [apply getConn_pure|].
Qed.

Lemma singleConnectionLoop_pure canConnect s out inputs acc :
  singleConnectionLoop canConnect s out inputs acc <> OutOfFuel.
Proof.
  revert acc. induction inputs as [|i inputs IH]; intros acc; [done|].
  simpl. apply bind_pure; [apply orThrow_pure|]. intros o.
  apply bind_pure; [apply getConnectionChecker_pure|]. intros ws.
  apply bind_pure.
  - destruct i; [|done]. by apply bind_pure; [apply getConn_pure|].
  - intros [|]; [|apply IH]. destruct acc; [done|apply IH].
Qed.

Lemma singleConnection__pure canConnect s b o :
  singleConnection_ canConnect s b o <> OutOfFuel.
Proof.
  unfold singleConnection_. apply bind_pure; [apply getBlock_pure|]. intros ob.
  apply bind_pure; [apply getBlock_pure|]. intros blk.
  apply singleConnectionLoop_pure.
Qed.

(** Case analysis on a read under a call that runs on fuel. *)
Ltac no_fuel E :=
  exfalso; revert E;
  first [ apply getConn_pure | apply getBlock_pure | apply orThrow_pure
        | apply getConnectionChecker_pure | apply targetBlock_pure
        | apply singleConnection__pure ].

Tactic Notation "hpure" constr(t) "as" ident(x) ident(E) :=
  destruct t as [x | ? | ] eqn:E; simpl; [|apply halts_Throw|no_fuel E].

Lemma unlinkState_free_at c o cb s p :
  is_Some (conns s !! c) -> is_Some (conns s !! o) -> p = c \/ p = o ->
  exists cn, conns (unlinkState c o cb s) !! p = Some cn /\
             targetConnection cn = None.
Proof.
  intros [cn Hc] [cn2 Ho] Hp. rewrite conns_unlinkState, Hc, Ho.
  destruct (decide (c = p)) as [->|Hne].
  - destruct (decide (o = p)); simpl; eauto.
  - destruct Hp as [-> | ->]; [done|]. rewrite decide_True by done. simpl. eauto.
Qed.

(** ** Disconnecting always ends *)

Section Halting.

Variable canConnect : Workspace -> State -> ConnId -> ConnId -> bool -> bool.

Lemma connect_free_halts A B s ca cb :
  conns s !! A = Some ca -> conns s !! B = Some cb ->
  targetConnection ca = None -> targetConnection cb = None ->
  halts (fun f => connect canConnect f A B s).
Proof.
  intros HA HB HtA HtB.
  destruct (getConnectionChecker s A) as [ws|e|] eqn:Hck;
    [| |no_fuel Hck].
  - unfold getConnectionChecker in Hck.
    rewrite (getConn_Some _ _ _ HA), bind_ret_l in Hck.
    apply bind_Ok in Hck as (blk & Hb & Hws).
    apply orThrow_Ok in Hb. apply orThrow_Ok in Hws.
    eexists. split; [|exists 2; intros [|[|f]] Hf; [lia|lia|];
      by apply (connect_free canConnect f A B s ca cb blk ws)].
    done.
  - apply (halts_step _ (fun _ => Throw e)); [|apply halts_Throw].
    intros f. rewrite connect_unfold, (getConn_Some _ _ _ HA), bind_ret_l, HtA.
    rewrite bool_decide_eq_false_2 by done. by rewrite Hck.
Qed.

Lemma respawn_halts p s cn :
  conns s !! p = Some cn -> targetConnection cn = None ->
  halts (fun f => respawnShadow_ canConnect f p s).
Proof.
  intros Hp Ht. eapply halts_step; [intros f; apply respawnShadow__unfold|].
  rewrite (getConn_Some _ _ _ Hp). simpl.
  hpure (getBlock s (sourceBlock_ cn)) as pb Hpb.
  destruct (workspace pb) as [ws|]; [|apply halts_Ok].
  destruct (getShadowDom cn) as [d|]; [|apply halts_Ok].
  destruct (recordUndo (events s)); [|apply halts_Ok].
  destruct (domToBlock d ws s) as [s1 B] eqn:Edom.
  apply domToBlock_spec in Edom
    as (-> & _ & _ & Hc & _ & _ & o & pv & n & Hnew & _ & _ & _ & _ & _ & Ho & Hpv).
  rewrite (getBlock_Some _ _ _ Hnew). simpl.
  destruct o as [o|].
  - eapply connect_free_halts; [by apply Hc|by apply Ho|done|done].
  - destruct pv as [pv|]; [|apply halts_Throw].
    eapply connect_free_halts; [by apply Hc|by apply Hpv|done|done].
Qed.

Lemma disconnect_halts c s : halts (fun f => disconnect canConnect f c s).
Proof.
  eapply halts_step; [intros f; apply disconnect_unfold|].
  hpure (getConn s c) as cn Hc. apply orThrow_Ok in Hc.
  destruct (targetConnection cn) as [o|] eqn:Ht; simpl; [|apply halts_Throw].
  hpure (getConn s o) as on Ho. apply orThrow_Ok in Ho.
  case_bool_decide; [|apply halts_Throw].
  assert (forall pb cb p, p = c \/ p = o ->
    halts (fun f =>
      s1 ← disconnectInternal_ c pb cb (openGroup s);
      s2 ← respawnShadow_ canConnect f p s1;
      Ok (closeGroup s s2))) as Hgo.
  { intros pb cb p Hp.
    rewrite (disconnectInternal__eq c pb cb (openGroup s) cn o on)
      by (by rewrite ?conns_openGroup).
    simpl.
    destruct (unlinkState_free_at c o cb (openGroup s) p) as (cp & Hcp & Htp);
      [rewrite conns_openGroup; eauto..|done|].
    apply halts_bind; [by eapply respawn_halts|]. intros; apply halts_Ok. }
  destruct (isSuperior cn); apply Hgo; auto.
Qed.

Lemma blockUnplug_halts b s : halts (fun f => blockUnplug canConnect f b s).
Proof.
  eapply halts_step; [intros f; apply blockUnplug_unfold|].
  hpure (getBlock s b) as blk Hb.
  destruct (plugOf blk) as [c|]; [|apply halts_Ok].
  hpure (getConn s c) as cn Hc.
  destruct (isConnected cn); [apply disconnect_halts|apply halts_Ok].
Qed.

End Halting.

(** ** Detaching returns when nothing is respawned *)

Lemma Shaped_plug_in s b blk c :
  Shaped s -> blocks s !! b = Some blk -> plugOf blk = Some c ->
  is_Some (conns s !! c).
Proof.
  intros Hsh Hb Hp. destruct (Hsh _ _ Hb) as (S1 & S2 & _).
  unfold plugOf in Hp. destruct (outputConnection blk) as [o|].
  - injection Hp as ->. simpl in S1. by destruct (conns s !! c).
  - destruct (previousConnection blk) as [p|]; [|done].
    injection Hp as ->. simpl in S2. by destruct (conns s !! c).
Qed.

Section Detaching.

Variable canConnect : Workspace -> State -> ConnId -> ConnId -> bool -> bool.

Lemma disconnect_total c s cn o :
  WF s -> conns s !! c = Some cn -> targetConnection cn = Some o ->
  (forall p cp, p = c \/ p = o -> conns s !! p = Some cp ->
     isSuperior cp = true -> shadowDom_ cp = None) ->
  returns (fun f => disconnect canConnect f c s).
Proof.
  intros Hwf Hc Ht Hq. pose proof Hwf as [Hok Hlk].
  destruct (linkOk_elim _ _ _ _ (Hlk _ _ Hc) Ht) as (cn2 & Ho & Hback & Hopp).
  assert (c <> o) as Hne.
  { intros <-. rewrite Hc in Ho. injection Ho as <-.
    by rewrite opposite_irrefl in Hopp. }
  pose proof (opposite_superior _ _ Hopp) as Hs.
  assert (forall x cx, conns s !! x = Some cx ->
            is_Some (blocks s !! sourceBlock_ cx)) as Hblk.
  { intros x cx Hx. specialize (Hok _ _ Hx). unfold connOk in Hok.
    by destruct (blocks s !! sourceBlock_ cx). }
  destruct (isSuperior cn) eqn:Hsup.
  - destruct (Hblk _ _ Hc) as [pb Hpb].
    exists (closeGroup s (unlinkState c o (sourceBlock_ cn2) (openGroup s))).
    split; [done|]. exists 2. intros [|[|f]] Hf; [lia|lia|].
    apply (disconnect_plain canConnect f c o s cn cn2 c cn (sourceBlock_ cn2) pb);
      try done; [by rewrite Hsup|eauto].
  - destruct (Hblk _ _ Ho) as [pb Hpb].
    exists (closeGroup s (unlinkState c o (sourceBlock_ cn) (openGroup s))).
    split; [done|]. exists 2. intros [|[|f]] Hf; [lia|lia|].
    apply (disconnect_plain canConnect f c o s cn cn2 o cn2 (sourceBlock_ cn) pb);
      try done; [by rewrite Hsup|].
    apply (Hq o); [by right|done|]. simpl in Hs. symmetry in Hs.
    by apply negb_false_iff in Hs.
Qed.

Lemma blockUnplug_total b s blk :
  WF s -> Shaped s -> blocks s !! b = Some blk -> plugQuiet s blk ->
  returns (fun f => blockUnplug canConnect f b s).
Proof.
  intros Hwf Hsh Hb Hq.
  eapply returns_step; [intros f; apply blockUnplug_unfold|].
  rewrite (getBlock_Some _ _ _ Hb). simpl.
  destruct (plugOf blk) as [c|] eqn:Hplug; [|apply returns_Ok].
  destruct (Shaped_plug_in _ _ _ _ Hsh Hb Hplug) as [cn Hc].
  rewrite (getConn_Some _ _ _ Hc). simpl. unfold isConnected.
  destruct (targetConnection cn) as [o|] eqn:Ht; [|apply returns_Ok].
  destruct (Shaped_plug _ _ _ _ _ Hsh Hb Hplug Hc) as [Hinf _].
  eapply disconnect_total; eauto.
  intros p cp [-> | ->] Hp Hsup.
  - rewrite Hc in Hp. injection Hp as <-. congruence.
  - eapply Hq; eauto.
Qed.

End Detaching.

(** ** Sound arenas *)

Lemma Sound_conns s s' :
  conns s' = conns s -> blocks s' = blocks s -> Sound s -> Sound s'.
Proof.
  intros Hc Hb (Hwf & Hsh & Hg). split; [|split].
  - by eapply WF_sameLinks; [apply sameLinks_same|].
  - by eapply Shaped_kept; [apply extends_same|apply sameDom_same|].
  - by eapply Grove_conns.
Qed.

Lemma Sound_openGroup s : Sound s -> Sound (openGroup s).
Proof. apply Sound_conns; [apply conns_openGroup|apply blocks_openGroup]. Qed.

Lemma Sound_setShadowDom c d s : Sound s -> Sound (setShadowDom c d s).
Proof.
  intros (Hwf & Hsh & Hg). split; [|split].
  - by apply WF_setShadowDom.
  - eapply Shaped_kept; [|apply sameDom_updConn|done].
    apply extends_updConn. intros cn. by repeat split.
  - by apply Grove_updConn.
Qed.

Lemma Sound_setWorkspace b s : Sound s -> Sound (setWorkspace b None s).
Proof.
  intros (Hwf & Hsh & Hg). split; [|split].
  - by apply WF_setWorkspace.
  - eapply Shaped_kept; [|apply sameDom_updBlock|done].
    apply extends_updBlock. intros blk. by repeat split.
  - by apply Grove_setWorkspace.
Qed.

(** Every connection of a well-shaped block belongs to it. *)
Lemma Shaped_conns_block s b blk c :
  Shaped s -> blocks s !! b = Some blk -> c ∈ blockConnections blk ->
  exists cn, conns s !! c = Some cn /\ sourceBlock_ cn = b.
Proof.
  intros Hsh Hb Hin. destruct (Hsh _ _ Hb) as (S1 & S2 & S3 & S4).
  assert (forall slot kinds, slotOk s b kinds slot -> slot = Some c ->
            exists cn, conns s !! c = Some cn /\ sourceBlock_ cn = b) as Hslot.
  { intros slot kinds Hs ->. simpl in Hs.
    destruct (conns s !! c) as [cn|]; [|done]. exists cn. tauto. }
  unfold blockConnections in Hin. apply elem_of_app in Hin as [Hin|Hin].
  - apply list_elem_of_omap in Hin as (slot & Hin & Heq). simpl in Heq.
    rewrite Forall_forall in S4. eauto.
  - apply list_elem_of_omap in Hin as (slot & Hin & Heq). simpl in Heq.
    apply elem_of_cons in Hin as [->|Hin]; [eauto|].
    apply elem_of_cons in Hin as [->|Hin%list_elem_of_singleton]; [eauto|].
    subst slot. eauto.
Qed.

Section Sound.

Variable canConnect : Workspace -> State -> ConnId -> ConnId -> bool -> bool.
Hypothesis chk_typed : checkerTyped canConnect.

Lemma Sound_disconnect f c s s' :
  Sound s -> disconnect canConnect f c s = Ok s' -> Sound s'.
Proof using chk_typed.
  intros (Hwf & Hsh & Hg) H. split; [|split].
  - by destruct (disconnect_teardown canConnect chk_typed f c s s' Hwf H).
  - destruct (shapeKept_closed canConnect f) as (_ & _ & K & _).
    by apply (K _ _ _ H).
  - by eapply disconnect_Grove.
Qed.

Lemma Sound_blockUnplug f b s s' :
  Sound s -> blockUnplug canConnect f b s = Ok s' -> Sound s'.
Proof using chk_typed.
  intros (Hwf & Hsh & Hg) H. split; [|split].
  - by destruct (blockUnplug_teardown canConnect chk_typed f b s s' Hwf H).
  - destruct (shapeKept_closed canConnect f) as (_ & _ & _ & _ & _ & K & _).
    by apply (K _ _ _ H).
  - by eapply blockUnplug_Grove.
Qed.

Lemma Sound_dispose f c s s' :
  Sound s -> dispose canConnect f c s = Ok s' -> Sound s'.
Proof using chk_typed.
  intros (Hwf & Hsh & Hg) H. split; [|split].
  - destruct (dispose_teardown canConnect chk_typed f) as [K _].
    by destruct (K _ _ _ Hwf H).
  - destruct (shapeKept_closed canConnect f) as (_ & _ & _ & _ & K & _).
    by apply (K _ _ _ H).
  - destruct (dispose_Grove canConnect chk_typed f) as [K _]. by eapply K.
Qed.

Lemma Sound_blockDispose f b s s' :
  Sound s -> blockDispose canConnect f b s = Ok s' -> Sound s'.
Proof using chk_typed.
  intros (Hwf & Hsh & Hg) H. split; [|split].
  - destruct (dispose_teardown canConnect chk_typed f) as [_ K].
    by destruct (K _ _ _ Hwf H).
  - destruct (shapeKept_closed canConnect f) as (_ & _ & _ & _ & _ & _ & K).
    by apply (K _ _ _ H).
  - destruct (dispose_Grove canConnect chk_typed f) as [_ K]. by eapply K.
Qed.

End Sound.

(** ** Destroying a block returns *)

Section Disposing.

Variable canConnect : Workspace -> State -> ConnId -> ConnId -> bool -> bool.
Hypothesis chk_typed : checkerTyped canConnect.

Variable h : nat.
Hypothesis IHh : forall h' b s blk,
  h' < h -> Sound s -> blocks s !! b = Some blk -> plugQuiet s blk ->
  deep s h' b -> returns (fun f => blockDispose canConnect f b s).

Lemma dispose_returns_step c s cn :
  Sound s -> conns s !! c = Some cn ->
  isSuperior cn = true \/ targetConnection cn = None ->
  deep s h (sourceBlock_ cn) ->
  returns (fun f => dispose canConnect f c s).
Proof using chk_typed IHh.
  intros HS Hc Hk Hd. pose proof HS as (Hwf & Hsh & Hpar & Hfo).
  destruct (targetConnection cn) as [yc|] eqn:Ht.
  2:{ eapply returns_step; [intros f; apply dispose_unfold|].
      rewrite (getConn_Some _ _ _ Hc). simpl. unfold isConnected.
      rewrite Ht. simpl. apply returns_Ok. }
  destruct Hk as [Hsup|?]; [|done].
  destruct (WF_occupant _ _ _ _ Hwf Hc Hsup Ht)
    as (yn & ob & Hyn & Hback & Hinf & _ & Hob & Hplug & Hne & _).
  eapply returns_step;
    [intros f; by apply (dispose_linked canConnect f c s cn yc yn ob)|].
  set (sA := setShadowDom c None s).
  assert (Sound sA) as HSA by by apply Sound_setShadowDom.
  assert (parentOf s (sourceBlock_ yn) = Some (sourceBlock_ cn)) as Hpo.
  { apply Parented_iff in Hpar as [Hp _]. eapply Hp; eauto. }
  destruct (deep_child _ _ _ _ Hd Hpo) as (h' & -> & Hd').
  assert (plugQuiet sA ob) as HqA.
  { intros plug pn P pc Hpl Hpn HtP HPc.
    rewrite Hplug in Hpl. injection Hpl as <-.
    unfold sA, setShadowDom in Hpn, HPc. rewrite lookup_updConn in Hpn, HPc.
    rewrite decide_False in Hpn by done.
    rewrite Hyn in Hpn. injection Hpn as <-.
    rewrite Hback in HtP. injection HtP as <-.
    rewrite decide_True, Hc in HPc by done. by injection HPc as <-. }
  pose proof HSA as (HwfA & HshA & _).
  destruct (isShadow ob).
  - apply returns_bind; [|intros; apply returns_Ok].
    apply (IHh h' _ _ ob); [lia|done|exact Hob|done|by apply (deep_same s)].
  - apply returns_bind; [|intros; apply returns_Ok].
    by apply (blockUnplug_total canConnect _ sA ob).
Qed.

Lemma blockDispose_unfold f b s :
  blockDispose canConnect (S f) b s =
  (s1 ← blockUnplug canConnect f b s;
   blk ← getBlock (setWorkspace b None s1) b;
   forEach (dispose canConnect f) (blockConnections blk)
     (setWorkspace b None s1)).
Proof. reflexivity. Qed.

Lemma blockDispose_returns_step b s blk :
  Sound s -> blocks s !! b = Some blk -> plugQuiet s blk -> deep s h b ->
  returns (fun f => blockDispose canConnect f b s).
Proof using chk_typed IHh.
  intros HS Hb Hq Hd. pose proof HS as (Hwf & Hsh & Hpar & Hfo).
  eapply returns_step; [intros f; apply blockDispose_unfold|].
  apply returns_bind; [by apply (blockUnplug_total canConnect b s blk)|].
  intros s1 (f1 & E1)%settles_at.
  destruct (blockUnplug_quiet canConnect chk_typed f1 b s s1 blk Hwf Hsh Hb Hq E1)
    as [D1 Hfree].
  destruct (blockUnplug_teardown canConnect chk_typed _ _ _ _ Hwf E1)
    as [Hwf1 T1].
  pose proof (Sound_blockUnplug canConnect chk_typed _ _ _ _ HS E1) as HS1.
  destruct (extends_closed canConnect f1) as (_ & _ & _ & _ & _ & Ku & _).
  pose proof (Ku _ _ _ E1) as [Xc Xb].
  destruct (Xb _ _ Hb) as (blk1 & Hb1 & Ko & Kp & Kn & Ki & _).
  set (s2 := setWorkspace b None s1).
  assert (blocks s2 !! b = Some (withWorkspace None blk1)) as Hb2.
  { unfold s2, setWorkspace. rewrite lookup_updBlock, decide_True by done.
    by rewrite Hb1. }
  rewrite (getBlock_Some _ _ _ Hb2). simpl.
  assert (blockConnections (withWorkspace None blk1) = blockConnections blk)
    as ->.
  { unfold blockConnections. simpl. by rewrite Ko, Kp, Kn, Ki. }
  apply (forEach_returns (fun f => dispose canConnect f)
    (fun t => Sound t /\ deep t h b /\
       forall c, c ∈ blockConnections blk ->
         exists cn, conns t !! c = Some cn /\ sourceBlock_ cn = b /\
           (isSuperior cn = true \/ targetConnection cn = None))).
  - intros c t Hin (HSt & Hdt & Hall).
    destruct (Hall c Hin) as (cn & Hc & Hsb & Hk).
    eapply dispose_returns_step; eauto. by rewrite Hsb.
  - intros c t t' f Hin (HSt & Hdt & Hall) E.
    split; [by eapply Sound_dispose|].
    pose proof HSt as (Hwft & Hsht & Hpart & _).
    destruct (dispose_teardown canConnect chk_typed f) as [Tx _].
    destruct (Tx _ _ _ Hwft E) as [_ Tt].
    destruct (dispose_quiet canConnect chk_typed f) as [Qx _].
    assert (disposable t c) as Hdc.
    { destruct (Hall c Hin) as (cn & ? & ? & ?). by exists cn. }
    pose proof (Qx _ _ _ Hwft Hsht Hdc E) as Dt.
    split; [by eapply deep_torn|].
    intros c' Hin'. destruct (Hall c' Hin') as (cn & Hc & Hsb & Hk).
    destruct (disposable_teardown t t' c' Tt) as (cn' & Hc' & Hk');
      [by exists cn|].
    destruct Tt as (C & _). destruct (C _ _ Hc) as (cn2 & Hc2 & Hs2 & _).
    exists cn'. split; [done|]. split; [congruence|done].
  - split; [by apply Sound_setWorkspace|]. split.
    + apply (deep_same s1); [|by eapply deep_torn].
      intros x. unfold parentOf, s2, setWorkspace. rewrite lookup_updBlock.
      case_decide; subst; by destruct (blocks s1 !! _).
    + intros c Hin.
      destruct (Shaped_conns _ _ _ _ Hwf Hsh Hb Hin) as (cn & Hc & Hk).
      destruct (Shaped_conns_block _ _ _ _ Hsh Hb Hin) as (cn0 & Hc0 & Hsb).
      rewrite Hc in Hc0. injection Hc0 as <-.
      destruct (Xc _ _ Hc) as (cn1 & Hc1 & Ksb & Hy & _).
      exists cn1. split; [done|]. split; [congruence|].
      destruct Hk as [Hsup|Hplug].
      * left. unfold isSuperior in *. by rewrite Hy.
      * destruct (Hfree _ _ Hplug Hc) as (cn3 & Hc3 & Ht3 & _).
        right. congruence.
Qed.

End Disposing.

Section Destroying.

Variable canConnect : Workspace -> State -> ConnId -> ConnId -> bool -> bool.
Hypothesis chk_typed : checkerTyped canConnect.

(** [Block.dispose] on a block whose holder has no template returns, however
    many placeholders are nested beneath it. *)
Theorem blockDispose_total b s blk :
  Sound s -> blocks s !! b = Some blk -> plugQuiet s blk ->
  returns (fun f => blockDispose canConnect f b s).
Proof using chk_typed.
  intros HS Hb Hq. pose proof HS as (_ & _ & _ & Hfo).
  destruct (Forest_deep s b Hfo) as (h & Hd).
  revert b s blk HS Hb Hq Hfo Hd.
  induction (lt_wf h) as [h _ IH]. intros b s blk HS Hb Hq Hfo Hd.
  eapply (blockDispose_returns_step canConnect chk_typed h); eauto.
  intros h' b' s' blk' Hlt HS' Hb' Hq' Hd'.
  eapply (IH h'); eauto. by destruct HS' as (_ & _ & _ & ?).
Qed.

(** [dispose] on a superior or free connection returns. *)
Theorem dispose_total c s :
  Sound s -> disposable s c -> returns (fun f => dispose canConnect f c s).
Proof using chk_typed.
  intros HS (cn & Hc & Hk). pose proof HS as (_ & _ & _ & Hfo).
  destruct (Forest_deep s (sourceBlock_ cn) Hfo) as (h & Hd).
  eapply (dispose_returns_step canConnect chk_typed h); eauto.
  intros h' b' s' blk' _ HS' Hb' Hq' _.
  by eapply blockDispose_total.
Qed.

Lemma blockDispose_halts b s blk :
  Sound s -> blocks s !! b = Some blk -> plugQuiet s blk ->
  halts (fun f => blockDispose canConnect f b s).
Proof using chk_typed. intros. by eapply returns_halts, blockDispose_total. Qed.

Lemma dispose_halts c s :
  Sound s -> disposable s c -> halts (fun f => dispose canConnect f c s).
Proof using chk_typed. intros. by eapply returns_halts, dispose_total. Qed.

End Destroying.

(** ** The walks end *)

Lemma child_of_target s c cn nb :
  WF s -> Parented s -> conns s !! c = Some cn -> isSuperior cn = true ->
  targetBlock s c = Ok (Some nb) -> parentOf s nb = Some (sourceBlock_ cn).
Proof.
  intros Hwf Hpar Hc Hsup Htb.
  apply targetBlock_Ok in Htb as (cn0 & Hc0 & t & tn & Ht & Htn & <-).
  rewrite Hc in Hc0. injection Hc0 as <-.
  destruct (WF_occupant _ _ _ _ Hwf Hc Hsup Ht)
    as (xn & ob & Hxn & Hback & Hinf & _).
  rewrite Htn in Hxn. injection Hxn as <-.
  apply Parented_iff in Hpar as [Hp _]. eapply Hp; eauto.
Qed.

Section Walks.

Variable canConnect : Workspace -> State -> ConnId -> ConnId -> bool -> bool.

Lemma lastConnectionInRow_unfold f s start X :
  lastConnectionInRow canConnect (S f) s start X =
  (connection ← singleConnection_ canConnect s start X;
   match connection with
   | None => Ok None
   | Some c =>
       newBlock ← targetBlock s c;
       match newBlock with
       | None => Ok (Some c)
       | Some nb =>
           blk ← getBlock s nb;
           if isShadow blk then Ok (Some c)
           else lastConnectionInRow canConnect f s nb X
       end
   end).
Proof. reflexivity. Qed.

Lemma row_child s start X c nb :
  WF s -> Shaped s -> Parented s ->
  singleConnection_ canConnect s start X = Ok (Some c) ->
  targetBlock s c = Ok (Some nb) -> parentOf s nb = Some start.
Proof.
  intros Hwf Hsh Hpar Hsc Htb.
  apply singleConnection__Some in Hsc as (ob & out & ws & _ & _ & _ & Hel).
  unfold eligibleInputs in Hel.
  destruct (blocks s !! start) as [sb|] eqn:Hsb; [|done].
  apply filter_singleton in Hel as [Hel Hin].
  apply eligible_true in Hel as (c0 & cn & [= <-] & Hc & Hty & _).
  destruct (Hsh _ _ Hsb) as (_ & _ & _ & S4).
  rewrite Forall_forall in S4. apply list_elem_of_In in Hin.
  specialize (S4 _ Hin). simpl in S4. rewrite Hc in S4. destruct S4 as [<- _].
  eapply child_of_target; eauto. unfold isSuperior. by rewrite Hty.
Qed.

Lemma lastConnectionInRow_halts h start X s :
  WF s -> Shaped s -> Parented s -> deep s h start ->
  halts (fun f => lastConnectionInRow canConnect f s start X).
Proof.
  intros Hwf Hsh Hpar. revert start.
  induction (lt_wf h) as [h _ IH]. intros start Hd.
  eapply halts_step; [intros f; apply lastConnectionInRow_unfold|].
  hpure (singleConnection_ canConnect s start X) as conn Hsc.
  destruct conn as [c|]; [|apply halts_Ok].
  hpure (targetBlock s c) as nb Htb.
  destruct nb as [nb|]; [|apply halts_Ok].
  hpure (getBlock s nb) as blk Hnb.
  destruct (isShadow blk); [apply halts_Ok|].
  pose proof (row_child _ _ _ _ _ Hwf Hsh Hpar Hsc Htb) as Hpo.
  destruct (deep_child _ _ _ _ Hd Hpo) as (h' & -> & Hd').
  apply (IH h'); [lia|done].
Qed.

Lemma lastNextConnection_unfold f s newBlock :
  lastNextConnection (S f) s newBlock =
  (blk ← getBlock s newBlock;
   match nextConnection blk with
   | None => Ok None
   | Some n =>
       nextBlock ← targetBlock s n;
       match nextBlock with
       | Some nb =>
           nblk ← getBlock s nb;
           if isShadow nblk then Ok (Some n) else lastNextConnection f s nb
       | None => Ok (Some n)
       end
   end).
Proof. reflexivity. Qed.

Lemma lastNextConnection_halts h start s :
  WF s -> Shaped s -> Parented s -> deep s h start ->
  halts (fun f => lastNextConnection f s start).
Proof.
  intros Hwf Hsh Hpar. revert start.
  induction (lt_wf h) as [h _ IH]. intros start Hd.
  eapply halts_step; [intros f; apply lastNextConnection_unfold|].
  hpure (getBlock s start) as blk Hb. apply orThrow_Ok in Hb.
  destruct (nextConnection blk) as [n|] eqn:Hn; [|apply halts_Ok].
  hpure (targetBlock s n) as nb Htb.
  destruct nb as [nb|]; [|apply halts_Ok].
  hpure (getBlock s nb) as nblk Hnb.
  destruct (isShadow nblk); [apply halts_Ok|].
  assert (parentOf s nb = Some start) as Hpo.
  { destruct (Hsh _ _ Hb) as (_ & _ & S3 & _). rewrite Hn in S3. simpl in S3.
    destruct (conns s !! n) as [cn|] eqn:Hc; [|done].
    destruct S3 as [<- Hk%list_elem_of_singleton].
    eapply child_of_target; eauto. unfold isSuperior. by rewrite Hk. }
  destruct (deep_child _ _ _ _ Hd Hpo) as (h' & -> & Hd').
  apply (IH h'); [lia|done].
Qed.

End Walks.

(** ** Connecting ends *)

Section Connecting.

Variable canConnect : Workspace -> State -> ConnId -> ConnId -> bool -> bool.
Hypothesis chk_typed : checkerTyped canConnect.

Lemma orphanStep_halts P cb pc s :
  Sound s -> conns s !! P = Some pc -> isSuperior pc = true ->
  occupantGone s P \/
    (forall A B t, Sound t -> displacesNone t A B ->
       halts (fun f => connect canConnect f A B t)) ->
  halts (fun f => orphanStep canConnect f P cb pc s).
Proof using chk_typed.
  intros HS HP Hsup Hn. pose proof HS as (Hwf & Hsh & Hpar & Hfo).
  unfold orphanStep, isConnected.
  destruct (targetConnection pc) as [xc|] eqn:Ht; [|apply halts_Ok].
  destruct (WF_occupant _ _ _ _ Hwf HP Hsup Ht)
    as (xn & ob & Hxn & Hback & Hinf & Hopp & Hob & Hplug & Hne & Hout & Hprev).
  assert (targetBlock s P = Ok (Some (sourceBlock_ xn))) as ->.
  { unfold targetBlock.
    by rewrite (getConn_Some _ _ _ HP), bind_ret_l, Ht, (getConn_Some _ _ _ Hxn). }
  simpl.
  set (X := sourceBlock_ xn). set (sA := setShadowDom P None s).
  assert (Sound sA) as HSA by by apply Sound_setShadowDom.
  pose proof HSA as (HwfA & HshA & HparA & HfoA).
  assert (conns sA !! xc = Some xn) as HxnA.
  { unfold sA, setShadowDom. by rewrite lookup_updConn, decide_False. }
  rewrite (getBlock_Some sA X ob Hob). simpl.
  assert (forall a : option BlockId * option Dom * State,
    halts (fun f =>
      let '(orphan, shadowDom, s0) := a in
      s1 ← match orphan with
           | Some orphanBlock =>
               s1 ← disconnect canConnect f P s0;
               Ok (if recordUndo (events s1)
                   then addTimer (mkBump orphanBlock P (group (events s1))) s1
                   else s1)
           | None => Ok s0
           end;
      Ok (setShadowDom P shadowDom s1))) as Htail.
  { intros [[[o|] sd] t]; simpl; [|apply halts_Ok].
    apply halts_bind; [|intros; apply halts_Ok].
    apply halts_bind; [apply disconnect_halts|intros; apply halts_Ok]. }
  apply halts_bind; [|intros a _; apply Htail]. clear Htail.
  destruct (isShadow ob) eqn:Hshadow.
  { apply halts_bind; [|intros; apply halts_Ok].
    apply (blockDispose_halts canConnect chk_typed X sA ob); [done|exact Hob|].
    intros plug pn Q qc Hpl Hpn HtQ HQc.
    rewrite Hplug in Hpl. injection Hpl as <-.
    rewrite HxnA in Hpn. injection Hpn as <-.
    rewrite Hback in HtQ. injection HtQ as <-.
    unfold sA, setShadowDom in HQc.
    rewrite lookup_updConn, decide_True, HP in HQc by done.
    by injection HQc as <-. }
  destruct Hn as [Hg|Hn];
    [by destruct (occupantGone_ordinary _ _ _ _ _ _ HP Ht Hxn Hob Hshadow Hg)|].
  destruct (Forest_deep sA cb HfoA) as (h & Hd).
  case_bool_decide as Hty.
  { rewrite (Hout Hty). simpl.
    apply halts_bind; [by eapply lastConnectionInRow_halts|].
    intros [slot|] (f0 & E0)%settles_at; [|apply halts_Ok].
    apply halts_bind; [|intros; apply halts_Ok].
    apply Hn; [done|]. intros ca Hca. rewrite HxnA in Hca. injection Hca as <-.
    rewrite Hinf.
    destruct f0 as [|f0]; [discriminate|].
    pose proof E0 as E1. rewrite lastConnectionInRow_unfold in E1.
    apply bind_Ok in E1 as (conn & Hsc & _).
    destruct conn as [c|].
    2:{ rewrite lastConnectionInRow_unfold, Hsc in E0. discriminate. }
    apply singleConnection__Some in Hsc as (ob' & out & ws & Hob' & Hou' & Hck & _).
    change (blocks s !! sourceBlock_ xn = Some ob') in Hob'.
    rewrite Hob in Hob'. injection Hob' as <-.
    rewrite (Hout Hty) in Hou'. injection Hou' as <-.
    pose proof (lastConnectionInRow_walk canConnect _ sA _ _ _ _ _ _
                  Hob (Hout Hty) Hck E0) as Hwalk.
    by apply rowWalk_Some in Hwalk as [? _]. }
  case_bool_decide as Hty'; [|apply halts_Ok].
  rewrite (Hprev Hty'). simpl.
  apply halts_bind; [by eapply lastNextConnection_halts|].
  intros [slot|] (f0 & E0)%settles_at; [|apply halts_Ok].
  destruct (workspace ob) as [ws|]; simpl; [|apply halts_Throw].
  destruct (canConnect ws sA xc slot false) eqn:Hacc; [|apply halts_Ok].
  apply halts_bind; [|intros; apply halts_Ok].
  apply Hn; [done|]. intros ca Hca.
  destruct (chk_typed _ _ _ _ Hacc) as (ca' & cb' & Hca' & Hcb' & Hopp').
  rewrite HxnA in Hca'. injection Hca' as <-.
  rewrite Hca in Hcb'. injection Hcb' as <-.
  pose proof (opposite_superior _ _ Hopp') as Hs. rewrite Hinf in Hs.
  symmetry in Hs. apply negb_false_iff in Hs. rewrite Hs.
  by apply lastNextConnection_Some in E0 as [? _].
Qed.

Lemma connect__halts P C s pc cc :
  Sound s -> conns s !! P = Some pc -> conns s !! C = Some cc ->
  isSuperior pc = true -> opposite (type pc) (type cc) = true ->
  targetConnection pc <> Some C ->
  occupantGone s P \/
    (forall A B t, Sound t -> displacesNone t A B ->
       halts (fun f => connect canConnect f A B t)) ->
  halts (fun f => connect_ canConnect f P C s).
Proof using chk_typed.
  intros HS HP HC Hsup Hopp Hnl Hn. pose proof HS as (Hwf & _).
  eapply halts_step; [intros f; apply connect__phases|].
  rewrite (getConn_Some _ _ _ HP), (getConn_Some _ _ _ HC). simpl.
  apply halts_bind.
  { destruct (isConnected cc); [apply disconnect_halts|apply halts_Ok]. }
  intros s1 (f1 & E1)%settles_at.
  destruct (predisconnect canConnect chk_typed f1 P C s s1 pc cc
              Hwf HP HC Hsup Hopp Hnl E1)
    as (Hwf1 & T1 & HP1 & HC1 & Hq & Hrest & Hblk).
  assert (Sound s1) as HS1.
  { destruct (isConnected cc); [by eapply Sound_disconnect|].
    by injection E1 as <-. }
  rewrite (getConn_Some _ _ _ HP1). simpl.
  apply halts_bind; [|intros; apply halts_Ok].
  apply orphanStep_halts; [done|done|done|].
  destruct Hn as [Hg|Hn]; [left|by right].
  intros pc' xc HP' Ht. rewrite HP1 in HP'. injection HP' as <-.
  destruct (Hg _ _ HP Ht) as (xn & ob & Hxn & Hob & Hshadow).
  destruct (WF_occupant _ _ _ _ Hwf HP Hsup Ht)
    as (xn' & ob' & Hxn' & Hback & Hinf & _).
  rewrite Hxn in Hxn'. injection Hxn' as <-.
  assert (conns s1 !! xc = Some xn) as Hxn1.
  { apply Hrest; [done|congruence|].
    intros Hcx. pose proof Hwf as [_ Hlk].
    destruct (linkOk_elim _ _ _ _ (Hlk _ _ HC) Hcx) as (xn2 & Hx2 & Hb2 & _).
    rewrite Hxn in Hx2. injection Hx2 as <-.
    rewrite Hback in Hb2. injection Hb2 as ->.
    rewrite HP in HC. injection HC as <-. by rewrite opposite_irrefl in Hopp. }
  destruct (Hblk _ _ Hob) as (blk' & Hb' & His & _).
  exists xn, blk'. split; [done|]. split; [done|]. congruence.
Qed.

Lemma connect_halts_gen A B s :
  Sound s ->
  displacesNone s A B \/
    (forall A B t, Sound t -> displacesNone t A B ->
       halts (fun f => connect canConnect f A B t)) ->
  halts (fun f => connect canConnect f A B s).
Proof using chk_typed.
  intros HS Hn. pose proof HS as (Hwf & _).
  eapply halts_step; [intros f; apply connect_unfold|].
  hpure (getConn s A) as ca HA. apply orThrow_Ok in HA.
  case_bool_decide as Htg; [apply halts_Ok|].
  hpure (getConnectionChecker s A) as ws Hck.
  destruct (canConnect ws s A B false) eqn:Hacc; [|apply halts_Ok].
  destruct (chk_typed _ _ _ _ Hacc) as (ca' & cb & HA' & HB & Hopp).
  rewrite HA in HA'. injection HA' as <-.
  apply halts_bind; [|intros; apply halts_Ok].
  pose proof (opposite_superior _ _ Hopp) as Hs.
  assert (occupantGone (openGroup s) (if isSuperior ca then A else B) \/
    (forall A B t, Sound t -> displacesNone t A B ->
       halts (fun f => connect canConnect f A B t))) as Hn'.
  { destruct Hn as [Hg|Hn]; [left|by right].
    eapply occupantGone_conns;
      [apply conns_openGroup|apply blocks_openGroup|by apply Hg]. }
  destruct (isSuperior ca) eqn:Hsa.
  - eapply (connect__halts A B (openGroup s) ca cb); try done.
    + by apply Sound_openGroup.
    + by rewrite conns_openGroup.
    + by rewrite conns_openGroup.
  - eapply (connect__halts B A (openGroup s) cb ca); try done.
    + by apply Sound_openGroup.
    + by rewrite conns_openGroup.
    + by rewrite conns_openGroup.
    + symmetry in Hs. by apply negb_false_iff in Hs.
    + by rewrite opposite_sym.
    + intros Hcb. pose proof Hwf as [_ Hlk].
      destruct (linkOk_elim _ _ _ _ (Hlk _ _ HB) Hcb) as (ca2 & Ha2 & Hb2 & _).
      rewrite HA in Ha2. injection Ha2 as <-. done.
Qed.

(** [connect] ends on every sound arena: the checker only has to be
    typed. *)
Theorem connect_halts A B s :
  Sound s -> halts (fun f => connect canConnect f A B s).
Proof using chk_typed.
  intros HS. apply connect_halts_gen; [done|]. right.
  intros A' B' t HSt Hg. apply connect_halts_gen; [done|by left].
Qed.

End Connecting.

(** ** Sequences of calls end *)

Section Sequences.

Variable canConnect : Workspace -> State -> ConnId -> ConnId -> bool -> bool.
Hypothesis chk_typed : checkerTyped canConnect.
Hypothesis chk_sym : checkerSymmetric canConnect.
Hypothesis chk_anc : checkerAncestry canConnect.

Lemma Sound_connect f A B s s' :
  Sound s -> connect canConnect f A B s = Ok s' -> Sound s'.
Proof using chk_typed chk_sym chk_anc.
  intros (Hwf & Hsh & Hg) H. split; [|split].
  - by eapply (connect_WF canConnect chk_typed chk_sym).
  - destruct (shapeKept_closed canConnect f) as (K & _).
    by apply (K _ _ _ _ H).
  - by eapply (connect_Grove canConnect chk_typed chk_anc chk_sym).
Qed.

Lemma connectAll_halts ops s :
  Sound s -> halts (fun f => connectAll canConnect f ops s).
Proof using chk_typed chk_sym chk_anc.
  intros HS. unfold connectAll.
  apply (forEach_halts (fun f op => connect canConnect f op.1 op.2) Sound);
    [| |done].
  - intros op t _ HSt. by apply connect_halts.
  - intros op t t' f _ HSt H. by eapply Sound_connect.
Qed.

End Sequences.

(** ** Changing the tags ends *)

Lemma setCheck_halts canConnect this check s :
  halts (fun f => setCheck canConnect f this check s).
Proof.
  unfold setCheck, onCheckChanged_.
  hpure (getConn s this) as cn0 Hc0.
  destruct (truthy check); [|apply halts_Ok].
  hpure (getConn (setCheckField this (Some (toArray check)) s) this) as cn Hc.
  destruct (targetConnection cn) as [t|]; [|apply halts_Ok].
  hpure (getConnectionChecker (setCheckField this (Some (toArray check)) s) this)
    as ws Hws.
  destruct (canConnect ws _ this t false); [apply halts_Ok|].
  destruct (isSuperior cn); simpl; [|apply blockUnplug_halts].
  hpure (targetBlock (setCheckField this (Some (toArray check)) s) this)
    as tb Htb.
  destruct tb as [tb|]; simpl; [apply blockUnplug_halts|apply halts_Throw].
Qed.

(** ** Attaching returns *)

Lemma quietChild_conns s s' C :
  conns s' = conns s -> quietChild s C -> quietChild s' C.
Proof. intros Hc Hq cc q cq. rewrite !Hc. apply Hq. Qed.

Section Returning.

Variable canConnect : Workspace -> State -> ConnId -> ConnId -> bool -> bool.
Hypothesis chk_typed : checkerTyped canConnect.

Lemma orphanStep_total_gone P cb pc s :
  Sound s -> conns s !! P = Some pc -> isSuperior pc = true ->
  occupantGone s P ->
  returns (fun f => orphanStep canConnect f P cb pc s).
Proof using chk_typed.
  intros HS HP Hsup Hg. pose proof HS as (Hwf & Hsh & Hpar & Hfo).
  unfold orphanStep, isConnected.
  destruct (targetConnection pc) as [xc|] eqn:Ht; [|apply returns_Ok].
  destruct (WF_occupant _ _ _ _ Hwf HP Hsup Ht)
    as (xn & ob & Hxn & Hback & Hinf & Hopp & Hob & Hplug & Hne & _).
  assert (targetBlock s P = Ok (Some (sourceBlock_ xn))) as ->.
  { unfold targetBlock.
    by rewrite (getConn_Some _ _ _ HP), bind_ret_l, Ht, (getConn_Some _ _ _ Hxn). }
  simpl.
  set (X := sourceBlock_ xn). set (sA := setShadowDom P None s).
  assert (Sound sA) as HSA by by apply Sound_setShadowDom.
  assert (conns sA !! xc = Some xn) as HxnA.
  { unfold sA, setShadowDom. by rewrite lookup_updConn, decide_False. }
  rewrite (getBlock_Some sA X ob Hob). simpl.
  destruct (isShadow ob) eqn:Hshadow;
    [|by destruct (occupantGone_ordinary _ _ _ _ _ _ HP Ht Hxn Hob Hshadow Hg)].
  apply returns_bind.
  - apply returns_bind; [|intros; apply returns_Ok].
    apply (blockDispose_total canConnect chk_typed X sA ob); [done|exact Hob|].
    intros plug pn Q qc Hpl Hpn HtQ HQc.
    rewrite Hplug in Hpl. injection Hpl as <-.
    rewrite HxnA in Hpn. injection Hpn as <-.
    rewrite Hback in HtQ. injection HtQ as <-.
    unfold sA, setShadowDom in HQc.
    rewrite lookup_updConn, decide_True, HP in HQc by done.
    by injection HQc as <-.
  - intros [[orphan sd] t] (f0 & E0)%settles_at.
    apply bind_Ok in E0 as (t' & _ & E0). injection E0 as <- <- <-.
    simpl. apply returns_Ok.
Qed.

Lemma connect__total_gone P C s pc cc :
  Sound s -> conns s !! P = Some pc -> conns s !! C = Some cc ->
  isSuperior pc = true -> opposite (type pc) (type cc) = true ->
  targetConnection pc <> Some C ->
  occupantGone s P -> quietChild s C ->
  returns (fun f => connect_ canConnect f P C s).
Proof using chk_typed.
  intros HS HP HC Hsup Hopp Hnl Hg Hq. pose proof HS as (Hwf & _).
  pose proof (opposite_superior _ _ Hopp) as Hs. rewrite Hsup in Hs.
  assert (isSuperior cc = false) as Hinf by by destruct (isSuperior cc).
  eapply returns_step; [intros f; apply connect__phases|].
  rewrite (getConn_Some _ _ _ HP), (getConn_Some _ _ _ HC). simpl.
  apply returns_bind.
  { unfold isConnected.
    destruct (targetConnection cc) as [q|] eqn:Htc; [|apply returns_Ok].
    eapply disconnect_total; eauto.
    intros p cp [-> | ->] Hp Hsp.
    - rewrite HC in Hp. injection Hp as <-. congruence.
    - eapply Hq; eauto. }
  intros s1 (f1 & E1)%settles_at.
  destruct (predisconnect canConnect chk_typed f1 P C s s1 pc cc
              Hwf HP HC Hsup Hopp Hnl E1)
    as (Hwf1 & T1 & HP1 & HC1 & _ & Hrest & Hblk).
  assert (Sound s1) as HS1.
  { destruct (isConnected cc); [by eapply Sound_disconnect|].
    by injection E1 as <-. }
  rewrite (getConn_Some _ _ _ HP1). simpl.
  apply returns_bind; [|intros; apply returns_Ok].
  apply orphanStep_total_gone; [done|done|done|].
  intros pc' xc HP' Ht. rewrite HP1 in HP'. injection HP' as <-.
  destruct (Hg _ _ HP Ht) as (xn & ob & Hxn & Hob & Hshadow).
  destruct (WF_occupant _ _ _ _ Hwf HP Hsup Ht)
    as (xn' & ob' & Hxn' & Hback & _).
  rewrite Hxn in Hxn'. injection Hxn' as <-.
  assert (conns s1 !! xc = Some xn) as Hxn1.
  { apply Hrest; [done|congruence|].
    intros Hcx. pose proof Hwf as [_ Hlk].
    destruct (linkOk_elim _ _ _ _ (Hlk _ _ HC) Hcx) as (xn2 & Hx2 & Hb2 & _).
    rewrite Hxn in Hx2. injection Hx2 as <-.
    rewrite Hback in Hb2. injection Hb2 as ->.
    rewrite HP in HC. injection HC as <-. by rewrite opposite_irrefl in Hopp. }
  destruct (Hblk _ _ Hob) as (blk' & Hb' & His & _).
  exists xn, blk'. split; [done|]. split; [done|]. congruence.
Qed.

(** [connect] returns when it displaces no ordinary block, respawns
    nothing, and the checker of the caller's workspace is there. *)
Lemma connect_total_gone A B s ca ws :
  Sound s -> conns s !! A = Some ca -> getConnectionChecker s A = Ok ws ->
  displacesNone s A B -> quietChild s (if isSuperior ca then B else A) ->
  returns (fun f => connect canConnect f A B s).
Proof using chk_typed.
  intros HS HA Hck Hg Hq. pose proof HS as (Hwf & _).
  eapply returns_step; [intros f; apply connect_unfold|].
  rewrite (getConn_Some _ _ _ HA). simpl.
  case_bool_decide as Htg; [apply returns_Ok|].
  rewrite Hck. simpl.
  destruct (canConnect ws s A B false) eqn:Hacc; [|apply returns_Ok].
  destruct (chk_typed _ _ _ _ Hacc) as (ca' & cb & HA' & HB & Hopp).
  rewrite HA in HA'. injection HA' as <-.
  apply returns_bind; [|intros; apply returns_Ok].
  pose proof (opposite_superior _ _ Hopp) as Hs.
  specialize (Hg _ HA).
  assert (occupantGone (openGroup s) (if isSuperior ca then A else B)) as Hg'.
  { eapply occupantGone_conns;
      [apply conns_openGroup|apply blocks_openGroup|done]. }
  assert (quietChild (openGroup s) (if isSuperior ca then B else A)) as Hq'.
  { eapply quietChild_conns; [apply conns_openGroup|done]. }
  destruct (isSuperior ca) eqn:Hsa.
  - eapply (connect__total_gone A B (openGroup s) ca cb); try done.
    + by apply Sound_openGroup.
    + by rewrite conns_openGroup.
    + by rewrite conns_openGroup.
  - eapply (connect__total_gone B A (openGroup s) cb ca); try done.
    + by apply Sound_openGroup.
    + by rewrite conns_openGroup.
    + by rewrite conns_openGroup.
    + symmetry in Hs. by apply negb_false_iff in Hs.
    + by rewrite opposite_sym.
    + intros Hcb. pose proof Hwf as [_ Hlk].
      destruct (linkOk_elim _ _ _ _ (Hlk _ _ HB) Hcb) as (ca2 & Ha2 & Hb2 & _).
      rewrite HA in Ha2. injection Ha2 as <-. done.
Qed.

End Returning.

(** ** Re-homing a displaced block returns *)

Lemma targetBlock_total s c cn :
  WF s -> conns s !! c = Some cn ->
  exists nb, targetBlock s c = Ok nb /\
    match nb with Some b => is_Some (blocks s !! b) | None => True end.
Proof.
  intros [Hok Hlk] Hc. unfold targetBlock. rewrite (getConn_Some _ _ _ Hc).
  simpl. destruct (targetConnection cn) as [t|] eqn:Ht; [|by exists None].
  destruct (linkOk_elim _ _ _ _ (Hlk _ _ Hc) Ht) as (tn & Htn & _).
  rewrite (getConn_Some _ _ _ Htn). simpl. exists (Some (sourceBlock_ tn)).
  split; [done|]. specialize (Hok _ _ Htn). unfold connOk in Hok.
  by destruct (blocks s !! sourceBlock_ tn).
Qed.

Section Rehousing.

Variable canConnect : Workspace -> State -> ConnId -> ConnId -> bool -> bool.
Hypothesis chk_typed : checkerTyped canConnect.

Lemma singleConnectionLoop_total s out ws b kinds inputs acc :
  getConnectionChecker s out = Ok ws -> Forall (slotOk s b kinds) inputs ->
  exists r, singleConnectionLoop canConnect s (Some out) inputs acc = Ok r.
Proof.
  intros Hck Hall. revert acc.
  induction Hall as [|i inputs Hi _ IH]; intros acc; [by eexists|].
  simpl. rewrite Hck. simpl. destruct i as [tc|]; simpl; [|apply IH].
  simpl in Hi. destruct (conns s !! tc) as [tcn|] eqn:Htc; [|done].
  rewrite (getConn_Some _ _ _ Htc). simpl.
  destruct (bool_decide _ && _); [|apply IH].
  destruct acc; [by eexists|apply IH].
Qed.

Lemma lastConnectionInRow_total h start X s ob out ws :
  WF s -> Shaped s -> Parented s ->
  blocks s !! X = Some ob -> outputConnection ob = Some out ->
  getConnectionChecker s out = Ok ws ->
  is_Some (blocks s !! start) -> deep s h start ->
  returns (fun f => lastConnectionInRow canConnect f s start X).
Proof.
  intros Hwf Hsh Hpar HX Hout Hck. revert start.
  induction (lt_wf h) as [h _ IH]. intros start [sb Hsb] Hd.
  eapply returns_step; [intros f; apply lastConnectionInRow_unfold|].
  destruct (singleConnectionLoop_total s out ws start
              [INPUT_VALUE; NEXT_STATEMENT] (inputList sb) None Hck)
    as [conn Hloop].
  { by destruct (Hsh _ _ Hsb) as (_ & _ & _ & ?). }
  assert (singleConnection_ canConnect s start X = Ok conn) as Hsc.
  { unfold singleConnection_.
    rewrite (getBlock_Some _ _ _ HX), (getBlock_Some _ _ _ Hsb). simpl.
    by rewrite Hout. }
  rewrite Hsc. simpl.
  destruct conn as [c|]; [|apply returns_Ok].
  pose proof Hsc as Hsc'.
  apply singleConnection__Some in Hsc' as (ob' & out' & ws' & _ & _ & _ & Hel).
  apply eligibleInputs_singleton in Hel as (cn & Hc & Hty & _).
  destruct (targetBlock_total s c cn Hwf Hc) as (nb & Htb & Hnb).
  rewrite Htb. simpl.
  destruct nb as [nb|]; [|apply returns_Ok].
  destruct Hnb as [nblk Hnblk].
  rewrite (getBlock_Some _ _ _ Hnblk). simpl.
  destruct (isShadow nblk); [apply returns_Ok|].
  pose proof (row_child canConnect _ _ _ _ _ Hwf Hsh Hpar Hsc Htb) as Hpo.
  destruct (deep_child _ _ _ _ Hd Hpo) as (h' & -> & Hd').
  apply (IH h'); [lia|eauto|done].
Qed.

Lemma orphanStep_total_value P cb pc s xc xn ob wsx :
  Sound s -> conns s !! P = Some pc -> type pc = INPUT_VALUE ->
  targetConnection pc = Some xc -> conns s !! xc = Some xn ->
  blocks s !! sourceBlock_ xn = Some ob -> isShadow ob = false ->
  workspace ob = Some wsx -> is_Some (blocks s !! cb) ->
  returns (fun f => orphanStep canConnect f P cb pc s).
Proof using chk_typed.
  intros HS HP Hty Ht Hxn Hob Hord Hws Hcb.
  pose proof HS as (Hwf & Hsh & Hpar & Hfo).
  assert (isSuperior pc = true) as Hsup by (unfold isSuperior; by rewrite Hty).
  destruct (WF_occupant _ _ _ _ Hwf HP Hsup Ht)
    as (xn' & ob' & Hxn' & Hback & Hinf & Hopp & Hob' & Hplug & Hne & Hout & _).
  rewrite Hxn in Hxn'. injection Hxn' as <-.
  rewrite Hob in Hob'. injection Hob' as <-.
  unfold orphanStep, isConnected. rewrite Ht.
  assert (targetBlock s P = Ok (Some (sourceBlock_ xn))) as ->.
  { unfold targetBlock.
    by rewrite (getConn_Some _ _ _ HP), bind_ret_l, Ht, (getConn_Some _ _ _ Hxn). }
  simpl.
  set (X := sourceBlock_ xn). set (sA := setShadowDom P None s).
  assert (Sound sA) as HSA by by apply Sound_setShadowDom.
  pose proof HSA as (HwfA & HshA & HparA & HfoA).
  assert (conns sA !! xc = Some xn) as HxnA.
  { unfold sA, setShadowDom. by rewrite lookup_updConn, decide_False. }
  assert (conns sA !! P = Some (withShadowDom None pc)) as HPA.
  { unfold sA, setShadowDom. by rewrite lookup_updConn, decide_True, HP. }
  assert (getConnectionChecker sA xc = Ok wsx) as Hck.
  { by apply (getConnectionChecker_Some sA xc xn ob wsx). }
  rewrite (getBlock_Some sA X ob Hob). simpl. rewrite Hord.
  rewrite bool_decide_eq_true_2 by done. rewrite (Hout Hty). simpl.
  destruct (Forest_deep sA cb HfoA) as (h & Hd).
  apply returns_bind.
  - apply returns_bind.
    { apply (lastConnectionInRow_total h cb X sA ob xc wsx);
        [done|done|done|exact Hob|exact (Hout Hty)|done|exact Hcb|done]. }
    intros [slot|] (f0 & E0)%settles_at; [|apply returns_Ok].
    apply returns_bind; [|intros; apply returns_Ok].
    pose proof (lastConnectionInRow_walk canConnect _ sA _ _ _ _ _ _
                  Hob (Hout Hty) Hck E0) as Hwalk.
    apply rowWalk_Some in Hwalk as [Hgone _].
    eapply (connect_total_gone canConnect chk_typed xc slot sA xn wsx);
      try done.
    + intros ca Hca. rewrite HxnA in Hca. injection Hca as <-. by rewrite Hinf.
    + rewrite Hinf. intros cc q cq Hcc Htq Hq.
      rewrite HxnA in Hcc. injection Hcc as <-.
      rewrite Hback in Htq. injection Htq as <-.
      rewrite HPA in Hq. by injection Hq as <-.
  - intros [[orphan sd] t] (f0 & E0)%settles_at.
    apply bind_Ok in E0 as ([slot|] & _ & E0).
    { apply bind_Ok in E0 as (t' & _ & E0). injection E0 as <- <- <-.
      simpl. apply returns_Ok. }
    injection E0 as <- <- <-. simpl.
    apply returns_bind; [|intros; apply returns_Ok].
    apply returns_bind; [|intros; apply returns_Ok].
    eapply (disconnect_total canConnect P sA (withShadowDom None pc) xc);
      try done.
    intros p cp [-> | ->] Hp Hsp.
    + rewrite HPA in Hp. by injection Hp as <-.
    + rewrite HxnA in Hp. injection Hp as <-. congruence.
Qed.

(** An accepted [connect] of a free connection to a value input that holds
    an ordinary block with an output connection returns. *)
Lemma connect_total_value A B s P C pc cc xc xn ob ws wsx :
  Sound s -> (A = P /\ B = C) \/ (A = C /\ B = P) ->
  conns s !! P = Some pc -> conns s !! C = Some cc ->
  type pc = INPUT_VALUE -> targetConnection pc = Some xc -> xc <> C ->
  targetConnection cc = None ->
  conns s !! xc = Some xn -> blocks s !! sourceBlock_ xn = Some ob ->
  isShadow ob = false -> workspace ob = Some wsx ->
  getConnectionChecker s A = Ok ws -> canConnect ws s A B false = true ->
  returns (fun f => connect canConnect f A B s).
Proof using chk_typed.
  intros HS HAB HP HC Hty Ht Hne HtC Hxn Hob Hord Hwsx Hck Hacc.
  pose proof HS as (Hwf & _).
  assert (isSuperior pc = true) as Hsup by (unfold isSuperior; by rewrite Hty).
  assert (opposite (type pc) (type cc) = true) as Hopp.
  { destruct (chk_typed _ _ _ _ Hacc) as (ca & cb & HA & HB & Hopp).
    destruct HAB as [[-> ->]|[-> ->]]; simplify_eq; [done|].
    by rewrite opposite_sym. }
  pose proof (opposite_superior _ _ Hopp) as Hs. rewrite Hsup in Hs.
  assert (isSuperior cc = false) as Hinf by by destruct (isSuperior cc).
  assert (returns (fun f => connect_ canConnect f P C (openGroup s))) as Hgo.
  { eapply returns_step; [intros f; apply connect__phases|].
    rewrite (getConn_Some (openGroup s) P pc), (getConn_Some (openGroup s) C cc)
      by by rewrite conns_openGroup.
    simpl. unfold isConnected. rewrite HtC. simpl.
    rewrite (getConn_Some (openGroup s) P pc) by by rewrite conns_openGroup.
    simpl. apply returns_bind; [|intros; apply returns_Ok].
    eapply (orphanStep_total_value P (sourceBlock_ cc) pc (openGroup s)
              xc xn ob wsx); try done.
    - by apply Sound_openGroup.
    - by rewrite conns_openGroup.
    - by rewrite conns_openGroup.
    - by rewrite blocks_openGroup.
    - rewrite blocks_openGroup. destruct Hwf as [Hok _].
      specialize (Hok _ _ HC). unfold connOk in Hok.
      by destruct (blocks s !! sourceBlock_ cc). }
  eapply returns_step; [intros f; apply connect_unfold|].
  destruct HAB as [[-> ->]|[-> ->]].
  - rewrite (getConn_Some _ _ _ HP). simpl.
    rewrite bool_decide_eq_false_2 by congruence.
    rewrite Hck. simpl. rewrite Hacc, Hsup.
    apply returns_bind; [done|intros; apply returns_Ok].
  - rewrite (getConn_Some _ _ _ HC). simpl.
    rewrite bool_decide_eq_false_2 by congruence.
    rewrite Hck. simpl. rewrite Hacc, Hinf.
    apply returns_bind; [done|intros; apply returns_Ok].
Qed.

End Rehousing.

(** * The calls return *)

Lemma Sound_intro s : WF s -> Shaped s -> Parented s -> Forest s -> Sound s.
Proof. intros Hwf Hsh Hp Hf. exact (conj Hwf (conj Hsh (conj Hp Hf))). Qed.





(** C7.  An accepted [connect] that attaches [C] to the superior connection
    [P], called on either side, while [P] holds the placeholder block of
    [xc].  In a forest of well-shaped blocks the call ends: with enough fuel
    it returns or throws, and it returns when [C] is free or held by a
    connection without template.  When it returns, [P] and [C] are linked,
    the serialised placeholder is the template of [P], the placeholder block
    is out of its workspace and its connection [xc] without target, and no
    bump was scheduled for the placeholder. *)
Theorem C7_placeholder_displaced
    (canConnect : Workspace -> State -> ConnId -> ConnId -> bool -> bool)
    A B s P C pc cc xc xn ob ws :
  checkerTyped canConnect -> WF s ->
  (A = P /\ B = C) \/ (A = C /\ B = P) ->
  conns s !! P = Some pc -> conns s !! C = Some cc ->
  isSuperior pc = true -> targetConnection pc = Some xc -> xc <> C ->
  conns s !! xc = Some xn -> blocks s !! sourceBlock_ xn = Some ob ->
  isShadow ob = true ->
  getConnectionChecker s A = Ok ws -> canConnect ws s A B false = true ->
  (Shaped s -> Parented s -> Forest s ->
   halts (fun f => connect canConnect f A B s) /\
   (quietChild s C -> returns (fun f => connect canConnect f A B s))) /\
  (forall f s', connect canConnect f A B s = Ok s' ->
     linked s' P C /\
     template s' P = Some (blockToDom s (sourceBlock_ xn)) /\
     workspaceOf s' (sourceBlock_ xn) = None /\
     target s' xc = None /\
     exists new, timers s' = new ++ timers s /\
       forall t, t ∈ new -> bump_orphan t <> sourceBlock_ xn).
Proof.
  intros Hty Hwf HAB HP HC Hsup Ht Hne Hxn Hob Hsh Hws Hacc. split.
  - intros Hshp Hp Hf. pose proof (Sound_intro s Hwf Hshp Hp Hf) as HS.
    split; [by apply connect_halts|]. intros Hq.
    assert (opposite (type pc) (type cc) = true) as Hopp.
    { destruct (Hty _ _ _ _ Hacc) as (ca & cb & HA & HB & Hopp).
      destruct HAB as [[-> ->]|[-> ->]]; simplify_eq; [done|].
      by rewrite opposite_sym. }
    pose proof (opposite_superior _ _ Hopp) as Hs. rewrite Hsup in Hs.
    assert (isSuperior cc = false) as Hinf by by destruct (isSuperior cc).
    assert (occupantGone s P) as Hg.
    { intros pc' xc' HP' Ht'. simplify_eq. eauto. }
    destruct HAB as [[-> ->]|[-> ->]].
    + apply (connect_total_gone canConnect Hty P C s pc ws); try done.
      * intros ca Hca. simplify_eq. by rewrite Hsup.
      * by rewrite Hsup.
    + apply (connect_total_gone canConnect Hty C P s cc ws); try done.
      * intros ca Hca. simplify_eq. by rewrite Hinf.
      * by rewrite Hinf.
  - intros f s' H.
    by eapply (placeholder_displaced_returns canConnect f A B s s' P C).
Qed.

Lemma C7_placeholder_displaced_witness :
  returns (fun f => connect kindChecker f 2 0 shadowState) /\
  exists s', connect kindChecker 6 2 0 shadowState = Ok s' /\
    linked s' 0 2 /\ template s' 0 = Some (blockToDom shadowState 1) /\
    workspaceOf s' 1 = None /\ target s' 1 = None.
Proof.
  destruct (C7_placeholder_displaced kindChecker 2 0 shadowState 0 2
              (linkedConn 0 INPUT_VALUE 1 None) (freeConn 2 OUTPUT_VALUE) 1
              (linkedConn 1 OUTPUT_VALUE 0 None)
              (mkBlock (Some 1) None None [] (Some 0) (Some 0) true 5) 0)
    as [Hh Hr];
    [exact kindChecker_typed | apply WF_decide; vm_compute; reflexivity
    | right; split; reflexivity | reflexivity | reflexivity | reflexivity
    | reflexivity | lia | reflexivity | reflexivity | reflexivity
    | reflexivity | reflexivity |].
  split.
  - apply (Hh (Shaped_decide shadowState eq_refl)
              (Parented_decide shadowState eq_refl)
              (Forest_decide 2 shadowState eq_refl)).
    intros cc q cq Hcc Htq. vm_compute in Hcc. injection Hcc as <-.
    discriminate.
  - destruct (connect kindChecker 6 2 0 shadowState) as [s'| |] eqn:E;
      [|vm_compute in E; discriminate..].
    exists s'. split; [reflexivity|].
    destruct (Hr 6 s' E) as (Hl & Ht & Hw & Hx & _).
    split; [exact Hl|]. split; [exact Ht|]. split; [exact Hw|exact Hx].
Defined.

(** C3.  An accepted [connect] that attaches the free connection [C] to the
    value input [P], called on either side, while [P] holds the ordinary
    block of [xc].  If that block has no output connection the call throws
    the protocol violation.  From a well-formed arena, a call that returns
    has linked [P] and [C] and put the block of [C] under the block of [P];
    the search [lastConnectionInRow] ran from the block of [C] in the arena
    where the group is open and the template of [P] is cleared, and its
    result is the end of the walk [rowWalk]: down through ordinary blocks
    that have exactly one eligible input, to the first such input that is
    empty or holds a placeholder, failing at a block that has not exactly
    one.  When it found the input [slot], [xc] is linked to [slot] and its
    block is under the block of [slot]; when it failed, [xc] has no target
    and its block has no parent.  In a well-formed forest of well-shaped
    blocks the call returns, once it has enough fuel. *)
Theorem C3_orphan_rehoming
    (canConnect : Workspace -> State -> ConnId -> ConnId -> bool -> bool)
    f A B s P C pc cc xc xn ob ws wsx :
  checkerTyped canConnect ->
  (A = P /\ B = C) \/ (A = C /\ B = P) ->
  conns s !! P = Some pc -> conns s !! C = Some cc ->
  type pc = INPUT_VALUE -> targetConnection pc = Some xc -> xc <> C ->
  targetConnection cc = None ->
  conns s !! xc = Some xn -> blocks s !! sourceBlock_ xn = Some ob ->
  isShadow ob = false -> workspace ob = Some wsx ->
  getConnectionChecker s A = Ok ws -> canConnect ws s A B false = true ->
  (outputConnection ob = None ->
   connect canConnect (S (S f)) A B s = Throw OrphanNoOutput /\
   isProtocolViolation OrphanNoOutput = true) /\
  (WF s -> forall s', connect canConnect (S (S f)) A B s = Ok s' ->
   linked s' P C /\
   parentOf s' (sourceBlock_ cc) = Some (sourceBlock_ pc) /\
   exists r,
     lastConnectionInRow canConnect f (setShadowDom P None (openGroup s))
       (sourceBlock_ cc) (sourceBlock_ xn) = Ok r /\
     rowWalk canConnect (setShadowDom P None (openGroup s)) wsx xc
       (sourceBlock_ cc) r /\
     match r with
     | Some slot =>
         linked s' slot xc /\
         exists sn, conns s !! slot = Some sn /\
           parentOf s' (sourceBlock_ xn) = Some (sourceBlock_ sn)
     | None => target s' xc = None /\ parentOf s' (sourceBlock_ xn) = None
     end) /\
  (WF s -> Shaped s -> Parented s -> Forest s ->
   returns (fun g => connect canConnect g A B s)).
Proof.
  intros Hchk HAB HP HC Hty Ht Hne HtC Hxn Hob Hsh Hwsx Hws Hacc.
  destruct (orphan_rehoming_returns canConnect f A B s P C pc cc xc xn ob
              ws wsx) as [H1 H2]; try done.
  split; [exact H1|]. split; [exact H2|].
  intros Hwf Hshp Hp Hf.
  apply (connect_total_value canConnect Hchk A B s P C pc cc xc xn ob ws wsx);
    first [done|by apply Sound_intro].
Qed.

Lemma C3_orphan_rehoming_witness :
  returns (fun g => connect kindChecker g 2 0 rowState) /\
  exists s', connect kindChecker 8 2 0 rowState = Ok s' /\
    linked s' 0 2 /\ linked s' 3 1 /\ parentOf s' 1 = Some 2.
Proof.
  destruct (C3_orphan_rehoming kindChecker 6 2 0 rowState 0 2
              (linkedConn 0 INPUT_VALUE 1 None) (freeConn 2 OUTPUT_VALUE) 1
              (linkedConn 1 OUTPUT_VALUE 0 None)
              (mkBlock (Some 1) None None [] (Some 0) (Some 0) false 0) 0 0)
    as (_ & H & Hh);
    [exact kindChecker_typed | right; split; reflexivity | reflexivity
    | reflexivity | reflexivity | reflexivity | lia | reflexivity
    | reflexivity | reflexivity | reflexivity | reflexivity | reflexivity
    | reflexivity |].
  split.
  - apply Hh.
    + exact (WF_decide rowState eq_refl).
    + exact (Shaped_decide rowState eq_refl).
    + exact (Parented_decide rowState eq_refl).
    + exact (Forest_decide 2 rowState eq_refl).
  - assert (exists s', connect kindChecker 8 2 0 rowState = Ok s') as [s' E]
      by (eexists; vm_compute; reflexivity).
    exists s'. split; [exact E|].
    destruct (H (WF_decide rowState eq_refl) s' E)
      as (Hl & _ & r & Hrow & _ & Hm).
    vm_compute in Hrow. injection Hrow as <-.
    destruct Hm as (Hl2 & sn & Hsn & Hpar).
    vm_compute in Hsn. injection Hsn as <-.
    split; [exact Hl|]. split; [exact Hl2|exact Hpar].
Defined.



(** C10 (as amended).  [dispose] on a superior connection [P] that holds
    the block of [xc], in a well-formed arena of well-shaped blocks.  The
    call clears the template of [P], then destroys the block when it is a
    placeholder and unplugs it otherwise, then sets the flag.  In a forest
    the call returns, once it has enough fuel.  When it returns,
    [P] has no template and no target, [xc] has no target, [P] is disposed,
    a placeholder has left its workspace, an ordinary block has no parent
    and is still in its workspace, and the arena holds the same connections
    and blocks as before: nothing was respawned. *)
Theorem C10_dispose
    (canConnect : Workspace -> State -> ConnId -> ConnId -> bool -> bool)
    P s pc xc xn ob :
  checkerTyped canConnect -> WF s -> Shaped s ->
  conns s !! P = Some pc -> isSuperior pc = true ->
  targetConnection pc = Some xc ->
  conns s !! xc = Some xn -> blocks s !! sourceBlock_ xn = Some ob ->
  (Parented s -> Forest s -> returns (fun f => dispose canConnect f P s)) /\
  (forall f s', dispose canConnect (S f) P s = Ok s' ->
     dispose canConnect (S f) P s =
       (s1 ← (if isShadow ob
              then blockDispose canConnect f (sourceBlock_ xn)
                     (setShadowDom P None s)
              else blockUnplug canConnect f (sourceBlock_ xn)
                     (setShadowDom P None s));
        Ok (setDisposed P s1)) /\
     template s' P = None /\ target s' P = None /\ target s' xc = None /\
     disposedAt s' P = true /\
     (if isShadow ob then workspaceOf s' (sourceBlock_ xn) = None
      else parentOf s' (sourceBlock_ xn) = None /\
           workspaceOf s' (sourceBlock_ xn) = workspace ob) /\
     sameDom s s').
Proof.
  intros Hchk Hwf Hsh HP Hsup Ht Hxn Hob. split.
  - intros Hp Hf. apply dispose_total; [done|by apply Sound_intro|].
    exists pc. split; [done|by left].
  - intros f s' H.
    by apply (dispose_returns canConnect f P s s' pc xc xn ob).
Qed.

Lemma C10_dispose_witness :
  returns (fun f => dispose kindChecker f 0 shadowState) /\
  (exists s', dispose kindChecker 6 0 shadowState = Ok s' /\
     template s' 0 = None /\ target s' 0 = None /\ target s' 1 = None /\
     disposedAt s' 0 = true /\ workspaceOf s' 1 = None /\
     sameDom shadowState s') /\
  (exists s', dispose kindChecker 6 0 nestState = Ok s' /\
     template s' 0 = None /\ target s' 0 = None /\ target s' 1 = None /\
     disposedAt s' 0 = true /\ parentOf s' 1 = None /\ sameDom nestState s').
Proof.
  destruct (C10_dispose kindChecker 0 shadowState
              (linkedConn 0 INPUT_VALUE 1 None) 1
              (linkedConn 1 OUTPUT_VALUE 0 None)
              (mkBlock (Some 1) None None [] (Some 0) (Some 0) true 5)
              kindChecker_typed (WF_decide shadowState eq_refl)
              (Shaped_decide shadowState eq_refl)
              eq_refl eq_refl eq_refl eq_refl eq_refl) as [Hh Hr].
  split; [|split].
  - exact (Hh (Parented_decide shadowState eq_refl)
              (Forest_decide 2 shadowState eq_refl)).
  - destruct (dispose kindChecker 6 0 shadowState) as [s'| |] eqn:E;
      [|vm_compute in E; discriminate..].
    exists s'. split; [reflexivity|].
    destruct (Hr 5 s' E) as (_ & H1 & H2 & H3 & H4 & H5 & H6).
    repeat (split; [assumption|]). assumption.
  - destruct (dispose kindChecker 6 0 nestState) as [s'| |] eqn:E;
      [|vm_compute in E; discriminate..].
    exists s'. split; [reflexivity|].
    destruct (C10_dispose kindChecker 0 nestState
                (linkedConn 0 INPUT_VALUE 1 (Some (mkDom PlugOutput false 9))) 1
                (linkedConn 1 OUTPUT_VALUE 0 None)
                (mkBlock (Some 1) None None [Some 2] (Some 0) (Some 0) false 0)
                kindChecker_typed (WF_decide nestState eq_refl)
                (Shaped_decide nestState eq_refl)
                eq_refl eq_refl eq_refl eq_refl eq_refl) as [_ Hr'].
    destruct (Hr' 5 s' E) as (_ & H1 & H2 & H3 & H4 & [H5 _] & H6).
    repeat (split; [assumption|]). assumption.
Defined.

(** C2.  For a superior connection [A] and an inferior connection [B] that
    the checker accepts in either order, in an arena whose targets are
    mutual, [connect] gives the same result whichever side it is called on;
    superiority is the kind of the connection (INPUT_VALUE and
    NEXT_STATEMENT), and on either side the attach sequence [connect_] runs
    on [A] with [B] as child.  In a well-formed forest of well-shaped
    blocks, under a typed checker, the call ends on either side: with
    enough fuel it returns or throws. *)
Theorem C2_superiority_symmetry
    (canConnect : Workspace -> State -> ConnId -> ConnId -> bool -> bool)
    f A B s ca cb wsA wsB :
  reciprocal s ->
  conns s !! A = Some ca -> conns s !! B = Some cb ->
  isSuperior ca = true -> isSuperior cb = false ->
  getConnectionChecker s A = Ok wsA -> getConnectionChecker s B = Ok wsB ->
  canConnect wsA s A B false = true -> canConnect wsB s B A false = true ->
  connect canConnect f A B s = connect canConnect f B A s /\
  (isSuperior ca = true <->
     type ca = INPUT_VALUE \/ type ca = NEXT_STATEMENT) /\
  (target s A <> Some B ->
   forall r, r = connect canConnect (S f) A B s \/
             r = connect canConnect (S f) B A s ->
     r = (s2 ← connect_ canConnect f A B (openGroup s); Ok (closeGroup s s2))) /\
  (checkerTyped canConnect ->
   WF s -> Shaped s -> Parented s -> Forest s ->
   halts (fun g => connect canConnect g A B s) /\
   halts (fun g => connect canConnect g B A s)).
Proof.
  intros Hrec HA HB HsA HsB HwA HwB HaccA HaccB.
  destruct (superiority_symmetry_returns canConnect f A B s ca cb wsA wsB)
    as (H1 & H2 & H3); try done.
  split; [exact H1|]. split; [exact H2|]. split; [exact H3|].
  intros Hty Hwf Hsh Hp Hf.
  split; (apply connect_halts; [done|by apply Sound_intro]).
Qed.

Lemma C2_superiority_symmetry_witness :
  connect kindChecker 3 0 1 pairState = connect kindChecker 3 1 0 pairState /\
  (exists s', connect kindChecker 3 0 1 pairState = Ok s' /\ linked s' 0 1) /\
  halts (fun g => connect kindChecker g 0 1 pairState) /\
  halts (fun g => connect kindChecker g 1 0 pairState).
Proof.
  assert (reciprocal pairState) as Hrec
    by (apply WF_reciprocal, WF_decide; vm_compute; reflexivity).
  destruct (C2_superiority_symmetry kindChecker 3 0 1 pairState
              (freeConn 0 INPUT_VALUE) (freeConn 1 OUTPUT_VALUE) 0 0
              Hrec eq_refl eq_refl eq_refl eq_refl eq_refl eq_refl
              eq_refl eq_refl) as (H1 & _ & _ & Hh).
  split; [exact H1|]. split.
  - eexists. split; [vm_compute; reflexivity|].
    split; vm_compute; reflexivity.
  - apply Hh.
    + exact kindChecker_typed.
    + exact (WF_decide pairState eq_refl).
    + exact (Shaped_decide pairState eq_refl).
    + exact (Parented_decide pairState eq_refl).
    + exact (Forest_decide 1 pairState eq_refl).
Defined.

(** C6 (as amended).  [setCheck] on a connection of the arena.  A single
    tag becomes a one-element list.  With null (or the empty string) the
    tags are cleared and nothing else happens: the link is not validated.
    With any other argument the tags are stored; a free connection is left
    at that; for a linked one the checker of its workspace is asked about
    the pair, in the arena that holds the new tags; if it accepts nothing
    else happens; if it refuses, the call is [unplug] on the child block of
    the pair, and from a well-formed arena a call that returns has cleared
    the target of the child's connection and the parent of the child block,
    the parent's connection is free or holds a respawned placeholder, and
    the new tags are in place.  The call ends in every arena: with enough
    fuel it returns or throws. *)
Theorem C6_setCheck
    (canConnect : Workspace -> State -> ConnId -> ConnId -> bool -> bool)
    f this check s cn :
  conns s !! this = Some cn ->
  (forall t, toArray (CheckString t) = [t]) /\
  (truthy check = false ->
   setCheck canConnect f this check s = Ok (setCheckField this None s)) /\
  (truthy check = true ->
   let s1 := setCheckField this (Some (toArray check)) s in
   tags s1 this = Some (toArray check) /\
   (targetConnection cn = None ->
    setCheck canConnect f this check s = Ok s1) /\
   (forall t tn ws,
      targetConnection cn = Some t -> conns s !! t = Some tn ->
      getConnectionChecker s this = Ok ws ->
      (canConnect ws s1 this t false = true ->
       setCheck canConnect f this check s = Ok s1) /\
      (canConnect ws s1 this t false = false ->
       let child := if isSuperior cn then sourceBlock_ tn else sourceBlock_ cn in
       let p := if isSuperior cn then this else t in
       let i := if isSuperior cn then t else this in
       setCheck canConnect f this check s = blockUnplug canConnect f child s1 /\
       (checkerTyped canConnect -> WF s ->
        forall s', setCheck canConnect f this check s = Ok s' ->
          target s' i = None /\ parentOf s' child = None /\
          (target s' p = None \/
           exists n, conns s !! n = None /\ target s' p = Some n) /\
          tags s' this = Some (toArray check))))) /\
  halts (fun g => setCheck canConnect g this check s).
Proof.
  intros Hc.
  destruct (setCheck_returns canConnect f this check s cn Hc) as (H1 & H2 & H3).
  split; [exact H1|]. split; [exact H2|]. split; [exact H3|].
  apply setCheck_halts.
Qed.

Lemma C6_setCheck_witness :
  halts (fun g => setCheck refuseAll g 0 (CheckString "Number") valueLink) /\
  exists s', setCheck refuseAll 5 0 (CheckString "Number") valueLink = Ok s' /\
    target s' 1 = None /\ parentOf s' 1 = None /\
    tags s' 0 = Some ["Number"%string].
Proof.
  split.
  - exact (proj2 (proj2 (proj2 (C6_setCheck refuseAll 5 0
             (CheckString "Number") valueLink
             (linkedConn 0 INPUT_VALUE 1 None) eq_refl)))).
  - destruct (setCheck refuseAll 5 0 (CheckString "Number") valueLink)
      as [s'| |] eqn:E; [|vm_compute in E; discriminate..].
    exists s'. split; [reflexivity|].
    destruct (proj1 (proj2 (proj2 (C6_setCheck refuseAll 5 0
                (CheckString "Number") valueLink
                (linkedConn 0 INPUT_VALUE 1 None) eq_refl))) eq_refl)
      as (_ & _ & H).
    destruct (H 1 (linkedConn 1 OUTPUT_VALUE 0 None) 0 eq_refl eq_refl eq_refl)
      as [_ H'].
    destruct (H' eq_refl) as [_ H''].
    destruct (H'' (fun _ _ _ _ (K : false = true) =>
                     False_ind _ (Bool.diff_false_true K))
                (WF_decide valueLink eq_refl) s' E) as (Ht & Hp & _ & Hk).
    split; [exact Ht|]. split; [exact Hp|exact Hk].
Defined.

(** * Further properties of the protocol *)

(** ** What no call changes *)



(** [disconnect] and [dispose] only tear down: in a well-formed arena a
    connection keeps its target, loses it, or (after a respawn) holds a
    connection that did not exist before; it keeps its template or loses
    it; a block keeps its parent or loses it; and no bump is scheduled. *)
Theorem detaching_only_tears
    (canConnect : Workspace -> State -> ConnId -> ConnId -> bool -> bool)
    f a s s' :
  checkerTyped canConnect -> WF s ->
  disconnect canConnect f a s = Ok s' \/ dispose canConnect f a s = Ok s' ->
  (forall c cn, conns s !! c = Some cn ->
     exists cn', conns s' !! c = Some cn' /\
       (targetConnection cn' = targetConnection cn \/
        targetConnection cn' = None \/
        (is_Some (targetConnection cn) /\
         exists n, targetConnection cn' = Some n /\ conns s !! n = None)) /\
       (getShadowDom cn' = getShadowDom cn \/ getShadowDom cn' = None)) /\
  (forall x blk, blocks s !! x = Some blk ->
     exists blk', blocks s' !! x = Some blk' /\
       (parentBlock_ blk' = parentBlock_ blk \/ parentBlock_ blk' = None)) /\
  timers s' = timers s.
Proof.
  intros Hty Hwf H.
  assert (teardown s s') as (Hc & Hb & Ht).
  { destruct H as [H|H].
    - by destruct (disconnect_teardown canConnect Hty _ _ _ _ Hwf H).
    - destruct (dispose_teardown canConnect Hty f) as [K _].
      by destruct (K _ _ _ Hwf H). }
  split; [|split; [exact Hb|exact Ht]].
  intros c cn Hcn. destruct (Hc _ _ Hcn) as (cn' & Hcn' & _ & _ & K1 & K2).
  exists cn'. by repeat split.
Qed.

Lemma detaching_only_tears_witness :
  exists s', disconnect kindChecker 5 0 stackState = Ok s' /\
    timers s' = timers stackState.
Proof.
  destruct (disconnect kindChecker 5 0 stackState) as [s'| |] eqn:E;
    [|vm_compute in E; discriminate..].
  exists s'. split; [reflexivity|].
  exact (proj2 (proj2 (detaching_only_tears kindChecker 5 0 stackState s'
                         kindChecker_typed (WF_decide stackState eq_refl)
                         (or_introl E)))).
Defined.

(** [disconnect] and [dispose] keep a well-formed forest: targets stay
    mutual, parent links keep following the connections, and the walk up
    the parent links still ends from every block.  The checker only has to
    be typed. *)
Theorem detaching_keeps_forest
    (canConnect : Workspace -> State -> ConnId -> ConnId -> bool -> bool)
    f a s s' :
  checkerTyped canConnect -> WF s -> Parented s -> Forest s ->
  disconnect canConnect f a s = Ok s' \/ dispose canConnect f a s = Ok s' ->
  WF s' /\ reciprocal s' /\ Parented s' /\ Forest s'.
Proof.
  intros Hty Hwf Hp Hf H.
  assert (WF s' /\ Grove s') as (Hwf' & Hp' & Hf').
  { destruct H as [H|H].
    - split; [by destruct (disconnect_teardown canConnect Hty _ _ _ _ Hwf H)|].
      by eapply (disconnect_Grove canConnect Hty).
    - destruct (dispose_teardown canConnect Hty f) as [K _].
      destruct (dispose_Grove canConnect Hty f) as [G _].
      split; [by destruct (K _ _ _ Hwf H)|]. by eapply G. }
  split; [done|]. split; [by apply WF_reciprocal|done].
Qed.

Lemma detaching_keeps_forest_witness :
  exists s', dispose kindChecker 6 0 nestState = Ok s' /\
    WF s' /\ reciprocal s' /\ Parented s' /\ Forest s'.
Proof.
  destruct (dispose kindChecker 6 0 nestState) as [s'| |] eqn:E;
    [|vm_compute in E; discriminate..].
  exists s'. split; [reflexivity|].
  exact (detaching_keeps_forest kindChecker 6 0 nestState s'
           kindChecker_typed (WF_decide nestState eq_refl)
           (Parented_decide nestState eq_refl)
           (Forest_decide 3 nestState eq_refl) (or_intror E)).
Defined.

(** Every call keeps the blocks well shaped: each slot of each block,
    those of a respawned placeholder included, holds a connection of the
    arena that belongs to the block and has the kind of the slot. *)
Theorem calls_keep_shape
    (canConnect : Workspace -> State -> ConnId -> ConnId -> bool -> bool)
    f a b s s' :
  Shaped s ->
  connect canConnect f a b s = Ok s' \/ disconnect canConnect f a s = Ok s' \/
  dispose canConnect f a s = Ok s' ->
  Shaped s'.
Proof.
  intros Hsh H.
  destruct (shapeKept_closed canConnect f) as (Kc & _ & Kd & _ & Kx & _).
  assert (shapeKept s s') as [_ K].
  { destruct H as [H|[H|H]]; eauto. }
  auto.
Qed.

Lemma calls_keep_shape_witness :
  exists s', disconnect kindChecker 5 0 stackState = Ok s' /\ Shaped s' /\
    is_Some (blocks s' !! 2) /\ blocks stackState !! 2 = None.
Proof.
  destruct (disconnect kindChecker 5 0 stackState) as [s'| |] eqn:E;
    [|vm_compute in E; discriminate..].
  exists s'. split; [reflexivity|]. split.
  - exact (calls_keep_shape kindChecker 5 0 0 stackState s'
             (Shaped_decide stackState eq_refl) (or_intror (or_introl E))).
  - vm_compute in E. injection E as <-. split; [|reflexivity].
    vm_compute. eauto.
Defined.

(** ** The block at the other end *)

(** [targetBlock] is null exactly on a free connection; in a well-formed
    arena whose parent links follow the connections, the block a superior
    connection holds has the connection's block as its parent. *)
Theorem targetBlock_is_child s c cn :
  conns s !! c = Some cn ->
  (targetBlock s c = Ok None <-> targetConnection cn = None) /\
  (WF s -> Parented s -> isSuperior cn = true ->
   forall nb, targetBlock s c = Ok (Some nb) ->
     parentOf s nb = Some (sourceBlock_ cn)).
Proof.
  intros Hc. split.
  - unfold targetBlock. rewrite (getConn_Some _ _ _ Hc). simpl.
    destruct (targetConnection cn) as [t|]; [|done].
    split; [|done]. by destruct (getConn s t).
  - intros Hwf Hp Hsup nb H. by eapply child_of_target.
Qed.

Lemma targetBlock_is_child_witness :
  targetBlock nestState 2 = Ok (Some 2) /\ parentOf nestState 2 = Some 1.
Proof.
  split; [reflexivity|].
  exact (proj2 (targetBlock_is_child nestState 2
                  (linkedConn 1 INPUT_VALUE 3 None) eq_refl)
           (WF_decide nestState eq_refl) (Parented_decide nestState eq_refl)
           eq_refl 2 eq_refl).
Defined.

(** ** Bumps *)

(** Every bump that a [connect] schedules, in any of its nested calls, is
    for an ordinary block of the arena: a displaced placeholder is never
    bumped.  The timers already pending are left in place. *)
Theorem bumps_are_for_ordinary_blocks
    (canConnect : Workspace -> State -> ConnId -> ConnId -> bool -> bool)
    f a b s s' :
  connect canConnect f a b s = Ok s' ->
  exists new, timers s' = new ++ timers s /\
    forall t, t ∈ new ->
      exists blk, blocks s' !! bump_orphan t = Some blk /\
                  isShadow blk = false.
Proof.
  intros H. destruct (bumpsOrdinary_closed canConnect f) as (Kc & _).
  by destruct (Kc _ _ _ _ H) as [_ ?].
Qed.

Lemma bumps_are_for_ordinary_blocks_witness :
  exists s', connect kindChecker 6 2 0 orphanState = Ok s' /\
    exists t, timers s' = [t] /\ bump_orphan t = 1 /\
      exists blk, blocks s' !! 1 = Some blk /\ isShadow blk = false.
Proof.
  destruct (connect kindChecker 6 2 0 orphanState) as [s'| |] eqn:E;
    [|vm_compute in E; discriminate..].
  exists s'. split; [reflexivity|].
  destruct (bumps_are_for_ordinary_blocks kindChecker 6 2 0 orphanState s' E)
    as (new & Hnew & Hord).
  assert (timers s' = [mkBump 1 0 (Some 0)]) as Ht
    by (vm_compute in E; injection E as <-; reflexivity).
  exists (mkBump 1 0 (Some 0)). split; [exact Ht|]. split; [reflexivity|].
  apply (Hord (mkBump 1 0 (Some 0))).
  rewrite Ht in Hnew. simpl in Hnew. rewrite app_nil_r in Hnew.
  rewrite <- Hnew. by left.
Defined.

(** ** Moving a block *)

Section Moving.

Variable canConnect : Workspace -> State -> ConnId -> ConnId -> bool -> bool.
Hypothesis chk_typed : checkerTyped canConnect.


End Moving.


(** ** Why [disconnect] throws *)

Section Throws.

Variable canConnect : Workspace -> State -> ConnId -> ConnId -> bool -> bool.

Lemma getConn_None s c : conns s !! c = None -> getConn s c = Throw TypeError.
Proof. unfold getConn. by intros ->. Qed.

Lemma connect_free_no_throw f A B s ca cb ws e :
  conns s !! A = Some ca -> conns s !! B = Some cb ->
  targetConnection ca = None -> targetConnection cb = None ->
  getConnectionChecker s A = Ok ws ->
  connect canConnect f A B s <> Throw e.
Proof.
  intros HA HB HtA HtB Hws.
  pose proof Hws as Hws'. unfold getConnectionChecker in Hws'.
  rewrite (getConn_Some _ _ _ HA), bind_ret_l in Hws'.
  apply bind_Ok in Hws' as (blk & Hb & Hw).
  apply orThrow_Ok in Hb. apply orThrow_Ok in Hw.
  destruct f as [|[|f]]; [done| |].
  - rewrite connect_unfold, (getConn_Some _ _ _ HA), bind_ret_l, HtA.
    rewrite bool_decide_eq_false_2 by done. rewrite Hws, bind_ret_l.
    destruct (canConnect ws s A B false); [|done].
    by destruct (isSuperior ca).
  - by rewrite (connect_free canConnect f A B s ca cb blk ws).
Qed.

Lemma respawn_throws f p s cn e :
  conns s !! p = Some cn -> targetConnection cn = None ->
  respawnShadow_ canConnect f p s = Throw e ->
  (e = TypeError /\ blocks s !! sourceBlock_ cn = None) \/
  (e = ChildNoOutputOrPrevious /\ recordUndo (events s) = true /\
   exists d, shadowDom_ cn = Some d /\ dom_plug d = PlugNone).
Proof.
  intros Hp Ht H. destruct f as [|f]; [done|].
  rewrite respawnShadow__unfold, (getConn_Some _ _ _ Hp), bind_ret_l in H.
  destruct (blocks s !! sourceBlock_ cn) as [pb|] eqn:Hpb;
    [|left; unfold getBlock in H; rewrite Hpb in H; simpl in H;
      by injection H as <-].
  rewrite (getBlock_Some _ _ _ Hpb), bind_ret_l in H. right.
  destruct (workspace pb) as [ws|] eqn:Hw; [|done].
  unfold getShadowDom in H.
  destruct (shadowDom_ cn) as [d|] eqn:Hd; [|done].
  destruct (recordUndo (events s)) eqn:Hru; [|done].
  destruct (domToBlock d ws s) as [s1 B] eqn:Edom.
  apply domToBlock_spec in Edom
    as (-> & _ & _ & Hc & Hb & _ & o & pv & n & Hnew & _ & _ & Hout & Hprev
        & _ & Ho & Hpv).
  rewrite (getBlock_Some _ _ _ Hnew) in H. simpl in H.
  assert (getConnectionChecker s1 p = Ok ws) as Hws.
  { eapply getConnectionChecker_Some; [by apply Hc|by apply Hb|done]. }
  destruct o as [o|].
  { exfalso. revert H.
    eapply connect_free_no_throw; [by apply Hc|by apply Ho|done|done|done]. }
  destruct pv as [pv|].
  { exfalso. revert H.
    eapply connect_free_no_throw; [by apply Hc|by apply Hpv|done|done|done]. }
  injection H as <-. split; [done|]. split; [done|]. exists d. split; [done|].
  destruct (dom_plug d); [done| |].
  - by destruct Hout.
  - by destruct Hprev.
Qed.


End Throws.


(** ** Disconnecting and connecting again *)

Lemma withTarget_back t t' cn :
  targetConnection cn = t -> withTarget t (withTarget t' cn) = cn.
Proof. destruct cn. simpl. by intros ->. Qed.

Lemma withParent_back p p' blk :
  parentBlock_ blk = p -> withParent p (withParent p' blk) = blk.
Proof. destruct blk. simpl. by intros ->. Qed.

(** Severing the pair of [p] and [i] and linking it again gives the
    connections, blocks and timers back. *)
Lemma relink_restores s c o p i cp ci blk :
  (c = p /\ o = i) \/ (c = i /\ o = p) -> p <> i ->
  conns s !! p = Some cp -> conns s !! i = Some ci ->
  targetConnection cp = Some i -> targetConnection ci = Some p ->
  blocks s !! sourceBlock_ ci = Some blk ->
  parentBlock_ blk = Some (sourceBlock_ cp) ->
  forall s1, s1 = closeGroup s (unlinkState c o (sourceBlock_ ci) (openGroup s)) ->
  forall s2, s2 = closeGroup s1
               (linkState p i (sourceBlock_ cp) (sourceBlock_ ci) (openGroup s1)) ->
  conns s2 = conns s /\ blocks s2 = blocks s /\ timers s2 = timers s.
Proof.
  intros Hco Hne Hp Hi Htp Hti Hblk Hpar s1 -> s2 ->.
  split; [|split].
  - apply map_eq. intros x.
    rewrite conns_closeGroup, conns_linkState, !conns_openGroup.
    rewrite !conns_closeGroup, !conns_unlinkState, !conns_openGroup.
    rewrite (decide_False (P := p = i)) by done.
    destruct Hco as [[-> ->]|[-> ->]].
    + rewrite (decide_False (P := i = p)) by done.
      rewrite (decide_False (P := p = i)) by done.
      rewrite (decide_True (P := i = i)) by done.
      rewrite (decide_True (P := p = p)) by done.
      rewrite Hp, Hi. simpl.
      destruct (decide (i = x)) as [<-|]; [by rewrite withTarget_back|].
      destruct (decide (p = x)) as [<-|]; [by rewrite withTarget_back|].
      done.
    + rewrite (decide_False (P := p = i)) by done.
      rewrite (decide_True (P := i = i)) by done.
      rewrite (decide_False (P := i = p)) by done.
      rewrite (decide_True (P := p = p)) by done.
      rewrite Hp, Hi. simpl.
      destruct (decide (i = x)) as [<-|]; [by rewrite withTarget_back|].
      destruct (decide (p = x)) as [<-|]; [by rewrite withTarget_back|].
      done.
  - apply map_eq. intros x.
    rewrite blocks_closeGroup, blocks_linkState, blocks_openGroup.
    rewrite !blocks_closeGroup, !blocks_unlinkState, blocks_openGroup.
    rewrite (decide_True (P := sourceBlock_ ci = sourceBlock_ ci)) by done.
    rewrite Hblk. simpl.
    destruct (decide (sourceBlock_ ci = x)) as [<-|]; [|done].
    by rewrite withParent_back.
  - by rewrite timers_closeGroup, timers_linkState, timers_openGroup,
      timers_closeGroup, timers_unlinkState, timers_openGroup.
Qed.

Section RoundTrip.

Variable canConnect : Workspace -> State -> ConnId -> ConnId -> bool -> bool.

(** In a well-formed arena whose parent links follow the connections,
    [disconnect] of a linked pair without templates returns and leaves both
    ends free; a [connect] of the two ends that the checker accepts, called
    on either side, then returns and gives every connection and every block
    back as it was, and no bump is scheduled. *)
Theorem disconnect_connect_round_trip f c o s :
  WF s -> Parented s -> target s c = Some o ->
  template s c = None -> template s o = None ->
  exists s1, disconnect canConnect (S (S f)) c s = Ok s1 /\
    target s1 c = None /\ target s1 o = None /\
    forall x y ws, (x = c /\ y = o) \/ (x = o /\ y = c) ->
      getConnectionChecker s1 x = Ok ws ->
      canConnect ws s1 x y false = true ->
      exists s2, connect canConnect (S (S f)) x y s1 = Ok s2 /\
        conns s2 = conns s /\ blocks s2 = blocks s /\ timers s2 = timers s.
Proof.
  intros Hwf Hpar Ht Hsc Hso. pose proof Hwf as [Hok Hlk].
  unfold target in Ht. destruct (conns s !! c) as [cn|] eqn:Hc; [|done].
  simpl in Ht.
  destruct (linkOk_elim _ _ _ _ (Hlk _ _ Hc) Ht) as (on & Ho & Hback & Hopp).
  unfold template in Hsc, Hso. rewrite Hc in Hsc. rewrite Ho in Hso.
  simpl in Hsc, Hso.
  assert (c <> o) as Hne.
  { intros <-. rewrite Hc in Ho. injection Ho as <-.
    by rewrite opposite_irrefl in Hopp. }
  pose proof (opposite_superior _ _ Hopp) as Hs.
  set (p := if isSuperior cn then c else o).
  set (i := if isSuperior cn then o else c).
  set (cp := if isSuperior cn then cn else on).
  set (ci := if isSuperior cn then on else cn).
  assert (conns s !! p = Some cp /\ conns s !! i = Some ci /\
          isSuperior cp = true /\ isSuperior ci = false /\
          targetConnection cp = Some i /\ targetConnection ci = Some p /\
          p <> i /\ shadowDom_ cp = None /\
          ((c = p /\ o = i) \/ (c = i /\ o = p)) /\
          (p, cp, sourceBlock_ ci) =
            (if isSuperior cn then (c, cn, sourceBlock_ on)
             else (o, on, sourceBlock_ cn)))
    as (Hp & Hi & Hsp & Hsi & Htp & Hti & Hpi & Hsd & Hco & Hpair).
  { unfold p, i, cp, ci. destruct (isSuperior cn) eqn:E; simpl in Hs.
    - repeat split; try done. + by apply negb_true_iff. + by left.
    - repeat split; try done. + symmetry in Hs. by apply negb_false_iff.
      + by right. }
  clearbody p i cp ci.
  assert (exists pb, blocks s !! sourceBlock_ cp = Some pb) as [pb Hpb].
  { specialize (Hok _ _ Hp). unfold connOk in Hok.
    destruct (blocks s !! sourceBlock_ cp); [eauto|done]. }
  assert (exists blk, blocks s !! sourceBlock_ ci = Some blk /\
            parentBlock_ blk = Some (sourceBlock_ cp)) as (blk & Hblk & Hpb').
  { destruct Hpar as [Hpo _]. specialize (Hpo _ _ Hi Hsi).
    rewrite Hti, Hp in Hpo. unfold parentOf in Hpo.
    destruct (blocks s !! sourceBlock_ ci) as [blk|]; [eauto|done]. }
  set (s1 := closeGroup s (unlinkState c o (sourceBlock_ ci) (openGroup s))).
  assert (forall x, conns s1 !! x =
            if decide (x = p \/ x = i) then withTarget None <$> conns s !! x
            else conns s !! x) as Hs1.
  { intros x. unfold s1.
    rewrite conns_closeGroup, conns_unlinkState, !conns_openGroup.
    rewrite (decide_False (P := o = c)) by done.
    destruct (decide (c = x)) as [<-|];
      [by rewrite decide_True by intuition congruence|].
    destruct (decide (o = x)) as [<-|];
      [by rewrite decide_True by intuition congruence|].
    by rewrite decide_False by intuition congruence. }
  assert (conns s1 !! p = Some (withTarget None cp)) as Hp1.
  { rewrite Hs1, decide_True by auto. by rewrite Hp. }
  assert (conns s1 !! i = Some (withTarget None ci)) as Hi1.
  { rewrite Hs1, decide_True by auto. by rewrite Hi. }
  exists s1. split.
  { by apply (disconnect_plain canConnect f c o s cn on p cp (sourceBlock_ ci) pb). }
  split.
  { unfold target. destruct Hco as [[-> _]|[-> _]].
    - by rewrite Hp1. - by rewrite Hi1. }
  split.
  { unfold target. destruct Hco as [[_ ->]|[_ ->]].
    - by rewrite Hi1. - by rewrite Hp1. }
  intros x y ws Hxy Hws Hacc.
  assert ((x = p /\ y = i) \/ (x = i /\ y = p)) as Hxy'.
  { destruct Hco as [[-> ->]|[-> ->]], Hxy as [[-> ->]|[-> ->]]; auto. }
  clear Hxy.
  exists (closeGroup s1
            (linkState p i (sourceBlock_ cp) (sourceBlock_ ci) (openGroup s1))).
  split.
  - destruct Hxy' as [[-> ->]|[-> ->]].
    + unfold getConnectionChecker in Hws.
      rewrite (getConn_Some _ _ _ Hp1), bind_ret_l in Hws.
      apply bind_Ok in Hws as (b1 & Hb1 & Hw1).
      apply orThrow_Ok in Hb1. apply orThrow_Ok in Hw1.
      rewrite (connect_free canConnect f p i s1 _ _ b1 ws Hp1 Hi1) by done.
      rewrite Hacc.
      change (isSuperior (withTarget None cp)) with (isSuperior cp).
      rewrite Hsp. reflexivity.
    + unfold getConnectionChecker in Hws.
      rewrite (getConn_Some _ _ _ Hi1), bind_ret_l in Hws.
      apply bind_Ok in Hws as (b1 & Hb1 & Hw1).
      apply orThrow_Ok in Hb1. apply orThrow_Ok in Hw1.
      rewrite (connect_free canConnect f i p s1 _ _ b1 ws Hi1 Hp1) by done.
      rewrite Hacc.
      change (isSuperior (withTarget None ci)) with (isSuperior ci).
      rewrite Hsi. reflexivity.
  - by apply (relink_restores s c o p i cp ci blk Hco Hpi Hp Hi Htp Hti Hblk
                Hpb' s1 eq_refl).
Qed.

End RoundTrip.

Lemma disconnect_connect_round_trip_witness :
  exists s1, disconnect kindChecker 3 1 moveState = Ok s1 /\
    exists s2, connect kindChecker 3 0 1 s1 = Ok s2 /\
      conns s2 = conns moveState /\ blocks s2 = blocks moveState.
Proof.
  destruct (disconnect_connect_round_trip kindChecker 1 1 0 moveState
              (WF_decide moveState eq_refl) (Parented_decide moveState eq_refl)
              eq_refl eq_refl eq_refl) as (s1 & Hd & _ & _ & Hback).
  exists s1. split; [exact Hd|].
  assert (s1 = closeGroup moveState
                 (unlinkState 1 0 1 (openGroup moveState))) as Hs1.
  { vm_compute in Hd. injection Hd as <-. vm_compute. reflexivity. }
  destruct (Hback 0 1 0 (or_intror (conj eq_refl eq_refl))) as (s2 & Hc & K1 & K2 & _).
  - rewrite Hs1. vm_compute. reflexivity.
  - rewrite Hs1. vm_compute. reflexivity.
  - exists s2. by repeat split.
Defined.

(** ** The parent input of a connection *)

Lemma parentInputLoop_spec this inputs idx :
  match parentInputLoop this inputs idx with
  | Some k => exists j, k = idx + j /\ inputs !! j = Some (Some this) /\
                forall j', j' < j -> inputs !! j' <> Some (Some this)
  | None => forall j, inputs !! j <> Some (Some this)
  end.
Proof.
  revert idx. induction inputs as [|i inputs IH]; intros idx; simpl.
  { intros j. by rewrite lookup_nil. }
  case_bool_decide as Hi.
  - exists 0. split; [lia|]. split; [by rewrite Hi|]. intros j' Hj'. lia.
  - specialize (IH (S idx)).
    destruct (parentInputLoop this inputs (S idx)) as [k|].
    + destruct IH as (j & -> & Hj & Hfirst). exists (S j).
      split; [lia|]. split; [done|].
      intros [|j'] Hj'; simpl; [congruence|]. apply Hfirst. lia.
    + intros [|j]; simpl; [congruence|apply IH].
Qed.

(** [getParentInput] on a connection of the arena returns the first input
    of the source block that holds this very connection, and none when no
    input holds it; in an arena of well-shaped blocks an output or previous
    connection has no parent input. *)
Theorem getParentInput_first s c cn blk :
  conns s !! c = Some cn -> blocks s !! sourceBlock_ cn = Some blk ->
  exists r, getParentInput s c = Ok r /\
    match r with
    | Some i => inputList blk !! i = Some (Some c) /\
                forall j, j < i -> inputList blk !! j <> Some (Some c)
    | None => forall j, inputList blk !! j <> Some (Some c)
    end /\
    (Shaped s -> isSuperior cn = false -> r = None).
Proof.
  intros Hc Hb. unfold getParentInput.
  rewrite (getConn_Some _ _ _ Hc), bind_ret_l.
  rewrite (getBlock_Some _ _ _ Hb), bind_ret_l.
  eexists. split; [reflexivity|].
  pose proof (parentInputLoop_spec c (inputList blk) 0) as Hspec.
  destruct (parentInputLoop c (inputList blk) 0) as [k|].
  - destruct Hspec as (j & -> & Hj & Hfirst). simpl. split; [done|].
    intros Hsh Hinf. exfalso.
    destruct (Hsh _ _ Hb) as (_ & _ & _ & S4).
    rewrite Forall_lookup in S4. specialize (S4 _ _ Hj). simpl in S4.
    rewrite Hc in S4. destruct S4 as [_ Hk]. unfold isSuperior in Hinf.
    apply elem_of_cons in Hk as [Hk|Hk%list_elem_of_singleton];
      rewrite Hk in Hinf; done.
  - split; [done|]. done.
Qed.

Lemma getParentInput_first_witness :
  getParentInput nestState 2 = Ok (Some 0) /\
  getParentInput nestState 1 = Ok None.
Proof.
  destruct (getParentInput_first nestState 2 (linkedConn 1 INPUT_VALUE 3 None)
              (mkBlock (Some 1) None None [Some 2] (Some 0) (Some 0) false 0)
              eq_refl eq_refl) as (r & Hr & _).
  destruct (getParentInput_first nestState 1 (linkedConn 1 OUTPUT_VALUE 0 None)
              (mkBlock (Some 1) None None [Some 2] (Some 0) (Some 0) false 0)
              eq_refl eq_refl) as (r' & Hr' & _ & Hnone).
  rewrite (Hnone (Shaped_decide nestState eq_refl) eq_refl) in Hr'.
  split; [|exact Hr'].
  rewrite Hr. vm_compute in Hr. injection Hr as <-. reflexivity.
Defined.

(** ** The search for a new home *)

Section Searching.

Variable canConnect : Workspace -> State -> ConnId -> ConnId -> bool -> bool.

Lemma singleConnectionLoop_eq s out ws b kinds inputs acc :
  getConnectionChecker s out = Ok ws -> Forall (slotOk s b kinds) inputs ->
  singleConnectionLoop canConnect s (Some out) inputs acc =
  Ok (match acc, List.filter (eligible canConnect s ws out) inputs with
      | None, [] => None
      | None, [i] => i
      | None, _ => None
      | Some a, [] => Some a
      | Some _, _ => None
      end).
Proof.
  intros Hck Hall. revert acc.
  induction Hall as [|i inputs Hi _ IH]; intros acc; [by destruct acc|].
  simpl. rewrite Hck. simpl.
  assert ((match i with
           | Some tc => tcn ← getConn s tc;
                        Ok (bool_decide (type tcn = INPUT_VALUE)
                            && canConnect ws s out tc false)
           | None => Ok false
           end) = Ok (eligible canConnect s ws out i)) as ->.
  { destruct i as [tc|]; simpl; [|done]. simpl in Hi.
    destruct (conns s !! tc) as [tcn|] eqn:Htc; [|done].
    by rewrite (getConn_Some _ _ _ Htc). }
  simpl. destruct (eligible canConnect s ws out i) eqn:He.
  - destruct acc as [a|]; [done|]. rewrite IH.
    destruct i as [tc|]; [|done]. by destruct (List.filter _ inputs).
  - apply IH.
Qed.

(** [singleConnection_] in an arena of well-shaped blocks: when the orphan
    has an output connection, the result is the one input of the block that
    is a value input accepted by the checker of the orphan's workspace, and
    none when there are no or several such inputs.  An orphan without
    output connection gives none on a block without inputs and a
    [TypeError] on any other block. *)
Theorem singleConnection__unique s block orphanBlock ob blk :
  Shaped s -> blocks s !! orphanBlock = Some ob -> blocks s !! block = Some blk ->
  match outputConnection ob with
  | Some out =>
      forall ws, getConnectionChecker s out = Ok ws ->
        singleConnection_ canConnect s block orphanBlock =
        Ok (match eligibleInputs canConnect s block ws out with
            | [i] => i
            | _ => None
            end)
  | None =>
      singleConnection_ canConnect s block orphanBlock =
      match inputList blk with [] => Ok None | _ => Throw TypeError end
  end.
Proof.
  intros Hsh Hob Hblk. unfold singleConnection_.
  rewrite (getBlock_Some _ _ _ Hob), (getBlock_Some _ _ _ Hblk), !bind_ret_l.
  destruct (outputConnection ob) as [out|].
  - intros ws Hws. unfold eligibleInputs. rewrite Hblk.
    destruct (Hsh _ _ Hblk) as (_ & _ & _ & S4).
    by rewrite (singleConnectionLoop_eq s out ws block _ _ None Hws S4).
  - by destruct (inputList blk).
Qed.

Lemma rowWalk_beneath s ws out start c :
  WF s -> Shaped s -> Parented s ->
  rowWalk canConnect s ws out start (Some c) ->
  exists cn, conns s !! c = Some cn /\ ancestorOrSelf s start (sourceBlock_ cn).
Proof.
  intros Hwf Hsh Hpar H. remember (Some c) as r eqn:Hr.
  assert (forall block c0, eligibleInputs canConnect s block ws out = [Some c0] ->
    exists cn, conns s !! c0 = Some cn /\ sourceBlock_ cn = block /\
               isSuperior cn = true) as Hin.
  { intros block c0 Hel. unfold eligibleInputs in Hel.
    destruct (blocks s !! block) as [sb|] eqn:Hsb; [|done].
    apply filter_singleton in Hel as [Hel Hi].
    apply eligible_true in Hel as (c1 & cn & [= <-] & Hc & Hty & _).
    exists cn. split; [done|].
    destruct (Hsh _ _ Hsb) as (_ & _ & _ & S4).
    rewrite Forall_forall in S4. apply list_elem_of_In in Hi.
    specialize (S4 _ Hi). simpl in S4. rewrite Hc in S4.
    split; [tauto|]. unfold isSuperior. by rewrite Hty. }
  induction H as [| block c' Hel Hg
                  | block c' cn t tn nb r Hel Hc Ht Htn Hnb Hord Hwalk IH];
    [done| |].
  - injection Hr as ->. destruct (Hin _ _ Hel) as (cn & Hc & <- & _).
    exists cn. split; [done|]. by exists 0.
  - destruct (IH Hr) as (sn & Hsn & n & Hn). exists sn. split; [done|].
    destruct (Hin _ _ Hel) as (cn' & Hc' & <- & Hsup).
    rewrite Hc in Hc'. injection Hc' as <-.
    destruct (WF_occupant _ _ _ _ Hwf Hc Hsup Ht)
      as (xn & ob & Hxn & Hback & Hinf & _).
    rewrite Htn in Hxn. injection Hxn as <-.
    apply Parented_iff in Hpar as [Hp _].
    pose proof (Hp _ _ _ _ Htn Hinf Hback Hc) as Hpo.
    exists (n + 1). rewrite ancestor_add, Hn. simpl. by rewrite Hpo.
Qed.

(** [lastConnectionInRow] in a well-formed forest of well-shaped blocks,
    for an orphan with an output connection: the search returns, its result
    is the end of the walk [rowWalk], and a connection it returns is a value
    input that the checker accepts for the orphan's output, that is empty or
    holds a placeholder, and that belongs to the start block or to a block
    beneath it. *)
Theorem lastConnectionInRow_finds start X s ob out ws :
  Sound s -> blocks s !! X = Some ob -> outputConnection ob = Some out ->
  getConnectionChecker s out = Ok ws -> is_Some (blocks s !! start) ->
  exists r,
    settles (fun f => lastConnectionInRow canConnect f s start X) (Ok r) /\
    rowWalk canConnect s ws out start r /\
    match r with
    | Some c =>
        exists cn, conns s !! c = Some cn /\ type cn = INPUT_VALUE /\
          canConnect ws s out c false = true /\ occupantGone s c /\
          ancestorOrSelf s start (sourceBlock_ cn)
    | None => True
    end.
Proof.
  intros (Hwf & Hsh & Hpar & Hfo) HX Hout Hck Hst.
  destruct (Forest_deep s start Hfo) as (h & Hd).
  destruct (lastConnectionInRow_total canConnect h start X s ob out ws)
    as (r & Hr); try done.
  exists r. split; [done|].
  destruct (settles_at _ _ Hr) as (f & Hf).
  pose proof (lastConnectionInRow_walk canConnect f s start X ob out ws r
                HX Hout Hck Hf) as Hwalk.
  split; [done|]. destruct r as [c|]; [|done].
  destruct (rowWalk_Some _ _ _ _ _ _ Hwalk) as (Hg & cn & Hc & Hty & Hacc).
  destruct (rowWalk_beneath _ _ _ _ _ Hwf Hsh Hpar Hwalk) as (cn' & Hc' & Hanc).
  rewrite Hc in Hc'. injection Hc' as <-. exists cn. by repeat split.
Qed.

End Searching.

Lemma singleConnection__unique_witness :
  singleConnection_ kindChecker rowState 2 1 = Ok (Some 3) /\
  singleConnection_ kindChecker insertState 0 1 = Ok None /\
  singleConnection_ kindChecker rowState 0 0 = Throw TypeError.
Proof.
  pose proof (singleConnection__unique kindChecker rowState 2 1
                (mkBlock (Some 1) None None [] (Some 0) (Some 0) false 0)
                (mkBlock (Some 2) None None [Some 3] (Some 0) None false 0)
                (Shaped_decide rowState eq_refl) eq_refl eq_refl 0 eq_refl)
    as H1.
  pose proof (singleConnection__unique kindChecker insertState 0 1
                (mkBlock None (Some 1) (Some 2) [] (Some 0) (Some 0) false 0)
                (mkBlock None None (Some 0) [] (Some 0) None false 0)
                (Shaped_decide insertState eq_refl) eq_refl eq_refl) as H2.
  pose proof (singleConnection__unique kindChecker rowState 0 0
                (mkBlock None None None [Some 0] (Some 0) None false 0)
                (mkBlock None None None [Some 0] (Some 0) None false 0)
                (Shaped_decide rowState eq_refl) eq_refl eq_refl) as H3.
  split; [exact H1|]. split; [exact H2|exact H3].
Defined.

Lemma lastConnectionInRow_finds_witness :
  exists r,
    settles (fun f => lastConnectionInRow kindChecker f rowState 2 1) (Ok r) /\
    rowWalk kindChecker rowState 0 1 2 r.
Proof.
  destruct (lastConnectionInRow_finds kindChecker 2 1 rowState
              (mkBlock (Some 1) None None [] (Some 0) (Some 0) false 0) 1 0)
    as (r & Hr & Hw & _).
  - apply Sound_intro;
      [exact (WF_decide rowState eq_refl)|exact (Shaped_decide rowState eq_refl)
      |exact (Parented_decide rowState eq_refl)
      |exact (Forest_decide 3 rowState eq_refl)].
  - reflexivity.
  - reflexivity.
  - reflexivity.
  - by eexists.
  - exists r. by split.
Defined.

(** ** The recorder's switches *)

(** Closure for relations that depend on the recorder's switches: an event
    is fired in an arena that has the recorder of the arena the event was
    made in, and a bump is scheduled or a placeholder materialised only
    while undo recording is on. *)
Section FlagClosure.

Variable canConnect : Workspace -> State -> ConnId -> ConnId -> bool -> bool.
Variable R : State -> State -> Prop.

Hypothesis R_refl : forall s, R s s.
Hypothesis R_trans : forall s1 s2 s3, R s1 s2 -> R s2 s3 -> R s1 s3.
Hypothesis R_target : forall s c t, R s (setTarget c t s).
Hypothesis R_shadow : forall s c d, R s (setShadowDom c d s).
Hypothesis R_disposed : forall s c, R s (setDisposed c s).
Hypothesis R_parent : forall s b p, R s (setParent b p s).
Hypothesis R_workspace : forall s b, R s (setWorkspace b None s).
Hypothesis R_fire : forall s0 s b,
  events s = events s0 -> R s (fireMove (newBlockMove s0 b) s).
Hypothesis R_timer : forall s t,
  recordUndo (events s) = true -> R s (addTimer t s).
Hypothesis R_dom : forall s d ws,
  recordUndo (events s) = true -> R s (domToBlock d ws s).1.
Hypothesis R_bracket : forall s s',
  group (events s) = None -> R (setGroupTrue s) s' -> R s (setGroupFalse s').

Ltac F_solve :=
  repeat match goal with
  | |- R ?s ?s => apply R_refl
  | H : R ?x ?y |- R _ ?y => apply (R_trans _ x _); [| exact H]
  | |- R _ (setTarget _ _ ?x) => apply (R_trans _ x _); [| apply R_target]
  | |- R _ (setShadowDom _ _ ?x) => apply (R_trans _ x _); [| apply R_shadow]
  | |- R _ (setDisposed _ ?x) => apply (R_trans _ x _); [| apply R_disposed]
  | |- R _ (setParent _ _ ?x) => apply (R_trans _ x _); [| apply R_parent]
  | |- R _ (setWorkspace _ None ?x) => apply (R_trans _ x _); [| apply R_workspace]
  | |- R _ (if ?b then _ else _) => destruct b eqn:?
  | |- R _ (addTimer _ ?y) =>
      apply (R_trans _ y _); [| apply R_timer; assumption]
  | |- R _ (fireMove (newBlockMove _ _) ?y) =>
      apply (R_trans _ y _); [| apply R_fire; reflexivity]
  end.

Lemma disconnectInternal__flags c pb cb s s' :
  disconnectInternal_ c pb cb s = Ok s' -> R s s'.
Proof using R_refl R_trans R_target R_parent R_fire.
  unfold disconnectInternal_. intros H. res_inv H. F_solve.
Qed.

Lemma forEach_flags {A} (body : A -> State -> result State) l :
  (forall a s s', body a s = Ok s' -> R s s') ->
  forall s s', forEach body l s = Ok s' -> R s s'.
Proof using R_refl R_trans.
  intros Hb. induction l as [|a l IH]; simpl; intros s s' H.
  - injection H as ->. apply R_refl.
  - res_inv H. eapply R_trans; eauto.
Qed.

Ltac use_IH IH :=
  destruct IH as (IHc & IHc_ & IHd & IHr & IHx & IHu & IHb);
  repeat match goal with
  | E : connect _ _ _ _ _ = Ok _ |- _ => apply IHc in E
  | E : connect_ _ _ _ _ _ = Ok _ |- _ => apply IHc_ in E
  | E : disconnect _ _ _ _ = Ok _ |- _ => apply IHd in E
  | E : respawnShadow_ _ _ _ _ = Ok _ |- _ => apply IHr in E
  | E : dispose _ _ _ _ = Ok _ |- _ => apply IHx in E
  | E : blockUnplug _ _ _ _ = Ok _ |- _ => apply IHu in E
  | E : blockDispose _ _ _ _ = Ok _ |- _ => apply IHb in E
  end.

Theorem closure_flags f : closedAt canConnect R f.
Proof using All.
  induction f as [|f IH].
  { repeat split; intros; discriminate. }
  repeat split.
  - (* connect *)
    intros a b s s' H. simpl in H. destruct (group (events s)) eqn:Eg.
    all: res_inv H; subst; use_IH IH; F_solve.
    all: try (apply R_bracket; assumption).
  - (* connect_ *)
    intros a b s s' H. simpl in H.
    res_inv H; subst; use_IH IH; F_solve.
  - (* disconnect *)
    intros a s s' H. simpl in H. destruct (group (events s)) eqn:Eg.
    all: res_inv H; subst; use_IH IH.
    all: repeat match goal with
         | E : disconnectInternal_ _ _ _ _ = Ok _ |- _ =>
             apply disconnectInternal__flags in E
         end.
    all: try solve [F_solve].
    all: apply R_bracket; [assumption | F_solve].
  - (* respawnShadow_ *)
    intros a s s' H. simpl in H. res_inv H; subst; use_IH IH; F_solve.
    all: match goal with
         | E : domToBlock ?d ?w ?s = (?s1, _) |- R ?s ?s1 =>
             replace s1 with (domToBlock d w s).1 by (rewrite E; reflexivity);
             apply R_dom; assumption
         end.
  - (* dispose *)
    intros a s s' H. simpl in H. res_inv H; subst; use_IH IH; F_solve.
  - (* blockUnplug *)
    intros a s s' H. simpl in H. res_inv H; subst; use_IH IH; F_solve.
  - (* blockDispose *)
    intros a s s' H. simpl in H. res_inv H; subst.
    destruct IH as (IHc & IHc_ & IHd & IHr & IHx & IHu & IHb).
    apply IHu in E.
    eapply forEach_flags in H; [| exact IHx]. F_solve.
Qed.

End FlagClosure.

Lemma silent_closed canConnect f : closedAt canConnect silent f.
Proof.
  apply closure_flags; unfold silent.
  - done.
  - intros s1 s2 s3 [E1 F1] [E2 F2]. split; [congruence|].
    intros Hoff. rewrite F2, F1; [done|done|congruence].
  - done.
  - done.
  - done.
  - done.
  - done.
  - intros s0 s b Hev. unfold newBlockMove. rewrite <- Hev.
    destruct (enabled (events s)) eqn:E; simpl; [|done].
    rewrite E. split; [done|]. intros; done.
  - done.
  - intros s d ws _. destruct (domToBlock d ws s) as [s1 b] eqn:E.
    apply domToBlock_spec in E as (_ & He & _). simpl. by rewrite He.
  - intros s s' _ [E F]. simpl in *. split; [done|]. intros Hoff. by apply F.
Qed.

Lemma unrecorded_closed canConnect f : closedAt canConnect unrecorded f.
Proof.
  assert (forall s s', events s' = events s -> timers s' = timers s ->
            sameDom s s' -> unrecorded s s') as Hsame.
  { intros s s' He Ht Hd. unfold unrecorded. rewrite He.
    split; [done|]. intros _. by split. }
  apply closure_flags.
  - intros s. apply Hsame; [done|done|apply sameDom_refl].
  - intros s1 s2 s3 [E1 F1] [E2 F2]. split; [congruence|].
    intros Hoff. destruct (F1 Hoff) as [T1 D1].
    destruct F2 as [T2 D2]; [congruence|].
    split; [congruence|]. by eapply sameDom_trans.
  - intros. apply Hsame; [done|done|apply sameDom_updConn].
  - intros. apply Hsame; [done|done|apply sameDom_updConn].
  - intros. apply Hsame; [done|done|apply sameDom_updConn].
  - intros. apply Hsame; [done|done|apply sameDom_updBlock].
  - intros. apply Hsame; [done|done|apply sameDom_updBlock].
  - intros s0 s b _. split; [apply events_fireMove_undo|]. intros _.
    split; [apply timers_fireMove|].
    apply sameDom_same; [apply conns_fireMove|apply blocks_fireMove].
  - intros s t Hon. split; [done|]. simpl. congruence.
  - intros s d ws Hon. destruct (domToBlock d ws s) as [s1 b] eqn:E.
    apply domToBlock_spec in E as (_ & He & _). simpl.
    split; [by rewrite He|]. congruence.
  - intros s s' _ [E F]. simpl in *. split; [done|]. intros Hoff.
    destruct (F Hoff) as [T D]. split; [done|]. exact D.
Qed.

(** With events disabled, [connect], [disconnect] and [dispose] fire no
    event, and leave the switch off. *)
Theorem disabled_events_fire_nothing
    (canConnect : Workspace -> State -> ConnId -> ConnId -> bool -> bool)
    f a b s s' :
  enabled (events s) = false ->
  connect canConnect f a b s = Ok s' \/ disconnect canConnect f a s = Ok s' \/
  dispose canConnect f a s = Ok s' ->
  fired (events s') = fired (events s) /\ enabled (events s') = false.
Proof.
  intros Hoff H.
  destruct (silent_closed canConnect f) as (Kc & _ & Kd & _ & Kx & _).
  assert (silent s s') as [E F].
  { destruct H as [H|[H|H]]; eauto. }
  split; [by apply F|congruence].
Qed.

(** With undo recording off, [connect], [disconnect] and [dispose] schedule
    no bump and materialise nothing: the arena holds the same connections
    and blocks as before.  In a well-formed arena both ends of a pair that
    [disconnect] severed are then free, whatever template the parent end
    carries. *)
Theorem no_undo_no_respawn
    (canConnect : Workspace -> State -> ConnId -> ConnId -> bool -> bool)
    f a b s s' :
  recordUndo (events s) = false ->
  connect canConnect f a b s = Ok s' \/ disconnect canConnect f a s = Ok s' \/
  dispose canConnect f a s = Ok s' ->
  timers s' = timers s /\ sameDom s s' /\ recordUndo (events s') = false /\
  (checkerTyped canConnect -> WF s ->
   disconnect canConnect f a s = Ok s' ->
   forall o, target s a = Some o -> target s' a = None /\ target s' o = None).
Proof.
  intros Hoff H.
  destruct (unrecorded_closed canConnect f) as (Kc & _ & Kd & _ & Kx & _).
  assert (unrecorded s s') as [E F].
  { destruct H as [H|[H|H]]; eauto. }
  destruct (F Hoff) as [T D].
  split; [done|]. split; [done|]. split; [congruence|].
  intros Hchk Hwf Hd o Ht. unfold target in Ht.
  destruct (conns s !! a) as [cn|] eqn:Hc; [|done]. simpl in Ht.
  destruct (disconnect_props canConnect Hchk f a s s' cn o Hwf Hc Ht Hd)
    as (on & p & i & cp & ci & Ho & Hpair & Hp & Hi & _ & _ & Htp & Hti & Hwf'
        & _ & Hi' & (t & Hp' & Hfresh & _) & _).
  assert (t = None) as ->.
  { destruct Hfresh as [->|(n & -> & Hn)]; [done|]. exfalso.
    destruct Hwf' as [_ Hlk]. specialize (Hlk _ _ Hp'). unfold linkOk in Hlk.
    simpl in Hlk. destruct (conns s' !! n) as [nn|] eqn:Hn'; [|done].
    destruct D as [Dc _]. destruct (proj1 (Dc n)) as [x Hx]; [eauto|].
    congruence. }
  unfold target.
  destruct (isSuperior cn); injection Hpair as -> ->;
    rewrite Hp', Hi'; done.
Qed.

Lemma disabled_events_fire_nothing_witness :
  exists s', disconnect kindChecker 5 0 mutedStack = Ok s' /\
    fired (events s') = [] /\ enabled (events s') = false.
Proof.
  destruct (disconnect kindChecker 5 0 mutedStack) as [s'| |] eqn:E;
    [|vm_compute in E; discriminate..].
  exists s'. split; [reflexivity|].
  exact (disabled_events_fire_nothing kindChecker 5 0 0 mutedStack s' eq_refl
           (or_intror (or_introl E))).
Defined.

Lemma no_undo_no_respawn_witness :
  exists s', disconnect kindChecker 5 0 mutedStack = Ok s' /\
    timers s' = [] /\ sameDom mutedStack s' /\
    target s' 0 = None /\ target s' 1 = None.
Proof.
  destruct (disconnect kindChecker 5 0 mutedStack) as [s'| |] eqn:E;
    [|vm_compute in E; discriminate..].
  exists s'. split; [reflexivity|].
  destruct (no_undo_no_respawn kindChecker 5 0 0 mutedStack s' eq_refl
              (or_intror (or_introl E))) as (T & D & _ & K).
  split; [exact T|]. split; [exact D|].
  exact (K kindChecker_typed (WF_decide mutedStack eq_refl) E 1 eq_refl).
Defined.

(** ** Inserting into a stack *)

(** The result of [lastNextConnection] is the end of the walk. *)
Lemma lastNextConnection_walk f s start r :
  lastNextConnection f s start = Ok r -> stackWalk s start r.
Proof.
  revert start. induction f as [|f IH]; intros start H; [discriminate|].
  rewrite lastNextConnection_unfold in H.
  apply bind_Ok in H as (blk & Eb & H). apply orThrow_Ok in Eb.
  destruct (nextConnection blk) as [n|] eqn:Hn.
  2:{ injection H as <-. by eapply StackEnd. }
  apply bind_Ok in H as (nbo & Et & H).
  pose proof Et as (cn & Hcn & Hnb)%targetBlock_Ok.
  destruct nbo as [nb|].
  2:{ injection H as <-. eapply StackFound; eauto.
      by eapply targetBlock_gone. }
  apply bind_Ok in H as (nblk & Enb & H). apply orThrow_Ok in Enb.
  destruct (isShadow nblk) eqn:Hsh.
  { injection H as <-. eapply StackFound; eauto.
    eapply targetBlock_gone; [exact Et|]. simpl. eauto. }
  destruct Hnb as (t & tn & Ht & Htn & <-).
  eapply StackDown; eauto.
Qed.

(** A [disconnect] entered outside of any group leaves no group open. *)
Lemma disconnect_group_None canConnect f c s s' :
  disconnect canConnect f c s = Ok s' -> group (events s) = None ->
  group (events s') = None.
Proof.
  intros H Hg. destruct f as [|f]; [done|]. rewrite disconnect_unfold in H.
  apply bind_Ok in H as (cn & _ & H). apply bind_Ok in H as (o & _ & H).
  apply bind_Ok in H as (oc & _ & H). case_bool_decide; [|done].
  destruct (if isSuperior cn then _ else _) as [[pb cb] p].
  apply bind_Ok in H as (s1 & _ & H). apply bind_Ok in H as (s2 & _ & H).
  injection H as <-. unfold closeGroup. by rewrite Hg.
Qed.

Section Stacking.

Variable canConnect : Workspace -> State -> ConnId -> ConnId -> bool -> bool.
Hypothesis chk_typed : checkerTyped canConnect.
Hypothesis chk_sym : checkerSymmetric canConnect.

(** [connect_] of a free child on a next connection that holds an ordinary
    block: the walk down the child's stack decides between the end of the
    stack and the orphanage. *)
Lemma connect__next f P C s s' pc cc xc xn ob wsx :
  WF s -> conns s !! P = Some pc -> conns s !! C = Some cc ->
  type pc = NEXT_STATEMENT -> opposite (type pc) (type cc) = true ->
  targetConnection pc = Some xc -> targetConnection cc = None ->
  conns s !! xc = Some xn -> blocks s !! sourceBlock_ xn = Some ob ->
  isShadow ob = false -> workspace ob = Some wsx ->
  connect_ canConnect (S f) P C s = Ok s' ->
  exists r,
    lastNextConnection f (setShadowDom P None s) (sourceBlock_ cc) = Ok r /\
    match r with
    | Some slot =>
        if canConnect wsx (setShadowDom P None s) xc slot false then
          linked s' slot xc /\
          exists sn, conns s !! slot = Some sn /\
            parentOf s' (sourceBlock_ xn) = Some (sourceBlock_ sn)
        else
          target s' xc = None /\ parentOf s' (sourceBlock_ xn) = None /\
          timers s' =
            (if recordUndo (events s)
             then [mkBump (sourceBlock_ xn) P (group (events s))] else [])
            ++ timers s
    | None =>
        target s' xc = None /\ parentOf s' (sourceBlock_ xn) = None /\
        timers s' =
          (if recordUndo (events s)
           then [mkBump (sourceBlock_ xn) P (group (events s))] else [])
          ++ timers s
    end.
Proof using chk_typed chk_sym.
  intros Hwf HP HC Hty Hopp Ht HtC Hxn Hob Hsh Hws H.
  assert (isSuperior pc = true) as Hsup by (unfold isSuperior; by rewrite Hty).
  assert (type cc = PREVIOUS_STATEMENT) as HtyC.
  { rewrite Hty in Hopp. by destruct (type cc). }
  destruct (WF_occupant _ _ _ _ Hwf HP Hsup Ht)
    as (xn' & ob' & Hxn' & Hback & Hinf & Hoppx & Hob' & Hplug & HxcP & _ & Hpv).
  rewrite Hxn in Hxn'. injection Hxn' as <-.
  rewrite Hob in Hob'. injection Hob' as <-.
  specialize (Hpv Hty).
  assert (type xn = PREVIOUS_STATEMENT) as HtyX.
  { rewrite Hty in Hoppx. by destruct (type xn). }
  assert (xc <> C) as HxcC.
  { intros ->. rewrite HC in Hxn. injection Hxn as <-. congruence. }
  assert (P <> C) as HPC.
  { intros ->. rewrite HP in HC. injection HC as <-.
    by rewrite opposite_irrefl in Hopp. }
  assert (sourceBlock_ cc <> sourceBlock_ xn) as Hblk.
  { intros Heq. pose proof Hwf as [Hok _]. pose proof (Hok _ _ HC) as Hc.
    unfold connOk in Hc. rewrite Heq, Hob in Hc. destruct Hc as [_ Hc].
    destruct (Hc HtyC) as [_ Hc']. rewrite Hc' in Hpv. by injection Hpv. }
  apply connect__inv in H as (pc0 & cc0 & s1 & s2 & HP0 & HC0 & H1 & Hres & ->).
  rewrite HP in HP0. injection HP0 as <-. rewrite HC in HC0. injection HC0 as <-.
  unfold isConnected in H1. rewrite HtC in H1. injection H1 as <-.
  set (sA := setShadowDom P None s) in *.
  assert (WF sA) as HwfA by by apply WF_setShadowDom.
  assert (conns sA !! P = Some (withShadowDom None pc)) as HPA.
  { unfold sA, setShadowDom. rewrite lookup_updConn, decide_True by done.
    by rewrite HP. }
  assert (forall x, x <> P -> conns sA !! x = conns s !! x) as HA.
  { intros x Hx. unfold sA, setShadowDom.
    by rewrite lookup_updConn, decide_False. }
  assert (conns sA !! xc = Some xn) as HxnA by by rewrite HA.
  assert (forall pc0 xc0 xn0 ob0,
    conns s !! P = Some pc0 -> targetConnection pc0 = Some xc0 ->
    conns s !! xc0 = Some xn0 -> blocks s !! sourceBlock_ xn0 = Some ob0 ->
    pc0 = pc /\ xc0 = xc /\ xn0 = xn /\ ob0 = ob) as Huniq.
  { intros pc0 xc0 xn0 ob0 E1 E2 E3 E4.
    rewrite HP in E1. injection E1 as <-.
    rewrite Ht in E2. injection E2 as <-.
    rewrite Hxn in E3. injection E3 as <-.
    rewrite Hob in E4. by injection E4 as <-. }
  assert (forall sB, disconnect canConnect f P sA = Ok sB ->
    target (linkState P C (sourceBlock_ pc) (sourceBlock_ cc)
              (setShadowDom P (shadowDom_ pc)
                 (bumpLater (sourceBlock_ xn) P sB))) xc = None /\
    parentOf (linkState P C (sourceBlock_ pc) (sourceBlock_ cc)
                (setShadowDom P (shadowDom_ pc)
                   (bumpLater (sourceBlock_ xn) P sB))) (sourceBlock_ xn) = None /\
    timers (linkState P C (sourceBlock_ pc) (sourceBlock_ cc)
              (setShadowDom P (shadowDom_ pc)
                 (bumpLater (sourceBlock_ xn) P sB))) =
      (if recordUndo (events s)
       then [mkBump (sourceBlock_ xn) P (group (events s))] else [])
      ++ timers s) as Hbump.
  { intros sB Hdis.
    destruct (disconnect_occupant canConnect chk_typed f P sA sB P _ xc xn
                HwfA HPA Hsup Ht HxnA (or_introl eq_refl) Hdis)
      as (_ & _ & HxcB & _ & _ & HblB).
    destruct (disconnect_props canConnect chk_typed f P sA sB _ xc HwfA HPA Ht Hdis)
      as (on' & p' & i' & cp' & ci' & _ & _ & _ & _ & _ & _ & _ & _ & _ & _ & _
          & _ & _ & Htm).
    destruct (unrecorded_closed canConnect f) as (_ & _ & Kd & _).
    destruct (Kd _ _ _ Hdis) as [Hru _].
    destruct (groupKept_closed canConnect f) as (_ & _ & Gd & _).
    pose proof (Gd _ _ _ Hdis) as Hgk.
    split; [|split].
    - unfold target. rewrite conns_relink, conns_bumpLater, HxcB by done. done.
    - unfold parentOf. rewrite blocks_relink, blocks_bumpLater by done.
      rewrite (HblB _ _ Hob), decide_True by done. done.
    - rewrite timers_linkState. simpl. unfold bumpLater. rewrite Hru.
      change (events sA) with (events s).
      change (timers sA) with (timers s) in Htm.
      destruct (recordUndo (events s)); simpl; [|exact Htm].
      rewrite Htm. f_equal. f_equal.
      destruct (group (events s)) as [g|] eqn:Hg.
      + destruct (Hgk g) as [Hg' _]; [exact Hg|]. exact Hg'.
      + by apply (disconnect_group_None canConnect f P sA sB). }
  destruct Hres as [pc0 HP0 Hfree
    | pc0 xc0 xn0 ob0 sB HP0 Ht0 Hxn0 Hob0 Hsh0 Hdisp
    | pc0 xc0 xn0 ob0 out slot sB HP0 Ht0 Hxn0 Hob0 Hsh0 Hty0 _ _ _
    | pc0 xc0 xn0 ob0 prev slot ws sB HP0 Ht0 Hxn0 Hob0 Hsh0 Hty0 Hprev Hnx
        Hws0 Hchk Hcon
    | pc0 xc0 xn0 ob0 sB HP0 Ht0 Hxn0 Hob0 Hsh0 Hwhy Hdis].
  - rewrite HP in HP0. injection HP0 as <-. congruence.
  - destruct (Huniq _ _ _ _ HP0 Ht0 Hxn0 Hob0) as (-> & -> & -> & ->).
    congruence.
  - destruct (Huniq _ _ _ _ HP0 Ht0 Hxn0 Hob0) as (-> & -> & -> & ->).
    congruence.
  - destruct (Huniq _ _ _ _ HP0 Ht0 Hxn0 Hob0) as (-> & -> & -> & ->).
    fold sA in Hnx, Hchk, Hcon |- *.
    rewrite Hpv in Hprev. injection Hprev as <-.
    rewrite Hws in Hws0. injection Hws0 as <-.
    exists (Some slot). split; [exact Hnx|]. rewrite Hchk.
    destruct (lastNextConnection_Some _ _ _ _ Hnx) as (Hgone & sn & Hsn).
    destruct (chk_typed _ _ _ _ Hchk) as (xn' & sn' & Hxn' & Hsn' & Hoppn).
    rewrite HxnA in Hxn'. injection Hxn' as <-.
    rewrite Hsn in Hsn'. injection Hsn' as <-.
    assert (type sn = NEXT_STATEMENT) as Htys.
    { rewrite HtyX in Hoppn. by destruct (type sn). }
    assert (slot <> P) as HsP.
    { intros ->.
      eapply (occupantGone_ordinary sA P _ xc xn ob);
        [exact HPA|done|done|exact Hob|done|done]. }
    assert (slot <> C) as HsC.
    { intros ->. rewrite HA in Hsn by done. rewrite HC in Hsn.
      injection Hsn as <-. congruence. }
    destruct (rehome_attached canConnect chk_typed f P (withShadowDom None pc)
                xc xn slot sn slot xc sA sB)
      as (HwfB & HfP & Hlk & Hinfs & Hpar); try done.
    { intros. eapply connect__attached_gen; eauto. }
    { intros Hts.
      eapply (occupantGone_ordinary sA slot _ xc xn ob);
        [exact Hsn|done|done|exact Hob|done|done]. }
    { by right. }
    { intros ws' _. by rewrite (chk_sym ws' wsx). }
    split.
    + unfold linked, target in *. by rewrite !conns_relink.
    + exists sn. split; [by rewrite <- HA|].
      unfold parentOf in *. by rewrite blocks_relink.
  - destruct (Huniq _ _ _ _ HP0 Ht0 Hxn0 Hob0) as (-> & -> & -> & ->).
    fold sA in Hwhy, Hdis |- *.
    destruct Hwhy as [(Hty' & _)|[(_ & prev & Hprev & Hwhy)|(_ & Hty')]];
      [congruence| |congruence].
    rewrite Hpv in Hprev. injection Hprev as <-.
    destruct Hwhy as [Hnx|(slot & ws & Hnx & Hws0 & Hchk)].
    + exists None. split; [exact Hnx|]. by apply Hbump.
    + rewrite Hws in Hws0. injection Hws0 as <-.
      exists (Some slot). split; [exact Hnx|]. rewrite Hchk. by apply Hbump.
Qed.

End Stacking.

(** An accepted [connect] that attaches the free previous connection [C]
    to the next connection [P], called on either side, while [P] holds the
    ordinary block of [xc], for a checker whose answer does not depend on
    the order of the two connections.  In a forest of well-shaped blocks
    the call ends.  A call that returns has linked [P] and [C] and put the
    block of [C] under the block of [P]; the walk [lastNextConnection] ran
    down the stack of the block of [C], through ordinary blocks, to the
    first next connection that is empty or holds a placeholder, failing at
    a block without next connection.  When it found the connection [slot]
    and the checker accepts it for [xc], the displaced block is linked
    there and is under the block of [slot]; otherwise the displaced block
    has no target and no parent, and one bump is scheduled for it when undo
    recording is on. *)
Theorem statement_rehoming
    (canConnect : Workspace -> State -> ConnId -> ConnId -> bool -> bool)
    f A B s P C pc cc xc xn ob ws wsx :
  checkerTyped canConnect -> checkerSymmetric canConnect ->
  (A = P /\ B = C) \/ (A = C /\ B = P) ->
  conns s !! P = Some pc -> conns s !! C = Some cc ->
  type pc = NEXT_STATEMENT -> targetConnection pc = Some xc ->
  targetConnection cc = None ->
  conns s !! xc = Some xn -> blocks s !! sourceBlock_ xn = Some ob ->
  isShadow ob = false -> workspace ob = Some wsx ->
  getConnectionChecker s A = Ok ws -> canConnect ws s A B false = true ->
  WF s ->
  (Shaped s -> Parented s -> Forest s ->
   halts (fun g => connect canConnect g A B s)) /\
  forall s', connect canConnect (S (S f)) A B s = Ok s' ->
    linked s' P C /\
    parentOf s' (sourceBlock_ cc) = Some (sourceBlock_ pc) /\
    exists r,
      lastNextConnection f (setShadowDom P None (openGroup s))
        (sourceBlock_ cc) = Ok r /\
      stackWalk (setShadowDom P None (openGroup s)) (sourceBlock_ cc) r /\
      match r with
      | Some slot =>
          if canConnect wsx (setShadowDom P None (openGroup s)) xc slot false
          then
            linked s' slot xc /\
            exists sn, conns s !! slot = Some sn /\
              parentOf s' (sourceBlock_ xn) = Some (sourceBlock_ sn)
          else
            target s' xc = None /\ parentOf s' (sourceBlock_ xn) = None /\
            timers s' =
              (if recordUndo (events s)
               then [mkBump (sourceBlock_ xn) P (group (events (openGroup s)))]
               else [])
              ++ timers s
      | None =>
          target s' xc = None /\ parentOf s' (sourceBlock_ xn) = None /\
          timers s' =
            (if recordUndo (events s)
             then [mkBump (sourceBlock_ xn) P (group (events (openGroup s)))]
             else [])
            ++ timers s
      end.
Proof.
  intros Hchk Hsym HAB HP HC Hty Ht HtC Hxn Hob Hsh Hwsx Hws Hacc Hwf.
  split.
  { intros Hshp Hpar Hfo. apply connect_halts; [done|].
    exact (conj Hwf (conj Hshp (conj Hpar Hfo))). }
  intros s' H.
  assert (isSuperior pc = true) as Hsup by (unfold isSuperior; by rewrite Hty).
  assert (targetConnection pc <> Some C) as Hnl.
  { rewrite Ht. intros [= ->].
    destruct (WF_occupant _ _ _ _ Hwf HP Hsup Ht) as (xn' & _ & Hxn' & Hb & _).
    rewrite HC in Hxn'. injection Hxn' as <-. congruence. }
  destruct (connect_dispatch canConnect Hchk _ A B s s' P C pc cc ws
              Hwf HAB HP HC Hsup Hnl Hws Hacc H)
    as (Hopp & f' & s2 & Hf & Hc_ & ->).
  injection Hf as <-.
  split.
  { apply connect__linked in Hc_. unfold linked, target in *.
    by rewrite conns_closeGroup. }
  split.
  { unfold parentOf. rewrite blocks_closeGroup.
    eapply (connect__parent canConnect (S f) P C (openGroup s) s2 pc cc);
      rewrite ?conns_openGroup, ?blocks_openGroup; try done.
    pose proof Hwf as [Hok _]. pose proof (Hok _ _ HC) as Hc.
    unfold connOk in Hc. destruct (blocks s !! sourceBlock_ cc); [eauto|done]. }
  destruct (connect__next canConnect Hchk Hsym f P C (openGroup s) s2
              pc cc xc xn ob wsx) as (r & Hrow & Hm);
    rewrite ?conns_openGroup, ?blocks_openGroup; try done.
  { by apply WF_openGroup. }
  exists r. split; [done|]. split; [by eapply lastNextConnection_walk|].
  assert (recordUndo (events (openGroup s)) = recordUndo (events s)) as Hru.
  { unfold openGroup. by destruct (group (events s)). }
  rewrite Hru, timers_openGroup in Hm.
  destruct r as [slot|].
  - destruct (canConnect wsx (setShadowDom P None (openGroup s)) xc slot false).
    + destruct Hm as (Hl & sn & Hsn & Hpar). split.
      * unfold linked, target in *. by rewrite conns_closeGroup.
      * exists sn. rewrite conns_openGroup in Hsn. split; [done|].
        unfold parentOf in *. by rewrite blocks_closeGroup.
    + destruct Hm as (Hl & Hpar & Htm). split; [|split].
      * unfold target in *. by rewrite conns_closeGroup.
      * unfold parentOf in *. by rewrite blocks_closeGroup.
      * by rewrite timers_closeGroup.
  - destruct Hm as (Hl & Hpar & Htm). split; [|split].
    + unfold target in *. by rewrite conns_closeGroup.
    + unfold parentOf in *. by rewrite blocks_closeGroup.
    + by rewrite timers_closeGroup.
Qed.

Lemma statement_rehoming_witness :
  exists s', connect kindChecker 8 3 0 insertState = Ok s' /\
    linked s' 0 3 /\ parentOf s' 2 = Some 0 /\
    linked s' 4 1 /\ parentOf s' 1 = Some 2.
Proof.
  assert (exists s', connect kindChecker 8 3 0 insertState = Ok s') as [s' E]
    by (eexists; vm_compute; reflexivity).
  exists s'. split; [exact E|].
  destruct (statement_rehoming kindChecker 6 3 0 insertState 0 3
              (linkedConn 0 NEXT_STATEMENT 1 None)
              (freeConn 2 PREVIOUS_STATEMENT) 1
              (linkedConn 1 PREVIOUS_STATEMENT 0 None)
              (mkBlock None (Some 1) (Some 2) [] (Some 0) (Some 0) false 0)
              0 0 kindChecker_typed kindChecker_sym
              (or_intror (conj eq_refl eq_refl))
              eq_refl eq_refl eq_refl eq_refl eq_refl eq_refl eq_refl eq_refl
              eq_refl eq_refl eq_refl (WF_decide insertState eq_refl))
    as [_ K].
  destruct (K s' E) as (Hl & Hp & r & Hr & _ & Hm).
  split; [exact Hl|]. split; [exact Hp|].
  assert (r = Some 4) as -> by (vm_compute in Hr; by injection Hr as <-).
  assert (kindChecker 0 (setShadowDom 0 None (openGroup insertState)) 1 4 false
          = true) as Hk by (vm_compute; reflexivity).
  rewrite Hk in Hm. destruct Hm as (Hl' & sn & Hsn & Hp').
  split; [exact Hl'|].
  assert (sn = freeConn 2 NEXT_STATEMENT) as ->
    by (vm_compute in Hsn; by injection Hsn as <-).
  exact Hp'.
Defined.

(** ** The recorded moves *)

Lemma fired_openGroup s : fired (events (openGroup s)) = fired (events s).
Proof. unfold openGroup. by destruct (group (events s)). Qed.

Lemma enabled_openGroup s : enabled (events (openGroup s)) = enabled (events s).
Proof. unfold openGroup. by destruct (group (events s)). Qed.

Lemma fired_closeGroup s0 s : fired (events (closeGroup s0 s)) = fired (events s).
Proof. unfold closeGroup. by destruct (group (events s0)). Qed.

Lemma fired_unlinkState c o cb s :
  enabled (events s) = true ->
  fired (events (unlinkState c o cb s)) =
  mkBlockMove cb (group (events s)) (parentOf s cb) None :: fired (events s).
Proof.
  intros Hon. unfold unlinkState, newBlockMove. rewrite Hon. simpl.
  f_equal. f_equal. rewrite lookup_alter, decide_True by done.
  by destruct (blocks s !! cb).
Qed.

Lemma fired_linkState P C pb cb s blk :
  enabled (events s) = true -> blocks s !! cb = Some blk ->
  fired (events (linkState P C pb cb s)) =
  mkBlockMove cb (group (events s)) (parentOf s cb) (Some pb) :: fired (events s).
Proof.
  intros Hon Hb. unfold linkState, newBlockMove. rewrite Hon. simpl.
  f_equal. f_equal. rewrite lookup_alter, decide_True by done.
  by rewrite Hb.
Qed.

Section Moves.

Variable canConnect : Workspace -> State -> ConnId -> ConnId -> bool -> bool.

(** With events enabled, in a well-formed arena whose parent links follow
    the connections: [disconnect] of the pair of the superior connection
    [p] and [i], whose template is empty, called on either end, fires one
    move event, for the child block, from its parent to no parent, in the
    group of the call.  A [connect] of the two ends that the checker
    accepts, called on either side, then fires one move event, for the
    child block, from no parent to the parent block. *)
Theorem moves_are_recorded f c s p i cp ci :
  WF s -> Parented s -> enabled (events s) = true ->
  conns s !! p = Some cp -> conns s !! i = Some ci ->
  isSuperior cp = true -> targetConnection cp = Some i ->
  shadowDom_ cp = None -> c = p \/ c = i ->
  exists s1, disconnect canConnect (S (S f)) c s = Ok s1 /\
    fired (events s1) =
      mkBlockMove (sourceBlock_ ci) (group (events (openGroup s)))
        (Some (sourceBlock_ cp)) None :: fired (events s) /\
    forall x y ws, (x = p /\ y = i) \/ (x = i /\ y = p) ->
      getConnectionChecker s1 x = Ok ws ->
      canConnect ws s1 x y false = true ->
      exists s2, connect canConnect (S (S f)) x y s1 = Ok s2 /\
        fired (events s2) =
          mkBlockMove (sourceBlock_ ci) (group (events (openGroup s1)))
            None (Some (sourceBlock_ cp)) :: fired (events s1).
Proof.
  intros Hwf Hpar Hon Hp Hi Hsp Htp Hsd Hc. pose proof Hwf as [Hok Hlk].
  destruct (linkOk_elim _ _ _ _ (Hlk _ _ Hp) Htp) as (ci' & Hi' & Hti & Hopp).
  rewrite Hi in Hi'. injection Hi' as <-.
  assert (p <> i) as Hpi.
  { intros <-. rewrite Hp in Hi. injection Hi as <-.
    by rewrite opposite_irrefl in Hopp. }
  pose proof (opposite_superior _ _ Hopp) as Hs. rewrite Hsp in Hs.
  assert (isSuperior ci = false) as Hsi by by destruct (isSuperior ci).
  assert (exists pb, blocks s !! sourceBlock_ cp = Some pb) as [pb Hpb].
  { specialize (Hok _ _ Hp). unfold connOk in Hok.
    destruct (blocks s !! sourceBlock_ cp); [eauto|done]. }
  assert (exists blk, blocks s !! sourceBlock_ ci = Some blk /\
            parentBlock_ blk = Some (sourceBlock_ cp)) as (blk & Hblk & Hpb').
  { destruct Hpar as [Hpo _]. specialize (Hpo _ _ Hi Hsi).
    rewrite Hti, Hp in Hpo. unfold parentOf in Hpo.
    destruct (blocks s !! sourceBlock_ ci) as [blk|]; [eauto|done]. }
  assert (exists o, (c = p /\ o = i) \/ (c = i /\ o = p)) as (o & Hco).
  { destruct Hc as [-> | ->]; eauto. }
  set (s1 := closeGroup s (unlinkState c o (sourceBlock_ ci) (openGroup s))).
  assert (disconnect canConnect (S (S f)) c s = Ok s1) as Hd.
  { destruct Hco as [[-> ->]|[-> ->]].
    - apply (disconnect_plain canConnect f p i s cp ci p cp (sourceBlock_ ci) pb);
        try done. by rewrite Hsp.
    - apply (disconnect_plain canConnect f i p s ci cp p cp (sourceBlock_ ci) pb);
        try done. by rewrite Hsi. }
  assert (forall x, conns s1 !! x =
            if decide (x = p \/ x = i) then withTarget None <$> conns s !! x
            else conns s !! x) as Hs1.
  { intros x. unfold s1.
    rewrite conns_closeGroup, conns_unlinkState, !conns_openGroup.
    assert (o <> c) as Hoc by (destruct Hco as [[-> ->]|[-> ->]]; done).
    rewrite (decide_False (P := o = c)) by done.
    destruct (decide (c = x)) as [<-|];
      [by rewrite decide_True by intuition congruence|].
    destruct (decide (o = x)) as [<-|];
      [by rewrite decide_True by intuition congruence|].
    by rewrite decide_False by intuition congruence. }
  assert (conns s1 !! p = Some (withTarget None cp)) as Hp1.
  { rewrite Hs1, decide_True by auto. by rewrite Hp. }
  assert (conns s1 !! i = Some (withTarget None ci)) as Hi1.
  { rewrite Hs1, decide_True by auto. by rewrite Hi. }
  assert (fired (events s1) =
            mkBlockMove (sourceBlock_ ci) (group (events (openGroup s)))
              (Some (sourceBlock_ cp)) None :: fired (events s)) as Hf1.
  { unfold s1. rewrite fired_closeGroup, fired_unlinkState
      by by rewrite enabled_openGroup.
    rewrite fired_openGroup. unfold parentOf.
    by rewrite blocks_openGroup, Hblk, <- Hpb'. }
  assert (enabled (events s1) = true) as Hon1.
  { destruct (silent_closed canConnect (S (S f))) as (_ & _ & Kd & _).
    destruct (Kd _ _ _ Hd) as [-> _]. done. }
  assert (blocks s1 !! sourceBlock_ ci = Some (withParent None blk)) as Hblk1.
  { unfold s1. rewrite blocks_closeGroup, blocks_unlinkState, blocks_openGroup.
    by rewrite decide_True, Hblk. }
  exists s1. split; [done|]. split; [done|].
  intros x y ws Hxy Hws Hacc.
  exists (closeGroup s1
            (linkState p i (sourceBlock_ cp) (sourceBlock_ ci) (openGroup s1))).
  split.
  - destruct Hxy as [[-> ->]|[-> ->]].
    + unfold getConnectionChecker in Hws.
      rewrite (getConn_Some _ _ _ Hp1), bind_ret_l in Hws.
      apply bind_Ok in Hws as (b1 & Hb1 & Hw1).
      apply orThrow_Ok in Hb1. apply orThrow_Ok in Hw1.
      rewrite (connect_free canConnect f p i s1 _ _ b1 ws Hp1 Hi1) by done.
      rewrite Hacc.
      change (isSuperior (withTarget None cp)) with (isSuperior cp).
      rewrite Hsp. reflexivity.
    + unfold getConnectionChecker in Hws.
      rewrite (getConn_Some _ _ _ Hi1), bind_ret_l in Hws.
      apply bind_Ok in Hws as (b1 & Hb1 & Hw1).
      apply orThrow_Ok in Hb1. apply orThrow_Ok in Hw1.
      rewrite (connect_free canConnect f i p s1 _ _ b1 ws Hi1 Hp1) by done.
      rewrite Hacc.
      change (isSuperior (withTarget None ci)) with (isSuperior ci).
      rewrite Hsi. reflexivity.
  - rewrite fired_closeGroup.
    rewrite (fired_linkState p i _ _ (openGroup s1) (withParent None blk))
      by (by rewrite ?enabled_openGroup, ?blocks_openGroup).
    rewrite fired_openGroup. unfold parentOf.
    by rewrite blocks_openGroup, Hblk1.
Qed.

End Moves.

Lemma moves_are_recorded_witness :
  exists s1, disconnect kindChecker 3 1 moveState = Ok s1 /\
    fired (events s1) = [mkBlockMove 1 (Some 0) (Some 0) None].
Proof.
  destruct (moves_are_recorded kindChecker 1 1 moveState 0 1
              (linkedConn 0 INPUT_VALUE 1 None) (linkedConn 1 OUTPUT_VALUE 0 None)
              (WF_decide moveState eq_refl) (Parented_decide moveState eq_refl)
              eq_refl eq_refl eq_refl eq_refl eq_refl eq_refl
              (or_intror eq_refl)) as (s1 & Hd & Hf & _).
  exists s1. split; [exact Hd|]. exact Hf.
Defined.

(** ** What [connect] needs *)

(** [connect] changes the arena only for a pair that [checkType] accepts
    and that is not linked already: on a linked pair it returns at once,
    without asking the checker, and on a refused pair it returns the arena
    unchanged.  A typed checker thus only lets connections of opposite
    kinds be linked. *)
Theorem connect_only_when_accepted
    (canConnect : Workspace -> State -> ConnId -> ConnId -> bool -> bool)
    f A B s s' :
  connect canConnect f A B s = Ok s' ->
  (target s A = Some B -> s' = s) /\
  (checkType canConnect s A B = Ok false -> s' = s) /\
  (s' <> s ->
   checkType canConnect s A B = Ok true /\ target s A <> Some B /\
   (checkerTyped canConnect ->
    exists ca cb, conns s !! A = Some ca /\ conns s !! B = Some cb /\
      opposite (type ca) (type cb) = true)).
Proof.
  intros H. destruct f as [|f]; [done|]. rewrite connect_unfold in H.
  apply bind_Ok in H as (cn & Hc & H). apply orThrow_Ok in Hc.
  unfold target, checkType. rewrite Hc. simpl.
  case_bool_decide as Ht.
  { injection H as <-. by repeat split. }
  apply bind_Ok in H as (ws & Hws & H). rewrite Hws. simpl.
  destruct (canConnect ws s A B false) eqn:Hacc.
  - split; [done|]. split; [done|]. intros _. split; [done|]. split; [done|].
    intros Hchk. destruct (Hchk _ _ _ _ Hacc) as (ca & cb & HA & HB & Hopp).
    rewrite Hc in HA. injection HA as <-. eauto.
  - injection H as <-. by repeat split.
Qed.

Lemma connect_only_when_accepted_witness :
  exists s', connect refuseAll 5 0 1 pairState = Ok s' /\ s' = pairState.
Proof.
  destruct (connect refuseAll 5 0 1 pairState) as [s'| |] eqn:E;
    [|vm_compute in E; discriminate..].
  exists s'. split; [reflexivity|].
  destruct (connect_only_when_accepted refuseAll 5 0 1 pairState s' E)
    as (_ & K & _).
  apply K. reflexivity.
Defined.

(** ** A displaced block that finds no home *)

Section Homeless.

Variable canConnect : Workspace -> State -> ConnId -> ConnId -> bool -> bool.
Hypothesis chk_typed : checkerTyped canConnect.

(** The end of [connect_] after the displaced block was bumped. *)
Lemma bump_state f P C s pc cc xc xn ob sB :
  WF s -> conns s !! P = Some pc -> isSuperior pc = true ->
  targetConnection pc = Some xc -> conns s !! xc = Some xn ->
  blocks s !! sourceBlock_ xn = Some ob ->
  xc <> C -> P <> C -> sourceBlock_ cc <> sourceBlock_ xn ->
  disconnect canConnect f P (setShadowDom P None s) = Ok sB ->
  target (linkState P C (sourceBlock_ pc) (sourceBlock_ cc)
            (setShadowDom P (shadowDom_ pc)
               (bumpLater (sourceBlock_ xn) P sB))) xc = None /\
  parentOf (linkState P C (sourceBlock_ pc) (sourceBlock_ cc)
              (setShadowDom P (shadowDom_ pc)
                 (bumpLater (sourceBlock_ xn) P sB))) (sourceBlock_ xn) = None /\
  timers (linkState P C (sourceBlock_ pc) (sourceBlock_ cc)
            (setShadowDom P (shadowDom_ pc)
               (bumpLater (sourceBlock_ xn) P sB))) =
    (if recordUndo (events s)
     then [mkBump (sourceBlock_ xn) P (group (events s))] else [])
    ++ timers s /\
  template (linkState P C (sourceBlock_ pc) (sourceBlock_ cc)
              (setShadowDom P (shadowDom_ pc)
                 (bumpLater (sourceBlock_ xn) P sB))) P = shadowDom_ pc.
Proof using chk_typed.
  intros Hwf HP Hsup Ht Hxn Hob HxcC HPC Hblk Hdis.
  set (sA := setShadowDom P None s) in *.
  assert (WF sA) as HwfA by by apply WF_setShadowDom.
  assert (conns sA !! P = Some (withShadowDom None pc)) as HPA.
  { unfold sA, setShadowDom. rewrite lookup_updConn, decide_True by done.
    by rewrite HP. }
  destruct (WF_occupant _ _ _ _ Hwf HP Hsup Ht)
    as (xn' & ob' & Hxn' & _ & _ & _ & _ & _ & HxcP & _).
  assert (conns sA !! xc = Some xn) as HxnA.
  { unfold sA, setShadowDom. by rewrite lookup_updConn, decide_False. }
  destruct (disconnect_occupant canConnect chk_typed f P sA sB P _ xc xn
              HwfA HPA Hsup Ht HxnA (or_introl eq_refl) Hdis)
    as (_ & _ & HxcB & (t & HPB & _) & _ & HblB).
  destruct (disconnect_props canConnect chk_typed f P sA sB _ xc HwfA HPA Ht Hdis)
    as (on' & p' & i' & cp' & ci' & _ & _ & _ & _ & _ & _ & _ & _ & _ & _ & _
        & _ & _ & Htm).
  destruct (unrecorded_closed canConnect f) as (_ & _ & Kd & _).
  destruct (Kd _ _ _ Hdis) as [Hru _].
  destruct (groupKept_closed canConnect f) as (_ & _ & Gd & _).
  pose proof (Gd _ _ _ Hdis) as Hgk.
  split; [|split; [|split]].
  - unfold target. rewrite conns_relink, conns_bumpLater, HxcB by done. done.
  - unfold parentOf. rewrite blocks_relink, blocks_bumpLater by done.
    rewrite (HblB _ _ Hob), decide_True by done. done.
  - rewrite timers_linkState. simpl. unfold bumpLater. rewrite Hru.
    change (events sA) with (events s).
    change (timers sA) with (timers s) in Htm.
    destruct (recordUndo (events s)); simpl; [|exact Htm].
    rewrite Htm. f_equal. f_equal.
    destruct (group (events s)) as [g|] eqn:Hg.
    + destruct (Hgk g) as [Hg' _]; [exact Hg|]. exact Hg'.
    + by apply (disconnect_group_None canConnect f P sA sB).
  - unfold template. rewrite conns_linkState.
    rewrite (decide_False (P := C = P)) by done.
    rewrite (decide_True (P := P = P)) by done.
    unfold setShadowDom. rewrite lookup_updConn, decide_True by done.
    rewrite conns_bumpLater, HPB. done.
Qed.

(** An accepted [connect] that attaches the free connection [C] to the
    value input [P], called on either side, while [P] holds the ordinary
    block of [xc], whose search for a new home in the row of the block of
    [C] fails.  When the call returns, the displaced block has no target
    and no parent, one bump is scheduled for it, in the group of the call,
    exactly when undo recording is on, and [P] has the template it had. *)
Theorem homeless_orphan_is_bumped f A B s P C pc cc xc xn ob ws :
  (A = P /\ B = C) \/ (A = C /\ B = P) ->
  conns s !! P = Some pc -> conns s !! C = Some cc ->
  type pc = INPUT_VALUE -> targetConnection pc = Some xc ->
  targetConnection cc = None ->
  conns s !! xc = Some xn -> blocks s !! sourceBlock_ xn = Some ob ->
  isShadow ob = false ->
  getConnectionChecker s A = Ok ws -> canConnect ws s A B false = true ->
  WF s ->
  lastConnectionInRow canConnect f (setShadowDom P None (openGroup s))
    (sourceBlock_ cc) (sourceBlock_ xn) = Ok None ->
  forall s', connect canConnect (S (S f)) A B s = Ok s' ->
    linked s' P C /\
    target s' xc = None /\ parentOf s' (sourceBlock_ xn) = None /\
    timers s' =
      (if recordUndo (events s)
       then [mkBump (sourceBlock_ xn) P (group (events (openGroup s)))]
       else [])
      ++ timers s /\
    template s' P = template s P.
Proof using chk_typed.
  intros HAB HP HC Hty Ht HtC Hxn Hob Hsh Hws Hacc Hwf Hrow s' H.
  assert (isSuperior pc = true) as Hsup by (unfold isSuperior; by rewrite Hty).
  destruct (WF_occupant _ _ _ _ Hwf HP Hsup Ht)
    as (xn' & ob' & Hxn' & Hback & Hinf & Hoppx & Hob' & Hplug & HxcP & Hov & _).
  rewrite Hxn in Hxn'. injection Hxn' as <-.
  rewrite Hob in Hob'. injection Hob' as <-.
  specialize (Hov Hty).
  assert (xc <> C) as HxcC.
  { intros ->. rewrite HC in Hxn. injection Hxn as <-. congruence. }
  assert (targetConnection pc <> Some C) as Hnl by congruence.
  destruct (connect_dispatch canConnect chk_typed _ A B s s' P C pc cc ws
              Hwf HAB HP HC Hsup Hnl Hws Hacc H)
    as (Hopp & f' & s2 & Hf & Hc_ & ->).
  injection Hf as <-.
  assert (type cc = OUTPUT_VALUE) as HtyC.
  { rewrite Hty in Hopp. by destruct (type cc). }
  assert (P <> C) as HPC.
  { intros ->. rewrite HP in HC. injection HC as <-.
    by rewrite opposite_irrefl in Hopp. }
  assert (sourceBlock_ cc <> sourceBlock_ xn) as Hblk.
  { intros Heq. pose proof Hwf as [Hok _]. pose proof (Hok _ _ HC) as Hc.
    unfold connOk in Hc. rewrite Heq, Hob in Hc. destruct Hc as [Hc _].
    rewrite (Hc HtyC) in Hov. by injection Hov. }
  split.
  { apply connect__linked in Hc_. unfold linked, target in *.
    by rewrite conns_closeGroup. }
  apply connect__inv in Hc_ as (pc0 & cc0 & s1 & s3 & HP0 & HC0 & H1 & Hres & ->).
  rewrite conns_openGroup in HP0, HC0.
  rewrite HP in HP0. injection HP0 as <-. rewrite HC in HC0. injection HC0 as <-.
  unfold isConnected in H1. rewrite HtC in H1. injection H1 as <-.
  assert (forall pc0 xc0 xn0 ob0,
    conns (openGroup s) !! P = Some pc0 -> targetConnection pc0 = Some xc0 ->
    conns (openGroup s) !! xc0 = Some xn0 ->
    blocks (openGroup s) !! sourceBlock_ xn0 = Some ob0 ->
    pc0 = pc /\ xc0 = xc /\ xn0 = xn /\ ob0 = ob) as Huniq.
  { intros pc0 xc0 xn0 ob0 E1 E2 E3 E4.
    rewrite conns_openGroup in E1, E3. rewrite blocks_openGroup in E4.
    rewrite HP in E1. injection E1 as <-.
    rewrite Ht in E2. injection E2 as <-.
    rewrite Hxn in E3. injection E3 as <-.
    rewrite Hob in E4. by injection E4 as <-. }
  assert (recordUndo (events (openGroup s)) = recordUndo (events s)) as Hru.
  { unfold openGroup. by destruct (group (events s)). }
  destruct Hres as [pc0 HP0 Hfree
    | pc0 xc0 xn0 ob0 sB HP0 Ht0 Hxn0 Hob0 Hsh0 Hdisp
    | pc0 xc0 xn0 ob0 out slot sB HP0 Ht0 Hxn0 Hob0 Hsh0 Hty0 Hout Hrow' Hcon
    | pc0 xc0 xn0 ob0 prev slot ws0 sB HP0 Ht0 Hxn0 Hob0 Hsh0 Hty0 _ _ _ _ _
    | pc0 xc0 xn0 ob0 sB HP0 Ht0 Hxn0 Hob0 Hsh0 Hwhy Hdis].
  - rewrite conns_openGroup, HP in HP0. injection HP0 as <-. congruence.
  - destruct (Huniq _ _ _ _ HP0 Ht0 Hxn0 Hob0) as (-> & -> & -> & ->).
    congruence.
  - destruct (Huniq _ _ _ _ HP0 Ht0 Hxn0 Hob0) as (-> & -> & -> & ->).
    rewrite Hrow in Hrow'. discriminate.
  - destruct (Huniq _ _ _ _ HP0 Ht0 Hxn0 Hob0) as (-> & -> & -> & ->).
    congruence.
  - destruct (Huniq _ _ _ _ HP0 Ht0 Hxn0 Hob0) as (-> & -> & -> & ->).
    destruct (bump_state f P C (openGroup s) pc cc xc xn ob sB)
      as (K1 & K2 & K3 & K4); rewrite ?conns_openGroup, ?blocks_openGroup;
      try done.
    { by apply WF_openGroup. }
    rewrite Hru, timers_openGroup in K3.
    split; [unfold target in *; by rewrite conns_closeGroup|].
    split; [unfold parentOf in *; by rewrite blocks_closeGroup|].
    split; [by rewrite timers_closeGroup|].
    unfold template in *. rewrite conns_closeGroup, K4, HP. done.
Qed.

End Homeless.

Lemma homeless_orphan_is_bumped_witness :
  exists s', connect kindChecker 6 2 0 orphanState = Ok s' /\
    linked s' 0 2 /\ target s' 1 = None /\ parentOf s' 1 = None /\
    timers s' = [mkBump 1 0 (Some 0)].
Proof.
  assert (exists s', connect kindChecker 6 2 0 orphanState = Ok s') as [s' E]
    by (eexists; vm_compute; reflexivity).
  exists s'. split; [exact E|].
  destruct (homeless_orphan_is_bumped kindChecker kindChecker_typed 4 2 0
              orphanState 0 2 (linkedConn 0 INPUT_VALUE 1 None)
              (freeConn 2 OUTPUT_VALUE) 1 (linkedConn 1 OUTPUT_VALUE 0 None)
              (mkBlock (Some 1) None None [] (Some 0) (Some 0) false 0) 0
              (or_intror (conj eq_refl eq_refl))
              eq_refl eq_refl eq_refl eq_refl eq_refl eq_refl eq_refl eq_refl
              eq_refl eq_refl (WF_decide orphanState eq_refl) eq_refl s' E)
    as (K1 & K2 & K3 & K4 & _).
  split; [exact K1|]. split; [exact K2|]. split; [exact K3|]. exact K4.
Defined.

(** ** Either end, and twice *)

Lemma unlinkState_swap c o cb s :
  c <> o -> unlinkState c o cb s = unlinkState o c cb s.
Proof.
  intros Hne. unfold unlinkState. f_equal.
  unfold setParent, setTarget, updBlock, updConn. simpl. f_equal.
  apply map_eq. intros x. rewrite !lookup_alter.
  repeat case_decide; simplify_eq; done.
Qed.

Section EitherEnd.

Variable canConnect : Workspace -> State -> ConnId -> ConnId -> bool -> bool.

(** In a well-formed arena [disconnect] does the same on either end of a
    linked pair: it returns the same arena, or throws the same error. *)
Theorem disconnect_either_end f c o s :
  WF s -> target s c = Some o ->
  disconnect canConnect f c s = disconnect canConnect f o s.
Proof.
  intros Hwf Ht. pose proof Hwf as [_ Hlk]. unfold target in Ht.
  destruct (conns s !! c) as [cn|] eqn:Hc; [|done]. simpl in Ht.
  destruct (linkOk_elim _ _ _ _ (Hlk _ _ Hc) Ht) as (on & Ho & Hback & Hopp).
  assert (c <> o) as Hne.
  { intros <-. rewrite Hc in Ho. injection Ho as <-.
    by rewrite opposite_irrefl in Hopp. }
  pose proof (opposite_superior _ _ Hopp) as Hs.
  destruct f as [|f]; [done|]. rewrite !disconnect_unfold.
  rewrite (getConn_Some _ _ _ Hc), (getConn_Some _ _ _ Ho), !bind_ret_l.
  rewrite Ht, Hback. cbn [orThrow]. rewrite !bind_ret_l.
  rewrite (getConn_Some _ _ _ Hc), (getConn_Some _ _ _ Ho), !bind_ret_l.
  rewrite Ht, Hback, !bool_decide_eq_true_2 by done.
  destruct (isSuperior cn) eqn:Hsc.
  - assert (isSuperior on = false) as -> by by destruct (isSuperior on).
    rewrite (disconnectInternal__eq c _ _ (openGroup s) cn o on)
      by (by rewrite ?conns_openGroup).
    rewrite (disconnectInternal__eq o _ _ (openGroup s) on c cn)
      by (by rewrite ?conns_openGroup).
    by rewrite (unlinkState_swap c o).
  - assert (isSuperior on = true) as ->.
    { destruct (isSuperior on); [done|]. simpl in Hs. congruence. }
    rewrite (disconnectInternal__eq c _ _ (openGroup s) cn o on)
      by (by rewrite ?conns_openGroup).
    rewrite (disconnectInternal__eq o _ _ (openGroup s) on c cn)
      by (by rewrite ?conns_openGroup).
    by rewrite (unlinkState_swap c o).
Qed.

Hypothesis chk_typed : checkerTyped canConnect.

(** Disposing twice is disposing once: in a well-formed arena of
    well-shaped blocks, [dispose] on a connection that is superior or free
    leaves an arena on which a second [dispose] of that connection returns
    at once and changes nothing. *)
Theorem dispose_twice f g c s s' :
  WF s -> Shaped s -> disposable s c ->
  dispose canConnect (S f) c s = Ok s' ->
  dispose canConnect (S g) c s' = Ok s'.
Proof using chk_typed.
  intros Hwf Hsh (cn & Hc & Hk) H.
  assert (exists cn', conns s' !! c = Some cn' /\
            targetConnection cn' = None /\ disposed cn' = true)
    as (cn' & Hc' & Ht' & Hd').
  { destruct (targetConnection cn) as [xc|] eqn:Ht.
    - destruct Hk as [Hsup|Hk]; [|done].
      destruct (WF_occupant _ _ _ _ Hwf Hc Hsup Ht)
        as (xn & ob & Hxn & _ & _ & _ & Hob & _).
      destruct (dispose_returns canConnect f c s s' cn xc xn ob chk_typed Hwf Hsh
                  Hc Hsup Ht Hxn Hob H) as (_ & _ & Htg & _ & Hdi & _).
      unfold target in Htg. unfold disposedAt in Hdi.
      destruct (conns s' !! c) as [cn'|]; [|done]. exists cn'. by repeat split.
    - rewrite dispose_unfold, (getConn_Some _ _ _ Hc), bind_ret_l in H.
      unfold isConnected in H. rewrite Ht in H. simpl in H. injection H as <-.
      exists (withDisposed true cn). split; [|done].
      unfold setDisposed. rewrite lookup_updConn, decide_True by done.
      by rewrite Hc. }
  rewrite dispose_unfold, (getConn_Some _ _ _ Hc'), bind_ret_l.
  unfold isConnected. rewrite Ht'. simpl. f_equal.
  destruct s' as [cs bs es ts]. unfold setDisposed, updConn. simpl in *.
  f_equal. apply map_eq. intros x. rewrite lookup_alter.
  destruct (decide (c = x)) as [<-|]; [|done].
  rewrite Hc'. simpl. f_equal. destruct cn'. simpl in *. by subst.
Qed.

End EitherEnd.

Lemma disconnect_either_end_witness :
  disconnect kindChecker 5 0 stackState = disconnect kindChecker 5 1 stackState.
Proof.
  exact (disconnect_either_end kindChecker 5 0 1 stackState
           (WF_decide stackState eq_refl) eq_refl).
Defined.

Lemma dispose_twice_witness :
  exists s', dispose kindChecker 6 0 nestState = Ok s' /\
    dispose kindChecker 3 0 s' = Ok s'.
Proof.
  destruct (dispose kindChecker 6 0 nestState) as [s'| |] eqn:E;
    [|vm_compute in E; discriminate..].
  exists s'. split; [reflexivity|].
  apply (dispose_twice kindChecker kindChecker_typed 5 2 0 nestState s'
           (WF_decide nestState eq_refl) (Shaped_decide nestState eq_refl)).
  - exists (linkedConn 0 INPUT_VALUE 1 (Some (mkDom PlugOutput false 9))).
    split; [|by left]. vm_compute. reflexivity.
  - exact E.
Defined.
